(** * hisweb: the demo-fallback data layer

    A shallow embedding of the dual-path data access core of the web
    application (src/web/src/lib: runtime.ts, demo-store.ts, events.ts,
    sources.ts, api.ts, db.ts; src/web/scripts/import-seed.mjs) together
    with the properties its specification states about it, and of what
    stands around it: the validation of the admin bodies, the details of an
    event and of a timeline (lib/timelines.ts), the layout of the event
    stream and timeline pages, and scripts/seed-coverage.mjs, with further
    properties of that code.

    Conventions.
    - A JavaScript string is a [string]: a sequence of code units, each an
      [ascii] (so the model covers text whose code units are below 256).
    - A JavaScript number is a [Z] (the code only handles integers: scores,
      ranks, page numbers, lengths).
    - [undefined]/[null] for an optional field is [None].
    - A rejected promise / thrown exception is the [Rejected] outcome. *)

From Stdlib Require Import ZArith List Bool Ascii String Lia Arith Sorted Permutation
  DecimalString DecimalZ.
Import ListNotations.
Set Warnings "-register-all".
Open Scope string_scope.
Open Scope Z_scope.

(* ================================================================== *)
(** ** JavaScript built-ins used by the code *)
(* ================================================================== *)

Module Js.

Definition code (c : ascii) : Z := Z.of_N (N_of_ascii c).
Definition chr (z : Z) : ascii := ascii_of_N (Z.to_N z).

Definition is_digit (c : ascii) : bool := (48 <=? code c) && (code c <=? 57).
Definition is_lower (c : ascii) : bool := (97 <=? code c) && (code c <=? 122).
Definition is_upper (c : ascii) : bool := (65 <=? code c) && (code c <=? 90).
Definition is_alnum_lower (c : ascii) : bool := is_lower c || is_digit c.

(** [String.prototype.toLowerCase] on code units below 256: A-Z and the
    Latin-1 capitals U+00C0..U+00DE (except the multiplication sign U+00D7)
    move up by 32, everything else is unchanged. *)
Definition lower_char (c : ascii) : ascii :=
  let n := code c in
  if is_upper c then chr (n + 32)
  else if (192 <=? n) && (n <=? 222) && negb (n =? 215) then chr (n + 32)
  else c.

Fixpoint toLowerCase (s : string) : string :=
  match s with
  | EmptyString => EmptyString
  | String c s' => String (lower_char c) (toLowerCase s')
  end.

(** [s.startsWith(p)] *)
Definition startsWith (s p : string) : bool := String.prefix p s.

(** [hay.includes(needle)] *)
Fixpoint includes (hay needle : string) : bool :=
  String.prefix needle hay ||
  match hay with
  | EmptyString => false
  | String _ hay' => includes hay' needle
  end.

(** [s.slice(from)] and [s.slice(from, to)] for non-negative indices. *)
Fixpoint slice_from (s : string) (from : nat) : string :=
  match from, s with
  | O, _ => s
  | S n, String _ s' => slice_from s' n
  | S _, EmptyString => EmptyString
  end.

Fixpoint take (s : string) (n : nat) : string :=
  match n, s with
  | S n', String c s' => String c (take s' n')
  | _, _ => EmptyString
  end.

Definition slice (s : string) (from to : nat) : string :=
  take (slice_from s from) (to - from).

(** White space removed by [String.prototype.trim], among code units below
    256: TAB, LF, VT, FF, CR, SPACE and NBSP. *)
Definition is_space (c : ascii) : bool :=
  let n := code c in
  ((9 <=? n) && (n <=? 13)) || (n =? 32) || (n =? 160).

Fixpoint trimStart (s : string) : string :=
  match s with
  | String c s' => if is_space c then trimStart s' else s
  | EmptyString => EmptyString
  end.

Fixpoint trimEnd (s : string) : string :=
  match s with
  | EmptyString => EmptyString
  | String c s' =>
      match trimEnd s' with
      | EmptyString => if is_space c then EmptyString else String c EmptyString
      | t => String c t
      end
  end.

Definition trim (s : string) : string := trimEnd (trimStart s).

(** Relational comparison of strings ([<], [>=], ...) is the order of the
    code units. *)
Definition str_lt (a b : string) : bool := String.ltb a b.
Definition str_le (a b : string) : bool := String.leb a b.

(** [a.localeCompare(b)], as a sign.  The code applies it to calendar dates
    (digits and hyphens) and to slugs (lower-case letters, digits, hyphens);
    on such strings the collation order is the order of the code units,
    which is what the model takes it to be. *)
Definition localeCompare (a b : string) : Z :=
  match String.compare a b with
  | Lt => -1
  | Eq => 0
  | Gt => 1
  end.

(** [Array.prototype.sort(cmp)]: a stable sort.  For a comparator that is a
    consistent order every stable sort returns the same array; the model is
    the insertion sort, placing an element in front of the first one that
    does not come before it. *)
Section Sort.
Context {A : Type} (cmp : A -> A -> Z).

Fixpoint sort_insert (x : A) (l : list A) : list A :=
  match l with
  | [] => [x]
  | y :: l' => if cmp x y <=? 0 then x :: y :: l' else y :: sort_insert x l'
  end.

Fixpoint sort (l : list A) : list A :=
  match l with
  | [] => []
  | x :: l' => sort_insert x (sort l')
  end.

End Sort.

(** [Array.prototype.sort()] without comparator, on strings. *)
Definition sort_strings (l : list string) : list string :=
  sort (fun a b => match String.compare a b with Lt => -1 | Eq => 0 | Gt => 1 end) l.

(** [Array.prototype.slice(start, end)]: a negative index counts from the
    end, and both are clamped to the array. *)
Definition rel_index (len i : Z) : Z :=
  if i <? 0 then Z.max (len + i) 0 else Z.min i len.

Definition array_slice {A} (l : list A) (start end_ : Z) : list A :=
  let len := Z.of_nat (List.length l) in
  let k := rel_index len start in
  let fin := rel_index len end_ in
  firstn (Z.to_nat (fin - k)) (skipn (Z.to_nat k) l).

(** [Math.ceil(a / b)] for integers, [b] not zero *)
Definition ceil_div (a b : Z) : Z := - ((- a) / b).

(** [String(n)] for an integer *)
Definition number_to_string (n : Z) : string := NilZero.string_of_int (Z.to_int n).

(** [Array.prototype.find] *)
Definition find {A} (p : A -> bool) (l : list A) : option A := List.find p l.

(** A [Map] keyed by strings.  It keeps its entries in insertion order;
    [set] on a key already present replaces the value where it stands. *)
Definition Map (V : Type) := list (string * V).

Fixpoint map_get {V} (m : Map V) (k : string) : option V :=
  match m with
  | [] => None
  | (k', v) :: m' => if String.eqb k' k then Some v else map_get m' k
  end.

Definition map_has {V} (m : Map V) (k : string) : bool :=
  match map_get m k with Some _ => true | None => false end.

Fixpoint map_set {V} (m : Map V) (k : string) (v : V) : Map V :=
  match m with
  | [] => [(k, v)]
  | (k', v') :: m' =>
      if String.eqb k' k then (k, v) :: m' else (k', v') :: map_set m' k v
  end.

Definition map_values {V} (m : Map V) : list V := List.map snd m.
Definition map_keys {V} (m : Map V) : list string := List.map fst m.

(** [new Map(entries)] *)
Definition map_of_entries {V} (entries : list (string * V)) : Map V :=
  fold_left (fun m e => map_set m (fst e) (snd e)) entries [].

End Js.

(* ================================================================== *)
(** ** node:crypto: SHA-256 with hexadecimal digest (FIPS 180-4) *)
(* ================================================================== *)

Module Sha256.

Definition mask32 (x : Z) : Z := Z.land x 4294967295.
Definition add32 (x y : Z) : Z := mask32 (x + y).
Definition rotr (n x : Z) : Z :=
  Z.lor (Z.shiftr x n) (mask32 (Z.shiftl x (32 - n))).
Definition not32 (x : Z) : Z := Z.lxor x 4294967295.

Definition Ch (x y z : Z) : Z := Z.lxor (Z.land x y) (Z.land (not32 x) z).
Definition Maj (x y z : Z) : Z :=
  Z.lxor (Z.lxor (Z.land x y) (Z.land x z)) (Z.land y z).
Definition bsig0 (x : Z) : Z := Z.lxor (Z.lxor (rotr 2 x) (rotr 13 x)) (rotr 22 x).
Definition bsig1 (x : Z) : Z := Z.lxor (Z.lxor (rotr 6 x) (rotr 11 x)) (rotr 25 x).
Definition ssig0 (x : Z) : Z := Z.lxor (Z.lxor (rotr 7 x) (rotr 18 x)) (Z.shiftr x 3).
Definition ssig1 (x : Z) : Z := Z.lxor (Z.lxor (rotr 17 x) (rotr 19 x)) (Z.shiftr x 10).

(** The constants of the standard: the first 32 bits of the fractional parts
    of the cube roots (round constants) and square roots (initial hash value)
    of the first primes. *)
Definition primes : list Z :=
  [2; 3; 5; 7; 11; 13; 17; 19; 23; 29; 31; 37; 41; 43; 47; 53; 59; 61; 67; 71; 73; 79;
   83; 89; 97; 101; 103; 107; 109; 113; 127; 131; 137; 139; 149; 151; 157; 163; 167;
   173; 179; 181; 191; 193; 197; 199; 211; 223; 227; 229; 233; 239; 241; 251; 257; 263;
   269; 271; 277; 281; 283; 293; 307; 311].

(** The integer cube root of [n], one bit at a time from bit [bits] down. *)
Fixpoint cube_root (bits : nat) (n acc : Z) : Z :=
  match bits with
  | O => acc
  | S b =>
      let candidate := acc + Z.shiftl 1 (Z.of_nat b) in
      cube_root b n (if candidate * candidate * candidate <=? n then candidate else acc)
  end.

Definition frac_cube_root (p : Z) : Z := mask32 (cube_root 36 (Z.shiftl p 96) 0).
Definition frac_square_root (p : Z) : Z := mask32 (Z.sqrt (Z.shiftl p 64)).

Definition K : list Z := Eval vm_compute in List.map frac_cube_root primes.

(** The eight working words. *)
Record state := mkState { ha : Z; hb : Z; hc : Z; hd : Z; he : Z; hf : Z; hg : Z; hh : Z }.

Definition H0 : state :=
  Eval vm_compute in
    mkState (frac_square_root 2) (frac_square_root 3) (frac_square_root 5)
            (frac_square_root 7) (frac_square_root 11) (frac_square_root 13)
            (frac_square_root 17) (frac_square_root 19).

(** [update(seed)] hashes the UTF-8 encoding of the string: one byte for a
    code unit below 128, two for the others below 256. *)
Fixpoint utf8 (s : string) : list Z :=
  match s with
  | EmptyString => []
  | String c s' =>
      let n := Js.code c in
      if n <? 128 then n :: utf8 s'
      else Z.lor 192 (Z.shiftr n 6) :: Z.lor 128 (Z.land n 63) :: utf8 s'
  end.

(** Padding: a one bit, zeros up to 56 modulo 64, the bit length on 8 bytes. *)
Definition be_bytes (width : nat) (x : Z) : list Z :=
  List.map (fun i => Z.land (Z.shiftr x (8 * Z.of_nat i)) 255) (rev (seq 0 width)).

Definition pad (msg : list Z) : list Z :=
  let len := Z.of_nat (List.length msg) in
  let zeros := Z.to_nat ((55 - len) mod 64) in
  msg ++ [128] ++ repeat 0 zeros ++ be_bytes 8 (8 * len).

Fixpoint words (bytes : list Z) : list Z :=
  match bytes with
  | b0 :: b1 :: b2 :: b3 :: rest =>
      (Z.shiftl b0 24 + Z.shiftl b1 16 + Z.shiftl b2 8 + b3) :: words rest
  | _ => []
  end.

Fixpoint blocks (fuel : nat) (ws : list Z) : list (list Z) :=
  match fuel, ws with
  | S fuel', _ :: _ => firstn 16 ws :: blocks fuel' (skipn 16 ws)
  | _, _ => []
  end.

(** Message schedule, most recent word first while it is being extended. *)
Fixpoint extend (n : nat) (w : list Z) : list Z :=
  match n with
  | O => w
  | S n' =>
      let x := add32 (add32 (ssig1 (nth 1 w 0)) (nth 6 w 0))
                     (add32 (ssig0 (nth 14 w 0)) (nth 15 w 0)) in
      extend n' (x :: w)
  end.

Definition schedule (block : list Z) : list Z := rev (extend 48 (rev block)).

Definition round (s : state) (kw : Z * Z) : state :=
  let t1 := add32 (add32 (add32 (hh s) (bsig1 (he s))) (Ch (he s) (hf s) (hg s)))
                  (add32 (fst kw) (snd kw)) in
  let t2 := add32 (bsig0 (ha s)) (Maj (ha s) (hb s) (hc s)) in
  mkState (add32 t1 t2) (ha s) (hb s) (hc s) (add32 (hd s) t1) (he s) (hf s) (hg s).

Definition compress (h : state) (block : list Z) : state :=
  let s := fold_left round (combine K (schedule block)) h in
  mkState (add32 (ha h) (ha s)) (add32 (hb h) (hb s)) (add32 (hc h) (hc s))
          (add32 (hd h) (hd s)) (add32 (he h) (he s)) (add32 (hf h) (hf s))
          (add32 (hg h) (hg s)) (add32 (hh h) (hh s)).

Definition hash (msg : list Z) : state :=
  let ws := words (pad msg) in
  fold_left compress (blocks (List.length ws) ws) H0.

(** [digest("hex")]: lower-case hexadecimal, eight digits per word. *)
Definition hex_digit (n : Z) : ascii :=
  match n with
  | 0 => "0" | 1 => "1" | 2 => "2" | 3 => "3" | 4 => "4" | 5 => "5" | 6 => "6"
  | 7 => "7" | 8 => "8" | 9 => "9" | 10 => "a" | 11 => "b" | 12 => "c"
  | 13 => "d" | 14 => "e" | _ => "f"
  end%char.

Definition nibble (w : Z) (i : Z) : ascii := hex_digit (Z.land (Z.shiftr w (4 * i)) 15).

Definition word_hex (w : Z) (rest : string) : string :=
  String (nibble w 7) (String (nibble w 6) (String (nibble w 5) (String (nibble w 4)
  (String (nibble w 3) (String (nibble w 2) (String (nibble w 1) (String (nibble w 0) rest))))))).

Definition state_hex (s : state) : string :=
  word_hex (ha s) (word_hex (hb s) (word_hex (hc s) (word_hex (hd s)
  (word_hex (he s) (word_hex (hf s) (word_hex (hg s) (word_hex (hh s) ""))))))).

Definition sha256_hex (s : string) : string := state_hex (hash (utf8 s)).

End Sha256.

(* ================================================================== *)
(** ** lib/demo-store.ts: the in-memory snapshot built from the seed *)
(* ================================================================== *)

Module DemoStore.

Inductive DemoSourceType := archive | official | news | research | dataset | other.
Inductive DemoEventStatus := draft | review | published | archived.

Definition status_eqb (a b : DemoEventStatus) : bool :=
  match a, b with
  | draft, draft | review, review | published, published | archived, archived => true
  | _, _ => false
  end.

Record SeedSource := {
  ss_source_name : string;
  ss_source_url : string;
  ss_source_type : option string;
  ss_publisher : option string;
  ss_publication_or_snapshot_date : option string;
  ss_access_date : option string;
  ss_rights_note : option string;
  ss_notes_on_reliability : option string }.

Record SeedEvent := {
  se_slug : option string;
  se_title : string;
  se_event_date : string;
  se_region : string;
  se_category : string;
  se_summary : string;
  se_impact : string;
  se_importance_score : Z;
  se_confidence_score : option Z;
  se_status : option DemoEventStatus }.

Record SeedEventSource := {
  sl_event_slug : string;
  sl_source_url : string;
  sl_relevance_rank : option Z;
  sl_quote_excerpt : option string;
  sl_citation_note : option string }.

Record SeedPayload := {
  sp_sources : option (list SeedSource);
  sp_events : option (list SeedEvent);
  sp_event_sources : option (list SeedEventSource) }.

Record DemoSourceRecord := {
  src_id : string;
  src_source_name : string;
  src_source_url : string;
  src_source_type : DemoSourceType;
  src_publisher : option string;
  src_publication_or_snapshot_date : option string;
  src_access_date : option string;
  src_rights_note : option string;
  src_notes_on_reliability : option string;
  src_created_at : string;
  src_updated_at : string }.

Record DemoEventRecord := {
  evt_id : string;
  evt_slug : string;
  evt_title : string;
  evt_event_date : string;
  evt_region : string;
  evt_category : string;
  evt_summary : string;
  evt_impact : string;
  evt_importance_score : Z;
  evt_confidence_score : Z;
  evt_status : DemoEventStatus;
  evt_published_at : option string;
  evt_created_at : string;
  evt_updated_at : string }.

Record DemoEventSourceRecord := {
  es_event_id : string;
  es_source_id : string;
  es_quote_excerpt : option string;
  es_citation_note : option string;
  es_relevance_rank : Z }.

Record DemoTimelineRecord := {
  tl_id : string;
  tl_title : string;
  tl_slug : string;
  tl_description : option string;
  tl_created_at : string;
  tl_updated_at : string }.

Record DemoTimelineEventRecord := {
  te_timeline_id : string;
  te_event_id : string;
  te_sequence_no : Z }.

Record DemoTagRecord := {
  tag_id : string;
  tag_slug : string;
  tag_name : string }.

Record DemoEventTagRecord := {
  et_event_id : string;
  et_tag_id : string }.

Record DemoDataset := {
  sources : list DemoSourceRecord;
  events : list DemoEventRecord;
  eventSources : list DemoEventSourceRecord;
  timelines : list DemoTimelineRecord;
  timelineEvents : list DemoTimelineEventRecord;
  tags : list DemoTagRecord;
  eventTags : list DemoEventTagRecord }.

(** [stableUuid]: five hyphen-separated slices of the SHA-256 digest, with
    the constant characters 4 and a in front of the third and fourth. *)
Definition stableUuid (seed : string) : string :=
  let hex := Sha256.sha256_hex seed in
  Js.slice hex 0 8 ++ "-" ++ Js.slice hex 8 12 ++ "-4" ++ Js.slice hex 13 16
    ++ "-a" ++ Js.slice hex 17 20 ++ "-" ++ Js.slice hex 20 32.
Arguments stableUuid : simpl never.

(** [.replace(/[^a-z0-9]+/g, "-")] *)
Fixpoint replace_non_alnum_runs (s : string) (in_run : bool) : string :=
  match s with
  | EmptyString => EmptyString
  | String c s' =>
      if Js.is_alnum_lower c then String c (replace_non_alnum_runs s' false)
      else if in_run then replace_non_alnum_runs s' true
      else String "-" (replace_non_alnum_runs s' true)
  end.

Definition is_hyphen (c : ascii) : bool := Js.code c =? 45.

(** [.replace(/^-+|-+$/g, "")] *)
Fixpoint strip_leading_hyphens (s : string) : string :=
  match s with
  | String c s' => if is_hyphen c then strip_leading_hyphens s' else s
  | EmptyString => EmptyString
  end.

Fixpoint strip_trailing_hyphens (s : string) : string :=
  match s with
  | EmptyString => EmptyString
  | String c s' =>
      match strip_trailing_hyphens s' with
      | EmptyString => if is_hyphen c then EmptyString else String c EmptyString
      | t => String c t
      end
  end.

(** [.replace(/-+/g, "-")] *)
Fixpoint collapse_hyphens (s : string) (in_run : bool) : string :=
  match s with
  | EmptyString => EmptyString
  | String c s' =>
      if is_hyphen c then
        if in_run then collapse_hyphens s' true
        else String c (collapse_hyphens s' true)
      else String c (collapse_hyphens s' false)
  end.

(** [s || fallback] on strings: the empty string is the only falsy one. *)
Definition or_default (s fallback : string) : string :=
  if String.eqb s "" then fallback else s.

Section Build.

(** [input.normalize("NFKD").replace(/[\u0300-\u036f]/g, "")]: the engine's
    Unicode decomposition followed by the removal of combining marks.  It is
    the identity on ASCII text; the development holds for whatever it does
    elsewhere. *)
Variable normalizeNFKD : string -> string.

Definition normalizeSlug (input : string) : string :=
  let normalized :=
    collapse_hyphens
      (strip_trailing_hyphens (strip_leading_hyphens
        (replace_non_alnum_runs (Js.toLowerCase (normalizeNFKD input)) false)))
      false in
  or_default normalized "record".

Definition normalizeSourceType (input : option string) : DemoSourceType :=
  match input with
  | Some t =>
      if String.eqb t "archive" then archive
      else if String.eqb t "official" then official
      else if String.eqb t "news" then news
      else if String.eqb t "research" then research
      else if String.eqb t "dataset" then dataset
      else other
  | None => other
  end.

Definition toIsoDate (dateString : string) : string := dateString ++ "T00:00:00.000Z".

Definition sortByEventDateAsc (a b : DemoEventRecord) : Z :=
  if Js.str_lt (evt_event_date a) (evt_event_date b) then -1
  else if Js.str_lt (evt_event_date b) (evt_event_date a) then 1
  else Js.localeCompare (evt_slug a) (evt_slug b).

Definition is_published (e : DemoEventRecord) : bool := status_eqb (evt_status e) published.

Definition mkTimeline (slug title description now : string) : DemoTimelineRecord :=
  {| tl_id := stableUuid ("timeline:" ++ slug);
     tl_title := title;
     tl_slug := slug;
     tl_description := Some description;
     tl_created_at := now;
     tl_updated_at := now |}.

(** [list.forEach((event, index) => timelineEvents.push({...}))] *)
Fixpoint push_members (timeline : DemoTimelineRecord) (members : list DemoEventRecord)
    (index : Z) : list DemoTimelineEventRecord :=
  match members with
  | [] => []
  | event :: rest =>
      {| te_timeline_id := tl_id timeline;
         te_event_id := evt_id event;
         te_sequence_no := index + 1 |} :: push_members timeline rest (index + 1)
  end.

Definition crisis_words : list string :=
  ["crash"; "crisis"; "stress"; "banking"; "default"; "rescue"; "failure"].

Definition is_crisis (event : DemoEventRecord) : bool :=
  let haystack := Js.toLowerCase (evt_title event ++ " " ++ evt_category event) in
  existsb (Js.includes haystack) crisis_words.

Definition slug_starts (p : string) (event : DemoEventRecord) : bool :=
  Js.startsWith (evt_slug event) p.

Definition buildTimelines (events : list DemoEventRecord) (now : string)
    : list DemoTimelineRecord * list DemoTimelineEventRecord :=
  let publishedEvents := Js.sort sortByEventDateAsc (filter is_published events) in
  let primaryTimeline :=
    mkTimeline "global-financial-turning-points" "Global Financial Turning Points"
      "Major events that reshaped financial markets and policy regimes." now in
  let crisisTimeline :=
    mkTimeline "crisis-and-stabilization" "Crisis and Stabilization Cycle"
      "Episodes of stress and the policy responses that followed." now in
  let coldWarTimeline :=
    mkTimeline "us-soviet-cold-war" "US-Soviet Cold War (1946-1991)"
      "Key geopolitical, military, and policy milestones in the U.S.-Soviet Cold War." now in
  let chinaUsTimeline :=
    mkTimeline "china-us-since-1900" "China-U.S. Relations Since 1900"
      "Major diplomatic, military, trade, and technology turning points in China-U.S. relations."
      now in
  let chinaSovietTimeline :=
    mkTimeline "china-soviet-relations" "China-Soviet Relations (1949-1991)"
      "Alliance, split, border crises, and normalization milestones in China-Soviet relations."
      now in
  let chinaWarTimeline :=
    mkTimeline "china-wars-since-1900" "Wars Involving China Since 1900"
      "Major interstate and cross-strait conflict milestones involving China after 1900." now in
  let usWarTimeline :=
    mkTimeline "us-wars-since-1900" "Wars Involving the United States Since 1900"
      "Major war-entry, escalation, intervention, and withdrawal milestones involving the United States."
      now in
  let ccpTimeline :=
    mkTimeline "ccp-history-since-1921" "CPC-Centered Timeline Since 1921"
      "Major organizational, political, and policy milestones centered on the Communist Party of China."
      now in
  let worldWarTwoTimeline :=
    mkTimeline "world-war-ii" "World War II Timeline (1939-1945)"
      "Key military, diplomatic, and war-ending milestones in World War II." now in
  let crisisEvents := filter is_crisis publishedEvents in
  let coldWarEvents := filter (slug_starts "cold-war-") publishedEvents in
  let chinaUsEvents := filter (slug_starts "china-us-") publishedEvents in
  let chinaSovietEvents := filter (slug_starts "china-soviet-") publishedEvents in
  let chinaWarEvents := filter (slug_starts "china-war-") publishedEvents in
  let usWarEvents := filter (slug_starts "us-war-") publishedEvents in
  let ccpEvents := filter (slug_starts "ccp-") publishedEvents in
  let worldWarTwoEvents := filter (slug_starts "wwii-") publishedEvents in
  let timelineEvents :=
    (push_members primaryTimeline publishedEvents 0
     ++ push_members crisisTimeline crisisEvents 0
     ++ push_members coldWarTimeline coldWarEvents 0
     ++ push_members chinaUsTimeline chinaUsEvents 0
     ++ push_members chinaSovietTimeline chinaSovietEvents 0
     ++ push_members chinaWarTimeline chinaWarEvents 0
     ++ push_members usWarTimeline usWarEvents 0
     ++ push_members ccpTimeline ccpEvents 0
     ++ push_members worldWarTwoTimeline worldWarTwoEvents 0)%list in
  ([primaryTimeline; crisisTimeline; coldWarTimeline; chinaUsTimeline;
    chinaSovietTimeline; chinaWarTimeline; usWarTimeline; ccpTimeline;
    worldWarTwoTimeline],
   timelineEvents).

(** The loop of [buildTags]: the state is the map from category slug to tag
    and the array of cross-references pushed so far. *)
Definition buildTags_step (st : Js.Map DemoTagRecord * list DemoEventTagRecord)
    (event : DemoEventRecord) : Js.Map DemoTagRecord * list DemoEventTagRecord :=
  let '(categoryToTag, eventTags) := st in
  let slug := normalizeSlug (evt_category event) in
  let categoryToTag :=
    if negb (Js.map_has categoryToTag slug) then
      Js.map_set categoryToTag slug
        {| tag_id := stableUuid ("tag:" ++ slug); tag_slug := slug;
           tag_name := evt_category event |}
    else categoryToTag in
  match Js.map_get categoryToTag slug with
  | Some tag =>
      (categoryToTag,
       (eventTags ++ [{| et_event_id := evt_id event; et_tag_id := tag_id tag |}])%list)
  | None => (categoryToTag, eventTags)
  end.

Definition buildTags (events : list DemoEventRecord)
    : list DemoTagRecord * list DemoEventTagRecord :=
  let '(categoryToTag, eventTags) := fold_left buildTags_step events ([], []) in
  (Js.map_values categoryToTag, eventTags).

Definition or_else {A} (o : option A) (d : A) : A :=
  match o with Some a => a | None => d end.

Definition build_source (now : string) (source : SeedSource) : DemoSourceRecord :=
  {| src_id := stableUuid ("source:" ++ ss_source_url source);
     src_source_name := ss_source_name source;
     src_source_url := ss_source_url source;
     src_source_type := normalizeSourceType (ss_source_type source);
     src_publisher := ss_publisher source;
     src_publication_or_snapshot_date := ss_publication_or_snapshot_date source;
     src_access_date := ss_access_date source;
     src_rights_note := ss_rights_note source;
     src_notes_on_reliability := ss_notes_on_reliability source;
     src_created_at := now;
     src_updated_at := now |}.

Definition build_event (now : string) (event : SeedEvent) : DemoEventRecord :=
  let slug := normalizeSlug (or_else (se_slug event) (se_title event)) in
  let status := or_else (se_status event) draft in
  {| evt_id := stableUuid ("event:" ++ slug);
     evt_slug := slug;
     evt_title := se_title event;
     evt_event_date := se_event_date event;
     evt_region := se_region event;
     evt_category := se_category event;
     evt_summary := se_summary event;
     evt_impact := se_impact event;
     evt_importance_score := se_importance_score event;
     evt_confidence_score := or_else (se_confidence_score event) 3;
     evt_status := status;
     evt_published_at :=
       if status_eqb status published then Some (toIsoDate (se_event_date event)) else None;
     evt_created_at := now;
     evt_updated_at := now |}.

(** [!id]: an id that is missing or the empty string. *)
Definition falsy_id (o : option string) : bool :=
  match o with
  | Some id => String.eqb id ""
  | None => true
  end.

Definition build_link (eventIdBySlug sourceIdByUrl : Js.Map string)
    (link : SeedEventSource) : option DemoEventSourceRecord :=
  let eventId := Js.map_get eventIdBySlug (normalizeSlug (sl_event_slug link)) in
  let sourceId := Js.map_get sourceIdByUrl (sl_source_url link) in
  if falsy_id eventId || falsy_id sourceId then None
  else Some {| es_event_id := or_else eventId "";
               es_source_id := or_else sourceId "";
               es_quote_excerpt := sl_quote_excerpt link;
               es_citation_note := sl_citation_note link;
               es_relevance_rank := or_else (sl_relevance_rank link) 1 |}.

(** [.map(...).filter(row => row !== null)] *)
Fixpoint keep_some {A} (l : list (option A)) : list A :=
  match l with
  | [] => []
  | Some a :: l' => a :: keep_some l'
  | None :: l' => keep_some l'
  end.

(** [buildDataset], from the parsed seed file; [now] and [now_timelines] are
    the two readings of the clock (in [buildDataset] and in
    [buildTimelines]). *)
Definition buildDataset (payload : SeedPayload) (now now_timelines : string) : DemoDataset :=
  let sources := List.map (build_source now) (or_else (sp_sources payload) []) in
  let events := List.map (build_event now) (or_else (sp_events payload) []) in
  let eventIdBySlug :=
    Js.map_of_entries (List.map (fun event => (evt_slug event, evt_id event)) events) in
  let sourceIdByUrl :=
    Js.map_of_entries (List.map (fun source => (src_source_url source, src_id source)) sources) in
  let eventSources :=
    keep_some (List.map (build_link eventIdBySlug sourceIdByUrl)
                        (or_else (sp_event_sources payload) [])) in
  let '(timelines, timelineEvents) := buildTimelines events now_timelines in
  let '(tags, eventTags) := buildTags events in
  {| sources := sources;
     events := events;
     eventSources := eventSources;
     timelines := timelines;
     timelineEvents := timelineEvents;
     tags := tags;
     eventTags := eventTags |}.

End Build.

End DemoStore.

(* ================================================================== *)
(** ** lib/runtime.ts: the availability classifier *)
(* ================================================================== *)

Module Runtime.

(** A thrown value: a primitive, or a reference to an object of the heap.
    Objects are shared and may refer to each other in cycles, which is what
    the classifier's set of seen values guards against. *)
Inductive value :=
| VUndefined
| VNull
| VBool (b : bool)
| VNum (n : Z)
| VStr (s : string)
| VRef (addr : nat).

(** The properties of an object that the classifier reads, whether the object
    is an [Error] instance, and its elements when it is an [Array]. *)
Record object := {
  is_Error : bool;
  o_message : value;
  o_code : value;
  o_cause : value;
  o_errors : value;
  o_elements : option (list value) }.

Definition heap := list object.

Definition plain_object : object :=
  {| is_Error := false; o_message := VUndefined; o_code := VUndefined;
     o_cause := VUndefined; o_errors := VUndefined; o_elements := None |}.

Definition deref (h : heap) (addr : nat) : object := nth addr h plain_object.

(** [!v] is false *)
Definition truthy (v : value) : bool :=
  match v with
  | VUndefined | VNull => false
  | VBool b => b
  | VNum n => negb (n =? 0)
  | VStr s => negb (String.eqb s "")
  | VRef _ => true
  end.

(** Membership in a [Set] compares primitives by value and objects by
    identity. *)
Definition value_eqb (a b : value) : bool :=
  match a, b with
  | VUndefined, VUndefined | VNull, VNull => true
  | VBool x, VBool y => Bool.eqb x y
  | VNum x, VNum y => x =? y
  | VStr x, VStr y => String.eqb x y
  | VRef x, VRef y => Nat.eqb x y
  | _, _ => false
  end.

Definition seen_has (seen : list value) (v : value) : bool := existsb (value_eqb v) seen.

(** The case folding of a regular expression with the [i] flag, for a
    pattern of ASCII characters: only A-Z and a-z are identified. *)
Definition fold_char (c : ascii) : ascii :=
  if Js.is_upper c then Js.chr (Js.code c + 32) else c.

Fixpoint fold_case (s : string) : string :=
  match s with
  | EmptyString => EmptyString
  | String c s' => String (fold_char c) (fold_case s')
  end.

(** [/literal/i.test(s)] *)
Definition test_literal_i (literal s : string) : bool :=
  Js.includes (fold_case s) (fold_case literal).

(** The string a value is read as where a string is expected (a regular
    expression handed a value that is not a string).  An object is taken to
    print as any plain object does. *)
Definition to_string (v : value) : string :=
  match v with
  | VUndefined => "undefined"
  | VNull => "null"
  | VBool true => "true"
  | VBool false => "false"
  | VNum n => Js.number_to_string n
  | VStr s => s
  | VRef _ => "[object Object]"
  end.

Definition DB_UNAVAILABLE_PATTERNS : list string :=
  [ "DATABASE_URL is not set";
    "ECONNREFUSED";
    "ETIMEDOUT";
    "ENOTFOUND";
    "connection terminated";
    "could not connect to server";
    "failed to connect" ].

(** [process.env.DATABASE_URL] set and not blank *)
Definition hasDatabaseConfig (DATABASE_URL : option string) : bool :=
  match DATABASE_URL with
  | Some url => negb (String.eqb url "") && (0 <? Z.of_nat (String.length (Js.trim url)))
  | None => false
  end.

Definition isDatabaseUnavailableMessage (message : string) : bool :=
  existsb (fun pattern => test_literal_i pattern message) DB_UNAVAILABLE_PATTERNS.

(** [error instanceof Error ? error.message : "Unknown error"] *)
Definition toErrorMessage (h : heap) (error : value) : string :=
  match error with
  | VRef a =>
      if is_Error (deref h a) then to_string (o_message (deref h a))
      else "Unknown error"
  | _ => "Unknown error"
  end.

Definition DB_UNAVAILABLE_CODES : list string :=
  [ "ECONNREFUSED"; "ETIMEDOUT"; "ENOTFOUND"; "ECONNRESET"; "EHOSTUNREACH" ].

(** [/^(ECONNREFUSED|...)$/i.test(code)] for a string [code] *)
Definition isDbUnavailableCode (code : value) : bool :=
  match code with
  | VStr c => existsb (fun k => String.eqb (fold_case c) (fold_case k)) DB_UNAVAILABLE_CODES
  | _ => false
  end.

(** What the object itself says, before its cause and sub-errors are
    looked at: the three tests of [isUnavailableErrorTree] that do not
    recurse. *)
Definition own_signature (o : object) : bool :=
  (is_Error o && isDatabaseUnavailableMessage (to_string (o_message o)))
  || isDbUnavailableCode (o_code o)
  || match o_message o with
     | VStr m => isDatabaseUnavailableMessage m
     | _ => false
     end.

(** [nested.some((item) => visit(item, seen))], where [visit] reads and
    extends the set of seen values: it stops at the first item for which
    [visit] answers true. *)
Fixpoint some_seen (visit : value -> list value -> option (bool * list value))
    (items : list value) (seen : list value) : option (bool * list value) :=
  match items with
  | [] => Some (false, seen)
  | item :: rest =>
      match visit item seen with
      | None => None
      | Some (true, seen) => Some (true, seen)
      | Some (false, seen) => some_seen visit rest seen
      end
  end.

(** [isUnavailableErrorTree(error, seen)].  The result carries the set of
    seen values as the call leaves it.  [fuel] bounds the depth of the
    recursion: [None] is an exhausted bound, and [S (length h)] is always
    enough. *)
Fixpoint isUnavailableErrorTree (fuel : nat) (h : heap) (error : value) (seen : list value)
    : option (bool * list value) :=
  match fuel with
  | O => None
  | S fuel' =>
      if negb (truthy error) || seen_has seen error then Some (false, seen)
      else
        let seen := error :: seen in
        match error with
        | VRef a =>
            let errorLike := deref h a in
            if own_signature errorLike then Some (true, seen)
            else
              let after_cause :=
                if truthy (o_cause errorLike)
                then isUnavailableErrorTree fuel' h (o_cause errorLike) seen
                else Some (false, seen) in
              match after_cause with
              | None => None
              | Some (true, seen) => Some (true, seen)
              | Some (false, seen) =>
                  match o_errors errorLike with
                  | VRef b =>
                      match o_elements (deref h b) with
                      | Some nested =>
                          some_seen (isUnavailableErrorTree fuel' h) nested seen
                      | None => Some (false, seen)
                      end
                  | _ => Some (false, seen)
                  end
              end
        | _ => Some (false, seen)
        end
  end.

Definition isDatabaseUnavailableError (h : heap) (error : value) : bool :=
  match isUnavailableErrorTree (S (List.length h)) h error [] with
  | Some (b, _) => b
  | None => false
  end.

(** [new Error(message)] as the only object of a fresh heap *)
Definition new_Error (message : string) : heap * value :=
  ([ {| is_Error := true; o_message := VStr message; o_code := VUndefined;
        o_cause := VUndefined; o_errors := VUndefined; o_elements := None |} ],
   VRef 0).

(** The result of awaiting a promise. *)
Inductive outcome (A : Type) :=
| Returned (a : A)
| Rejected (h : heap) (error : value).
Arguments Returned {A} a.
Arguments Rejected {A} h error.

(** [throw] *)
Definition raise {A} (e : heap * value) : outcome A := Rejected (fst e) (snd e).

(** [await] followed by the rest of the function *)
Definition bind {A B} (o : outcome A) (k : A -> outcome B) : outcome B :=
  match o with
  | Returned a => k a
  | Rejected h error => Rejected h error
  end.

(** [try { ... } catch (error) { if (isDatabaseUnavailableError(error)) return
    fallback; throw error; }] *)
Definition catch_unavailable {A} (attempt : outcome A) (fallback : A) : outcome A :=
  match attempt with
  | Returned a => Returned a
  | Rejected h error =>
      if isDatabaseUnavailableError h error then Returned fallback
      else Rejected h error
  end.

End Runtime.

(* ================================================================== *)
(** ** The live store *)
(* ================================================================== *)

Module LiveStore.
Import DemoStore Runtime.

(** The relational store holds one table per array of the snapshot, with the
    same columns; a table is the list of its rows in scan order.  A DATE
    column is held as its ISO text (YYYY-MM-DD), which is how the queries
    return it ([::text]); dates are compared through that text, whose order
    is the order of the days ([DateFacts.calendar_date_order]).  Text is
    ordered by code units. *)
Definition database := DemoDataset.

(** The connection: refused with some error on every query, or serving. *)
Inductive connection :=
| Unreachable (h : heap) (error : value)
| Up (db : database).

Record env := {
  DATABASE_URL : option string;
  conn : connection }.

(** lib/db.ts.  [getDbPool] throws when the variable is missing or empty. *)
Definition getDbPool (e : env) : outcome connection :=
  match DATABASE_URL e with
  | Some url =>
      if String.eqb url "" then raise (new_Error "DATABASE_URL is not set")
      else Returned (conn e)
  | None => raise (new_Error "DATABASE_URL is not set")
  end.

(** An error raised by the store while it evaluates a statement. *)
Definition sql_error (sqlstate message : string) : heap * value :=
  ([ {| is_Error := true; o_message := VStr message; o_code := VStr sqlstate;
        o_cause := VUndefined; o_errors := VUndefined; o_elements := None |} ],
   VRef 0).

(** [$n::date]: the cast of a text parameter.  Covered: the ISO form, which
    is the only one the routes let through; the cast fails on a text that is
    not a day of the calendar. *)
Definition digit_val (c : ascii) : Z := Js.code c - 48.

Definition is_leap (y : Z) : bool :=
  ((y mod 4 =? 0) && negb (y mod 100 =? 0)) || (y mod 400 =? 0).

Definition days_in_month (y m : Z) : Z :=
  if (m =? 2) then (if is_leap y then 29 else 28)
  else if (m =? 4) || (m =? 6) || (m =? 9) || (m =? 11) then 30
  else 31.

Definition is_calendar_date (s : string) : bool :=
  match list_ascii_of_string s with
  | [y1; y2; y3; y4; h1; m1; m2; h2; d1; d2] =>
      forallb Js.is_digit [y1; y2; y3; y4; m1; m2; d1; d2]
      && DemoStore.is_hyphen h1 && DemoStore.is_hyphen h2
      && (let y := 1000 * digit_val y1 + 100 * digit_val y2 + 10 * digit_val y3 + digit_val y4 in
          let m := 10 * digit_val m1 + digit_val m2 in
          let d := 10 * digit_val d1 + digit_val d2 in
          (1 <=? y) && (1 <=? m) && (m <=? 12) && (1 <=? d) && (d <=? days_in_month y m))
  | _ => false
  end.

(** Text search with the [simple] configuration, for text made of plain
    words: the lexemes are the runs of letters and digits, in lower case.
    [to_tsvector(doc) @@ plainto_tsquery(query)] holds when the query has at
    least one lexeme and each of its lexemes is a lexeme of the document. *)
Definition is_word_char (c : ascii) : bool :=
  Js.is_lower c || Js.is_upper c || Js.is_digit c.

Fixpoint lexemes_aux (s : string) (current : string) : list string :=
  match s with
  | EmptyString => if String.eqb current "" then [] else [current]
  | String c s' =>
      if is_word_char c
      then lexemes_aux s' (current ++ String (Runtime.fold_char c) EmptyString)
      else if String.eqb current "" then lexemes_aux s' ""
      else current :: lexemes_aux s' ""
  end.

Definition lexemes (s : string) : list string := lexemes_aux s "".

Definition ts_match (doc query : string) : bool :=
  match lexemes query with
  | [] => false
  | ls => forallb (fun l => existsb (String.eqb l) (lexemes doc)) ls
  end.

(** [ORDER BY]: the rows in the order of the keys.  The order of rows whose
    keys are equal is not fixed by the store; the model returns them in scan
    order.  What is stated of a query holds for every order the clause
    allows: it speaks of the keys only, or it is stated for all the answers
    the store may give ([Props.may_order]). *)
Definition order_by {A} (cmp : A -> A -> Z) (rows : list A) : list A := Js.sort cmp rows.

(** [LIMIT n OFFSET k]; a negative count is an error of the statement. *)
Definition limit_offset {A} (limit offset : Z) (rows : list A) : outcome (list A) :=
  if limit <? 0 then raise (sql_error "2201W" "LIMIT must not be negative")
  else if offset <? 0 then raise (sql_error "2201X" "OFFSET must not be negative")
  else Returned (firstn (Z.to_nat limit) (skipn (Z.to_nat offset) rows)).

End LiveStore.

(* ================================================================== *)
(** ** lib/events.ts *)
(* ================================================================== *)

Module Events.
Import DemoStore Runtime LiveStore.

Inductive EventSort := date_desc | date_asc | importance_desc.

Record ListEventsFilters := {
  f_date : option string;
  f_from : option string;
  f_to : option string;
  f_category : option string;
  f_region : option string;
  f_tag : option string;
  f_importanceMin : option Z;
  f_q : option string;
  f_page : Z;
  f_pageSize : Z;
  f_sort : EventSort }.

Record EventListItem := {
  item_id : string;
  item_slug : string;
  item_title : string;
  item_event_date : string;
  item_region : string;
  item_category : string;
  item_summary : string;
  item_importance_score : Z;
  item_confidence_score : Z;
  item_source_count : Z;
  item_tags : list string }.

Record Pagination := {
  page : Z;
  page_size : Z;
  total : Z;
  total_pages : Z }.

Record EventListResult := {
  items : list EventListItem;
  pagination : Pagination }.

(** A regular expression anchored at both ends that is a sequence of
    character classes: the string has one character per class. *)
Fixpoint matches (classes : list (ascii -> bool)) (s : string) : bool :=
  match classes, s with
  | [], EmptyString => true
  | cl :: classes', String c s' => cl c && matches classes' s'
  | _, _ => false
  end.

Definition cls_hex_i (c : ascii) : bool :=
  Js.is_digit c || ((97 <=? Js.code c) && (Js.code c <=? 102))
  || ((65 <=? Js.code c) && (Js.code c <=? 70)).
Definition cls_1_5 (c : ascii) : bool := (49 <=? Js.code c) && (Js.code c <=? 53).
Definition cls_89ab_i (c : ascii) : bool :=
  let n := Js.code c in
  (n =? 56) || (n =? 57) || (n =? 97) || (n =? 98) || (n =? 65) || (n =? 66).

(** [/^\d{4}-\d{2}-\d{2}$/] *)
Definition isValidDate (date : string) : bool :=
  matches (repeat Js.is_digit 4 ++ [is_hyphen] ++ repeat Js.is_digit 2
           ++ [is_hyphen] ++ repeat Js.is_digit 2)%list date.

(** [/^[0-9a-f]{8}-[0-9a-f]{4}-[1-5][0-9a-f]{3}-[89ab][0-9a-f]{3}-[0-9a-f]{12}$/i] *)
Definition isValidUuid (value : string) : bool :=
  matches (repeat cls_hex_i 8 ++ [is_hyphen] ++ repeat cls_hex_i 4 ++ [is_hyphen]
           ++ [cls_1_5] ++ repeat cls_hex_i 3 ++ [is_hyphen]
           ++ [cls_89ab_i] ++ repeat cls_hex_i 3 ++ [is_hyphen]
           ++ repeat cls_hex_i 12)%list value.

Definition matchesKeyword (haystack query : string) : bool :=
  Js.includes (Js.toLowerCase haystack) (Js.toLowerCase query).

Definition applyEventSort (items : list EventListItem) (sort : EventSort) : list EventListItem :=
  match sort with
  | date_asc =>
      Js.sort (fun a b => Js.localeCompare (item_event_date a) (item_event_date b)) items
  | importance_desc =>
      Js.sort (fun a b =>
                 if negb (item_importance_score b =? item_importance_score a)
                 then item_importance_score b - item_importance_score a
                 else Js.localeCompare (item_event_date b) (item_event_date a)) items
  | date_desc =>
      Js.sort (fun a b => Js.localeCompare (item_event_date b) (item_event_date a)) items
  end.

(** [if (filters.x)] for a string that may be null: set and not empty. *)
Definition given (o : option string) : option string :=
  match o with
  | Some s => if String.eqb s "" then None else Some s
  | None => None
  end.

(** [if (cond) items = items.filter(...)] *)
Definition filter_if {A B} (o : option B) (p : B -> A -> bool) (l : list A) : list A :=
  match o with
  | Some b => filter (p b) l
  | None => l
  end.

Definition tagsByEventId_step (dataset : DemoDataset) (m : Js.Map (list string))
    (eventTag : DemoEventTagRecord) : Js.Map (list string) :=
  match Js.find (fun entry => String.eqb (tag_id entry) (et_tag_id eventTag)) (tags dataset) with
  | None => m
  | Some tag =>
      let existing := or_else (Js.map_get m (et_event_id eventTag)) [] in
      Js.map_set m (et_event_id eventTag) (existing ++ [tag_slug tag])%list
  end.

Definition sourceCountByEventId_step (m : Js.Map Z) (link : DemoEventSourceRecord) : Js.Map Z :=
  Js.map_set m (es_event_id link) (or_else (Js.map_get m (es_event_id link)) 0 + 1).

Definition to_item (tagsByEventId : Js.Map (list string)) (sourceCountByEventId : Js.Map Z)
    (event : DemoEventRecord) : EventListItem :=
  {| item_id := evt_id event;
     item_slug := evt_slug event;
     item_title := evt_title event;
     item_event_date := evt_event_date event;
     item_region := evt_region event;
     item_category := evt_category event;
     item_summary := evt_summary event;
     item_importance_score := evt_importance_score event;
     item_confidence_score := evt_confidence_score event;
     item_source_count := or_else (Js.map_get sourceCountByEventId (evt_id event)) 0;
     item_tags := Js.sort_strings (or_else (Js.map_get tagsByEventId (evt_id event)) []) |}.

Definition keyword_haystack (item : EventListItem) : string :=
  item_title item ++ " " ++ item_summary item ++ " " ++ item_category item ++ " "
  ++ item_region item.

Definition mkResult (filters : ListEventsFilters) (paged : list EventListItem) (total : Z)
    : EventListResult :=
  {| items := paged;
     pagination :=
       {| page := f_page filters;
          page_size := f_pageSize filters;
          total := total;
          total_pages := if total =? 0 then 0 else Js.ceil_div total (f_pageSize filters) |} |}.

Definition listPublishedEventsFromDemo (dataset : DemoDataset) (filters : ListEventsFilters)
    : EventListResult :=
  let tagsByEventId := fold_left (tagsByEventId_step dataset) (eventTags dataset) [] in
  let sourceCountByEventId := fold_left sourceCountByEventId_step (eventSources dataset) [] in
  let items :=
    List.map (to_item tagsByEventId sourceCountByEventId)
             (filter is_published (events dataset)) in
  let items := filter_if (given (f_date filters))
                 (fun d item => String.eqb (item_event_date item) d) items in
  let items := filter_if (given (f_from filters))
                 (fun d item => Js.str_le d (item_event_date item)) items in
  let items := filter_if (given (f_to filters))
                 (fun d item => Js.str_le (item_event_date item) d) items in
  let items := filter_if (given (f_category filters))
                 (fun c item => String.eqb (item_category item) c) items in
  let items := filter_if (given (f_region filters))
                 (fun r item => String.eqb (item_region item) r) items in
  let items := filter_if (given (f_tag filters))
                 (fun t item => existsb (String.eqb t) (item_tags item)) items in
  let items := filter_if (f_importanceMin filters)
                 (fun n item => n <=? item_importance_score item) items in
  let items := filter_if (given (f_q filters))
                 (fun q item => matchesKeyword (keyword_haystack item) q) items in
  let items := applyEventSort items (f_sort filters) in
  let total := Z.of_nat (List.length items) in
  let offset := (f_page filters - 1) * f_pageSize filters in
  let paged := Js.array_slice items offset (offset + f_pageSize filters) in
  mkResult filters paged total.

Definition all_filters_off : ListEventsFilters :=
  {| f_date := None; f_from := None; f_to := None; f_category := None;
     f_region := None; f_tag := None; f_importanceMin := None; f_q := None;
     f_page := 1; f_pageSize := 5000; f_sort := date_desc |}.

Definition listPublishedEventsByMonthDayFromDemo (dataset : DemoDataset) (monthDay : string)
    : list EventListItem :=
  let result := listPublishedEventsFromDemo dataset all_filters_off in
  filter (fun item => String.eqb (Js.slice_from (item_event_date item) 5) monthDay)
         (items result).

(** *** The queries against the live store *)

(** The predicate that [buildEventWhere] assembles, applied to a row [e] of
    [events]; [None] when one of the date parameters cannot be cast. *)
Definition castable (o : option string) : bool :=
  match given o with
  | Some d => is_calendar_date d
  | None => true
  end.

Definition opt_test {B} (o : option B) (p : B -> bool) : bool :=
  match o with
  | Some b => p b
  | None => true
  end.

Definition has_tag_slug (db : database) (e : DemoEventRecord) (slug : string) : bool :=
  existsb (fun etf =>
             String.eqb (et_event_id etf) (evt_id e)
             && existsb (fun tf => String.eqb (tag_id tf) (et_tag_id etf)
                                   && String.eqb (tag_slug tf) slug) (tags db))
          (eventTags db).

Definition fts_document (e : DemoEventRecord) : string :=
  evt_title e ++ " " ++ evt_summary e ++ " " ++ evt_impact e.

Definition eventWhere (db : database) (filters : ListEventsFilters) (e : DemoEventRecord) : bool :=
  is_published e
  && opt_test (given (f_date filters)) (fun d => String.eqb (evt_event_date e) d)
  && opt_test (given (f_from filters)) (fun d => Js.str_le d (evt_event_date e))
  && opt_test (given (f_to filters)) (fun d => Js.str_le (evt_event_date e) d)
  && opt_test (given (f_category filters)) (fun c => String.eqb (evt_category e) c)
  && opt_test (given (f_region filters)) (fun r => String.eqb (evt_region e) r)
  && opt_test (given (f_tag filters)) (has_tag_slug db e)
  && opt_test (f_importanceMin filters) (fun n => n <=? evt_importance_score e)
  && opt_test (given (f_q filters)) (ts_match (fts_document e)).

Definition buildEventWhere (db : database) (filters : ListEventsFilters)
    : outcome (DemoEventRecord -> bool) :=
  if castable (f_date filters) && castable (f_from filters) && castable (f_to filters)
  then Returned (eventWhere db filters)
  else raise (sql_error "22007" "invalid input syntax for type date").

(** [resolveSort]: the comparison of two rows under the ORDER BY clause. *)
Definition resolveSort (sort : EventSort) (a b : DemoEventRecord) : Z :=
  match sort with
  | date_asc => Js.localeCompare (evt_event_date a) (evt_event_date b)
  | importance_desc =>
      if negb (evt_importance_score b =? evt_importance_score a)
      then evt_importance_score b - evt_importance_score a
      else Js.localeCompare (evt_event_date b) (evt_event_date a)
  | date_desc => Js.localeCompare (evt_event_date b) (evt_event_date a)
  end.

(** The two lateral joins of the SELECT list. *)
Definition source_count (db : database) (e : DemoEventRecord) : Z :=
  Z.of_nat (List.length
    (filter (fun es => String.eqb (es_event_id es) (evt_id e)) (eventSources db))).

Definition tagset (db : database) (e : DemoEventRecord) : list string :=
  Js.sort_strings
    (flat_map (fun et =>
                 List.map tag_slug
                   (filter (fun t => String.eqb (tag_id t) (et_tag_id et)) (tags db)))
              (filter (fun et => String.eqb (et_event_id et) (evt_id e)) (eventTags db))).

Definition row_to_item (db : database) (e : DemoEventRecord) : EventListItem :=
  {| item_id := evt_id e;
     item_slug := evt_slug e;
     item_title := evt_title e;
     item_event_date := evt_event_date e;
     item_region := evt_region e;
     item_category := evt_category e;
     item_summary := evt_summary e;
     item_importance_score := evt_importance_score e;
     item_confidence_score := evt_confidence_score e;
     item_source_count := source_count db e;
     item_tags := tagset db e |}.

(** The body of the [try] block of [listPublishedEvents] once the pool
    answers: the count query, then the list query. *)
Definition listPublishedEvents_query (db : database) (filters : ListEventsFilters)
    : outcome EventListResult :=
  bind (buildEventWhere db filters) (fun where_ =>
  let offset := (f_page filters - 1) * f_pageSize filters in
  let total := Z.of_nat (List.length (filter where_ (events db))) in
  bind (limit_offset (f_pageSize filters) offset
          (order_by (resolveSort (f_sort filters)) (filter where_ (events db))))
       (fun rows =>
  Returned (mkResult filters (List.map (row_to_item db) rows) total))).

Definition with_pool {A} (e : env) (query : database -> outcome A) : outcome A :=
  bind (getDbPool e) (fun pool =>
  match pool with
  | Unreachable h error => Rejected h error
  | Up db => query db
  end).

Definition listPublishedEvents (e : env) (dataset : DemoDataset) (filters : ListEventsFilters)
    : outcome EventListResult :=
  if negb (hasDatabaseConfig (DATABASE_URL e))
  then Returned (listPublishedEventsFromDemo dataset filters)
  else catch_unavailable
         (with_pool e (fun db => listPublishedEvents_query db filters))
         (listPublishedEventsFromDemo dataset filters).

(** [ORDER BY e.event_date DESC, e.importance_score DESC] *)
Definition monthDay_order (a b : DemoEventRecord) : Z :=
  let c := Js.localeCompare (evt_event_date b) (evt_event_date a) in
  if negb (c =? 0) then c else evt_importance_score b - evt_importance_score a.

(** [to_char(e.event_date, 'MM-DD')] *)
Definition to_char_MM_DD (event_date : string) : string := Js.slice_from event_date 5.

Definition listPublishedEventsByMonthDay_query (db : database) (monthDay : string)
    : outcome (list EventListItem) :=
  Returned
    (List.map (row_to_item db)
       (order_by monthDay_order
          (filter (fun e => is_published e
                            && String.eqb (to_char_MM_DD (evt_event_date e)) monthDay)
                  (events db)))).

Definition listPublishedEventsByMonthDay (e : env) (dataset : DemoDataset) (monthDay : string)
    : outcome (list EventListItem) :=
  if negb (hasDatabaseConfig (DATABASE_URL e))
  then Returned (listPublishedEventsByMonthDayFromDemo dataset monthDay)
  else catch_unavailable
         (with_pool e (fun db => listPublishedEventsByMonthDay_query db monthDay))
         (listPublishedEventsByMonthDayFromDemo dataset monthDay).

(** *** Creating an event *)

Record CreateEventInput := {
  in_slug : option string;
  in_title : string;
  in_event_date : string;
  in_region : string;
  in_category : string;
  in_summary : string;
  in_impact : string;
  in_importance_score : Z;
  in_confidence_score : option Z }.

(** A row of [events] as the admin queries return it. *)
Definition AdminEventRecord := DemoEventRecord.

Section Create.

Variable normalizeNFKD : string -> string.

Definition slugify (input : string) : string :=
  let normalized :=
    collapse_hyphens
      (strip_trailing_hyphens (strip_leading_hyphens
        (replace_non_alnum_runs (Js.toLowerCase (normalizeNFKD input)) false)))
      false in
  or_default normalized "event".

(** [while (existing.has(`${normalized}-${suffix}`)) suffix += 1] *)
Fixpoint next_suffix (fuel : nat) (existing : list string) (normalized : string) (suffix : Z)
    : Z :=
  match fuel with
  | O => suffix
  | S fuel' =>
      if existsb (String.eqb (normalized ++ "-" ++ Js.number_to_string suffix)) existing
      then next_suffix fuel' existing normalized (suffix + 1)
      else suffix
  end.

Definition getNextAvailableSlug (db : database) (baseSlug : string) : string :=
  let normalized := slugify baseSlug in
  let existing :=
    List.map evt_slug
      (filter (fun r => String.eqb (evt_slug r) normalized
                        || Js.startsWith (evt_slug r) (normalized ++ "-"))
              (events db)) in
  if negb (existsb (String.eqb normalized) existing) then normalized
  else normalized ++ "-"
       ++ Js.number_to_string (next_suffix (S (List.length existing)) existing normalized 2).

(** [createEvent]: [fresh_id] and [now] are the defaults the store gives to
    the columns [id], [created_at] and [updated_at]. *)
Definition createEvent (e : env) (fresh_id now : string) (input : CreateEventInput)
    : outcome AdminEventRecord :=
  with_pool e (fun db =>
    let desiredSlug := or_else (in_slug input) (in_title input) in
    let slug := getNextAvailableSlug db desiredSlug in
    if is_calendar_date (in_event_date input) then
      Returned {| evt_id := fresh_id;
                  evt_slug := slug;
                  evt_title := in_title input;
                  evt_event_date := in_event_date input;
                  evt_region := in_region input;
                  evt_category := in_category input;
                  evt_summary := in_summary input;
                  evt_impact := in_impact input;
                  evt_importance_score := in_importance_score input;
                  evt_confidence_score := or_else (in_confidence_score input) 3;
                  evt_status := draft;
                  evt_published_at := None;
                  evt_created_at := now;
                  evt_updated_at := now |}
    else raise (sql_error "22008" "date/time field value out of range")).

End Create.

End Events.

(* ================================================================== *)
(** ** lib/sources.ts *)
(* ================================================================== *)

Module Sources.
Import DemoStore Runtime LiveStore Events.

Record SourceLinkedEvent := {
  le_id : string;
  le_slug : string;
  le_title : string;
  le_event_date : string;
  le_region : string;
  le_category : string;
  le_summary : string;
  le_relevance_rank : Z;
  le_quote_excerpt : option string;
  le_citation_note : option string }.

(** [SourceDetail]: the columns of the source and its linked events. *)
Record SourceDetail := {
  sd_source : DemoSourceRecord;
  linked_events : list SourceLinkedEvent }.

Definition linked_event (event : DemoEventRecord) (link : DemoEventSourceRecord)
    : SourceLinkedEvent :=
  {| le_id := evt_id event;
     le_slug := evt_slug event;
     le_title := evt_title event;
     le_event_date := evt_event_date event;
     le_region := evt_region event;
     le_category := evt_category event;
     le_summary := evt_summary event;
     le_relevance_rank := es_relevance_rank link;
     le_quote_excerpt := es_quote_excerpt link;
     le_citation_note := es_citation_note link |}.

(** The in-memory branch of [getSourceById] (it appears twice in the
    function, before the [try] and in the [catch]). *)
Definition getSourceByIdFromDemo (dataset : DemoDataset) (sourceId : string)
    : option SourceDetail :=
  match Js.find (fun entry => String.eqb (src_id entry) sourceId) (sources dataset) with
  | None => None
  | Some source =>
      let links :=
        Js.sort (fun a b => es_relevance_rank b - es_relevance_rank a)
          (filter (fun entry => String.eqb (es_source_id entry) sourceId)
                  (eventSources dataset)) in
      let linkedEvents :=
        Js.sort (fun a b => Js.localeCompare (le_event_date b) (le_event_date a))
          (keep_some
             (List.map
                (fun link =>
                   match Js.find (fun entry => String.eqb (evt_id entry) (es_event_id link)
                                               && is_published entry) (events dataset) with
                   | None => None
                   | Some event => Some (linked_event event link)
                   end) links)) in
      Some {| sd_source := source; linked_events := linkedEvents |}
  end.

(** [ORDER BY e.event_date DESC, es.relevance_rank ASC] on the joined rows *)
Definition eventsSql_order (a b : SourceLinkedEvent) : Z :=
  let c := Js.localeCompare (le_event_date b) (le_event_date a) in
  if negb (c =? 0) then c else le_relevance_rank a - le_relevance_rank b.

(** The two statements of the live branch: the source row, then
    [event_sources es JOIN events e ON e.id = es.event_id] restricted to the
    source and to published events. *)
Definition getSourceById_query (db : database) (sourceId : string)
    : outcome (option SourceDetail) :=
  match filter (fun row => String.eqb (src_id row) sourceId) (sources db) with
  | [] => Returned None
  | source :: _ =>
      let joined :=
        flat_map (fun es =>
                    List.map (fun e => linked_event e es)
                      (filter (fun e => String.eqb (evt_id e) (es_event_id es)
                                        && is_published e) (events db)))
                 (filter (fun es => String.eqb (es_source_id es) sourceId) (eventSources db)) in
      Returned (Some {| sd_source := source;
                        linked_events := order_by eventsSql_order joined |})
  end.

Definition getSourceById (e : env) (dataset : DemoDataset) (sourceId : string)
    : outcome (option SourceDetail) :=
  if negb (hasDatabaseConfig (DATABASE_URL e))
  then Returned (getSourceByIdFromDemo dataset sourceId)
  else catch_unavailable
         (with_pool e (fun db => getSourceById_query db sourceId))
         (getSourceByIdFromDemo dataset sourceId).

End Sources.

(* ================================================================== *)
(** ** lib/api.ts and the route handlers *)
(* ================================================================== *)

Module Api.
Import DemoStore Runtime LiveStore Events Sources.

(** The JSON envelope of a response: [{ data }] or
    [{ error: { code, message, details } }]. *)
Inductive envelope (A : Type) :=
| Data (data : A)
| Error (code message : string) (original_message : option string).
Arguments Data {A} data.
Arguments Error {A} code message original_message.

Record response (A : Type) := {
  status : Z;
  body : envelope A }.
Arguments status {A} r.
Arguments body {A} r.

Definition ok {A} (data : A) : response A := {| status := 200; body := Data data |}.
Definition created {A} (data : A) : response A := {| status := 201; body := Data data |}.
Definition badRequest {A} (message : string) : response A :=
  {| status := 400; body := Error "VALIDATION_ERROR" message None |}.
Definition unauthorized {A} (message : string) : response A :=
  {| status := 401; body := Error "UNAUTHORIZED" message None |}.
Definition forbidden {A} (message : string) : response A :=
  {| status := 403; body := Error "FORBIDDEN" message None |}.
Definition notFound {A} (message : string) : response A :=
  {| status := 404; body := Error "NOT_FOUND" message None |}.
Definition conflict {A} (message : string) : response A :=
  {| status := 409; body := Error "CONFLICT" message None |}.

Definition serverError {A} (message : string) : response A :=
  if isDatabaseUnavailableMessage message then
    {| status := 503;
       body := Error "SERVICE_UNAVAILABLE"
                 "Database is unavailable. Configure DATABASE_URL or run demo mode."
                 (Some message) |}
  else {| status := 500; body := Error "INTERNAL_ERROR" message None |}.

(** [requireAdmin]: the response that ends the request, if any. *)
Definition requireAdmin {A} (x_role : option string) : option (response A) :=
  match given x_role with
  | None => Some (unauthorized "Missing x-role header")
  | Some role =>
      if negb (String.eqb role "admin") && negb (String.eqb role "editor")
      then Some (forbidden "Admin or editor role required")
      else None
  end.

(** [(error as { code?: string }).code] *)
Definition error_code (h : heap) (error : value) : value :=
  match error with
  | VRef a => o_code (deref h a)
  | _ => VUndefined
  end.

(** [code === "23505"] *)
Definition is_unique_violation (code : value) : bool :=
  match code with
  | VStr c => String.eqb c "23505"
  | _ => false
  end.

Section Routes.

Variable normalizeNFKD : string -> string.

(** POST /api/v1/admin/events.  [validation] is the result of
    [validateCreateEventInput] on the parsed body: an error message or the
    validated input. *)
Definition POST_admin_events (e : env) (fresh_id now : string) (x_role : option string)
    (validation : string + CreateEventInput) : response AdminEventRecord :=
  match requireAdmin x_role with
  | Some auth => auth
  | None =>
      match validation with
      | inl error => badRequest error
      | inr value =>
          match createEvent normalizeNFKD e fresh_id now value with
          | Returned event => created event
          | Rejected h error =>
              if is_unique_violation (error_code h error)
              then conflict "event slug already exists"
              else serverError (toErrorMessage h error)
          end
      end
  end.

End Routes.

(** GET /api/v1/sources/:id *)
Definition GET_source (e : env) (dataset : DemoDataset) (id : string)
    : response SourceDetail :=
  if negb (isValidUuid id) then badRequest "id must be a UUID"
  else
    match getSourceById e dataset id with
    | Returned None => notFound "Source not found"
    | Returned (Some source) => ok source
    | Rejected h error => serverError (toErrorMessage h error)
    end.

End Api.

(* ================================================================== *)
(** ** scripts/import-seed.mjs: the merge into the main seed file *)
(* ================================================================== *)

Module ImportSeed.

(** A parsed JSON document.  An object keeps its members in the order of the
    text, one per name. *)
Inductive json :=
| JNull
| JBool (b : bool)
| JNum (n : Z)
| JStr (s : string)
| JArr (elements : list json)
| JObj (members : list (string * json)).

(** The top level of a seed file: the members of its object. *)
Definition seed_file := Js.Map json.

(** [item?.name]: [None] is [undefined]. *)
Definition get_field (item : json) (name : string) : option json :=
  match item with
  | JObj members => Js.map_get members name
  | _ => None
  end.

(** [String(v)] *)
Fixpoint js_String (v : json) : string :=
  match v with
  | JNull => "null"
  | JBool true => "true"
  | JBool false => "false"
  | JNum n => Js.number_to_string n
  | JStr s => s
  | JArr elements =>
      (fix join (l : list json) : string :=
         match l with
         | [] => ""
         | x :: rest =>
             let here := match x with JNull => "" | _ => js_String x end in
             match rest with
             | [] => here
             | _ => here ++ "," ++ join rest
             end
         end) elements
  | JObj _ => "[object Object]"
  end.

(** [String(item?.name ?? "").trim()] *)
Definition key_field (item : json) (name : string) : string :=
  Js.trim (js_String (match get_field item name with
                      | None | Some JNull => JStr ""
                      | Some v => v
                      end)).

Definition asArray (input : option json) : list json :=
  match input with
  | Some (JArr elements) => elements
  | _ => []
  end.

Record stats := {
  n_sources : Z;
  n_events : Z;
  n_event_sources : Z }.

Definition summarize (payload : seed_file) : stats :=
  {| n_sources := Z.of_nat (List.length (asArray (Js.map_get payload "sources")));
     n_events := Z.of_nat (List.length (asArray (Js.map_get payload "events")));
     n_event_sources := Z.of_nat (List.length (asArray (Js.map_get payload "event_sources"))) |}.

Definition mergeByKey (baseItems incomingItems : list json) (keyOf : json -> string)
    : list json :=
  let map := fold_left (fun m item => Js.map_set m (keyOf item) item) baseItems [] in
  let map := fold_left (fun m item => Js.map_set m (keyOf item) item) incomingItems map in
  Js.map_values map.

Definition source_key (item : json) : string := key_field item "source_url".
Definition event_key (item : json) : string := key_field item "slug".
Definition link_key (item : json) : string :=
  key_field item "event_slug" ++ "||" ++ key_field item "source_url".

Inductive report :=
| main_seed_noop (stats_ : stats)
| merged_into_main_seed (before after delta : stats).

(** [applyDemoFallback]: [mainSeed] is the content of the main seed file,
    [isMainSeed] says whether the imported file is that file, [payload] is
    the imported file.  The result is the content of the main seed file
    afterwards and what the function returns. *)
Definition applyDemoFallback (mainSeed : seed_file) (isMainSeed : bool) (payload : seed_file)
    : seed_file * report :=
  if isMainSeed then (mainSeed, main_seed_noop (summarize payload))
  else
    let mainPayload := mainSeed in
    let before := summarize mainPayload in
    let mainPayload :=
      Js.map_set mainPayload "sources"
        (JArr (mergeByKey (asArray (Js.map_get mainPayload "sources"))
                          (asArray (Js.map_get payload "sources")) source_key)) in
    let mainPayload :=
      Js.map_set mainPayload "events"
        (JArr (mergeByKey (asArray (Js.map_get mainPayload "events"))
                          (asArray (Js.map_get payload "events")) event_key)) in
    let mainPayload :=
      Js.map_set mainPayload "event_sources"
        (JArr (mergeByKey (asArray (Js.map_get mainPayload "event_sources"))
                          (asArray (Js.map_get payload "event_sources")) link_key)) in
    let after := summarize mainPayload in
    (mainPayload,
     merged_into_main_seed before after
       {| n_sources := n_sources after - n_sources before;
          n_events := n_events after - n_events before;
          n_event_sources := n_event_sources after - n_event_sources before |}).

End ImportSeed.

(* ================================================================== *)
(** ** The vocabulary of the properties *)
(* ================================================================== *)

Module Props.
Import DemoStore Runtime LiveStore Events Sources Api.

(** A list is in the order of [cmp] when no element comes strictly after its
    successor. *)
Definition ordered {A} (cmp : A -> A -> Z) (l : list A) : Prop :=
  Sorted (fun a b => cmp a b <= 0) l.

(** A comparator is total when of two elements one does not come after the
    other. *)
Definition total_cmp {A} (cmp : A -> A -> Z) : Prop :=
  forall a b, cmp a b <= 0 \/ cmp b a <= 0.

(** The natural keys of a seed link resolve: its normalized slug is the slug
    of a seed event, its URL is the URL of a seed source. *)
Definition seed_slug (normalizeNFKD : string -> string) (event : SeedEvent) : string :=
  normalizeSlug normalizeNFKD (or_else (se_slug event) (se_title event)).

Definition slug_known (normalizeNFKD : string -> string) (payload : SeedPayload)
    (link : SeedEventSource) : bool :=
  existsb (fun event => String.eqb (seed_slug normalizeNFKD event)
                                   (normalizeSlug normalizeNFKD (sl_event_slug link)))
          (or_else (sp_events payload) []).

Definition url_known (payload : SeedPayload) (link : SeedEventSource) : bool :=
  existsb (fun source => String.eqb (ss_source_url source) (sl_source_url link))
          (or_else (sp_sources payload) []).

(** The row of a link whose keys resolve. *)
Definition resolved_link (normalizeNFKD : string -> string) (link : SeedEventSource)
    : DemoEventSourceRecord :=
  {| es_event_id := stableUuid ("event:" ++ normalizeSlug normalizeNFKD (sl_event_slug link));
     es_source_id := stableUuid ("source:" ++ sl_source_url link);
     es_quote_excerpt := sl_quote_excerpt link;
     es_citation_note := sl_citation_note link;
     es_relevance_rank := or_else (sl_relevance_rank link) 1 |}.

(** An event id that belongs to a published event of the snapshot. *)
Definition refers_to_published (ds : DemoDataset) (event_id : string) : Prop :=
  exists e, In e (events ds) /\ evt_id e = event_id /\ evt_status e = published.

(** An event id that belongs to an event of the snapshot. *)
Definition refers_to_event (ds : DemoDataset) (event_id : string) : Prop :=
  exists e, In e (events ds) /\ evt_id e = event_id.

Definition refers_to_source (ds : DemoDataset) (source_id : string) : Prop :=
  exists s, In s (sources ds) /\ src_id s = source_id.

(** The statement that every tag cross-reference of a snapshot refers to a
    published event. *)
Definition eventTags_reference_published (ds : DemoDataset) : Prop :=
  Forall (fun et => refers_to_published ds (et_event_id et)) (eventTags ds).

(** A seed with a single event, still a draft. *)
Definition seed_one_draft : SeedPayload :=
  {| sp_sources := None;
     sp_events :=
       Some [ {| se_slug := Some "bank-holiday-1933";
                 se_title := "Bank Holiday";
                 se_event_date := "1933-03-06";
                 se_region := "US";
                 se_category := "Banking";
                 se_summary := "Banks closed by proclamation.";
                 se_impact := "Deposits frozen for a week.";
                 se_importance_score := 4;
                 se_confidence_score := None;
                 se_status := None |} ];
     sp_event_sources := None |}.

(** The step of the two loops of [mergeByKey]. *)
Definition put (keyOf : ImportSeed.json -> string) (m : Js.Map ImportSeed.json)
    (item : ImportSeed.json) : Js.Map ImportSeed.json :=
  Js.map_set m (keyOf item) item.

(** The entries of a map filled by [put]: no key twice, and each value filed
    under its own key. *)
Definition well_keyed (keyOf : ImportSeed.json -> string) (m : Js.Map ImportSeed.json) : Prop :=
  NoDup (Js.map_keys m) /\ Forall (fun e => keyOf (snd e) = fst e) m.

(** The last item of a list filed under a key. *)
Fixpoint last_with_key (keyOf : ImportSeed.json -> string) (l : list ImportSeed.json)
    (k : string) : option ImportSeed.json :=
  match l with
  | [] => None
  | x :: l' =>
      match last_with_key keyOf l' k with
      | Some y => Some y
      | None => if String.eqb (keyOf x) k then Some x else None
      end
  end.

(** Last write wins: for each incoming item, the last incoming item with its
    key is in the merged array. *)
Definition kept_last (keyOf : ImportSeed.json -> string)
    (incoming merged : list ImportSeed.json) : Prop :=
  Forall (fun x => exists y, last_with_key keyOf incoming (keyOf x) = Some y /\ In y merged)
         incoming.

(** The signatures as the specification lists them for the message of an
    error. *)
Definition spec_signatures : list string :=
  [ "DATABASE_URL is not set"; "ECONNREFUSED"; "ETIMEDOUT"; "ENOTFOUND"; "ECONNRESET";
    "EHOSTUNREACH"; "connection terminated"; "could not connect to server";
    "failed to connect" ].

(** The number of objects of the heap that are not yet in the set of seen
    values. *)
Definition unseen (h : heap) (seen : list value) : nat :=
  List.length (filter (fun a => negb (seen_has seen (VRef a))) (seq 0 (List.length h))).

(** [w] is a truthy value that the classifier visits from [v]: the cause of
    the object [v], or an element of its array of sub-errors. *)
Definition childb (h : heap) (v w : value) : bool :=
  truthy w &&
  match v with
  | VRef a =>
      value_eqb w (o_cause (deref h a))
      || match o_errors (deref h a) with
         | VRef b =>
             match o_elements (deref h b) with
             | Some nested => existsb (value_eqb w) nested
             | None => false
             end
         | _ => false
         end
  | _ => false
  end.

(** [path] leads from [v] down through causes and sub-errors. *)
Fixpoint chain (h : heap) (v : value) (path : list value) : bool :=
  match path with
  | [] => true
  | w :: rest => childb h v w && chain h w rest
  end.

(** Whether the value is an object that carries a signature itself. *)
Definition signed (h : heap) (v : value) : bool :=
  match v with
  | VRef a => own_signature (deref h a)
  | _ => false
  end.

(** What a call that returns does to the set of seen values. *)
Definition grows (seen seen' : list value) : Prop := forall x, In x seen -> In x seen'.

(** [x] carries no signature and all that the classifier visits from [x] is
    in [S]. *)
Definition closed_in (h : heap) (S : list value) (x : value) : Prop :=
  signed h x = false /\ forall w, childb h x w = true -> In w S.

(** After a call that answered false: the set has grown, the targets that are
    truthy are in it, and whatever is new in it is closed in it. *)
Definition looked_at (h : heap) (targets seen seen' : list value) : Prop :=
  grows seen seen'
  /\ (forall v, In v targets -> truthy v = true -> In v seen')
  /\ (forall x, In x seen' -> In x seen \/ closed_in h seen' x).

(** The value is an object whose message is a string matching one of the
    patterns of [DB_UNAVAILABLE_PATTERNS]. *)
Definition message_signature (h : heap) (v : value) : bool :=
  match v with
  | VRef a =>
      match o_message (deref h a) with
      | VStr m => isDatabaseUnavailableMessage m
      | _ => false
      end
  | _ => false
  end.

(** The value is an object whose code is one of [DB_UNAVAILABLE_CODES]. *)
Definition code_signature (h : heap) (v : value) : bool :=
  match v with
  | VRef a => isDbUnavailableCode (o_code (deref h a))
  | _ => false
  end.

(** The classifier accepts every error down whose causes and sub-errors there
    is an object with a message matching one of [signatures]. *)
Definition accepts_messages (signatures : list string) : Prop :=
  forall (h : heap) (error : value) (path : list value) (a : nat) (m p : string),
    chain h error path = true ->
    last path error = VRef a ->
    o_message (deref h a) = VStr m ->
    In p signatures ->
    test_literal_i p m = true ->
    isDatabaseUnavailableError h error = true.

(** What the pool hands back when both addresses of the host refuse the
    connection: an aggregate with an empty message, the code, and the two
    refusals as sub-errors. *)
Definition refused_twice : heap * value :=
  ([ {| is_Error := true; o_message := VStr ""; o_code := VStr "ECONNREFUSED";
        o_cause := VUndefined; o_errors := VRef 1; o_elements := None |};
     {| is_Error := false; o_message := VUndefined; o_code := VUndefined;
        o_cause := VUndefined; o_errors := VUndefined;
        o_elements := Some [VRef 2; VRef 3] |};
     {| is_Error := true; o_message := VStr "connect ECONNREFUSED ::1:5432";
        o_code := VStr "ECONNREFUSED"; o_cause := VUndefined; o_errors := VUndefined;
        o_elements := None |};
     {| is_Error := true; o_message := VStr "connect ECONNREFUSED 127.0.0.1:5432";
        o_code := VStr "ECONNREFUSED"; o_cause := VUndefined; o_errors := VUndefined;
        o_elements := None |} ],
   VRef 0).

(** A wrapped failure: the outer error says nothing, its cause is a timeout
    whose own cause points back at the outer error. *)
Definition wrapped_timeout : heap * value :=
  ([ {| is_Error := true; o_message := VStr "query failed"; o_code := VUndefined;
        o_cause := VRef 1; o_errors := VUndefined; o_elements := None |};
     {| is_Error := true; o_message := VStr "connect ETIMEDOUT 10.0.0.5:5432";
        o_code := VUndefined; o_cause := VRef 0; o_errors := VUndefined;
        o_elements := None |} ],
   VRef 0).

(** The environment in which no store is configured. *)
Definition demo_env (c : connection) : env := {| DATABASE_URL := None; conn := c |}.

(** A comparator is transitive when "does not come after" is. *)
Definition transitive_cmp {A} (cmp : A -> A -> Z) : Prop :=
  forall a b c, cmp a b <= 0 -> cmp b c <= 0 -> cmp a c <= 0.

(** Which tables answer a read, and on which path. *)
Inductive path := Live | Memory.

Definition serving (e : env) (dataset : DemoDataset) : option (path * DemoDataset) :=
  if negb (hasDatabaseConfig (DATABASE_URL e)) then Some (Memory, dataset)
  else match conn e with
       | Up db => Some (Live, db)
       | Unreachable h error =>
           if isDatabaseUnavailableError h error then Some (Memory, dataset) else None
       end.

(** The orders the properties speak of. *)
Definition ranks_descending (l : list SourceLinkedEvent) : Prop :=
  ordered (fun a b => le_relevance_rank b - le_relevance_rank a) l.

Definition linked_dates_descending (l : list SourceLinkedEvent) : Prop :=
  ordered (fun a b => Js.localeCompare (le_event_date b) (le_event_date a)) l.

(** The linked events of a source detail are what the tables say: each comes
    from a link of the source to a published event, and each such link is
    there. *)
Definition links_of (tables : DemoDataset) (sourceId : string) (l : list SourceLinkedEvent)
    : Prop :=
  (forall le, In le l ->
     exists link event,
       In link (eventSources tables) /\ es_source_id link = sourceId
       /\ In event (events tables) /\ evt_id event = es_event_id link
       /\ evt_status event = published /\ le = linked_event event link)
  /\ (forall link event,
        In link (eventSources tables) -> es_source_id link = sourceId ->
        In event (events tables) -> evt_id event = es_event_id link ->
        evt_status event = published ->
        exists le, In le l /\ le_id le = evt_id event
                   /\ le_relevance_rank le = es_relevance_rank link).

Definition seed_crash_and_rescue : SeedPayload :=
  {| sp_sources :=
       Some [ {| ss_source_name := "Federal Reserve History";
                 ss_source_url := "https://www.federalreservehistory.org/essays";
                 ss_source_type := Some "official"; ss_publisher := None;
                 ss_publication_or_snapshot_date := None; ss_access_date := None;
                 ss_rights_note := None; ss_notes_on_reliability := None |} ];
     sp_events :=
       Some [ {| se_slug := Some "lehman-bankruptcy"; se_title := "Lehman Brothers files";
                 se_event_date := "2008-09-15"; se_region := "US";
                 se_category := "Banking"; se_summary := "Largest filing on record.";
                 se_impact := "Funding markets froze."; se_importance_score := 5;
                 se_confidence_score := None; se_status := Some published |};
              {| se_slug := Some "black-thursday"; se_title := "Black Thursday";
                 se_event_date := "1929-10-24"; se_region := "US";
                 se_category := "Markets"; se_summary := "Record volume on the exchange.";
                 se_impact := "Start of the 1929 collapse."; se_importance_score := 5;
                 se_confidence_score := None; se_status := Some published |} ];
     sp_event_sources :=
       Some [ {| sl_event_slug := "lehman-bankruptcy";
                 sl_source_url := "https://www.federalreservehistory.org/essays";
                 sl_relevance_rank := Some 1; sl_quote_excerpt := None;
                 sl_citation_note := None |};
              {| sl_event_slug := "black-thursday";
                 sl_source_url := "https://www.federalreservehistory.org/essays";
                 sl_relevance_rank := Some 5; sl_quote_excerpt := None;
                 sl_citation_note := None |} ] |}.

Definition snapshot_crash_and_rescue : DemoDataset :=
  buildDataset (fun s => s) seed_crash_and_rescue "2024-01-01T00:00:00.000Z"
    "2024-01-01T00:00:00.000Z".

(** An environment whose store is configured and serves the given tables. *)
Definition live_env (db : DemoDataset) : env :=
  {| DATABASE_URL := Some "postgres://localhost:5432/hisweb"; conn := Up db |}.

(** The published events of the tables whose date falls on a month-day. *)
Definition matching_month_day (tables : DemoDataset) (monthDay : string)
    : list DemoEventRecord :=
  filter (fun e => is_published e
                   && String.eqb (Js.slice_from (evt_event_date e) 5) monthDay)
         (events tables).

Definition item_date_desc (a b : EventListItem) : Z :=
  Js.localeCompare (item_event_date b) (item_event_date a).

Definition item_date_then_importance (a b : EventListItem) : Z :=
  let c := Js.localeCompare (item_event_date b) (item_event_date a) in
  if negb (c =? 0) then c else item_importance_score b - item_importance_score a.

(** Two market events of the same day, the less important one first in the
    seed. *)
Definition seed_same_day : SeedPayload :=
  {| sp_sources := None;
     sp_events :=
       Some [ {| se_slug := Some "fed-statement-1987"; se_title := "Fed liquidity statement";
                 se_event_date := "1987-10-19"; se_region := "US";
                 se_category := "Policy"; se_summary := "Readiness to supply liquidity.";
                 se_impact := "Calmed dealers."; se_importance_score := 2;
                 se_confidence_score := None; se_status := Some published |};
              {| se_slug := Some "black-monday-1987"; se_title := "Black Monday";
                 se_event_date := "1987-10-19"; se_region := "Global";
                 se_category := "Markets"; se_summary := "Indexes fell by a fifth.";
                 se_impact := "Circuit breakers followed."; se_importance_score := 5;
                 se_confidence_score := None; se_status := Some published |} ];
     sp_event_sources := None |}.

Definition snapshot_same_day : DemoDataset :=
  buildDataset (fun s => s) seed_same_day "2024-01-01T00:00:00.000Z"
    "2024-01-01T00:00:00.000Z".

(** A valid body for POST /api/v1/admin/events. *)
Definition sample_input : CreateEventInput :=
  {| in_slug := None;
     in_title := "Plaza Accord";
     in_event_date := "1985-09-22";
     in_region := "Global";
     in_category := "Currency";
     in_summary := "Five governments agree to weaken the dollar.";
     in_impact := "The dollar fell by a third in two years.";
     in_importance_score := 4;
     in_confidence_score := None |}.

(** A configured store that cannot be reached: every query is rejected with
    the given error. *)
Definition unreachable_env (failure : heap * value) : env :=
  {| DATABASE_URL := Some "postgres://localhost:5432/hisweb";
     conn := Unreachable (fst failure) (snd failure) |}.

(** The two paths of [listPublishedEvents] give the same answer on the same
    tables. *)
Definition list_paths_agree (tables : DemoDataset) (filters : ListEventsFilters) : Prop :=
  listPublishedEvents (live_env tables) tables filters
  = listPublishedEvents (demo_env (Up tables)) tables filters.

(** The slugs of the tags attached to an event, in the order of the
    cross-references. *)
Definition tag_slugs_of (tables : DemoDataset) (event_id : string) : list string :=
  flat_map (fun et =>
              match Js.find (fun entry => String.eqb (tag_id entry) (et_tag_id et))
                            (tags tables) with
              | Some tag => [tag_slug tag]
              | None => []
              end)
           (filter (fun et => String.eqb (et_event_id et) event_id) (eventTags tables)).

Definition seed_one_european : SeedPayload :=
  {| sp_sources := None;
     sp_events :=
       Some [ {| se_slug := Some "erm-crisis-1992"; se_title := "Black Wednesday";
                 se_event_date := "1992-09-16"; se_region := "Europe";
                 se_category := "Currency"; se_summary := "Sterling leaves the mechanism.";
                 se_impact := "Rates cut within months."; se_importance_score := 4;
                 se_confidence_score := None; se_status := Some published |} ];
     sp_event_sources := None |}.

Definition snapshot_one_european : DemoDataset :=
  buildDataset (fun s => s) seed_one_european "2024-01-01T00:00:00.000Z"
    "2024-01-01T00:00:00.000Z".

Definition keyword_europe : ListEventsFilters :=
  {| f_date := None; f_from := None; f_to := None; f_category := None;
     f_region := None; f_tag := None; f_importanceMin := None; f_q := Some "europe";
     f_page := 1; f_pageSize := 20; f_sort := date_desc |}.

(** The day a calendar date denotes, as the number YYYYMMDD. *)
Definition date_number (s : string) : Z :=
  match list_ascii_of_string s with
  | [y1; y2; y3; y4; _; m1; m2; _; d1; d2] =>
      (1000 * digit_val y1 + 100 * digit_val y2 + 10 * digit_val y3 + digit_val y4) * 10000
      + (10 * digit_val m1 + digit_val m2) * 100
      + (10 * digit_val d1 + digit_val d2)
  | _ => 0
  end.

(** The scenario of the specification: three published events, of 1929, 2008
    and 1971, listed from 1970 on by ascending date. *)
Definition seed_three_published : SeedPayload :=
  {| sp_sources := None;
     sp_events :=
       Some [ {| se_slug := None; se_title := "Black Thursday";
                 se_event_date := "1929-10-24"; se_region := "US";
                 se_category := "Markets"; se_summary := "Record volume on the exchange.";
                 se_impact := "Start of the 1929 collapse."; se_importance_score := 5;
                 se_confidence_score := None; se_status := Some published |};
              {| se_slug := None; se_title := "Lehman Brothers files";
                 se_event_date := "2008-09-15"; se_region := "US";
                 se_category := "Banking"; se_summary := "Largest filing on record.";
                 se_impact := "Funding markets froze."; se_importance_score := 5;
                 se_confidence_score := None; se_status := Some published |};
              {| se_slug := None; se_title := "Nixon closes the gold window";
                 se_event_date := "1971-08-15"; se_region := "US";
                 se_category := "Currency"; se_summary := "Convertibility suspended.";
                 se_impact := "End of the Bretton Woods parities."; se_importance_score := 5;
                 se_confidence_score := None; se_status := Some published |} ];
     sp_event_sources := None |}.

Definition from_1970_ascending : ListEventsFilters :=
  {| f_date := None; f_from := Some "1970-01-01"; f_to := None; f_category := None;
     f_region := None; f_tag := None; f_importanceMin := None; f_q := None;
     f_page := 1; f_pageSize := 20; f_sort := date_asc |}.

(** What an ORDER BY clause lets the store answer: the rows in some order
    that respects the keys.  Rows whose keys are equal may come in any
    order. *)
Definition may_order {A} (cmp : A -> A -> Z) (rows answer : list A) : Prop :=
  Permutation rows answer /\ ordered cmp answer.

(** No two rows tie: rows at different places of the list differ in their
    keys. *)
Definition untied {A} (cmp : A -> A -> Z) (rows : list A) : Prop :=
  ForallOrdPairs (fun a b => cmp a b <> 0) rows.

(** What the two statements of [listPublishedEvents] may answer on the
    tables [db]: the count of the rows of the WHERE clause, and the page
    that LIMIT and OFFSET cut out of those rows in an order that the ORDER BY
    clause allows. *)
Definition live_listing (db : database) (filters : ListEventsFilters) (r : EventListResult)
    : Prop :=
  exists where_ sorted rows,
    buildEventWhere db filters = Returned where_
    /\ may_order (resolveSort (f_sort filters)) (filter where_ (events db)) sorted
    /\ limit_offset (f_pageSize filters) ((f_page filters - 1) * f_pageSize filters) sorted
       = Returned rows
    /\ r = mkResult filters (List.map (row_to_item db) rows)
             (Z.of_nat (List.length (filter where_ (events db)))).

(** The comparison by a first key and, where that ties, by a second key. *)
Definition then_by {A} (cmp1 cmp2 : A -> A -> Z) (a b : A) : Z :=
  if negb (cmp1 a b =? 0) then cmp1 a b else cmp2 a b.

(** Every filter off, the newest first, the first page of twenty. *)
Definition newest_first : ListEventsFilters :=
  {| f_date := None; f_from := None; f_to := None; f_category := None;
     f_region := None; f_tag := None; f_importanceMin := None; f_q := None;
     f_page := 1; f_pageSize := 20; f_sort := date_desc |}.

(** The order of the linked events of a source: of two events the one of the
    later date comes first, and of two events of the same date the one whose
    rank comes first by [rank_first]. *)
Definition dated_then_ranked (rank_first : Z -> Z -> Prop) (a b : SourceLinkedEvent) : Prop :=
  Js.str_le (le_event_date b) (le_event_date a) = true
  /\ (le_event_date a = le_event_date b ->
      rank_first (le_relevance_rank a) (le_relevance_rank b)).

Definition by_date_then_rank (rank_first : Z -> Z -> Prop) (l : list SourceLinkedEvent)
    : Prop :=
  StronglySorted (dated_then_ranked rank_first) l.

(** Which rank comes first among events of the same date: the lower one on
    the live path, the higher one on the in-memory path. *)
Definition rank_first_on (p : path) : Z -> Z -> Prop :=
  match p with
  | Live => Z.le
  | Memory => Z.ge
  end.

(** The two events of [seed_same_day], both cited by one source: the
    statement with the rank 1, the crash with the rank 5. *)
Definition seed_same_day_cited : SeedPayload :=
  {| sp_sources :=
       Some [ {| ss_source_name := "Report of the Presidential Task Force";
                 ss_source_url := "https://archive.org/details/reportofpresiden01unit";
                 ss_source_type := Some "official"; ss_publisher := None;
                 ss_publication_or_snapshot_date := None; ss_access_date := None;
                 ss_rights_note := None; ss_notes_on_reliability := None |} ];
     sp_events := sp_events seed_same_day;
     sp_event_sources :=
       Some [ {| sl_event_slug := "fed-statement-1987";
                 sl_source_url := "https://archive.org/details/reportofpresiden01unit";
                 sl_relevance_rank := Some 1; sl_quote_excerpt := None;
                 sl_citation_note := None |};
              {| sl_event_slug := "black-monday-1987";
                 sl_source_url := "https://archive.org/details/reportofpresiden01unit";
                 sl_relevance_rank := Some 5; sl_quote_excerpt := None;
                 sl_citation_note := None |} ] |}.

Definition snapshot_same_day_cited : DemoDataset :=
  buildDataset (fun s => s) seed_same_day_cited "2024-01-01T00:00:00.000Z"
    "2024-01-01T00:00:00.000Z".

End Props.

(* ================================================================== *)
(** ** Request bodies and the helpers that read them *)
(* ================================================================== *)

Module Request.

(** The value [await req.json()] hands to a validator.  A number that is an
    integer carries its value; the validators ask nothing else of a number
    than [Number.isInteger], so the other numbers are one case. *)
Inductive unknown :=
| UNull
| UBool (b : bool)
| UNum (n : Z)
| UNonInteger
| UStr (s : string)
| UArr (elements : list unknown)
| UObj (members : list (string * unknown)).

(** [asObject]: the members of an object that is not an array. *)
Definition asObject (input : unknown) : option (list (string * unknown)) :=
  match input with
  | UObj members => Some members
  | _ => None
  end.

(** [body.name]: [None] is [undefined]. *)
Definition field (body : list (string * unknown)) (name : string) : option unknown :=
  Js.map_get body name.

(** ["name" in body] *)
Definition has_key (body : list (string * unknown)) (name : string) : bool :=
  match field body name with
  | Some _ => true
  | None => false
  end.

(** [asTrimmedString]: [None] is [null]. *)
Definition asTrimmedString (input : option unknown) : option string :=
  match input with
  | Some (UStr s) =>
      let value := Js.trim s in
      if 0 <? Z.of_nat (String.length value) then Some value else None
  | _ => None
  end.

(** [asOptionalTrimmedString]: [None] is [undefined]. *)
Definition asOptionalTrimmedString (input : option unknown) : option string :=
  match input with
  | None => None
  | Some _ => asTrimmedString input
  end.

Definition asIntInRange (input : option unknown) (min max : Z) : option Z :=
  match input with
  | Some (UNum n) => if (n <? min) || (max <? n) then None else Some n
  | _ => None
  end.

End Request.

(* ================================================================== *)
(** ** lib/events.ts: validation of the admin bodies *)
(* ================================================================== *)

Module EventsInput.
Import DemoStore Runtime LiveStore Events Request.

(** [/^[a-z0-9]+(?:-[a-z0-9]+)*$/], read from the left; [after_alnum] says
    whether the character before was a letter or a digit. *)
Fixpoint isValidSlug_from (s : string) (after_alnum : bool) : bool :=
  match s with
  | EmptyString => after_alnum
  | String c s' =>
      if Js.is_alnum_lower c then isValidSlug_from s' true
      else if is_hyphen c then after_alnum && isValidSlug_from s' false
      else false
  end.

Definition isValidSlug (input : string) : bool := isValidSlug_from input false.

(** A validator answers [{ error }] or [{ value }]. *)
Definition validation (A : Type) : Type := (string + A)%type.

(** [if (!x) return { error }], then the rest with [x]. *)
Definition required {A B} (o : option A) (error : string) (k : A -> validation B)
    : validation B :=
  match o with
  | None => inl error
  | Some a => k a
  end.

Section Validate.

Variable normalizeNFKD : string -> string.

Definition validateCreateEventInput (input : unknown) : validation CreateEventInput :=
  required (asObject input) "request body must be a JSON object" (fun body =>
  let title := asTrimmedString (field body "title") in
  let eventDate := asTrimmedString (field body "event_date") in
  let region := asTrimmedString (field body "region") in
  let category := asTrimmedString (field body "category") in
  let summary := asTrimmedString (field body "summary") in
  let impact := asTrimmedString (field body "impact") in
  let importanceScore := asIntInRange (field body "importance_score") 1 5 in
  let confidenceScore :=
    match field body "confidence_score" with
    | None => Some 3
    | Some v => asIntInRange (Some v) 1 5
    end in
  let slugInput := asOptionalTrimmedString (field body "slug") in
  required title "title is required" (fun title =>
  required (match eventDate with
            | Some d => if isValidDate d then Some d else None
            | None => None
            end) "event_date must be YYYY-MM-DD" (fun eventDate =>
  required region "region is required" (fun region =>
  required category "category is required" (fun category =>
  required summary "summary is required" (fun summary =>
  required impact "impact is required" (fun impact =>
  required importanceScore "importance_score must be an integer 1-5" (fun importanceScore =>
  required confidenceScore "confidence_score must be an integer 1-5" (fun confidenceScore =>
  if match slugInput with
     | Some s => negb (isValidSlug (slugify normalizeNFKD s))
     | None => false
     end
  then inl "slug contains no valid characters"
  else
    inr {| in_slug := match slugInput with
                      | Some s => Some (slugify normalizeNFKD s)
                      | None => None
                      end;
           in_title := title;
           in_event_date := eventDate;
           in_region := region;
           in_category := category;
           in_summary := summary;
           in_impact := impact;
           in_importance_score := importanceScore;
           in_confidence_score := Some confidenceScore |}))))))))).

Record UpdateEventInput := {
  up_slug : option string;
  up_title : option string;
  up_event_date : option string;
  up_region : option string;
  up_category : option string;
  up_summary : option string;
  up_impact : option string;
  up_importance_score : option Z;
  up_confidence_score : option Z }.

(** [const value = read(body.name); if (!value) return { error }] *)
Definition or_error {A} (o : option A) (error : string) : validation A :=
  match o with
  | None => inl error
  | Some value => inr value
  end.

(** [if ("name" in body) { ...; out.name = value; }]: the field of [out]
    ([None] when the key is absent), or the error of the block. *)
Definition optional_key {A B} (body : list (string * unknown)) (name : string)
    (block : option unknown -> validation A) (k : option A -> validation B)
    : validation B :=
  if has_key body name then
    match block (field body name) with
    | inl error => inl error
    | inr value => k (Some value)
    end
  else k None.

Definition count_key {A} (o : option A) : nat :=
  match o with Some _ => 1 | None => 0 end.

(** [Object.keys(out).length] *)
Definition keys_count (out : UpdateEventInput) : nat :=
  (count_key (up_slug out) + count_key (up_title out) + count_key (up_event_date out)
   + count_key (up_region out) + count_key (up_category out) + count_key (up_summary out)
   + count_key (up_impact out) + count_key (up_importance_score out)
   + count_key (up_confidence_score out))%nat.

Definition validateUpdateEventInput (input : unknown) : validation UpdateEventInput :=
  required (asObject input) "request body must be a JSON object" (fun body =>
  optional_key body "slug"
    (fun v =>
       match asTrimmedString v with
       | None => inl "slug cannot be empty"
       | Some raw =>
           let normalized := slugify normalizeNFKD raw in
           if negb (isValidSlug normalized) then inl "slug is invalid" else inr normalized
       end) (fun slug =>
  optional_key body "title"
    (fun v => or_error (asTrimmedString v) "title cannot be empty") (fun title =>
  optional_key body "event_date"
    (fun v => or_error (match asTrimmedString v with
                        | Some d => if isValidDate d then Some d else None
                        | None => None
                        end) "event_date must be YYYY-MM-DD") (fun event_date =>
  optional_key body "region"
    (fun v => or_error (asTrimmedString v) "region cannot be empty") (fun region =>
  optional_key body "category"
    (fun v => or_error (asTrimmedString v) "category cannot be empty") (fun category =>
  optional_key body "summary"
    (fun v => or_error (asTrimmedString v) "summary cannot be empty") (fun summary =>
  optional_key body "impact"
    (fun v => or_error (asTrimmedString v) "impact cannot be empty") (fun impact =>
  optional_key body "importance_score"
    (fun v => or_error (asIntInRange v 1 5) "importance_score must be an integer 1-5")
    (fun importance_score =>
  optional_key body "confidence_score"
    (fun v => or_error (asIntInRange v 1 5) "confidence_score must be an integer 1-5")
    (fun confidence_score =>
  let out := {| up_slug := slug; up_title := title; up_event_date := event_date;
                up_region := region; up_category := category; up_summary := summary;
                up_impact := impact; up_importance_score := importance_score;
                up_confidence_score := confidence_score |} in
  if Nat.eqb (keys_count out) 0 then inl "no updatable fields provided"
  else inr out)))))))))).

End Validate.

(** *** The statement of [updateEvent] *)

(** A value bound to a placeholder. *)
Inductive sql_param :=
| PText (s : string)
| PInt (n : Z).

(** The closure [assign]: it pushes the value and writes the assignment with
    the placeholder of the position the value now has.  The state is the
    pair of the arrays [values] and [updates]. *)
Definition assign (st : list sql_param * list string) (column : string) (value : sql_param)
    (cast : string) : list sql_param * list string :=
  let values := (fst st ++ [value])%list in
  let index := Z.of_nat (List.length values) in
  (values,
   (snd st ++ [(column ++ " = $" ++ Js.number_to_string index ++ cast)%string])%list).

(** [if (input.x !== undefined) assign("x", input.x, cast)] *)
Definition assign_if {A} (o : option A) (param : A -> sql_param) (column cast : string)
    (st : list sql_param * list string) : list sql_param * list string :=
  match o with
  | Some value => assign st column (param value) cast
  | None => st
  end.

(** [values] and [updates] when the nine tests are done, before the test on
    [updates.length]. *)
Definition updateEvent_bindings (eventId : string) (input : UpdateEventInput)
    : list sql_param * list string :=
  let st := ([PText eventId], []) in
  let st := assign_if (up_slug input) PText "slug" "" st in
  let st := assign_if (up_title input) PText "title" "" st in
  let st := assign_if (up_event_date input) PText "event_date" "::date" st in
  let st := assign_if (up_region input) PText "region" "" st in
  let st := assign_if (up_category input) PText "category" "" st in
  let st := assign_if (up_summary input) PText "summary" "" st in
  let st := assign_if (up_impact input) PText "impact" "" st in
  let st := assign_if (up_importance_score input) PInt "importance_score" "" st in
  assign_if (up_confidence_score input) PInt "confidence_score" "" st.

End EventsInput.

(* ================================================================== *)
(** ** The classifier that reads the message only (the other copy of
       runtime.ts) *)
(* ================================================================== *)

Module RuntimeMessageOnly.
Import Runtime.

(** [isDatabaseUnavailableMessage(toErrorMessage(error))] *)
Definition isDatabaseUnavailableError (h : heap) (error : value) : bool :=
  isDatabaseUnavailableMessage (toErrorMessage h error).

End RuntimeMessageOnly.

(* ================================================================== *)
(** ** scripts/import-seed.mjs: what the script does with the reply of the
       server *)
(* ================================================================== *)

Module ImportSeedCli.
Import Runtime Api ImportSeed.

(** [parsed?.error?.name ?? ""] inside a template literal *)
Definition error_text (parsed : json) (read : json -> option json) : string :=
  match get_field parsed "error" with
  | Some error =>
      match read error with
      | None | Some JNull => ""
      | Some v => js_String v
      end
  | None => ""
  end.

Definition isDbUnavailable (parsed : json) (status : Z) : bool :=
  if negb (status =? 503) then false
  else
    let code := match get_field parsed "error" with
                | Some error => get_field error "code"
                | None => None
                end in
    let message :=
      error_text parsed (fun error => get_field error "message") ++ " "
      ++ error_text parsed
           (fun error => match get_field error "details" with
                         | Some details => get_field details "original_message"
                         | None => None
                         end) in
    match code with
    | Some (JStr c) =>
        String.eqb c "SERVICE_UNAVAILABLE" && test_literal_i "DATABASE_URL is not set" message
    | _ => false
    end.

(** The body that lib/api.ts gives to an error reply:
    [{ error: { code, message, details } }], where [details] holds the
    original message for a SERVICE_UNAVAILABLE reply and nothing
    otherwise. *)
Definition error_body (code message : string) (original_message : option string) : json :=
  JObj [ ("error",
          JObj [ ("code", JStr code);
                 ("message", JStr message);
                 ("details",
                  JObj match original_message with
                       | Some m => [("original_message", JStr m)]
                       | None => []
                       end) ]) ].

(** What [main] does with the reply to its POST once it is parsed. *)
Inductive decision :=
| import_success
| demo_fallback
| import_failed.

(** [response.ok] *)
Definition response_ok (status : Z) : bool := (200 <=? status) && (status <=? 299).

Definition main_after_reply (parsed : json) (status : Z) : decision :=
  if negb (response_ok status) then
    if isDbUnavailable parsed status then demo_fallback else import_failed
  else import_success.

End ImportSeedCli.

(* ================================================================== *)
(** ** lib/events.ts: the detail of a published event *)
(* ================================================================== *)

Module EventDetails.
Import DemoStore Runtime LiveStore Events.

Record EventSource := {
  esrc_id : string;
  esrc_source_name : string;
  esrc_source_url : string;
  esrc_source_type : DemoSourceType;
  esrc_publisher : option string;
  esrc_publication_or_snapshot_date : option string;
  esrc_access_date : option string;
  esrc_rights_note : option string;
  esrc_notes_on_reliability : option string;
  esrc_quote_excerpt : option string;
  esrc_citation_note : option string;
  esrc_relevance_rank : Z }.

Record EventTimeline := {
  etl_id : string;
  etl_title : string;
  etl_slug : string;
  etl_sequence_no : Z }.

Record EventDetail := {
  d_id : string;
  d_slug : string;
  d_title : string;
  d_event_date : string;
  d_region : string;
  d_category : string;
  d_summary : string;
  d_impact : string;
  d_importance_score : Z;
  d_confidence_score : Z;
  d_published_at : option string;
  d_tags : list string;
  d_sources : list EventSource;
  d_timelines : list EventTimeline }.

(** A source as an event cites it: the columns of the source and those of
    the link. *)
Definition event_source (source : DemoSourceRecord) (link : DemoEventSourceRecord)
    : EventSource :=
  {| esrc_id := src_id source;
     esrc_source_name := src_source_name source;
     esrc_source_url := src_source_url source;
     esrc_source_type := src_source_type source;
     esrc_publisher := src_publisher source;
     esrc_publication_or_snapshot_date := src_publication_or_snapshot_date source;
     esrc_access_date := src_access_date source;
     esrc_rights_note := src_rights_note source;
     esrc_notes_on_reliability := src_notes_on_reliability source;
     esrc_quote_excerpt := es_quote_excerpt link;
     esrc_citation_note := es_citation_note link;
     esrc_relevance_rank := es_relevance_rank link |}.

Definition event_timeline (timeline : DemoTimelineRecord) (link : DemoTimelineEventRecord)
    : EventTimeline :=
  {| etl_id := tl_id timeline;
     etl_title := tl_title timeline;
     etl_slug := tl_slug timeline;
     etl_sequence_no := te_sequence_no link |}.

Definition event_detail (event : DemoEventRecord) (tags : list string)
    (sources : list EventSource) (timelines : list EventTimeline) : EventDetail :=
  {| d_id := evt_id event;
     d_slug := evt_slug event;
     d_title := evt_title event;
     d_event_date := evt_event_date event;
     d_region := evt_region event;
     d_category := evt_category event;
     d_summary := evt_summary event;
     d_impact := evt_impact event;
     d_importance_score := evt_importance_score event;
     d_confidence_score := evt_confidence_score event;
     d_published_at := evt_published_at event;
     d_tags := tags;
     d_sources := sources;
     d_timelines := timelines |}.

Definition getPublishedEventBySlugFromDemo (dataset : DemoDataset) (slug : string)
    : option EventDetail :=
  match Js.find (fun entry => String.eqb (evt_slug entry) slug && is_published entry)
                (events dataset) with
  | None => None
  | Some event =>
      let tagIds :=
        List.map et_tag_id
          (filter (fun entry => String.eqb (et_event_id entry) (evt_id event))
                  (eventTags dataset)) in
      let tags :=
        Js.sort_strings
          (List.map tag_slug
             (filter (fun entry => existsb (String.eqb (tag_id entry)) tagIds)
                     (tags dataset))) in
      let sourceLinks :=
        Js.sort (fun a b => es_relevance_rank a - es_relevance_rank b)
          (filter (fun entry => String.eqb (es_event_id entry) (evt_id event))
                  (eventSources dataset)) in
      let sources :=
        keep_some
          (List.map
             (fun link =>
                match Js.find (fun entry => String.eqb (src_id entry) (es_source_id link))
                              (sources dataset) with
                | None => None
                | Some source => Some (event_source source link)
                end) sourceLinks) in
      let timelineLinks :=
        Js.sort (fun a b => te_sequence_no a - te_sequence_no b)
          (filter (fun entry => String.eqb (te_event_id entry) (evt_id event))
                  (timelineEvents dataset)) in
      let timelines :=
        keep_some
          (List.map
             (fun link =>
                match Js.find (fun entry => String.eqb (tl_id entry) (te_timeline_id link))
                              (timelines dataset) with
                | None => None
                | Some timeline => Some (event_timeline timeline link)
                end) timelineLinks) in
      Some (event_detail event tags sources timelines)
  end.

Section Live.

(** The order of the store on two values of [timestamptz], each given by its
    text: negative when the first is the earlier one. *)
Variable compare_timestamptz : string -> string -> Z.

(** [DESC NULLS LAST] on a column that may be null *)
Definition desc_nulls_last (a b : option string) : Z :=
  match a, b with
  | Some x, Some y => compare_timestamptz y x
  | Some _, None => -1
  | None, Some _ => 1
  | None, None => 0
  end.

(** [ORDER BY es.relevance_rank ASC, s.publication_or_snapshot_date DESC
    NULLS LAST] *)
Definition sourcesSql_order (a b : EventSource) : Z :=
  if negb (esrc_relevance_rank a =? esrc_relevance_rank b)
  then esrc_relevance_rank a - esrc_relevance_rank b
  else desc_nulls_last (esrc_publication_or_snapshot_date a)
                       (esrc_publication_or_snapshot_date b).

(** The three statements of the live branch: the event with its tags, then
    [event_sources es JOIN sources s ON s.id = es.source_id], then
    [timeline_events te JOIN timelines t ON t.id = te.timeline_id], both
    restricted to the event. *)
Definition getPublishedEventBySlug_query (db : database) (slug : string)
    : outcome (option EventDetail) :=
  match filter (fun e => String.eqb (evt_slug e) slug && is_published e) (events db) with
  | [] => Returned None
  | eventRow :: _ =>
      let sourcesResult :=
        order_by sourcesSql_order
          (flat_map (fun es =>
                       List.map (fun s => event_source s es)
                         (filter (fun s => String.eqb (src_id s) (es_source_id es))
                                 (sources db)))
                    (filter (fun es => String.eqb (es_event_id es) (evt_id eventRow))
                            (eventSources db))) in
      let timelinesResult :=
        order_by (fun a b => etl_sequence_no a - etl_sequence_no b)
          (flat_map (fun te =>
                       List.map (fun t => event_timeline t te)
                         (filter (fun t => String.eqb (tl_id t) (te_timeline_id te))
                                 (timelines db)))
                    (filter (fun te => String.eqb (te_event_id te) (evt_id eventRow))
                            (timelineEvents db))) in
      Returned (Some (event_detail eventRow (tagset db eventRow) sourcesResult
                        timelinesResult))
  end.

Definition getPublishedEventBySlug (e : env) (dataset : DemoDataset) (slug : string)
    : outcome (option EventDetail) :=
  if negb (hasDatabaseConfig (DATABASE_URL e))
  then Returned (getPublishedEventBySlugFromDemo dataset slug)
  else catch_unavailable
         (with_pool e (fun db => getPublishedEventBySlug_query db slug))
         (getPublishedEventBySlugFromDemo dataset slug).

End Live.

End EventDetails.

(* ================================================================== *)
(** ** lib/timelines.ts: a timeline with its events *)
(* ================================================================== *)

Module Timelines.
Import DemoStore Runtime LiveStore Events.

Record TimelineEventItem := {
  tev_id : string;
  tev_slug : string;
  tev_title : string;
  tev_event_date : string;
  tev_region : string;
  tev_category : string;
  tev_summary : string;
  tev_importance_score : Z;
  tev_confidence_score : Z;
  tev_sequence_no : Z }.

(** [TimelineDetail]: the columns of the timeline and its events. *)
Record TimelineDetail := {
  td_timeline : DemoTimelineRecord;
  td_events : list TimelineEventItem }.

Definition timeline_event (event : DemoEventRecord) (entry : DemoTimelineEventRecord)
    : TimelineEventItem :=
  {| tev_id := evt_id event;
     tev_slug := evt_slug event;
     tev_title := evt_title event;
     tev_event_date := evt_event_date event;
     tev_region := evt_region event;
     tev_category := evt_category event;
     tev_summary := evt_summary event;
     tev_importance_score := evt_importance_score event;
     tev_confidence_score := evt_confidence_score event;
     tev_sequence_no := te_sequence_no entry |}.

(** The in-memory branch of [getTimelineBySlug] (written out twice in the
    function, before the [try] and in the [catch]). *)
Definition getTimelineBySlugFromDemo (dataset : DemoDataset) (slug : string)
    : option TimelineDetail :=
  match Js.find (fun entry => String.eqb (tl_slug entry) slug) (timelines dataset) with
  | None => None
  | Some timeline =>
      let events :=
        keep_some
          (List.map
             (fun entry =>
                match Js.find (fun candidate =>
                                 String.eqb (evt_id candidate) (te_event_id entry)
                                 && is_published candidate) (events dataset) with
                | None => None
                | Some event => Some (timeline_event event entry)
                end)
             (Js.sort (fun a b => te_sequence_no a - te_sequence_no b)
                (filter (fun entry => String.eqb (te_timeline_id entry) (tl_id timeline))
                        (timelineEvents dataset)))) in
      Some {| td_timeline := timeline; td_events := events |}
  end.

(** [ORDER BY te.sequence_no ASC, e.event_date DESC] *)
Definition eventsSql_order (a b : TimelineEventItem) : Z :=
  if negb (tev_sequence_no a =? tev_sequence_no b)
  then tev_sequence_no a - tev_sequence_no b
  else Js.localeCompare (tev_event_date b) (tev_event_date a).

(** The two statements of the live branch: the timeline row, then
    [timeline_events te JOIN events e ON e.id = te.event_id] restricted to
    the timeline and to published events. *)
Definition getTimelineBySlug_query (db : database) (slug : string)
    : outcome (option TimelineDetail) :=
  match filter (fun row => String.eqb (tl_slug row) slug) (timelines db) with
  | [] => Returned None
  | timeline :: _ =>
      let joined :=
        flat_map (fun te =>
                    List.map (fun e => timeline_event e te)
                      (filter (fun e => String.eqb (evt_id e) (te_event_id te)
                                        && is_published e) (events db)))
                 (filter (fun te => String.eqb (te_timeline_id te) (tl_id timeline))
                         (timelineEvents db)) in
      Returned (Some {| td_timeline := timeline;
                        td_events := order_by eventsSql_order joined |})
  end.

Definition getTimelineBySlug (e : env) (dataset : DemoDataset) (slug : string)
    : outcome (option TimelineDetail) :=
  if negb (hasDatabaseConfig (DATABASE_URL e))
  then Returned (getTimelineBySlugFromDemo dataset slug)
  else catch_unavailable
         (with_pool e (fun db => getTimelineBySlug_query db slug))
         (getTimelineBySlugFromDemo dataset slug).

End Timelines.

(* ================================================================== *)
(** ** app/events/stream/page.tsx: the month axis and the era bands *)
(* ================================================================== *)

Module EventStream.
Import DemoStore LiveStore Events.

(** [Number.parseInt(s, 10)]: white space is skipped, a sign is read, then
    the digits that follow; [None] is [NaN], the result when there is no
    digit.  (The value is exact as long as the digits are fifteen at most;
    the page reads slices of four characters at most.) *)
Fixpoint digits_value (s : string) (acc : Z) : Z :=
  match s with
  | String c s' => if Js.is_digit c then digits_value s' (10 * acc + digit_val c) else acc
  | EmptyString => acc
  end.

Definition starts_with_digit (s : string) : bool :=
  match s with
  | String c _ => Js.is_digit c
  | EmptyString => false
  end.

Definition parseInt (input : string) : option Z :=
  match Js.trimStart input with
  | String "-" rest =>
      if starts_with_digit rest then Some (- digits_value rest 0) else None
  | String "+" rest =>
      if starts_with_digit rest then Some (digits_value rest 0) else None
  | s => if starts_with_digit s then Some (digits_value s 0) else None
  end.

Definition toMonthSerial (date : string) : option Z :=
  match parseInt (Js.slice date 0 4), parseInt (Js.slice date 5 7) with
  | Some year, Some month =>
      if (month <? 1) || (12 <? month) then None else Some (year * 12 + (month - 1))
  | _, _ => None
  end.

(** [Math.floor(serial / 12)] and [serial % 12], the remainder that has the
    sign of the serial. *)
Definition fromMonthSerial (serial : Z) : Z * Z :=
  (serial / 12, Z.rem serial 12 + 1).

Record MonthCell := {
  mc_serial : Z;
  mc_year : Z;
  mc_month : Z;
  mc_daysInMonth : Z }.

(** [new Date(Date.UTC(year, month, 0)).getUTCDate()]: [Date.UTC] reads a
    year from 0 to 99 as a year of the twentieth century, carries a month
    index outside 0..11 into the year, and day 0 is the last day of the
    month before.  (Within the range of [Date], some 270,000 years either
    way.) *)
Definition utc_year (year : Z) : Z :=
  if (0 <=? year) && (year <=? 99) then 1900 + year else year.

Definition last_day (year month : Z) : Z :=
  let ym := utc_year year + month / 12 in
  let mn := month mod 12 in
  if mn =? 0 then days_in_month (ym - 1) 12 else days_in_month ym mn.

Definition buildMonthWindow (startSerial span : Z) : list MonthCell :=
  List.map (fun idx =>
              let serial := startSerial + Z.of_nat idx in
              let '(year, month) := fromMonthSerial serial in
              {| mc_serial := serial; mc_year := year; mc_month := month;
                 mc_daysInMonth := last_day year month |})
           (seq 0 (Z.to_nat span)).

(** [Math.min(...serials)] and [Math.max(...serials)] of a list that is not
    empty *)
Definition min_of (first : Z) (rest : list Z) : Z := fold_left Z.min rest first.
Definition max_of (first : Z) (rest : list Z) : Z := fold_left Z.max rest first.

Definition buildMonthSpan (events : list EventListItem) : option (list MonthCell) :=
  match keep_some (List.map (fun entry => toMonthSerial (item_event_date entry)) events) with
  | [] => None
  | first :: rest =>
      let minSerial := min_of first rest in
      let maxSerial := max_of first rest in
      Some (buildMonthWindow minSerial (maxSerial - minSerial + 1))
  end.

(** [input.replace(/\s+/g, " ")] *)
Fixpoint collapse_spaces (s : string) (in_run : bool) : string :=
  match s with
  | EmptyString => EmptyString
  | String c s' =>
      if Js.is_space c then
        if in_run then collapse_spaces s' true
        else String " " (collapse_spaces s' true)
      else String c (collapse_spaces s' false)
  end.

Definition CHIP_TITLE_MAX_CHARS : Z := 64.

Definition shortTitle (input : string) : string :=
  let compact := Js.trim (collapse_spaces input false) in
  if Z.of_nat (String.length compact) <=? CHIP_TITLE_MAX_CHARS then compact
  else Js.trimEnd (Js.slice compact 0 (Z.to_nat (CHIP_TITLE_MAX_CHARS - 3))) ++ "...".

(** *** The era bands *)

Record EraDef := {
  era_key : string;
  era_label : string;
  era_start : string;
  era_end : string;
  era_tone : string }.

Record PositionedEra := {
  pe_key : string;
  pe_label : string;
  pe_start : string;
  pe_end : string;
  pe_tone : string;
  pe_leftPx : Z;
  pe_widthPx : Z;
  pe_lane : nat }.

Definition MONTH_WIDTH_PX : Z := 118.
Definition AXIS_SIDE_PADDING_PX : Z := 40.

Definition ERA_BACKGROUND_BANDS : list EraDef :=
  [ {| era_key := "ww1"; era_label := "World War I";
       era_start := "1914-07-28"; era_end := "1918-11-11"; era_tone := "ww1" |};
    {| era_key := "great-depression-new-deal"; era_label := "Great Depression & New Deal";
       era_start := "1929-10-24"; era_end := "1939-09-01"; era_tone := "macro-crisis" |};
    {| era_key := "ww2"; era_label := "World War II";
       era_start := "1939-09-01"; era_end := "1945-09-02"; era_tone := "ww2" |};
    {| era_key := "bretton-woods-system"; era_label := "Bretton Woods System";
       era_start := "1944-07-01"; era_end := "1971-08-15"; era_tone := "monetary-order" |};
    {| era_key := "decolonization-wave"; era_label := "Decolonization Wave";
       era_start := "1945-01-01"; era_end := "1975-12-31"; era_tone := "decolonization" |};
    {| era_key := "cold-war"; era_label := "Cold War";
       era_start := "1947-03-12"; era_end := "1991-12-26"; era_tone := "cold-war" |};
    {| era_key := "china-reform-opening-up"; era_label := "China Reform & Opening-up";
       era_start := "1978-12-18"; era_end := "2100-12-31"; era_tone := "china-reform" |};
    {| era_key := "globalization-offshoring"; era_label := "Globalization & Offshoring";
       era_start := "1985-01-01"; era_end := "2008-09-15"; era_tone := "globalization" |};
    {| era_key := "war-on-terror-cycle"; era_label := "War on Terror Cycle";
       era_start := "2001-09-11"; era_end := "2021-08-30"; era_tone := "security-cycle" |};
    {| era_key := "gfc-qe-era"; era_label := "GFC & QE Era";
       era_start := "2008-09-15"; era_end := "2021-12-31"; era_tone := "macro-crisis" |};
    {| era_key := "energy-transition-acceleration";
       era_label := "Energy Transition Acceleration";
       era_start := "2015-12-12"; era_end := "2100-12-31"; era_tone := "energy-transition" |};
    {| era_key := "us-china-strategic-competition";
       era_label := "U.S.-China Strategic Competition";
       era_start := "2018-03-22"; era_end := "2100-12-31"; era_tone := "geo-competition" |};
    {| era_key := "post-pandemic-inflation-cycle";
       era_label := "Post-pandemic Inflation/High-rate Cycle";
       era_start := "2021-01-01"; era_end := "2100-12-31"; era_tone := "inflation-cycle" |} ].

(** [while (lane < laneRightEdges.length && leftPx - laneRightEdges[lane] <
    12) lane += 1], started at [lane] with the edges from there on. *)
Fixpoint first_lane (edges : list Z) (leftPx : Z) (lane : nat) : nat :=
  match edges with
  | [] => lane
  | edge :: rest =>
      if leftPx - edge <? 12 then first_lane rest leftPx (S lane) else lane
  end.

(** [if (lane === laneRightEdges.length) laneRightEdges.push(-999);
    laneRightEdges[lane] = value], for a lane that is at most the number of
    edges, as the loop leaves it. *)
Fixpoint set_edge (edges : list Z) (lane : nat) (value : Z) : list Z :=
  match edges, lane with
  | [], _ => [value]
  | _ :: rest, O => value :: rest
  | edge :: rest, S lane' => edge :: set_edge rest lane' value
  end.

(** The body of the loop over the eras; the state is the pair of
    [laneRightEdges] and [positioned]. *)
Definition place_era (rangeStartSerial rangeEndSerial : Z)
    (st : list Z * list PositionedEra) (era : EraDef) : list Z * list PositionedEra :=
  match toMonthSerial (era_start era), toMonthSerial (era_end era) with
  | Some eraStartSerial, Some eraEndSerial =>
      let visibleStart := Z.max eraStartSerial rangeStartSerial in
      let visibleEnd := Z.min eraEndSerial rangeEndSerial in
      if visibleEnd <? visibleStart then st
      else
        let startIdx := visibleStart - rangeStartSerial in
        let visibleSpan := visibleEnd - visibleStart + 1 in
        let leftPx := AXIS_SIDE_PADDING_PX + startIdx * MONTH_WIDTH_PX + 2 in
        let widthPx := Z.max 88 (visibleSpan * MONTH_WIDTH_PX - 4) in
        let lane := first_lane (fst st) leftPx 0 in
        (set_edge (fst st) lane (leftPx + widthPx),
         (snd st ++ [{| pe_key := era_key era; pe_label := era_label era;
                        pe_start := era_start era; pe_end := era_end era;
                        pe_tone := era_tone era;
                        pe_leftPx := leftPx; pe_widthPx := widthPx;
                        pe_lane := lane |}])%list)
  | _, _ => st
  end.

(** [layoutEraBands]: the positioned bands and [laneCount]. *)
Definition layoutEraBands (months : list MonthCell) : list PositionedEra * nat :=
  match months with
  | [] => ([], O)
  | first :: _ =>
      let rangeStartSerial := mc_serial first in
      let rangeEndSerial := mc_serial (last months first) in
      let st := fold_left (place_era rangeStartSerial rangeEndSerial)
                          ERA_BACKGROUND_BANDS ([], []) in
      (snd st, List.length (fst st))
  end.

End EventStream.

(* ================================================================== *)
(** ** app/timelines/[slug]/page.tsx: the events of a timeline by month *)
(* ================================================================== *)

Module TimelinePage.
Import DemoStore Events Timelines.

Record TimelineMonthGroup := {
  g_key : string;
  g_anchor : string;
  g_label : string;
  g_events : list TimelineEventItem }.

Definition toMonthKey (eventDate : string) : string := Js.slice eventDate 0 7.

Section Groups.

(** [toMonthLabel]: the name of the month and the year as the runtime
    writes them for the locale en-US, or the key itself when it does not
    name a month. *)
Variable toMonthLabel : string -> string.

(** [if (!grouped.has(key)) grouped.set(key, []); grouped.get(key).push(event)] *)
Definition group_step (grouped : Js.Map (list TimelineEventItem)) (event : TimelineEventItem)
    : Js.Map (list TimelineEventItem) :=
  let key := toMonthKey (tev_event_date event) in
  let grouped := if negb (Js.map_has grouped key) then Js.map_set grouped key [] else grouped in
  match Js.map_get grouped key with
  | Some bucket => Js.map_set grouped key (bucket ++ [event])%list
  | None => grouped
  end.

Definition groupTimelineEventsByMonth (events : list TimelineEventItem)
    : list TimelineMonthGroup :=
  List.map (fun entry =>
              {| g_key := fst entry;
                 g_anchor := "month-" ++ fst entry;
                 g_label := toMonthLabel (fst entry);
                 g_events := snd entry |})
           (fold_left group_step events []).

End Groups.

(** [getDateRange]: [None] is [null]. *)
Definition getDateRange (events : list TimelineEventItem) : option string * option string :=
  let sorted := Js.sort_strings (List.map tev_event_date events) in
  (match sorted with
   | first :: _ => Some first
   | [] => None
   end,
   match sorted with
   | first :: _ => Some (last sorted first)
   | [] => None
   end).

End TimelinePage.

(* ================================================================== *)
(** ** scripts/seed-coverage.mjs: the events of a year by month *)
(* ================================================================== *)

Module SeedCoverage.
Import Events ImportSeed.

Definition MONTHS : list string :=
  ["01"; "02"; "03"; "04"; "05"; "06"; "07"; "08"; "09"; "10"; "11"; "12"].

(** [/^\d{4}-\d{2}-\d{2}$/] *)
Definition isValidDateString (value : string) : bool := isValidDate value.

Record counts := {
  monthCounts : Js.Map Z;
  invalidRows : list json;
  matchedEvents : Z }.

(** [event?.slug ?? "<unknown-slug>"] *)
Definition slug_or_unknown (event : json) : json :=
  match get_field event "slug" with
  | None | Some JNull => JStr "<unknown-slug>"
  | Some v => v
  end.

(** The body of the loop of [getMonthCounts]. *)
Definition count_event (year : Z) (statusFilter : string) (st : counts) (event : json)
    : counts :=
  let date := get_field event "event_date" in
  let status := match get_field event "status" with
                | Some (JStr s) => Js.toLowerCase s
                | _ => ""
                end in
  if negb (String.eqb statusFilter "") && negb (String.eqb status statusFilter) then st
  else
    match date with
    | Some (JStr date) =>
        if negb (isValidDateString date) then
          {| monthCounts := monthCounts st;
             invalidRows := (invalidRows st ++ [slug_or_unknown event])%list;
             matchedEvents := matchedEvents st |}
        else if negb (Js.startsWith date (Js.number_to_string year ++ "-")) then st
        else
          let month := Js.slice date 5 7 in
          if negb (Js.map_has (monthCounts st) month) then
            {| monthCounts := monthCounts st;
               invalidRows := (invalidRows st ++ [slug_or_unknown event])%list;
               matchedEvents := matchedEvents st |}
          else
            {| monthCounts :=
                 Js.map_set (monthCounts st) month
                   (match Js.map_get (monthCounts st) month with
                    | Some n => n
                    | None => 0
                    end + 1);
               invalidRows := invalidRows st;
               matchedEvents := matchedEvents st + 1 |}
    | _ =>
        {| monthCounts := monthCounts st;
           invalidRows := (invalidRows st ++ [slug_or_unknown event])%list;
           matchedEvents := matchedEvents st |}
    end.

Definition getMonthCounts (events : list json) (year : Z) (statusFilter : string) : counts :=
  fold_left (count_event year statusFilter) events
    {| monthCounts := List.map (fun month => (month, 0)) MONTHS;
       invalidRows := [];
       matchedEvents := 0 |}.

(** [MONTHS.filter((month) => (monthCounts.get(month) ?? 0) === 0)] *)
Definition missingMonths (c : counts) : list string :=
  filter (fun month => match Js.map_get (monthCounts c) month with
                       | Some n => n =? 0
                       | None => true
                       end) MONTHS.

End SeedCoverage.

(* ================================================================== *)
(** ** The vocabulary of the further properties *)
(* ================================================================== *)

Module Notions.
Import Js DemoStore Runtime LiveStore Events Sources Api Props Request EventsInput EventDetails
       Timelines.

(** The shape of a string in which every run of other characters has been
    replaced by one hyphen: letters, digits and hyphens, no two hyphens in a
    row.  [after_hyphen] says whether the character before was a hyphen. *)
Fixpoint hyphenated (s : string) (after_hyphen : bool) : bool :=
  match s with
  | EmptyString => true
  | String c s' =>
      if is_alnum_lower c then hyphenated s' false
      else is_hyphen c && negb after_hyphen && hyphenated s' true
  end.

(** The chain of replacements shared by [slugify] and [normalizeSlug]. *)
Definition slug_core (lowered : string) : string :=
  collapse_hyphens
    (strip_trailing_hyphens (strip_leading_hyphens (replace_non_alnum_runs lowered false)))
    false.

(** A text field as the validators let it through: not empty, with no white
    space at either end. *)
Definition present (s : string) : Prop := s <> "" /\ Js.trim s = s.

(** A score of the scale from 1 to 5. *)
Definition score (n : Z) : Prop := 1 <= n <= 5.

(** A body with every field of an event. *)
Definition body_plaza_accord : unknown :=
  UObj [ ("title", UStr "  Plaza Accord ");
         ("event_date", UStr "1985-09-22");
         ("region", UStr "Global");
         ("category", UStr "Currency");
         ("summary", UStr "Five governments agree to weaken the dollar.");
         ("impact", UStr "The dollar fell by a third in two years.");
         ("importance_score", UNum 4);
         ("slug", UStr "Plaza Accord 1985") ].

(** A body that changes the title and the importance of an event. *)
Definition body_retitle : unknown :=
  UObj [ ("title", UStr "Plaza Accord signed"); ("importance_score", UNum 5) ].

(** What the validator makes of [body_plaza_accord]. *)
Definition input_plaza_accord : CreateEventInput :=
  {| in_slug := Some "plaza-accord-1985";
     in_title := "Plaza Accord";
     in_event_date := "1985-09-22";
     in_region := "Global";
     in_category := "Currency";
     in_summary := "Five governments agree to weaken the dollar.";
     in_impact := "The dollar fell by a third in two years.";
     in_importance_score := 4;
     in_confidence_score := Some 3 |}.

Definition update_retitle : UpdateEventInput :=
  {| up_slug := None; up_title := Some "Plaza Accord signed"; up_event_date := None;
     up_region := None; up_category := None; up_summary := None; up_impact := None;
     up_importance_score := Some 5; up_confidence_score := None |}.

(** "If the field is set, it satisfies [P]". *)
Definition when_set {A} (P : A -> Prop) (o : option A) : Prop :=
  match o with
  | Some a => P a
  | None => True
  end.

(** The fields that an update sets, in the order in which [updateEvent]
    tests them: column, bound value, cast. *)
Definition set_field {A} (o : option A) (param : A -> sql_param) (column cast : string)
    : list (string * sql_param * string) :=
  match o with
  | Some value => [(column, param value, cast)]
  | None => []
  end.

Definition set_fields (input : UpdateEventInput) : list (string * sql_param * string) :=
  (set_field (up_slug input) PText "slug" ""
   ++ set_field (up_title input) PText "title" ""
   ++ set_field (up_event_date input) PText "event_date" "::date"
   ++ set_field (up_region input) PText "region" ""
   ++ set_field (up_category input) PText "category" ""
   ++ set_field (up_summary input) PText "summary" ""
   ++ set_field (up_impact input) PText "impact" ""
   ++ set_field (up_importance_score input) PInt "importance_score" ""
   ++ set_field (up_confidence_score input) PInt "confidence_score" "")%list.

(** The assignments of a list of fields, the first one with the placeholder
    [index]. *)
Fixpoint placeholders (index : Z) (fields : list (string * sql_param * string))
    : list string :=
  match fields with
  | [] => []
  | (column, _, cast) :: rest =>
      (column ++ " = $" ++ Js.number_to_string index ++ cast)
      :: placeholders (index + 1) rest
  end.

(** What a page of a listing is, for the sequence [all] that is paged:
    [total] is the length of [all], the page is the window of [all] that the
    page number and size select, and the number of pages is the least one
    that holds [all]. *)
Definition paged (filters : ListEventsFilters) (r : EventListResult) : Prop :=
  let size := f_pageSize filters in
  let offset := (f_page filters - 1) * size in
  page (pagination r) = f_page filters
  /\ page_size (pagination r) = size
  /\ 0 <= total (pagination r)
  /\ Z.of_nat (List.length (items r)) = Z.min size (Z.max 0 (total (pagination r) - offset))
  /\ (total (pagination r) = 0 -> total_pages (pagination r) = 0)
  /\ (0 < total (pagination r) ->
      (total_pages (pagination r) - 1) * size < total (pagination r)
      <= total_pages (pagination r) * size).

(** The keys of a list in the order in which they first appear, those of
    [seen] left out. *)
Fixpoint distinct (keys seen : list string) : list string :=
  match keys with
  | [] => []
  | k :: rest =>
      if existsb (String.eqb k) seen then distinct rest seen
      else k :: distinct rest (k :: seen)
  end.

(** The elements of a list that are the first with their key, those whose
    key is in [seen] left out. *)
Fixpoint first_with {A} (key : A -> string) (l : list A) (seen : list string) : list A :=
  match l with
  | [] => []
  | x :: rest =>
      if existsb (String.eqb (key x)) seen then first_with key rest seen
      else x :: first_with key rest (key x :: seen)
  end.

(** The entries of a timeline among the cross-references. *)
Definition timeline_members (entries : list DemoTimelineEventRecord) (timeline_id : string)
    : list DemoTimelineEventRecord :=
  filter (fun te => String.eqb (te_timeline_id te) timeline_id) entries.

(** The test that an event passes to be put on the timeline of a slug. *)
Definition timeline_test (timeline_slug : string) (event : DemoEventRecord) : bool :=
  if String.eqb timeline_slug "global-financial-turning-points" then true
  else if String.eqb timeline_slug "crisis-and-stabilization" then is_crisis event
  else if String.eqb timeline_slug "us-soviet-cold-war" then slug_starts "cold-war-" event
  else if String.eqb timeline_slug "china-us-since-1900" then slug_starts "china-us-" event
  else if String.eqb timeline_slug "china-soviet-relations"
       then slug_starts "china-soviet-" event
  else if String.eqb timeline_slug "china-wars-since-1900" then slug_starts "china-war-" event
  else if String.eqb timeline_slug "us-wars-since-1900" then slug_starts "us-war-" event
  else if String.eqb timeline_slug "ccp-history-since-1921" then slug_starts "ccp-" event
  else if String.eqb timeline_slug "world-war-ii" then slug_starts "wwii-" event
  else false.

(** The published events in the order of the timelines: by date, then by
    slug. *)
Definition chronological (events : list DemoEventRecord) : list DemoEventRecord :=
  Js.sort sortByEventDateAsc (filter is_published events).

(** The tag that [buildTags] makes for the category of an event. *)
Definition tag_of_category (normalizeNFKD : string -> string) (event : DemoEventRecord)
    : DemoTagRecord :=
  let slug := normalizeSlug normalizeNFKD (evt_category event) in
  {| tag_id := stableUuid ("tag:" ++ slug); tag_slug := slug; tag_name := evt_category event |}.

(** A statement of the store that fails for a reason of its own. *)
Definition permission_denied : heap * value :=
  sql_error "42501" "permission denied for table events".

(** The orders of the lists of an event detail and of a timeline detail. *)
Definition sources_by_rank (l : list EventSource) : Prop :=
  ordered (fun a b => esrc_relevance_rank a - esrc_relevance_rank b) l.

Definition timelines_by_sequence (l : list EventTimeline) : Prop :=
  ordered (fun a b => etl_sequence_no a - etl_sequence_no b) l.

Definition events_by_sequence (l : list TimelineEventItem) : Prop :=
  ordered (fun a b => tev_sequence_no a - tev_sequence_no b) l.

(** The tables hold a published event with the slug. *)
Definition published_with_slug (tables : DemoDataset) (slug : string) : Prop :=
  exists e, In e (events tables) /\ evt_slug e = slug /\ evt_status e = published.

(** The tables hold a timeline with the slug. *)
Definition timeline_with_slug (tables : DemoDataset) (slug : string) : Prop :=
  exists t, In t (timelines tables) /\ tl_slug t = slug.

(** An order of timestamps that the examples use: that of their texts. *)
Definition compare_text (a b : string) : Z := Js.localeCompare a b.

(** Two era bands are apart when, on the same lane, the later one starts at
    least twelve pixels after the end of the earlier one. *)
Definition apart (a b : EventStream.PositionedEra) : Prop :=
  EventStream.pe_lane a = EventStream.pe_lane b ->
  EventStream.pe_leftPx a + EventStream.pe_widthPx a + 12 <= EventStream.pe_leftPx b.

(** A list item that only carries a date. *)
Definition item_on (date : string) : EventListItem :=
  {| item_id := ""; item_slug := ""; item_title := ""; item_event_date := date;
     item_region := ""; item_category := ""; item_summary := "";
     item_importance_score := 3; item_confidence_score := 3;
     item_source_count := 0; item_tags := [] |}.

(** The month of an event of a timeline. *)
Definition month_of (event : TimelineEventItem) : string :=
  TimelinePage.toMonthKey (tev_event_date event).

Definition in_month (key : string) (event : TimelineEventItem) : bool :=
  String.eqb (month_of event) key.

(** An event of a seed file counts for a month of the year: it has the
    status asked for (any status when none is asked for) and its date, in
    the ISO form, lies in that month of the year. *)
Definition status_of (event : ImportSeed.json) : string :=
  match ImportSeed.get_field event "status" with
  | Some (ImportSeed.JStr s) => Js.toLowerCase s
  | _ => ""
  end.

Definition counts_for (year : Z) (statusFilter month : string) (event : ImportSeed.json)
    : bool :=
  (String.eqb statusFilter "" || String.eqb (status_of event) statusFilter)
  && match ImportSeed.get_field event "event_date" with
     | Some (ImportSeed.JStr date) =>
         isValidDate date
         && Js.startsWith date (Js.number_to_string year ++ "-")
         && String.eqb (Js.slice date 5 7) month
     | _ => false
     end.

Definition count_of {A} (p : A -> bool) (l : list A) : Z :=
  Z.of_nat (List.length (filter p l)).

(** The state of the loop of [layoutEraBands]: every band lies on a lane
    that exists and ends no later than the right edge of its lane, bands are
    apart, and none is narrower than 88 pixels. *)
Definition lanes_ok (st : list Z * list EventStream.PositionedEra) : Prop :=
  Forall (fun a => (EventStream.pe_lane a < List.length (fst st))%nat
                   /\ EventStream.pe_leftPx a + EventStream.pe_widthPx a
                      <= nth (EventStream.pe_lane a) (fst st) 0
                   /\ 88 <= EventStream.pe_widthPx a) (snd st)
  /\ ForallOrdPairs apart (snd st).

(** The bucket of a key in a map of buckets, empty for a key it does not hold. *)
Definition bucket {V} (m : Js.Map (list V)) (k : string) : list V :=
  match Js.map_get m k with
  | Some b => b
  | None => []
  end.

(** The comparison that [sort()] makes of two strings. *)
Definition by_code_units (a b : string) : Z :=
  match String.compare a b with Lt => -1 | Eq => 0 | Gt => 1 end.

Definition sum_of (l : list Z) : Z := fold_right Z.add 0 l.

(** The month for which the loop of [getMonthCounts] counts an event, if it
    counts it. *)
Definition counted (year : Z) (statusFilter : string) (event : ImportSeed.json)
    : option string :=
  if negb (String.eqb statusFilter "") && negb (String.eqb (status_of event) statusFilter)
  then None
  else match ImportSeed.get_field event "event_date" with
       | Some (ImportSeed.JStr date) =>
           if SeedCoverage.isValidDateString date
              && Js.startsWith date (Js.number_to_string year ++ "-")
              && existsb (String.eqb (Js.slice date 5 7)) SeedCoverage.MONTHS
           then Some (Js.slice date 5 7) else None
       | _ => None
       end.

(** *** The events that a listing request matches *)

(** The tag test of a path: the store joins the cross-references of the
    event with the tags; the snapshot looks each tag id up. *)
Definition carries_tag (p : path) (tables : DemoDataset) (e : DemoEventRecord) (t : string)
    : bool :=
  match p with
  | Live => has_tag_slug tables e t
  | Memory => existsb (String.eqb t) (tag_slugs_of tables (evt_id e))
  end.

(** The keyword test of a path: the lexemes of title, summary and impact in
    the store; a substring of title, summary, category and region, whatever
    the case, in the snapshot. *)
Definition keyword_hit (p : path) (e : DemoEventRecord) (q : string) : bool :=
  match p with
  | Live => ts_match (evt_title e ++ " " ++ evt_summary e ++ " " ++ evt_impact e) q
  | Memory =>
      matchesKeyword (evt_title e ++ " " ++ evt_summary e ++ " " ++ evt_category e ++ " "
                      ++ evt_region e) q
  end.

(** An event matches a request: it is published and passes each filter that
    is set. *)
Definition request_matches (p : path) (tables : DemoDataset)
    (filters : ListEventsFilters)
    (e : DemoEventRecord) : bool :=
  is_published e
  && opt_test (given (f_date filters)) (fun d => String.eqb (evt_event_date e) d)
  && opt_test (given (f_from filters)) (fun d => Js.str_le d (evt_event_date e))
  && opt_test (given (f_to filters)) (fun d => Js.str_le (evt_event_date e) d)
  && opt_test (given (f_category filters)) (fun c => String.eqb (evt_category e) c)
  && opt_test (given (f_region filters)) (fun r => String.eqb (evt_region e) r)
  && opt_test (given (f_tag filters)) (carries_tag p tables e)
  && opt_test (f_importanceMin filters) (fun n => n <=? evt_importance_score e)
  && opt_test (given (f_q filters)) (keyword_hit p e).

(** An item of a listing shows an event: it carries its columns. *)
Definition shows (e : DemoEventRecord) (item : EventListItem) : Prop :=
  item_id item = evt_id e
  /\ item_slug item = evt_slug e
  /\ item_title item = evt_title e
  /\ item_event_date item = evt_event_date e
  /\ item_region item = evt_region e
  /\ item_category item = evt_category e
  /\ item_summary item = evt_summary e
  /\ item_importance_score item = evt_importance_score e
  /\ item_confidence_score item = evt_confidence_score e.

(** The part of a sequence that a page number and a page size select. *)
Definition page_window {A} (filters : ListEventsFilters) (all : list A) : list A :=
  firstn (Z.to_nat (f_pageSize filters))
         (skipn (Z.to_nat ((f_page filters - 1) * f_pageSize filters)) all).

(** *** The links of an event and the members of a timeline *)

(** [s] is a source as the event cites it through one of its links. *)
Definition cites (tables : DemoDataset) (event_id : string) (s : EventSource) : Prop :=
  exists link source,
    In link (eventSources tables) /\ es_event_id link = event_id
    /\ In source (sources tables) /\ src_id source = es_source_id link
    /\ s = event_source source link.

(** The list holds the sources that the event cites, and no other: each
    element comes from a link of the event, and each link of the event to a
    source of the tables is there. *)
Definition sources_of (tables : DemoDataset) (event_id : string) (l : list EventSource)
    : Prop :=
  (forall s, In s l -> cites tables event_id s)
  /\ (forall link,
        In link (eventSources tables) -> es_event_id link = event_id ->
        refers_to_source tables (es_source_id link) ->
        exists source,
          In source (sources tables) /\ src_id source = es_source_id link
          /\ In (event_source source link) l).

(** [t] is a timeline as it holds the event through one of its entries. *)
Definition placed_on (tables : DemoDataset) (event_id : string) (t : EventTimeline) : Prop :=
  exists entry timeline,
    In entry (timelineEvents tables) /\ te_event_id entry = event_id
    /\ In timeline (timelines tables) /\ tl_id timeline = te_timeline_id entry
    /\ t = event_timeline timeline entry.

Definition timelines_of (tables : DemoDataset) (event_id : string) (l : list EventTimeline)
    : Prop :=
  (forall t, In t l -> placed_on tables event_id t)
  /\ (forall entry,
        In entry (timelineEvents tables) -> te_event_id entry = event_id ->
        (exists timeline, In timeline (timelines tables)
                          /\ tl_id timeline = te_timeline_id entry) ->
        exists timeline,
          In timeline (timelines tables) /\ tl_id timeline = te_timeline_id entry
          /\ In (event_timeline timeline entry) l).

(** [ev] is a published event as the timeline holds it through one of its
    entries. *)
Definition member_of (tables : DemoDataset) (timeline_id : string) (ev : TimelineEventItem)
    : Prop :=
  exists entry event,
    In entry (timelineEvents tables) /\ te_timeline_id entry = timeline_id
    /\ In event (events tables) /\ evt_id event = te_event_id entry
    /\ evt_status event = published
    /\ ev = timeline_event event entry.

(** The list holds the published events of the timeline, and no other. *)
Definition members_of (tables : DemoDataset) (timeline_id : string)
    (l : list TimelineEventItem) : Prop :=
  (forall ev, In ev l -> member_of tables timeline_id ev)
  /\ (forall entry,
        In entry (timelineEvents tables) -> te_timeline_id entry = timeline_id ->
        refers_to_published tables (te_event_id entry) ->
        exists event,
          In event (events tables) /\ evt_id event = te_event_id entry
          /\ evt_status event = published
          /\ In (timeline_event event entry) l).

End Notions.

(* ================================================================== *)
(** * Properties *)
(* ================================================================== *)

Module Examples.
Import DemoStore Runtime LiveStore Events Sources Api Props.

Example sha256_abc :
  Sha256.sha256_hex "abc"
  = "ba7816bf8f01cfea414140de5dae2223b00361a396177a9cb410ff61f20015ad".
Proof. vm_compute. reflexivity. Qed.

Example sha256_empty :
  Sha256.sha256_hex ""
  = "e3b0c44298fc1c149afbf4c8996fb92427ae41e4649b934ca495991b7852b855".
Proof. vm_compute. reflexivity. Qed.

Example sha256_two_blocks :
  Sha256.sha256_hex "abcdbcdecdefdefgefghfghighijhijkijkljklmklmnlmnomnopnopq"
  = "248d6a61d20638b8e5c026930c3e6039a33ce45964ff2167f6ecedd419db06c1".
Proof. vm_compute. reflexivity. Qed.

Example normalizeSlug_title :
  normalizeSlug (fun s => s) "  Wall Street Crash -- of 1929!  " = "wall-street-crash-of-1929".
Proof. vm_compute. reflexivity. Qed.

Example normalizeSlug_nothing_left : normalizeSlug (fun s => s) "?!" = "record".
Proof. vm_compute. reflexivity. Qed.

Example stableUuid_event :
  stableUuid "event:wall-street-crash-of-1929" = "6aae4539-44fb-4290-a3b4-2f78e3cc3849".
Proof. vm_compute. reflexivity. Qed.

Example scenario_list_from_1970 :
  let ds := buildDataset (fun s => s) seed_three_published "t0" "t1" in
  let result := listPublishedEventsFromDemo ds from_1970_ascending in
  List.map item_event_date (items result) = ["1971-08-15"; "2008-09-15"]
  /\ total (pagination result) = 2
  /\ listPublishedEvents (live_env ds) ds from_1970_ascending = Returned result.
Proof. vm_compute. repeat split; reflexivity. Qed.

Example scenario_read_with_store_down :
  let ds := buildDataset (fun s => s) seed_three_published "t0" "t1" in
  listPublishedEvents (unreachable_env refused_twice) ds from_1970_ascending
  = Returned (listPublishedEventsFromDemo ds from_1970_ascending).
Proof. vm_compute. reflexivity. Qed.

Example classifier_cycle :
  isDatabaseUnavailableError (fst wrapped_timeout) (snd wrapped_timeout) = true.
Proof. reflexivity. Qed.

Example next_slug_after_two :
  getNextAvailableSlug (fun s => s)
    {| sources := []; eventSources := []; timelines := []; timelineEvents := [];
       tags := []; eventTags := [];
       events :=
         List.map (build_event (fun s => s) "t0")
           [ {| se_slug := Some "crash-of-1929"; se_title := "a"; se_event_date := "1929-10-24";
                se_region := "US"; se_category := "Markets"; se_summary := "s";
                se_impact := "i"; se_importance_score := 5; se_confidence_score := None;
                se_status := None |};
             {| se_slug := Some "crash-of-1929-2"; se_title := "b";
                se_event_date := "1929-10-29"; se_region := "US"; se_category := "Markets";
                se_summary := "s"; se_impact := "i"; se_importance_score := 5;
                se_confidence_score := None; se_status := None |} ] |}
    "Crash of 1929"
  = "crash-of-1929-3".
Proof. vm_compute. reflexivity. Qed.

End Examples.

Module JsFacts.
Import Js Props.

(** *** Maps *)

Lemma map_get_set {V} (m : Map V) (k k' : string) (v : V) :
  map_get (map_set m k v) k' = if String.eqb k k' then Some v else map_get m k'.
Proof.
  induction m as [|[k0 v0] m IH]; simpl.
  - reflexivity.
  - destruct (String.eqb k0 k) eqn:E0; simpl.
    + apply String.eqb_eq in E0; subst k0.
      destruct (String.eqb k k'); reflexivity.
    + rewrite IH. destruct (String.eqb k0 k') eqn:E1; [|reflexivity].
      apply String.eqb_eq in E1; subst k0. rewrite String.eqb_sym, E0. reflexivity.
Qed.

Lemma map_values_set_Forall {V} (P : V -> Prop) (m : Map V) (k : string) (v : V) :
  P v -> Forall P (map_values m) -> Forall P (map_values (map_set m k v)).
Proof.
  intros Hv. unfold map_values.
  induction m as [|[k0 v0] m IH]; simpl; intros H.
  - constructor; [exact Hv | constructor].
  - inversion H; subst. destruct (String.eqb k0 k); simpl; constructor; auto.
Qed.

Lemma map_keys_set_in {V} (m : Map V) (k : string) (v : V) :
  In k (map_keys m) -> map_keys (map_set m k v) = map_keys m.
Proof.
  unfold map_keys. induction m as [|[k0 v0] m IH]; simpl; intros H.
  - contradiction.
  - destruct (String.eqb k0 k) eqn:E; simpl.
    + apply String.eqb_eq in E. subst. reflexivity.
    + f_equal. apply IH. destruct H as [H|H]; [|exact H].
      subst. rewrite String.eqb_refl in E. discriminate.
Qed.

Lemma map_set_fresh {V} (m : Map V) (k : string) (v : V) :
  ~ In k (map_keys m) -> map_set m k v = (m ++ [(k, v)])%list.
Proof.
  unfold map_keys. induction m as [|[k0 v0] m IH]; simpl; intros H.
  - reflexivity.
  - destruct (String.eqb k0 k) eqn:E.
    + apply String.eqb_eq in E. subst. exfalso. apply H. left. reflexivity.
    + f_equal. apply IH. intros Hin. apply H. right. exact Hin.
Qed.

Lemma map_get_in_keys {V} (m : Map V) (k : string) :
  In k (map_keys m) <-> map_get m k <> None.
Proof.
  unfold map_keys. induction m as [|[k0 v0] m IH]; simpl.
  - split; [contradiction | congruence].
  - destruct (String.eqb k0 k) eqn:E.
    + apply String.eqb_eq in E. subst. split; [congruence | auto].
    + rewrite <- IH. split; [|auto]. intros [H|H]; [|exact H].
      subst. rewrite String.eqb_refl in E. discriminate.
Qed.

Lemma map_keys_set_cases {V} (m : Map V) (k : string) (v : V) :
  map_keys (map_set m k v) = map_keys m \/ map_keys (map_set m k v) = (map_keys m ++ [k])%list.
Proof.
  unfold map_keys. induction m as [|[k0 v0] m IH]; simpl.
  - right. reflexivity.
  - destruct (String.eqb k0 k) eqn:E; simpl.
    + apply String.eqb_eq in E. subst. left. reflexivity.
    + destruct IH as [IH|IH]; rewrite IH; auto.
Qed.

Lemma map_keys_set_NoDup {V} (m : Map V) (k : string) (v : V) :
  NoDup (map_keys m) -> NoDup (map_keys (map_set m k v)).
Proof.
  intros H. destruct (in_dec string_dec k (map_keys m)) as [Hin|Hnin].
  - rewrite map_keys_set_in by exact Hin. exact H.
  - rewrite map_set_fresh by exact Hnin. unfold map_keys in *.
    rewrite map_app. simpl. apply NoDup_app; [exact H | repeat constructor; simpl; tauto |].
    intros a Ha [Hk|[]]. subst a. apply Hnin. exact Ha.
Qed.

(** Two maps with the same keys, in the same order and without repetition,
    and the same value at every key are the same map. *)
Lemma Map_same {V} (m1 m2 : Map V) :
  map_keys m1 = map_keys m2 -> NoDup (map_keys m1) ->
  (forall k, map_get m1 k = map_get m2 k) -> m1 = m2.
Proof.
  unfold map_keys. revert m2.
  induction m1 as [|[k1 v1] m1 IH]; intros [|[k2 v2] m2]; simpl; intros Hk Hnd Hget;
    try discriminate; [reflexivity|].
  injection Hk as Hk1 Hk2. subst k2. inversion Hnd as [|? ? Hnin Hnd']; subst.
  assert (v1 = v2).
  { specialize (Hget k1). rewrite String.eqb_refl in Hget. congruence. }
  subst v2. f_equal. apply IH; auto.
  intros k. specialize (Hget k).
  destruct (String.eqb k1 k) eqn:E; [|exact Hget].
  apply String.eqb_eq in E. subst k.
  assert (G1 : map_get m1 k1 = None).
  { destruct (map_get m1 k1) eqn:G; [|reflexivity].
    exfalso. apply Hnin. apply (proj2 (map_get_in_keys m1 k1)). unfold map_keys. congruence. }
  assert (G2 : map_get m2 k1 = None).
  { destruct (map_get m2 k1) eqn:G; [|reflexivity].
    exfalso. apply Hnin. rewrite Hk2. apply (proj2 (map_get_in_keys m2 k1)). congruence. }
  congruence.
Qed.

Lemma map_set_same {V} (m : Map V) (k : string) (v : V) :
  map_get m k = Some v -> map_set m k v = m.
Proof.
  induction m as [|[k0 v0] m IH]; simpl; intros H.
  - discriminate.
  - destruct (String.eqb k0 k) eqn:E.
    + apply String.eqb_eq in E. congruence.
    + f_equal. apply IH. exact H.
Qed.

Lemma map_get_value {V} (m : Map V) (k : string) (v : V) :
  map_get m k = Some v -> In v (map_values m).
Proof.
  unfold map_values. induction m as [|[k0 v0] m IH]; simpl; intros H.
  - discriminate.
  - destruct (String.eqb k0 k); [left; congruence | right; auto].
Qed.

(** *** Sorting *)

Lemma sort_insert_perm {A} (cmp : A -> A -> Z) (x : A) (l : list A) :
  Permutation (x :: l) (sort_insert cmp x l).
Proof.
  induction l as [|y l IH]; simpl.
  - apply Permutation_refl.
  - destruct (cmp x y <=? 0).
    + apply Permutation_refl.
    + eapply Permutation_trans; [apply perm_swap|]. apply perm_skip. exact IH.
Qed.

Lemma sort_perm {A} (cmp : A -> A -> Z) (l : list A) : Permutation l (sort cmp l).
Proof.
  induction l as [|x l IH]; simpl.
  - constructor.
  - eapply Permutation_trans; [apply perm_skip; exact IH|]. apply sort_insert_perm.
Qed.

Lemma sort_In {A} (cmp : A -> A -> Z) (l : list A) (x : A) : In x (sort cmp l) <-> In x l.
Proof.
  split; intros H.
  - eapply Permutation_in; [apply Permutation_sym; apply sort_perm | exact H].
  - eapply Permutation_in; [apply sort_perm | exact H].
Qed.

Lemma sort_length {A} (cmp : A -> A -> Z) (l : list A) :
  List.length (sort cmp l) = List.length l.
Proof. symmetry. apply Permutation_length. apply sort_perm. Qed.

Lemma sort_insert_ordered {A} (cmp : A -> A -> Z) (x : A) (l : list A) :
  total_cmp cmp -> ordered cmp l -> ordered cmp (sort_insert cmp x l).
Proof.
  intros Htot. unfold ordered.
  induction l as [|y l IH]; simpl; intros H.
  - constructor; constructor.
  - destruct (cmp x y <=? 0) eqn:E.
    + constructor; [exact H|]. constructor. lia.
    + inversion H as [|? ? Hs Hh]; subst. constructor; [apply IH; exact Hs|].
      destruct l as [|z l]; simpl.
      * constructor. destruct (Htot x y); lia.
      * destruct (cmp x z <=? 0).
        -- constructor. destruct (Htot x y); lia.
        -- inversion Hh; subst. constructor. assumption.
Qed.

Lemma sort_ordered {A} (cmp : A -> A -> Z) (l : list A) :
  total_cmp cmp -> ordered cmp (sort cmp l).
Proof.
  intros Htot. induction l as [|x l IH]; simpl.
  - constructor.
  - apply sort_insert_ordered; assumption.
Qed.

Lemma localeCompare_total_desc {A} (key : A -> string) :
  total_cmp (fun a b => localeCompare (key b) (key a)).
Proof.
  intros a b. unfold localeCompare.
  rewrite (String.compare_antisym (key a) (key b)).
  destruct (String.compare (key b) (key a)); simpl; lia.
Qed.

(** *** Slices and searches *)

Lemma firstn_incl {A} (n : nat) (l : list A) (x : A) : In x (firstn n l) -> In x l.
Proof.
  intros H. rewrite <- (firstn_skipn n l). apply in_or_app. left. exact H.
Qed.

Lemma skipn_incl {A} (n : nat) (l : list A) (x : A) : In x (skipn n l) -> In x l.
Proof.
  intros H. rewrite <- (firstn_skipn n l). apply in_or_app. right. exact H.
Qed.

Lemma array_slice_In {A} (l : list A) (a b : Z) (x : A) :
  In x (array_slice l a b) -> In x l.
Proof.
  unfold array_slice. intros H.
  apply firstn_incl in H. apply skipn_incl in H. exact H.
Qed.

Lemma find_some_iff {A} (p : A -> bool) (l : list A) :
  (exists x, In x l /\ p x = true) <-> find p l <> None.
Proof.
  unfold find. induction l as [|y l IH]; simpl.
  - split; [intros [x [[] _]] | congruence].
  - destruct (p y) eqn:E.
    + split; [congruence | intros _; exists y; auto].
    + rewrite <- IH. split; intros [x [Hin Hp]].
      * destruct Hin as [->|Hin]; [congruence | exists x; auto].
      * exists x; auto.
Qed.

(** *** The order of strings *)

Lemma compare_le_trans (a b c : string) :
  String.compare a b <> Gt -> String.compare b c <> Gt -> String.compare a c <> Gt.
Proof.
  revert b c. induction a as [|x a IH]; intros [|y b] [|z c]; simpl; try congruence.
  unfold Ascii.compare.
  destruct (N.compare_spec (N_of_ascii x) (N_of_ascii y)) as [Exy|Lxy|Gxy];
    destruct (N.compare_spec (N_of_ascii y) (N_of_ascii z)) as [Eyz|Lyz|Gyz];
    destruct (N.compare_spec (N_of_ascii x) (N_of_ascii z)) as [Exz|Lxz|Gxz];
    try congruence; try lia.
  apply IH.
Qed.

Lemma localeCompare_le (a b : string) :
  localeCompare a b <= 0 <-> String.compare a b <> Gt.
Proof.
  unfold localeCompare. destruct (String.compare a b); split; intros; try lia; congruence.
Qed.

Lemma localeCompare_trans_desc {A} (key : A -> string) :
  transitive_cmp (fun a b => localeCompare (key b) (key a)).
Proof.
  intros a b c. rewrite !localeCompare_le. intros H1 H2.
  eapply compare_le_trans; eassumption.
Qed.

(** *** Orders kept by the operations on lists *)

Lemma ordered_strongly {A} (cmp : A -> A -> Z) (l : list A) :
  transitive_cmp cmp -> ordered cmp l -> StronglySorted (fun a b => cmp a b <= 0) l.
Proof.
  intros Ht. apply Sorted_StronglySorted. intros a b c. apply Ht.
Qed.

Lemma StronglySorted_filter {A} (R : A -> A -> Prop) (p : A -> bool) (l : list A) :
  StronglySorted R l -> StronglySorted R (filter p l).
Proof.
  induction 1 as [|a l Hs IH Hf]; simpl; [constructor|].
  destruct (p a); [|exact IH]. constructor; [exact IH|].
  rewrite Forall_forall in *. intros x Hx. apply filter_In in Hx. apply Hf. tauto.
Qed.

Lemma ordered_filter {A} (cmp : A -> A -> Z) (p : A -> bool) (l : list A) :
  transitive_cmp cmp -> ordered cmp l -> ordered cmp (filter p l).
Proof.
  intros Ht H. apply StronglySorted_Sorted, StronglySorted_filter, ordered_strongly; assumption.
Qed.

Lemma ordered_firstn {A} (cmp : A -> A -> Z) (n : nat) (l : list A) :
  ordered cmp l -> ordered cmp (firstn n l).
Proof.
  unfold ordered. revert l. induction n as [|n IH]; intros l H; [constructor|].
  destruct l as [|a l]; [constructor|]. simpl. inversion H as [|? ? Hs Hh]; subst.
  constructor; [apply IH; exact Hs|].
  destruct n; [constructor|]. destruct l; [constructor|]. simpl.
  inversion Hh; subst. constructor. assumption.
Qed.

Lemma ordered_map {A B} (f : A -> B) (cmpA : A -> A -> Z) (cmpB : B -> B -> Z) (l : list A) :
  (forall a b, cmpB (f a) (f b) = cmpA a b) ->
  ordered cmpA l -> ordered cmpB (List.map f l).
Proof.
  intros Hf. unfold ordered. induction 1 as [|a l Hs IH Hh]; simpl; constructor; [exact IH|].
  destruct Hh; simpl; constructor. rewrite Hf. assumption.
Qed.

Lemma sort_map {A B} (f : A -> B) (cmpA : A -> A -> Z) (cmpB : B -> B -> Z) (l : list A) :
  (forall a b, cmpB (f a) (f b) = cmpA a b) ->
  sort cmpB (List.map f l) = List.map f (sort cmpA l).
Proof.
  intros Hf. induction l as [|x l IH]; simpl; [reflexivity|]. rewrite IH.
  generalize (sort cmpA l) as s. clear IH l.
  induction s as [|y s IH]; simpl; [reflexivity|].
  rewrite Hf. destruct (cmpA x y <=? 0); simpl; [reflexivity|]. rewrite IH. reflexivity.
Qed.

Lemma Permutation_filter_same {A} (p : A -> bool) (l l' : list A) :
  Permutation l l' -> Permutation (filter p l) (filter p l').
Proof.
  induction 1 as [|x l l' H IH|x y l|l l' l'' H1 IH1 H2 IH2]; simpl.
  - constructor.
  - destruct (p x); [apply perm_skip|]; exact IH.
  - destruct (p x), (p y); try apply Permutation_refl. apply perm_swap.
  - eapply Permutation_trans; eassumption.
Qed.

Lemma filter_filter_and {A} (p q : A -> bool) (l : list A) :
  filter q (filter p l) = filter (fun x => p x && q x) l.
Proof.
  induction l as [|x l IH]; simpl; [reflexivity|].
  destruct (p x); simpl; [|exact IH]. destruct (q x); rewrite IH; reflexivity.
Qed.

(** *** Slices *)

Lemma firstn_min_length {A} (n : nat) (l : list A) :
  firstn (Nat.min n (List.length l)) l = firstn n l.
Proof.
  destruct (Nat.le_ge_cases n (List.length l)) as [H|H].
  - rewrite Nat.min_l by exact H. reflexivity.
  - rewrite Nat.min_r by exact H. rewrite !firstn_all2; auto.
Qed.

(** A slice from a non-negative offset and of a non-negative size is the
    window of that size after the offset. *)
Lemma array_slice_window {A} (l : list A) (offset size : Z) :
  0 <= offset -> 0 <= size ->
  array_slice l offset (offset + size)
  = firstn (Z.to_nat size) (skipn (Z.to_nat offset) l).
Proof.
  intros Ho Hs. unfold array_slice, rel_index.
  destruct (offset <? 0) eqn:E1; [apply Z.ltb_lt in E1; lia|].
  destruct (offset + size <? 0) eqn:E2; [apply Z.ltb_lt in E2; lia|].
  set (len := Z.of_nat (List.length l)).
  destruct (Z.le_gt_cases len offset) as [Hge|Hlt].
  - rewrite (skipn_all2 (n := Z.to_nat (Z.min offset len))) by (unfold len in *; lia).
    rewrite (skipn_all2 (n := Z.to_nat offset)) by (unfold len in *; lia).
    rewrite !firstn_nil. reflexivity.
  - rewrite (Z.min_l offset len) by lia.
    rewrite <- (firstn_min_length (Z.to_nat size)). f_equal.
    rewrite length_skipn. unfold len in *. lia.
Qed.

End JsFacts.

Module DateFacts.
Import DemoStore Runtime LiveStore Events Sources Api Props.

Lemma is_digit_range (c : ascii) :
  Js.is_digit c = true -> 48 <= Z.of_N (N_of_ascii c) <= 57.
Proof. unfold Js.is_digit, Js.code. intros H. apply andb_true_iff in H. lia. Qed.

Lemma is_hyphen_code (c : ascii) : is_hyphen c = true -> Z.of_N (N_of_ascii c) = 45.
Proof. unfold is_hyphen, Js.code. intros H. apply Z.eqb_eq in H. exact H. Qed.

(** A calendar date is ten characters: digits around two hyphens. *)
Lemma calendar_date_shape (s : string) :
  is_calendar_date s = true ->
  exists y1 y2 y3 y4 h1 m1 m2 h2 d1 d2,
    s = String y1 (String y2 (String y3 (String y4 (String h1 (String m1 (String m2
          (String h2 (String d1 (String d2 EmptyString)))))))))
    /\ Forall (fun c => 48 <= Z.of_N (N_of_ascii c) <= 57) [y1; y2; y3; y4; m1; m2; d1; d2]
    /\ Z.of_N (N_of_ascii h1) = 45 /\ Z.of_N (N_of_ascii h2) = 45.
Proof.
  unfold is_calendar_date. intros H.
  do 10 (destruct s as [|? s]; [discriminate H|]).
  destruct s; [|discriminate H].
  cbn [list_ascii_of_string] in H.
  apply andb_true_iff in H. destruct H as [H _].
  apply andb_true_iff in H. destruct H as [H Hh2].
  apply andb_true_iff in H. destruct H as [Hd Hh1].
  do 10 eexists. split; [reflexivity|]. split.
  - rewrite forallb_forall in Hd. repeat constructor; apply is_digit_range, Hd; simpl; tauto.
  - split; apply is_hyphen_code; assumption.
Qed.

Lemma ascii_compare_spec (a b : ascii) :
  CompareSpec (Z.of_N (N_of_ascii a) = Z.of_N (N_of_ascii b))
              (Z.of_N (N_of_ascii a) < Z.of_N (N_of_ascii b))
              (Z.of_N (N_of_ascii b) < Z.of_N (N_of_ascii a))
              (Ascii.compare a b).
Proof.
  unfold Ascii.compare. destruct (N.compare_spec (N_of_ascii a) (N_of_ascii b));
    constructor; lia.
Qed.

(** The order of the code units of two calendar dates is the order of the
    days. *)
Lemma calendar_date_order (a b : string) :
  is_calendar_date a = true -> is_calendar_date b = true ->
  String.compare a b = Z.compare (date_number a) (date_number b).
Proof.
  intros Ha Hb.
  destruct (calendar_date_shape a Ha)
    as [a1 [a2 [a3 [a4 [ah1 [a5 [a6 [ah2 [a7 [a8 [-> [Da [Ha1 Ha2]]]]]]]]]]]]].
  destruct (calendar_date_shape b Hb)
    as [b1 [b2 [b3 [b4 [bh1 [b5 [b6 [bh2 [b7 [b8 [-> [Db [Hb1 Hb2]]]]]]]]]]]]].
  unfold date_number. cbn [list_ascii_of_string String.compare]. unfold digit_val, Js.code.
  repeat match goal with
         | H : Forall _ (_ :: _) |- _ => inversion H; subst; clear H
         | H : Forall _ [] |- _ => clear H
         end.
  symmetry.
  repeat match goal with
         | |- context [Ascii.compare ?x ?y] =>
             destruct (ascii_compare_spec x y);
             [ | apply Z.compare_lt_iff; lia | apply Z.compare_gt_iff; lia ]
         end.
  apply Z.compare_eq_iff. lia.
Qed.

Lemma str_le_calendar (a b : string) :
  is_calendar_date a = true -> is_calendar_date b = true ->
  Js.str_le a b = true <-> date_number a <= date_number b.
Proof.
  intros Ha Hb. unfold Js.str_le, String.leb. rewrite (calendar_date_order a b Ha Hb).
  destruct (Z.compare_spec (date_number a) (date_number b)); split; intros; try lia;
    try reflexivity; discriminate.
Qed.

End DateFacts.

Module IdentifierFacts.
Import DemoStore Events.

Lemma hex_digit_class (n : Z) : cls_hex_i (Sha256.hex_digit n) = true.
Proof.
  destruct n as [|p|p]; try reflexivity.
  do 4 (try (destruct p as [p|p|]; try reflexivity)).
Qed.

Lemma nibble_class (w i : Z) : cls_hex_i (Sha256.nibble w i) = true.
Proof. apply hex_digit_class. Qed.

(** The shape of an identifier: the digest is 64 hexadecimal digits, and
    [stableUuid] cuts 8, 4, 3, 3 and 12 of them. *)
Lemma stableUuid_matches (seed : string) : isValidUuid (stableUuid seed) = true.
Proof.
  unfold stableUuid, Sha256.sha256_hex.
  generalize (Sha256.hash (Sha256.utf8 seed)); intros st.
  unfold Sha256.state_hex, Sha256.word_hex, isValidUuid.
  cbv [Js.slice Js.slice_from Js.take Nat.sub String.append matches repeat app].
  rewrite !nibble_class.
  reflexivity.
Qed.

End IdentifierFacts.

Module SnapshotFacts.
Import DemoStore Runtime LiveStore Events Sources Api Props JsFacts IdentifierFacts.

(** *** The tables of a built snapshot *)

Section Snapshot.

Variable normalizeNFKD : string -> string.
Variable payload : SeedPayload.
Variables now now_timelines : string.

Local Abbreviation ds := (buildDataset normalizeNFKD payload now now_timelines).

Lemma sources_buildDataset :
  sources ds = List.map (build_source now) (or_else (sp_sources payload) []).
Proof.
  unfold buildDataset.
  destruct (buildTimelines _ _). destruct (buildTags _ _). reflexivity.
Qed.

Lemma events_buildDataset :
  events ds = List.map (build_event normalizeNFKD now) (or_else (sp_events payload) []).
Proof.
  unfold buildDataset.
  destruct (buildTimelines _ _). destruct (buildTags _ _). reflexivity.
Qed.

Lemma timelines_buildDataset :
  timelines ds = fst (buildTimelines (events ds) now_timelines)
  /\ timelineEvents ds = snd (buildTimelines (events ds) now_timelines).
Proof.
  rewrite events_buildDataset. unfold buildDataset.
  destruct (buildTimelines _ _). destruct (buildTags _ _). split; reflexivity.
Qed.

Lemma tags_buildDataset :
  tags ds = fst (buildTags normalizeNFKD (events ds))
  /\ eventTags ds = snd (buildTags normalizeNFKD (events ds)).
Proof.
  rewrite events_buildDataset. unfold buildDataset.
  destruct (buildTimelines _ _). destruct (buildTags _ _). split; reflexivity.
Qed.

Lemma eventSources_buildDataset :
  eventSources ds =
  keep_some
    (List.map
       (build_link normalizeNFKD
          (Js.map_of_entries
             (List.map (fun event => (evt_slug event, evt_id event)) (events ds)))
          (Js.map_of_entries
             (List.map (fun source => (src_source_url source, src_id source)) (sources ds))))
       (or_else (sp_event_sources payload) [])).
Proof.
  rewrite events_buildDataset, sources_buildDataset. unfold buildDataset.
  destruct (buildTimelines _ _). destruct (buildTags _ _). reflexivity.
Qed.

End Snapshot.

Lemma status_eqb_eq (a b : DemoEventStatus) : status_eqb a b = true <-> a = b.
Proof. destruct a, b; simpl; split; congruence. Qed.

Lemma keep_some_In {A} (l : list (option A)) (x : A) : In x (keep_some l) <-> In (Some x) l.
Proof.
  induction l as [|[a|] l IH]; simpl.
  - tauto.
  - rewrite IH. split; intros [H|H]; auto; left; congruence.
  - rewrite IH. split; [auto | intros [H|H]; [discriminate | exact H]].
Qed.

(** A map built from entries whose value is a function of the key. *)
Lemma map_of_entries_keyed {A} (kf : A -> string) (vf : string -> string) (l : list A)
    (k : string) :
  Js.map_get (Js.map_of_entries (List.map (fun x => (kf x, vf (kf x))) l)) k
  = if existsb (fun x => String.eqb (kf x) k) l then Some (vf k) else None.
Proof.
  unfold Js.map_of_entries.
  change (@None string) with (Js.map_get (@nil (string * string)) k).
  generalize (@nil (string * string)) as m.
  induction l as [|x l IH]; intros m; simpl.
  - reflexivity.
  - rewrite IH, map_get_set.
    destruct (existsb _ l); [rewrite orb_true_r; reflexivity|].
    rewrite orb_false_r. destruct (String.eqb (kf x) k) eqn:E; [|reflexivity].
    apply String.eqb_eq in E. rewrite E. reflexivity.
Qed.

Lemma stableUuid_not_empty (seed : string) : String.eqb (stableUuid seed) "" = false.
Proof.
  pose proof (stableUuid_matches seed) as H.
  destruct (stableUuid seed); [discriminate H | reflexivity].
Qed.

(** *** Timelines and tags *)

Lemma push_members_In (timeline : DemoTimelineRecord) (members : list DemoEventRecord)
    (index : Z) (te : DemoTimelineEventRecord) :
  In te (push_members timeline members index) ->
  exists e, In e members /\ te_event_id te = evt_id e.
Proof.
  revert index. induction members as [|e members IH]; simpl; intros index H.
  - contradiction.
  - destruct H as [H|H].
    + exists e. subst te. auto.
    + destruct (IH _ H) as [e' [Hin He]]. exists e'. auto.
Qed.

Lemma buildTimelines_members (events : list DemoEventRecord) (now : string)
    (te : DemoTimelineEventRecord) :
  In te (snd (buildTimelines events now)) ->
  exists e, In e events /\ te_event_id te = evt_id e /\ evt_status e = published.
Proof.
  unfold buildTimelines. cbv zeta. unfold snd.
  assert (Hpub : forall e, In e (Js.sort sortByEventDateAsc (filter is_published events)) ->
                           In e events /\ evt_status e = published).
  { intros e He. apply sort_In in He. apply filter_In in He. destruct He as [Hin Hp].
    split; [exact Hin | apply status_eqb_eq; exact Hp]. }
  assert (Hsub : forall p tl i,
             In te (push_members tl
                      (filter p (Js.sort sortByEventDateAsc (filter is_published events))) i) ->
             exists e, In e events /\ te_event_id te = evt_id e /\ evt_status e = published).
  { intros p tl i H. apply push_members_In in H. destruct H as [e [Hin He]].
    apply filter_In in Hin. destruct Hin as [Hin _]. apply Hpub in Hin.
    exists e. tauto. }
  rewrite !in_app_iff. intros H.
  repeat (destruct H as [H|H]; [try (eapply Hsub; exact H)|]); [|eapply Hsub; exact H].
  apply push_members_In in H. destruct H as [e [Hin He]]. apply Hpub in Hin. exists e. tauto.
Qed.

Lemma buildTags_step_spec (normalizeNFKD : string -> string) (m : Js.Map DemoTagRecord)
    (acc : list DemoEventTagRecord) (e : DemoEventRecord) :
  exists m' t,
    buildTags_step normalizeNFKD (m, acc) e
    = (m', (acc ++ [{| et_event_id := evt_id e; et_tag_id := t |}])%list)
    /\ (Forall (fun t => isValidUuid (tag_id t) = true) (Js.map_values m) ->
        Forall (fun t => isValidUuid (tag_id t) = true) (Js.map_values m')).
Proof.
  unfold buildTags_step, Js.map_has.
  destruct (Js.map_get m (normalizeSlug normalizeNFKD (evt_category e))) eqn:G; simpl.
  - rewrite G. eexists; eexists; split; [reflexivity | auto].
  - rewrite map_get_set, String.eqb_refl. eexists; eexists; split; [reflexivity|].
    intros H. apply map_values_set_Forall; [|exact H]. simpl. apply stableUuid_matches.
Qed.

Lemma buildTags_fold (normalizeNFKD : string -> string) (l : list DemoEventRecord)
    (m : Js.Map DemoTagRecord) (acc : list DemoEventTagRecord) :
  List.map et_event_id (snd (fold_left (buildTags_step normalizeNFKD) l (m, acc)))
  = (List.map et_event_id acc ++ List.map evt_id l)%list
  /\ (Forall (fun t => isValidUuid (tag_id t) = true) (Js.map_values m) ->
      Forall (fun t => isValidUuid (tag_id t) = true)
             (Js.map_values (fst (fold_left (buildTags_step normalizeNFKD) l (m, acc))))).
Proof.
  revert m acc. induction l as [|e l IH]; intros m acc; cbn [fold_left].
  - simpl. rewrite app_nil_r. auto.
  - destruct (buildTags_step_spec normalizeNFKD m acc e) as [m' [t [Hstep Hm']]].
    rewrite Hstep. destruct (IH m' (acc ++ [{| et_event_id := evt_id e; et_tag_id := t |}])%list)
      as [IH1 IH2].
    split.
    + rewrite IH1, map_app. simpl. rewrite <- app_assoc. reflexivity.
    + intros H. apply IH2, Hm', H.
Qed.

Lemma buildTags_eventTags (normalizeNFKD : string -> string) (events : list DemoEventRecord) :
  List.map et_event_id (snd (buildTags normalizeNFKD events)) = List.map evt_id events.
Proof.
  unfold buildTags.
  pose proof (proj1 (buildTags_fold normalizeNFKD events [] [])) as H.
  destruct (fold_left _ events _) as [m acc]. exact H.
Qed.

Lemma buildTags_tag_ids (normalizeNFKD : string -> string) (events : list DemoEventRecord) :
  Forall (fun t => isValidUuid (tag_id t) = true) (fst (buildTags normalizeNFKD events)).
Proof.
  unfold buildTags.
  pose proof (proj2 (buildTags_fold normalizeNFKD events [] [])) as H.
  destruct (fold_left _ events _) as [m acc]. apply H. constructor.
Qed.

End SnapshotFacts.

Module SnapshotClaims.
Import DemoStore Runtime LiveStore Events Sources Api Props JsFacts IdentifierFacts SnapshotFacts.

(** C3.  Building the snapshot twice from the same seed payload gives the same
    identifiers for every source and every event, whatever the clock shows at
    each build: the identifier of a source is [stableUuid] of the namespace
    "source:" and its URL, the identifier of an event is [stableUuid] of the
    namespace "event:" and its normalized slug. *)
Theorem build_ids_deterministic :
  forall (normalizeNFKD : string -> string) (payload : SeedPayload)
         (now1 nowT1 now2 nowT2 : string),
    let ds1 := buildDataset normalizeNFKD payload now1 nowT1 in
    let ds2 := buildDataset normalizeNFKD payload now2 nowT2 in
    List.map src_id (sources ds1) = List.map src_id (sources ds2)
    /\ List.map evt_id (events ds1) = List.map evt_id (events ds2)
    /\ List.map src_id (sources ds1)
       = List.map (fun s => stableUuid ("source:" ++ ss_source_url s))
                  (or_else (sp_sources payload) [])
    /\ List.map evt_id (events ds1)
       = List.map (fun e => stableUuid ("event:" ++ seed_slug normalizeNFKD e))
                  (or_else (sp_events payload) []).
Proof.
  intros nf payload now1 nowT1 now2 nowT2 ds1 ds2. subst ds1 ds2.
  rewrite !sources_buildDataset, !events_buildDataset, !map_map.
  repeat split; reflexivity.
Qed.

Lemma eventIdBySlug_get (normalizeNFKD : string -> string) (now : string)
    (seeds : list SeedEvent) (k : string) :
  Js.map_get
    (Js.map_of_entries
       (List.map (fun event => (evt_slug event, evt_id event))
                 (List.map (build_event normalizeNFKD now) seeds))) k
  = if existsb (fun e => String.eqb (seed_slug normalizeNFKD e) k) seeds
    then Some (stableUuid ("event:" ++ k)) else None.
Proof.
  rewrite map_map.
  apply (map_of_entries_keyed (seed_slug normalizeNFKD) (fun k => stableUuid ("event:" ++ k))).
Qed.

Lemma sourceIdByUrl_get (now : string) (seeds : list SeedSource) (k : string) :
  Js.map_get
    (Js.map_of_entries
       (List.map (fun source => (src_source_url source, src_id source))
                 (List.map (build_source now) seeds))) k
  = if existsb (fun s => String.eqb (ss_source_url s) k) seeds
    then Some (stableUuid ("source:" ++ k)) else None.
Proof.
  rewrite map_map.
  apply (map_of_entries_keyed ss_source_url (fun k => stableUuid ("source:" ++ k))).
Qed.

Lemma build_link_spec (normalizeNFKD : string -> string) (payload : SeedPayload)
    (now : string) (link : SeedEventSource) :
  build_link normalizeNFKD
    (Js.map_of_entries
       (List.map (fun event => (evt_slug event, evt_id event))
          (List.map (build_event normalizeNFKD now) (or_else (sp_events payload) []))))
    (Js.map_of_entries
       (List.map (fun source => (src_source_url source, src_id source))
          (List.map (build_source now) (or_else (sp_sources payload) []))))
    link
  = if slug_known normalizeNFKD payload link && url_known payload link
    then Some (resolved_link normalizeNFKD link) else None.
Proof.
  unfold build_link. rewrite eventIdBySlug_get, sourceIdByUrl_get.
  unfold slug_known, url_known.
  destruct (existsb _ (or_else (sp_events payload) []));
    destruct (existsb _ (or_else (sp_sources payload) []));
    cbn [falsy_id orb andb or_else]; rewrite ?stableUuid_not_empty; reflexivity.
Qed.

(** C4.  In a built snapshot every event-source link carries the id of an
    event and the id of a source of the snapshot; the links of the snapshot
    are, in seed order, the rows of the seed links whose event slug and source
    URL both resolve, and a seed link with an unresolved key contributes
    nothing (the build is a total function: nothing is raised). *)
Theorem eventSources_closed :
  forall (normalizeNFKD : string -> string) (payload : SeedPayload) (now nowT : string),
    let ds := buildDataset normalizeNFKD payload now nowT in
    Forall (fun link => refers_to_event ds (es_event_id link)
                        /\ refers_to_source ds (es_source_id link))
           (eventSources ds)
    /\ eventSources ds
       = keep_some
           (List.map (fun link =>
                        if slug_known normalizeNFKD payload link && url_known payload link
                        then Some (resolved_link normalizeNFKD link) else None)
                     (or_else (sp_event_sources payload) [])).
Proof.
  intros nf payload now nowT ds.
  assert (Hes : eventSources ds
       = keep_some
           (List.map (fun link =>
                        if slug_known nf payload link && url_known payload link
                        then Some (resolved_link nf link) else None)
                     (or_else (sp_event_sources payload) []))).
  { subst ds. rewrite eventSources_buildDataset, events_buildDataset, sources_buildDataset.
    f_equal. apply List.map_ext. intros link. apply build_link_spec. }
  split; [|exact Hes].
  rewrite Hes. apply Forall_forall. intros r Hr.
  apply keep_some_In in Hr. apply in_map_iff in Hr. destruct Hr as [link [Hr _]].
  destruct (slug_known nf payload link) eqn:Hs; [|discriminate].
  destruct (url_known payload link) eqn:Hu; [|discriminate].
  injection Hr as <-. simpl. split.
  - unfold slug_known in Hs. apply existsb_exists in Hs. destruct Hs as [e [Hin He]].
    apply String.eqb_eq in He.
    exists (build_event nf now e). split.
    + subst ds. rewrite events_buildDataset. apply in_map. exact Hin.
    + simpl. unfold seed_slug in He. rewrite He. reflexivity.
  - unfold url_known in Hu. apply existsb_exists in Hu. destruct Hu as [src [Hin He]].
    apply String.eqb_eq in He.
    exists (build_source now src). split.
    + subst ds. rewrite sources_buildDataset. apply in_map. exact Hin.
    + simpl. rewrite He. reflexivity.
Qed.

Lemma stableUuid_version_variant (seed : string) :
  String.get 14 (stableUuid seed) = Some "4"%char
  /\ String.get 19 (stableUuid seed) = Some "a"%char.
Proof.
  unfold stableUuid, Sha256.sha256_hex.
  generalize (Sha256.hash (Sha256.utf8 seed)); intros st.
  unfold Sha256.state_hex, Sha256.word_hex.
  cbv [Js.slice Js.slice_from Js.take Nat.sub String.append String.get].
  split; reflexivity.
Qed.

Lemma applyEventSort_In (l : list EventListItem) (sort : EventSort) (x : EventListItem) :
  In x (applyEventSort l sort) <-> In x l.
Proof. destruct sort; apply sort_In. Qed.

Lemma filter_if_In {A B} (o : option B) (p : B -> A -> bool) (l : list A) (x : A) :
  In x (filter_if o p l) -> In x l.
Proof.
  destruct o; simpl; [|auto]. intros H. apply filter_In in H. tauto.
Qed.

(** What a public listing is made of. *)
Lemma listing_items_published (dataset : DemoDataset) (filters : ListEventsFilters)
    (item : EventListItem) :
  In item (items (listPublishedEventsFromDemo dataset filters)) ->
  exists e, In e (events dataset) /\ is_published e = true
            /\ item_id item = evt_id e /\ item_slug item = evt_slug e.
Proof.
  unfold listPublishedEventsFromDemo. cbv zeta. unfold mkResult. cbn [items].
  intros H. apply array_slice_In in H. apply applyEventSort_In in H.
  repeat apply filter_if_In in H.
  apply in_map_iff in H. destruct H as [e [He Hin]]. apply filter_In in Hin.
  exists e. subst item. simpl. tauto.
Qed.

Lemma getSourceByIdFromDemo_found (dataset : DemoDataset) (s : DemoSourceRecord) :
  In s (sources dataset) ->
  exists d, getSourceByIdFromDemo dataset (src_id s) = Some d
            /\ src_id (sd_source d) = src_id s /\ In (sd_source d) (sources dataset).
Proof.
  intros Hin. unfold getSourceByIdFromDemo.
  destruct (Js.find (fun entry => String.eqb (src_id entry) (src_id s)) (sources dataset))
    as [source|] eqn:F.
  - eexists. split; [reflexivity|]. unfold Js.find in F. apply find_some in F. simpl.
    destruct F as [F1 F2]. apply String.eqb_eq in F2. auto.
  - exfalso. revert F. apply find_some_iff. exists s. split; [exact Hin|].
    apply String.eqb_refl.
Qed.

(** C10.  Every identifier that [stableUuid] produces is accepted by
    [isValidUuid], with the version digit 4 and the variant digit a where the
    pattern wants them; so are the ids of all sources, events, tags and
    timelines of a built snapshot, and with no store configured the route
    GET /api/v1/sources/:id answers 200 for the id of every source of the
    snapshot (the check "id must be a UUID" lets it through). *)
Theorem demo_ids_are_valid_uuids :
  forall (normalizeNFKD : string -> string) (payload : SeedPayload) (now nowT : string)
         (c : connection),
    let ds := buildDataset normalizeNFKD payload now nowT in
    (forall seed, isValidUuid (stableUuid seed) = true
                  /\ String.get 14 (stableUuid seed) = Some "4"%char
                  /\ String.get 19 (stableUuid seed) = Some "a"%char)
    /\ Forall (fun s => isValidUuid (src_id s) = true) (sources ds)
    /\ Forall (fun e => isValidUuid (evt_id e) = true) (events ds)
    /\ Forall (fun t => isValidUuid (tag_id t) = true) (tags ds)
    /\ Forall (fun t => isValidUuid (tl_id t) = true) (timelines ds)
    /\ Forall (fun s => status (GET_source (demo_env c) ds (src_id s)) = 200) (sources ds).
Proof.
  intros nf payload now nowT c ds.
  assert (Hsrc : Forall (fun s => isValidUuid (src_id s) = true) (sources ds)).
  { subst ds. rewrite sources_buildDataset. apply Forall_forall. intros s Hs.
    apply in_map_iff in Hs. destruct Hs as [x [<- _]]. apply stableUuid_matches. }
  split; [|split; [exact Hsrc|split; [|split; [|split]]]].
  - intros seed. split; [apply stableUuid_matches | apply stableUuid_version_variant].
  - subst ds. rewrite events_buildDataset. apply Forall_forall. intros e He.
    apply in_map_iff in He. destruct He as [x [<- _]]. apply stableUuid_matches.
  - subst ds. rewrite (proj1 (tags_buildDataset _ _ _ _)). apply buildTags_tag_ids.
  - subst ds. rewrite (proj1 (timelines_buildDataset _ _ _ _)).
    unfold buildTimelines. cbv zeta. cbn [fst]. unfold mkTimeline.
    repeat constructor; apply stableUuid_matches.
  - apply Forall_forall. intros s Hs.
    unfold GET_source. rewrite (proj1 (Forall_forall _ _) Hsrc s Hs). cbn [negb].
    unfold getSourceById, demo_env. cbn [DATABASE_URL hasDatabaseConfig negb].
    destruct (getSourceByIdFromDemo_found ds s Hs) as [d [Hd _]]. rewrite Hd. reflexivity.
Qed.

(** C2, as the specification states it for the tag cross-references, fails:
    the snapshot built from a seed whose only event is a draft has a tag
    cross-reference, and it refers to that draft. *)
Lemma eventTags_reference_a_draft :
  ~ eventTags_reference_published (buildDataset (fun s => s) seed_one_draft "t0" "t1").
Proof.
  unfold eventTags_reference_published, refers_to_published.
  intros H. vm_compute in H.
  inversion H as [|et l Het _]; subst.
  destruct Het as [e [[He|[]] [_ Hst]]]. subst e. discriminate Hst.
Qed.

(** C2, amended.  In a built snapshot every timeline membership and every
    item of a public listing (the event list, the month-day list, the events
    linked to a source) refers to a published event of the snapshot; the tag
    cross-references hold one row per event of the snapshot, in seed order and
    whatever the status of the event. *)
Theorem published_only_in_timelines_and_listings :
  forall (normalizeNFKD : string -> string) (payload : SeedPayload) (now nowT : string)
         (filters : ListEventsFilters) (monthDay sourceId : string),
    let ds := buildDataset normalizeNFKD payload now nowT in
    Forall (fun te => refers_to_published ds (te_event_id te)) (timelineEvents ds)
    /\ Forall (fun item => refers_to_published ds (item_id item))
              (items (listPublishedEventsFromDemo ds filters))
    /\ Forall (fun item => refers_to_published ds (item_id item))
              (listPublishedEventsByMonthDayFromDemo ds monthDay)
    /\ Forall (fun le => refers_to_published ds (le_id le))
              (match getSourceByIdFromDemo ds sourceId with
               | Some d => linked_events d
               | None => []
               end)
    /\ List.map et_event_id (eventTags ds) = List.map evt_id (events ds).
Proof.
  intros nf payload now nowT filters monthDay sourceId ds.
  assert (Hlist : forall f item,
             In item (items (listPublishedEventsFromDemo ds f)) ->
             refers_to_published ds (item_id item)).
  { intros f item H. apply listing_items_published in H.
    destruct H as [e [Hin [Hp [Hid _]]]]. exists e. split; [exact Hin|].
    split; [auto | apply status_eqb_eq; exact Hp]. }
  split; [|split; [|split; [|split]]].
  - apply Forall_forall. intros te Hte.
    subst ds. rewrite (proj2 (timelines_buildDataset _ _ _ _)) in Hte.
    apply buildTimelines_members in Hte. destruct Hte as [e [Hin [Hid Hst]]].
    exists e. auto.
  - apply Forall_forall. intros item. apply Hlist.
  - apply Forall_forall. intros item H. unfold listPublishedEventsByMonthDayFromDemo in H.
    apply filter_In in H. destruct H as [H _]. eapply Hlist. exact H.
  - apply Forall_forall. intros le Hle. unfold getSourceByIdFromDemo in Hle.
    destruct (Js.find _ (sources ds)); [|contradiction]. cbn [linked_events] in Hle.
    apply sort_In, keep_some_In, in_map_iff in Hle. destruct Hle as [link [Hf _]].
    destruct (Js.find _ (events ds)) as [event|] eqn:F; [|discriminate].
    unfold Js.find in F. apply find_some in F. destruct F as [He Hp].
    apply andb_true_iff in Hp. destruct Hp as [_ Hp]. apply status_eqb_eq in Hp.
    injection Hf as <-. exists event. auto.
  - subst ds. rewrite (proj2 (tags_buildDataset _ _ _ _)). apply buildTags_eventTags.
Qed.

End SnapshotClaims.

Module ImportSeedFacts.
Import ImportSeed Props JsFacts.

Section Merge.

Variable keyOf : json -> string.

Local Abbreviation put := (put keyOf).
Local Abbreviation well_keyed := (well_keyed keyOf).
Local Abbreviation last_with_key := (last_with_key keyOf).

Lemma put_well_keyed (m : Js.Map json) (item : json) :
  well_keyed m -> well_keyed (put m item).
Proof.
  intros [Hnd Hk]. split.
  - apply map_keys_set_NoDup. exact Hnd.
  - unfold Props.put. clear Hnd. induction m as [|[k v] m IH]; simpl.
    + constructor; [reflexivity | constructor].
    + inversion Hk; subst. destruct (String.eqb k (keyOf item)); constructor; auto.
Qed.

Lemma fold_put_well_keyed (l : list json) (m : Js.Map json) :
  well_keyed m -> well_keyed (fold_left put l m).
Proof.
  revert m. induction l as [|x l IH]; simpl; intros m H; [exact H|].
  apply IH, put_well_keyed, H.
Qed.

Lemma fold_put_get (l : list json) (m : Js.Map json) (k : string) :
  Js.map_get (fold_left put l m) k
  = match last_with_key l k with
    | Some y => Some y
    | None => Js.map_get m k
    end.
Proof.
  revert m. induction l as [|x l IH]; simpl; intros m; [reflexivity|].
  rewrite IH. destruct (last_with_key l k); [reflexivity|].
  unfold Props.put. rewrite map_get_set. destruct (String.eqb (keyOf x) k); reflexivity.
Qed.

Lemma fold_put_keys_present (l : list json) (m : Js.Map json) :
  (forall x, In x l -> In (keyOf x) (Js.map_keys m)) ->
  Js.map_keys (fold_left put l m) = Js.map_keys m.
Proof.
  revert m. induction l as [|x l IH]; simpl; intros m H; [reflexivity|].
  rewrite IH.
  - unfold Props.put. apply map_keys_set_in. apply H. left. reflexivity.
  - intros y Hy. unfold Props.put. rewrite map_keys_set_in by (apply H; left; reflexivity).
    apply H. right. exact Hy.
Qed.

Lemma fold_put_keys_grow (l : list json) (m : Js.Map json) (k : string) :
  In k (Js.map_keys m) -> In k (Js.map_keys (fold_left put l m)).
Proof.
  revert m. induction l as [|x l IH]; simpl; intros m H; [exact H|].
  apply IH. unfold Props.put. destruct (map_keys_set_cases m (keyOf x) x) as [E|E]; rewrite E.
  - exact H.
  - apply in_or_app. left. exact H.
Qed.

Lemma fold_put_covers (l : list json) (m : Js.Map json) (x : json) :
  In x l -> In (keyOf x) (Js.map_keys (fold_left put l m)).
Proof.
  revert m. induction l as [|y l IH]; simpl; intros m H; [contradiction|].
  destruct H as [->|H]; [|apply IH; exact H].
  apply fold_put_keys_grow. unfold Props.put. apply map_get_in_keys.
  rewrite map_get_set, String.eqb_refl. discriminate.
Qed.

(** Putting the same items a second time changes nothing. *)
Lemma fold_put_twice (l : list json) (m : Js.Map json) :
  well_keyed m -> fold_left put l (fold_left put l m) = fold_left put l m.
Proof.
  intros Hm. apply Map_same.
  - apply fold_put_keys_present. intros x Hx. apply fold_put_covers. exact Hx.
  - rewrite fold_put_keys_present by (intros x Hx; apply fold_put_covers; exact Hx).
    apply fold_put_well_keyed. exact Hm.
  - intros k. rewrite (fold_put_get l (fold_left put l m)), (fold_put_get l m).
    destruct (last_with_key l k); reflexivity.
Qed.

(** Filing the values of a well keyed map again rebuilds the map. *)
Lemma fold_put_values (m acc : Js.Map json) :
  well_keyed (acc ++ m)%list ->
  fold_left put (Js.map_values m) acc = (acc ++ m)%list.
Proof.
  revert acc. induction m as [|[k v] m IH]; simpl; intros acc H.
  - rewrite app_nil_r. reflexivity.
  - assert (Hk : keyOf v = k).
    { destruct H as [_ H]. rewrite Forall_forall in H.
      apply (H (k, v)). apply in_or_app. right. left. reflexivity. }
    assert (Hfresh : ~ In k (Js.map_keys acc)).
    { destruct H as [H _]. unfold Js.map_keys in *. rewrite map_app in H. simpl in H.
      apply NoDup_remove_2 in H. intros Hin. apply H. apply in_or_app. left. exact Hin. }
    unfold Props.put at 2. rewrite Hk, map_set_fresh by exact Hfresh.
    rewrite IH; rewrite <- app_assoc; simpl; [reflexivity | exact H].
Qed.

Lemma mergeByKey_again (baseItems incomingItems : list json) :
  mergeByKey (mergeByKey baseItems incomingItems keyOf) incomingItems keyOf
  = mergeByKey baseItems incomingItems keyOf.
Proof.
  unfold mergeByKey. change (fun m item => Js.map_set m (keyOf item) item) with (Props.put keyOf).
  assert (Hwk : well_keyed (fold_left put incomingItems (fold_left put baseItems []))).
  { apply fold_put_well_keyed, fold_put_well_keyed. split; constructor. }
  rewrite (fold_put_values _ []) by exact Hwk. simpl.
  rewrite fold_put_twice; [reflexivity|].
  apply fold_put_well_keyed. split; constructor.
Qed.

Lemma mergeByKey_keys_NoDup (baseItems incomingItems : list json) :
  NoDup (List.map keyOf (mergeByKey baseItems incomingItems keyOf)).
Proof.
  unfold mergeByKey.
  change (fun m item => Js.map_set m (keyOf item) item) with (Props.put keyOf).
  assert (Hwk : well_keyed (fold_left put incomingItems (fold_left put baseItems []))).
  { apply fold_put_well_keyed, fold_put_well_keyed. split; constructor. }
  destruct Hwk as [Hnd Hk]. revert Hnd Hk.
  generalize (fold_left put incomingItems (fold_left put baseItems [])) as m.
  intros m Hnd Hk. unfold Js.map_values, Js.map_keys in *. rewrite map_map.
  erewrite List.map_ext_in; [exact Hnd|].
  intros e He. rewrite Forall_forall in Hk. apply Hk. exact He.
Qed.

Lemma last_with_key_some (l : list json) (x : json) :
  In x l -> exists y, last_with_key l (keyOf x) = Some y.
Proof.
  induction l as [|z l IH]; simpl; intros H; [contradiction|].
  destruct (last_with_key l (keyOf x)) as [y|] eqn:L; [eauto|].
  destruct H as [->|H].
  - rewrite String.eqb_refl. eauto.
  - destruct (IH H) as [y Hy]. discriminate.
Qed.

Lemma mergeByKey_last_wins (baseItems incomingItems : list json) :
  Forall (fun x => exists y, last_with_key incomingItems (keyOf x) = Some y
                             /\ In y (mergeByKey baseItems incomingItems keyOf))
         incomingItems.
Proof.
  apply Forall_forall. intros x Hx.
  destruct (last_with_key_some incomingItems x Hx) as [y Hy].
  exists y. split; [exact Hy|]. unfold mergeByKey.
  change (fun m item => Js.map_set m (keyOf item) item) with (Props.put keyOf).
  apply (map_get_value _ (keyOf x)). rewrite fold_put_get, Hy. reflexivity.
Qed.

End Merge.

Lemma applyDemoFallback_fields (mainSeed payload : seed_file) :
  let main1 := fst (applyDemoFallback mainSeed false payload) in
  Js.map_get main1 "sources"
  = Some (JArr (mergeByKey (asArray (Js.map_get mainSeed "sources"))
                           (asArray (Js.map_get payload "sources")) source_key))
  /\ Js.map_get main1 "events"
     = Some (JArr (mergeByKey (asArray (Js.map_get mainSeed "events"))
                              (asArray (Js.map_get payload "events")) event_key))
  /\ Js.map_get main1 "event_sources"
     = Some (JArr (mergeByKey (asArray (Js.map_get mainSeed "event_sources"))
                              (asArray (Js.map_get payload "event_sources")) link_key)).
Proof.
  unfold applyDemoFallback. cbn [fst]. rewrite !map_get_set. cbn [String.eqb Ascii.eqb Bool.eqb].
  repeat split; reflexivity.
Qed.

Lemma applyDemoFallback_again (mainSeed payload : seed_file) :
  fst (applyDemoFallback (fst (applyDemoFallback mainSeed false payload)) false payload)
  = fst (applyDemoFallback mainSeed false payload).
Proof.
  destruct (applyDemoFallback_fields mainSeed payload) as [Hs [He Hl]].
  revert Hs He Hl. generalize (fst (applyDemoFallback mainSeed false payload)) as main1.
  intros main1 Hs He Hl.
  unfold applyDemoFallback at 1. cbn [fst].
  rewrite Hs. cbn [asArray]. rewrite mergeByKey_again. rewrite (map_set_same main1) by exact Hs.
  rewrite He. cbn [asArray]. rewrite mergeByKey_again. rewrite (map_set_same main1) by exact He.
  rewrite Hl. cbn [asArray]. rewrite mergeByKey_again. apply map_set_same. exact Hl.
Qed.

End ImportSeedFacts.

Module ImportSeedClaims.
Import ImportSeed Props JsFacts ImportSeedFacts.

(** C9.  Applying the merge fallback a second time with the same payload of a
    seed file other than the main one leaves the main seed file as the first
    application left it: the three arrays keep their lengths and the reported
    delta is zero.  After an application no two items of an array share their
    natural key (source URL; event slug; event slug and source URL), and the
    item kept for a key of the payload is the last item of the payload with
    that key. *)
Theorem merge_fallback_twice_no_growth :
  forall (mainSeed payload : seed_file),
    let main1 := fst (applyDemoFallback mainSeed false payload) in
    let main2 := fst (applyDemoFallback main1 false payload) in
    summarize main2 = summarize main1
    /\ main2 = main1
    /\ snd (applyDemoFallback main1 false payload)
       = merged_into_main_seed (summarize main1) (summarize main1)
           {| n_sources := 0; n_events := 0; n_event_sources := 0 |}
    /\ NoDup (List.map source_key (asArray (Js.map_get main1 "sources")))
    /\ NoDup (List.map event_key (asArray (Js.map_get main1 "events")))
    /\ NoDup (List.map link_key (asArray (Js.map_get main1 "event_sources")))
    /\ kept_last source_key (asArray (Js.map_get payload "sources"))
                 (asArray (Js.map_get main1 "sources"))
    /\ kept_last event_key (asArray (Js.map_get payload "events"))
                 (asArray (Js.map_get main1 "events"))
    /\ kept_last link_key (asArray (Js.map_get payload "event_sources"))
                 (asArray (Js.map_get main1 "event_sources")).
Proof.
  intros mainSeed payload main1 main2.
  assert (E : main2 = main1) by apply applyDemoFallback_again.
  destruct (applyDemoFallback_fields mainSeed payload) as [Hs [He Hl]].
  fold main1 in Hs, He, Hl.
  split; [rewrite E; reflexivity|]. split; [exact E|]. split.
  - pose proof E as E'. unfold main2 in E'.
    unfold applyDemoFallback in E' |- *. cbn [fst snd] in E' |- *.
    rewrite E'. f_equal. f_equal; lia.
  - rewrite Hs, He, Hl. cbn [asArray].
    repeat split; try apply mergeByKey_keys_NoDup; apply mergeByKey_last_wins.
Qed.

End ImportSeedClaims.


Module RuntimeFacts.
Import Runtime Props.

Lemma value_eqb_eq (a b : value) : value_eqb a b = true <-> a = b.
Proof.
  destruct a, b; simpl; split; intros H; try congruence; try reflexivity.
  - apply Bool.eqb_prop in H. congruence.
  - injection H as ->. apply Bool.eqb_reflx.
  - apply Z.eqb_eq in H. congruence.
  - injection H as ->. apply Z.eqb_refl.
  - apply String.eqb_eq in H. congruence.
  - injection H as ->. apply String.eqb_refl.
  - apply Nat.eqb_eq in H. congruence.
  - injection H as ->. apply Nat.eqb_refl.
Qed.

Lemma seen_has_In (seen : list value) (v : value) : seen_has seen v = true <-> In v seen.
Proof.
  unfold seen_has. rewrite existsb_exists. split.
  - intros [x [Hin He]]. apply value_eqb_eq in He. subst. exact Hin.
  - intros H. exists v. split; [exact H | apply value_eqb_eq; reflexivity].
Qed.

Lemma seen_has_false (seen : list value) (v : value) : seen_has seen v = false <-> ~ In v seen.
Proof.
  rewrite <- seen_has_In. destruct (seen_has seen v); split; congruence.
Qed.

Lemma seen_has_cons (seen : list value) (x v : value) :
  seen_has (x :: seen) v = value_eqb v x || seen_has seen v.
Proof. reflexivity. Qed.

(** *** Termination: the bound on the recursion is never reached *)

Lemma count_unseen_mono (l : list nat) (seen seen' : list value) :
  (forall x, In x seen -> In x seen') ->
  (List.length (filter (fun a => negb (seen_has seen' (VRef a))) l)
   <= List.length (filter (fun a => negb (seen_has seen (VRef a))) l))%nat.
Proof.
  intros Hincl. induction l as [|a l IH]; simpl.
  - lia.
  - destruct (seen_has seen (VRef a)) eqn:E; simpl.
    + apply seen_has_In, Hincl, seen_has_In in E. rewrite E. simpl. exact IH.
    + destruct (seen_has seen' (VRef a)); simpl; lia.
Qed.

Lemma count_unseen_visit (l : list nat) (seen : list value) (a : nat) :
  In a l -> ~ In (VRef a) seen ->
  (List.length (filter (fun b => negb (seen_has (VRef a :: seen) (VRef b))) l)
   < List.length (filter (fun b => negb (seen_has seen (VRef b))) l))%nat.
Proof.
  intros Hin Hs. induction l as [|b l IH]; [contradiction|].
  pose proof (count_unseen_mono l seen (VRef a :: seen) (fun x Hx => or_intror Hx)) as Hle.
  cbn [filter]. rewrite (seen_has_cons seen (VRef a) (VRef b)). cbn [value_eqb].
  destruct (Nat.eq_dec b a) as [->|Hne].
  - rewrite Nat.eqb_refl. apply seen_has_false in Hs. rewrite Hs.
    cbn [orb negb List.length]. lia.
  - destruct Hin as [Hin|Hin]; [congruence|]. specialize (IH Hin).
    apply Nat.eqb_neq in Hne. rewrite Hne. cbn [orb].
    destruct (seen_has seen (VRef b)); cbn [negb List.length]; lia.
Qed.

Lemma unseen_mono (h : heap) (seen seen' : list value) :
  (forall x, In x seen -> In x seen') -> (unseen h seen' <= unseen h seen)%nat.
Proof. apply count_unseen_mono. Qed.

Lemma unseen_visit (h : heap) (seen : list value) (a : nat) :
  (a < List.length h)%nat -> ~ In (VRef a) seen ->
  (unseen h (VRef a :: seen) < unseen h seen)%nat.
Proof.
  intros Ha Hs. apply count_unseen_visit; [apply in_seq; lia | exact Hs].
Qed.

Lemma deref_outside (h : heap) (a : nat) :
  (List.length h <= a)%nat -> deref h a = plain_object.
Proof. intros H. unfold deref. apply nth_overflow. exact H. Qed.

Lemma some_seen_total (visit : value -> list value -> option (bool * list value))
    (h : heap) (bound : nat) :
  (forall v seen, (unseen h seen <= bound)%nat ->
                  exists b seen', visit v seen = Some (b, seen') /\ grows seen seen') ->
  forall items seen, (unseen h seen <= bound)%nat ->
    exists b seen', some_seen visit items seen = Some (b, seen') /\ grows seen seen'.
Proof.
  intros Hv items. induction items as [|item rest IH]; simpl; intros seen Hb.
  - exists false, seen. split; [reflexivity | intros x Hx; exact Hx].
  - destruct (Hv item seen Hb) as [b [seen1 [E G1]]]. rewrite E.
    destruct b.
    + exists true, seen1. auto.
    + destruct (IH seen1) as [b2 [seen2 [E2 G2]]].
      { pose proof (unseen_mono h seen seen1 G1). lia. }
      exists b2, seen2. split; [exact E2|]. intros x Hx. auto.
Qed.

Lemma isUnavailableErrorTree_returns (h : heap) (fuel : nat) :
  forall error seen, (unseen h seen < fuel)%nat ->
    exists b seen', isUnavailableErrorTree fuel h error seen = Some (b, seen')
                    /\ grows seen seen'.
Proof.
  induction fuel as [|fuel IH]; intros error seen Hf; [lia|].
  cbn [isUnavailableErrorTree].
  destruct (negb (truthy error) || seen_has seen error) eqn:Hskip.
  - exists false, seen. split; [reflexivity | intros x Hx; exact Hx].
  - apply orb_false_iff in Hskip. destruct Hskip as [_ Hnew]. apply seen_has_false in Hnew.
    assert (Gcons : grows seen (error :: seen)) by (intros x Hx; right; exact Hx).
    destruct error as [| | | | |a];
      try (eexists; eexists; split; [reflexivity | exact Gcons]).
    destruct (own_signature (deref h a)).
    { eexists; eexists; split; [reflexivity | exact Gcons]. }
    destruct (le_lt_dec (List.length h) a) as [Hout|Hin].
    { rewrite (deref_outside h a Hout). simpl.
      eexists; eexists; split; [reflexivity | exact Gcons]. }
    pose proof (unseen_visit h seen a Hin Hnew) as Hlt.
    assert (Hcause : exists b seen1,
               (if truthy (o_cause (deref h a))
                then isUnavailableErrorTree fuel h (o_cause (deref h a)) (VRef a :: seen)
                else Some (false, VRef a :: seen)) = Some (b, seen1)
               /\ grows (VRef a :: seen) seen1).
    { destruct (truthy (o_cause (deref h a))).
      - apply IH. lia.
      - exists false, (VRef a :: seen). split; [reflexivity | intros x Hx; exact Hx]. }
    destruct Hcause as [b [seen1 [E1 G1]]]. rewrite E1.
    assert (G01 : grows seen seen1) by (intros x Hx; apply G1, Gcons, Hx).
    destruct b; [exists true, seen1; auto|].
    destruct (o_errors (deref h a)) as [| | | | |b];
      try (exists false, seen1; split; [reflexivity | exact G01]).
    destruct (o_elements (deref h b)) as [nested|];
      [|exists false, seen1; split; [reflexivity | exact G01]].
    destruct (some_seen_total (isUnavailableErrorTree fuel h) h (fuel - 1)) with
      (items := nested) (seen := seen1) as [b2 [seen2 [E2 G2]]].
    + intros v s Hs. apply IH. lia.
    + pose proof (unseen_mono h (VRef a :: seen) seen1 G1). lia.
    + exists b2, seen2. split; [exact E2|]. intros x Hx. auto.
Qed.

(** *** What a negative answer has looked at *)

Lemma closed_in_mono (h : heap) (S S' : list value) (x : value) :
  grows S S' -> closed_in h S x -> closed_in h S' x.
Proof. intros G [H1 H2]. split; [exact H1 | intros w Hw; apply G, H2, Hw]. Qed.

Lemma looked_at_trans (h : heap) (t1 t2 s0 s1 s2 : list value) :
  looked_at h t1 s0 s1 -> looked_at h t2 s1 s2 -> looked_at h (t1 ++ t2) s0 s2.
Proof.
  intros [G1 [T1 C1]] [G2 [T2 C2]]. split; [|split].
  - intros x Hx. apply G2, G1, Hx.
  - intros v Hv Ht. apply in_app_or in Hv. destruct Hv as [Hv|Hv].
    + apply G2, T1; assumption.
    + apply T2; assumption.
  - intros x Hx. destruct (C2 x Hx) as [H|H]; [|right; exact H].
    destruct (C1 x H) as [H'|H']; [left; exact H'|].
    right. eapply closed_in_mono; [exact G2 | exact H'].
Qed.

Lemma looked_at_refl (h : heap) (seen : list value) : looked_at h [] seen seen.
Proof.
  split; [intros x Hx; exact Hx|]. split; [intros v []|]. intros x Hx. left. exact Hx.
Qed.

Lemma some_seen_false (visit : value -> list value -> option (bool * list value))
    (h : heap) :
  (forall v seen seen', visit v seen = Some (false, seen') -> looked_at h [v] seen seen') ->
  forall items seen seen',
    some_seen visit items seen = Some (false, seen') -> looked_at h items seen seen'.
Proof.
  intros Hv items. induction items as [|item rest IH]; simpl; intros seen seen' H.
  - injection H as <-. apply looked_at_refl.
  - destruct (visit item seen) as [[[|] seen1]|] eqn:E; try discriminate.
    change (item :: rest) with ([item] ++ rest)%list.
    eapply looked_at_trans; [apply Hv; exact E | apply IH; exact H].
Qed.

Lemma childb_ref (h : heap) (v w : value) :
  childb h v w = true -> exists a, v = VRef a.
Proof.
  unfold childb. destruct v; rewrite ?andb_false_r; try discriminate. eauto.
Qed.

Lemma isUnavailableErrorTree_false (h : heap) (fuel : nat) :
  forall error seen seen',
    isUnavailableErrorTree fuel h error seen = Some (false, seen') ->
    looked_at h [error] seen seen'.
Proof.
  induction fuel as [|fuel IH]; intros error seen seen' H; [discriminate|].
  cbn [isUnavailableErrorTree] in H.
  destruct (negb (truthy error) || seen_has seen error) eqn:Hskip.
  - injection H as <-. split; [intros x Hx; exact Hx|]. split; [|intros x Hx; left; exact Hx].
    intros v [<-|[]] Ht. rewrite Ht in Hskip. simpl in Hskip. apply seen_has_In. exact Hskip.
  - assert (Hprim : forall v, (forall a, v <> VRef a) ->
                      looked_at h [v] seen (v :: seen)).
    { intros v Hv. split; [intros x Hx; right; exact Hx|]. split.
      - intros v' [<-|[]] _. left. reflexivity.
      - intros x [<-|Hx]; [right | left; exact Hx]. split.
        + destruct v; try reflexivity. exfalso. eapply Hv. reflexivity.
        + intros w Hw. apply childb_ref in Hw. destruct Hw as [a Ha]. exfalso.
          eapply Hv. exact Ha. }
    destruct error as [| | | | |a];
      try (injection H as <-; apply Hprim; intros a; discriminate).
    destruct (own_signature (deref h a)) eqn:Hsig; [discriminate|].
    (* the cause *)
    assert (Hcause : exists seen1,
               (if truthy (o_cause (deref h a))
                then isUnavailableErrorTree fuel h (o_cause (deref h a)) (VRef a :: seen)
                else Some (false, VRef a :: seen)) = Some (false, seen1)
               /\ match o_errors (deref h a) with
                  | VRef b =>
                      match o_elements (deref h b) with
                      | Some nested => some_seen (isUnavailableErrorTree fuel h) nested seen1
                      | None => Some (false, seen1)
                      end
                  | _ => Some (false, seen1)
                  end = Some (false, seen')).
    { destruct (if truthy (o_cause (deref h a)) then _ else _) as [[[|] seen1]|];
        try discriminate. exists seen1. split; [reflexivity | exact H]. }
    clear H. destruct Hcause as [seen1 [Hc He]].
    assert (L1 : looked_at h [o_cause (deref h a)] (VRef a :: seen) seen1).
    { destruct (truthy (o_cause (deref h a))) eqn:Ht.
      - apply IH. exact Hc.
      - injection Hc as <-. split; [intros x Hx; exact Hx|].
        split; [|intros x Hx; left; exact Hx]. intros v [<-|[]] Hv. congruence. }
    (* the sub-errors *)
    set (nested := match o_errors (deref h a) with
                   | VRef b => match o_elements (deref h b) with
                               | Some nested => nested
                               | None => []
                               end
                   | _ => []
                   end).
    assert (L2 : looked_at h nested seen1 seen').
    { subst nested. destruct (o_errors (deref h a)) as [| | | | |b];
        try (injection He as <-; apply looked_at_refl).
      destruct (o_elements (deref h b)) as [l|];
        [|injection He as <-; apply looked_at_refl].
      eapply some_seen_false; [|exact He]. intros v s s' Hv. apply IH. exact Hv. }
    pose proof (looked_at_trans h _ _ _ _ _ L1 L2) as [G [T C]].
    split; [intros x Hx; apply G; right; exact Hx|]. split.
    + intros v [<-|[]] _. apply G. left. reflexivity.
    + intros x Hx. destruct (C x Hx) as [[<-|Hin]|Hcl]; [right | left; exact Hin | right; exact Hcl].
      split; [exact Hsig|]. intros w Hw. unfold childb in Hw.
      apply andb_true_iff in Hw. destruct Hw as [Ht Hw]. apply orb_true_iff in Hw.
      apply T; [|exact Ht]. apply in_or_app. destruct Hw as [Hw|Hw].
      * left. left. apply value_eqb_eq in Hw. congruence.
      * right. subst nested. destruct (o_errors (deref h a)); try discriminate.
        destruct (o_elements (deref h addr)); try discriminate.
        apply existsb_exists in Hw. destruct Hw as [y [Hy Hyw]].
        apply value_eqb_eq in Hyw. subst y. exact Hy.
Qed.

Lemma last_cons {A} (rest : list A) (w v : A) : last (w :: rest) v = last rest w.
Proof.
  revert w v. induction rest as [|z rest IH]; intros w v; [reflexivity|].
  change (last (w :: z :: rest) v) with (last (z :: rest) v).
  rewrite (IH z v), (IH z w). reflexivity.
Qed.

Lemma closed_chain (h : heap) (S : list value) :
  (forall x, In x S -> closed_in h S x) ->
  forall path v, In v S -> chain h v path = true -> In (last path v) S.
Proof.
  intros Hcl path. induction path as [|w rest IH]; intros v Hv Hc.
  - exact Hv.
  - cbn [chain] in Hc. apply andb_true_iff in Hc. destruct Hc as [Hw Hr].
    assert (Hin : In w S) by (apply (Hcl v Hv); exact Hw).
    rewrite last_cons. apply IH; assumption.
Qed.

Lemma unseen_nil (h : heap) : (unseen h [] <= List.length h)%nat.
Proof.
  unfold unseen.
  pose proof (filter_length_le (fun a => negb (seen_has [] (VRef a))) (seq 0 (List.length h))) as H.
  rewrite length_seq in H. exact H.
Qed.

(** The classifier always returns: the bound [S (length h)] is enough. *)
Lemma isUnavailableErrorTree_total (h : heap) (error : value) :
  exists b seen', isUnavailableErrorTree (S (List.length h)) h error [] = Some (b, seen').
Proof.
  destruct (isUnavailableErrorTree_returns h (S (List.length h)) error [])
    as [b [seen' [E _]]].
  - pose proof (unseen_nil h). lia.
  - eauto.
Qed.

(** A signature anywhere down a chain of causes and sub-errors is found. *)
Lemma signature_found (h : heap) (error : value) (path : list value) :
  chain h error path = true -> signed h (last path error) = true ->
  isDatabaseUnavailableError h error = true.
Proof.
  intros Hc Hs. unfold isDatabaseUnavailableError.
  destruct (isUnavailableErrorTree_total h error) as [b [seen' E]]. rewrite E.
  destruct b; [reflexivity|]. exfalso.
  apply isUnavailableErrorTree_false in E. destruct E as [_ [T C]].
  assert (Hcl : forall x, In x seen' -> closed_in h seen' x).
  { intros x Hx. destruct (C x Hx) as [[]|H]. exact H. }
  assert (Ht : truthy error = true).
  { destruct path as [|w rest].
    - simpl in Hs. destruct error; try discriminate. reflexivity.
    - cbn [chain] in Hc. apply andb_true_iff in Hc. destruct Hc as [Hw _].
      apply childb_ref in Hw. destruct Hw as [a ->]. reflexivity. }
  assert (Hin : In (last path error) seen').
  { apply (closed_chain h seen' Hcl); [|exact Hc]. apply T; [left; reflexivity | exact Ht]. }
  destruct (Hcl _ Hin) as [Hno _]. congruence.
Qed.

(** *** What a positive answer has found *)

Lemma some_seen_true (visit : value -> list value -> option (bool * list value))
    (items : list value) :
  forall seen seen',
    some_seen visit items seen = Some (true, seen') ->
    exists item s s', In item items /\ visit item s = Some (true, s').
Proof.
  induction items as [|item rest IH]; simpl; intros seen seen' H; [discriminate|].
  destruct (visit item seen) as [[[|] seen1]|] eqn:E; try discriminate.
  - exists item, seen, seen1. auto.
  - destruct (IH _ _ H) as [i [s [s' [Hin Hv]]]]. exists i, s, s'. auto.
Qed.

Lemma isUnavailableErrorTree_true (h : heap) (fuel : nat) :
  forall error seen seen',
    isUnavailableErrorTree fuel h error seen = Some (true, seen') ->
    truthy error = true
    /\ exists path, chain h error path = true /\ signed h (last path error) = true.
Proof.
  induction fuel as [|fuel IH]; intros error seen seen' H; [discriminate|].
  cbn [isUnavailableErrorTree] in H.
  destruct (negb (truthy error) || seen_has seen error) eqn:Hskip; [discriminate|].
  apply orb_false_iff in Hskip. destruct Hskip as [Ht _]. apply negb_false_iff in Ht.
  split; [exact Ht|].
  destruct error as [| | | | |a]; try discriminate.
  destruct (own_signature (deref h a)) eqn:Hsig.
  { exists []. split; [reflexivity | exact Hsig]. }
  destruct (truthy (o_cause (deref h a))) eqn:Hc.
  - destruct (isUnavailableErrorTree fuel h (o_cause (deref h a)) (VRef a :: seen))
      as [[[|] seen1]|] eqn:E; try discriminate.
    + destruct (IH _ _ _ E) as [_ [path [Hp Hs]]].
      exists (o_cause (deref h a) :: path). rewrite last_cons. split; [|exact Hs].
      cbn [chain]. rewrite Hp, andb_true_r. unfold childb. rewrite Hc. cbn [andb].
      replace (value_eqb (o_cause (deref h a)) (o_cause (deref h a))) with true
        by (symmetry; apply value_eqb_eq; reflexivity).
      reflexivity.
    + destruct (o_errors (deref h a)) as [| | | | |b] eqn:Herr; try discriminate.
      destruct (o_elements (deref h b)) as [nested|] eqn:Hel; try discriminate.
      destruct (some_seen_true _ _ _ _ H) as [item [s [s' [Hin Hv]]]].
      destruct (IH _ _ _ Hv) as [Hti [path [Hp Hs]]].
      exists (item :: path). rewrite last_cons. split; [|exact Hs].
      cbn [chain]. rewrite Hp, andb_true_r. unfold childb. rewrite Hti, Herr, Hel. cbn [andb].
      apply orb_true_iff. right. apply existsb_exists. exists item.
      split; [exact Hin | apply value_eqb_eq; reflexivity].
  - destruct (o_errors (deref h a)) as [| | | | |b] eqn:Herr; try discriminate.
    destruct (o_elements (deref h b)) as [nested|] eqn:Hel; try discriminate.
    destruct (some_seen_true _ _ _ _ H) as [item [s [s' [Hin Hv]]]].
    destruct (IH _ _ _ Hv) as [Hti [path [Hp Hs]]].
    exists (item :: path). rewrite last_cons. split; [|exact Hs].
    cbn [chain]. rewrite Hp, andb_true_r. unfold childb. rewrite Hti, Herr, Hel. cbn [andb].
    apply orb_true_iff. right. apply existsb_exists. exists item.
    split; [exact Hin | apply value_eqb_eq; reflexivity].
Qed.

(** The classifier answers true exactly when a signature sits somewhere down
    the causes and sub-errors of the value. *)
Lemma isDatabaseUnavailableError_iff (h : heap) (error : value) :
  isDatabaseUnavailableError h error = true
  <-> exists path, chain h error path = true /\ signed h (last path error) = true.
Proof.
  split.
  - unfold isDatabaseUnavailableError.
    destruct (isUnavailableErrorTree _ h error []) as [[[|] seen']|] eqn:E; try discriminate.
    intros _. apply isUnavailableErrorTree_true in E. tauto.
  - intros [path [Hc Hs]]. eapply signature_found; eassumption.
Qed.

Lemma patterns_accepted : accepts_messages DB_UNAVAILABLE_PATTERNS.
Proof.
  intros h error path a m p Hc Hl Hm Hp Ht.
  apply (signature_found h error path Hc). rewrite Hl. unfold signed, own_signature.
  rewrite Hm. replace (isDatabaseUnavailableMessage m) with true.
  - rewrite !orb_true_r. reflexivity.
  - symmetry. unfold isDatabaseUnavailableMessage. apply existsb_exists. exists p. auto.
Qed.

End RuntimeFacts.

Module RuntimeClaims.
Import Runtime Props RuntimeFacts.

(** C7, as the specification lists the signatures, fails: a message that
    carries the connection-reset signature, on an error without a code, is
    not classified as unavailability. *)
Lemma connection_reset_message_rejected : ~ accepts_messages spec_signatures.
Proof.
  intros H.
  specialize (H (fst (new_Error "read ECONNRESET")) (VRef 0) [] 0%nat
                "read ECONNRESET" "ECONNRESET" eq_refl eq_refl eq_refl).
  assert (Hin : In "ECONNRESET" spec_signatures) by (simpl; tauto).
  specialize (H Hin eq_refl). vm_compute in H. discriminate H.
Qed.

(** C7, amended.  The classifier returns true for every error-like value down
    whose chain of causes and sub-errors there is an object whose message is
    a string matching one of the seven patterns of [DB_UNAVAILABLE_PATTERNS]
    (unset configuration, ECONNREFUSED, ETIMEDOUT, ENOTFOUND, "connection
    terminated", "could not connect to server", "failed to connect"), or whose
    code is one of the five of [DB_UNAVAILABLE_CODES]; ECONNRESET and
    EHOSTUNREACH are signatures of the code only. *)
Theorem classifier_finds_signature :
  forall (h : heap) (error : value) (path : list value),
    chain h error path = true ->
    message_signature h (last path error) || code_signature h (last path error) = true ->
    isDatabaseUnavailableError h error = true.
Proof.
  intros h error path Hc Hs. apply (signature_found h error path Hc).
  destruct (last path error) as [| | | | |a]; try discriminate Hs.
  unfold signed, own_signature. unfold message_signature, code_signature in Hs.
  apply orb_true_iff in Hs. destruct Hs as [Hs|Hs].
  - destruct (o_message (deref h a)); try discriminate Hs. rewrite Hs.
    rewrite orb_true_r. reflexivity.
  - rewrite Hs. rewrite orb_true_r. reflexivity.
Qed.

Lemma classifier_finds_signature_witness :
  chain (fst refused_twice) (snd refused_twice) [VRef 3] = true
  /\ message_signature (fst refused_twice) (VRef 3)
     || code_signature (fst refused_twice) (VRef 3) = true
  /\ isDatabaseUnavailableError (fst refused_twice) (snd refused_twice) = true.
Proof.
  split; [reflexivity|]. split; [reflexivity|].
  apply (classifier_finds_signature (fst refused_twice) (snd refused_twice) [VRef 3]);
    reflexivity.
Defined.

End RuntimeClaims.

Module AccessFacts.
Import DemoStore Runtime LiveStore Events Sources Api Props JsFacts SnapshotFacts.

(** *** The dual-path pattern *)

Lemma getDbPool_configured (e : env) :
  hasDatabaseConfig (DATABASE_URL e) = true -> getDbPool e = Returned (conn e).
Proof.
  unfold hasDatabaseConfig, getDbPool. destruct (DATABASE_URL e) as [url|]; [|discriminate].
  destruct (String.eqb url ""); [discriminate | reflexivity].
Qed.

Lemma dual_path_memory {A} (e : env) (ds t : DemoDataset) (q : database -> outcome A) (fb : A) :
  serving e ds = Some (Memory, t) ->
  t = ds
  /\ (if negb (hasDatabaseConfig (DATABASE_URL e)) then Returned fb
      else catch_unavailable (with_pool e q) fb) = Returned fb.
Proof.
  unfold serving. destruct (hasDatabaseConfig (DATABASE_URL e)) eqn:Hc; cbn [negb].
  - unfold with_pool. rewrite (getDbPool_configured e Hc). cbn [bind].
    destruct (conn e) as [h error|db]; [|discriminate].
    destruct (isDatabaseUnavailableError h error) eqn:Hu; [|discriminate].
    intros H. injection H as <-. split; [reflexivity|].
    unfold catch_unavailable. rewrite Hu. reflexivity.
  - intros H. injection H as <-. split; reflexivity.
Qed.

Lemma dual_path_live {A} (e : env) (ds db : DemoDataset) (q : database -> outcome A) (fb : A) :
  serving e ds = Some (Live, db) ->
  (if negb (hasDatabaseConfig (DATABASE_URL e)) then Returned fb
   else catch_unavailable (with_pool e q) fb) = catch_unavailable (q db) fb.
Proof.
  unfold serving. destruct (hasDatabaseConfig (DATABASE_URL e)) eqn:Hc; cbn [negb].
  - unfold with_pool. rewrite (getDbPool_configured e Hc). cbn [bind].
    destruct (conn e) as [h error|db'].
    + destruct (isDatabaseUnavailableError h error); discriminate.
    + intros H. injection H as <-. reflexivity.
  - discriminate.
Qed.

(** *** Orders *)

Lemma localeCompare_opp (a b : string) : Js.localeCompare a b = - Js.localeCompare b a.
Proof.
  unfold Js.localeCompare. rewrite (String.compare_antisym a b).
  destruct (String.compare b a); reflexivity.
Qed.

Lemma ordered_weaken {A} (cmp cmp' : A -> A -> Z) (l : list A) :
  (forall a b, cmp a b <= 0 -> cmp' a b <= 0) -> ordered cmp l -> ordered cmp' l.
Proof.
  intros Hw. unfold ordered. induction 1 as [|a l Hs IH Hh]; constructor; [exact IH|].
  destruct Hh; constructor. apply Hw. assumption.
Qed.

Lemma eventsSql_order_total : total_cmp eventsSql_order.
Proof.
  intros a b. unfold eventsSql_order.
  rewrite (localeCompare_opp (le_event_date a) (le_event_date b)).
  destruct (Js.localeCompare (le_event_date b) (le_event_date a) =? 0) eqn:E.
  - apply Z.eqb_eq in E. rewrite E. simpl. lia.
  - apply Z.eqb_neq in E. cbn [negb].
    destruct (- Js.localeCompare (le_event_date b) (le_event_date a) =? 0) eqn:E'.
    + apply Z.eqb_eq in E'. lia.
    + cbn [negb]. lia.
Qed.

(** *** A source and its linked events *)

Lemma find_by_id (l : list DemoSourceRecord) (sourceId : string) :
  In sourceId (List.map src_id l) ->
  exists s rest, Js.find (fun entry => String.eqb (src_id entry) sourceId) l = Some s
            /\ filter (fun row => String.eqb (src_id row) sourceId) l = s :: rest
            /\ src_id s = sourceId /\ In s l.
Proof.
  unfold Js.find. induction l as [|x l IH]; simpl; intros H; [contradiction|].
  destruct (String.eqb (src_id x) sourceId) eqn:E.
  - apply String.eqb_eq in E. exists x. eexists. repeat split; auto.
  - destruct H as [H|H]; [rewrite H, String.eqb_refl in E; discriminate|].
    destruct (IH H) as [s [rest [F [Fl [Hid Hin]]]]]. exists s, rest. auto.
Qed.

Lemma demo_links_of (tables : DemoDataset) (sourceId : string) (cmp1 : _ -> _ -> Z)
    (cmp2 : _ -> _ -> Z) :
  links_of tables sourceId
    (Js.sort cmp2
       (keep_some
          (List.map
             (fun link =>
                match Js.find (fun entry => String.eqb (evt_id entry) (es_event_id link)
                                            && is_published entry) (events tables) with
                | None => None
                | Some event => Some (linked_event event link)
                end)
             (Js.sort cmp1
                (filter (fun entry => String.eqb (es_source_id entry) sourceId)
                        (eventSources tables)))))).
Proof.
  split.
  - intros le Hle. apply sort_In, keep_some_In, in_map_iff in Hle.
    destruct Hle as [link [Hf Hl]]. apply sort_In, filter_In in Hl. destruct Hl as [Hl Hs].
    apply String.eqb_eq in Hs.
    destruct (Js.find _ (events tables)) as [event|] eqn:F; [|discriminate].
    unfold Js.find in F. apply find_some in F. destruct F as [He Hp].
    apply andb_true_iff in Hp. destruct Hp as [Hid Hp]. apply String.eqb_eq in Hid.
    apply status_eqb_eq in Hp. injection Hf as <-. exists link, event. auto 10.
  - intros link event Hl Hs He Hid Hp.
    destruct (Js.find (fun entry => String.eqb (evt_id entry) (es_event_id link)
                                    && is_published entry) (events tables))
      as [event'|] eqn:F.
    + exists (linked_event event' link). split; [|split].
      * apply sort_In, keep_some_In, in_map_iff. exists link. rewrite F. split; [reflexivity|].
        apply sort_In, filter_In. split; [exact Hl | apply String.eqb_eq; exact Hs].
      * unfold Js.find in F. apply find_some in F. destruct F as [_ F].
        apply andb_true_iff in F. destruct F as [F _]. apply String.eqb_eq in F.
        simpl. congruence.
      * reflexivity.
    + exfalso. revert F. apply find_some_iff. exists event. split; [exact He|].
      apply andb_true_iff. split; [apply String.eqb_eq; exact Hid|].
      apply status_eqb_eq. exact Hp.
Qed.

Lemma live_links_of (tables : DemoDataset) (sourceId : string) (cmp : _ -> _ -> Z) :
  links_of tables sourceId
    (order_by cmp
       (flat_map (fun es =>
                    List.map (fun e => linked_event e es)
                      (filter (fun e => String.eqb (evt_id e) (es_event_id es)
                                        && is_published e) (events tables)))
                 (filter (fun es => String.eqb (es_source_id es) sourceId)
                         (eventSources tables)))).
Proof.
  unfold order_by. split.
  - intros le Hle. apply sort_In, in_flat_map in Hle. destruct Hle as [link [Hl Hle]].
    apply filter_In in Hl. destruct Hl as [Hl Hs]. apply String.eqb_eq in Hs.
    apply in_map_iff in Hle. destruct Hle as [event [<- He]].
    apply filter_In in He. destruct He as [He Hp].
    apply andb_true_iff in Hp. destruct Hp as [Hid Hp]. apply String.eqb_eq in Hid.
    apply status_eqb_eq in Hp. exists link, event. auto 10.
  - intros link event Hl Hs He Hid Hp. exists (linked_event event link).
    split; [|split; reflexivity].
    apply sort_In, in_flat_map. exists link. split.
    + apply filter_In. split; [exact Hl | apply String.eqb_eq; exact Hs].
    + apply (in_map (fun e => linked_event e link)). apply filter_In. split; [exact He|].
      apply andb_true_iff. split; [apply String.eqb_eq; exact Hid | apply status_eqb_eq; exact Hp].
Qed.

End AccessFacts.

Module OrderFacts.
Import DemoStore Runtime LiveStore Events Sources Api Props JsFacts SnapshotFacts AccessFacts.

(** *** Orders without ties *)

Lemma pairs_permuted {A} (R : A -> A -> Prop) (l l' : list A) :
  (forall a b, R a b -> R b a) ->
  Permutation l l' -> ForallOrdPairs R l -> ForallOrdPairs R l'.
Proof.
  intros Hsym. induction 1 as [|x l l' H IH|x y l|l l' l'' H1 IH1 H2 IH2]; intros HR.
  - exact HR.
  - inversion HR as [|? ? Hx Hl]; subst. constructor; [|apply IH; exact Hl].
    eapply Permutation_Forall; eassumption.
  - inversion HR as [|? ? Hy Hl]; subst. inversion Hl as [|? ? Hx Hl']; subst.
    inversion Hy as [|? ? Hyx Hy']; subst.
    constructor; [constructor; [apply Hsym; exact Hyx|exact Hx]|].
    constructor; assumption.
  - apply IH2, IH1, HR.
Qed.

(** Of rows without ties there is one order that respects the keys. *)
Lemma ordered_perm_unique {A} (cmp : A -> A -> Z) (l1 l2 : list A) :
  (forall a b, cmp b a = - cmp a b) ->
  transitive_cmp cmp ->
  untied cmp l1 -> ordered cmp l1 -> ordered cmp l2 -> Permutation l1 l2 -> l1 = l2.
Proof.
  intros Hodd Htr Hu H1 H2.
  apply (ordered_strongly _ _ Htr) in H1. apply (ordered_strongly _ _ Htr) in H2.
  revert l2 H2. induction H1 as [|a l1 Hs IH Hf]; intros l2 H2 Hp.
  - apply Permutation_nil in Hp. symmetry. exact Hp.
  - destruct l2 as [|b l2]; [apply Permutation_sym, Permutation_nil in Hp; discriminate|].
    inversion Hu as [|? ? Hua Hul]; subst. inversion H2 as [|? ? Hs2 Hf2]; subst.
    assert (E : a = b).
    { assert (Hb : In b (a :: l1))
        by (eapply Permutation_in; [apply Permutation_sym; exact Hp|left; reflexivity]).
      assert (Ha : In a (b :: l2)) by (eapply Permutation_in; [exact Hp|left; reflexivity]).
      destruct Hb as [Hb|Hb]; [exact Hb|]. destruct Ha as [Ha|Ha]; [symmetry; exact Ha|].
      rewrite Forall_forall in Hf, Hf2, Hua.
      specialize (Hf b Hb). specialize (Hf2 a Ha). specialize (Hua b Hb). cbn beta in *.
      rewrite (Hodd a b) in Hf2. lia. }
    subst b. f_equal. apply IH; [exact Hul|exact Hs2|].
    eapply Permutation_cons_inv. exact Hp.
Qed.

Lemma resolveSort_odd (sort : EventSort) (a b : DemoEventRecord) :
  resolveSort sort b a = - resolveSort sort a b.
Proof.
  destruct sort; cbn [resolveSort].
  - apply localeCompare_opp.
  - apply localeCompare_opp.
  - rewrite (Z.eqb_sym (evt_importance_score a) (evt_importance_score b)).
    destruct (evt_importance_score b =? evt_importance_score a); cbn [negb]; [|lia].
    apply localeCompare_opp.
Qed.

Lemma resolveSort_total (sort : EventSort) : total_cmp (resolveSort sort).
Proof. intros a b. rewrite (resolveSort_odd sort a b). lia. Qed.

Lemma resolveSort_transitive (sort : EventSort) : transitive_cmp (resolveSort sort).
Proof.
  destruct sort; intros a b c; cbn [resolveSort].
  - apply (localeCompare_trans_desc evt_event_date).
  - intros H1 H2. exact (localeCompare_trans_desc evt_event_date c b a H2 H1).
  - destruct (Z.eqb_spec (evt_importance_score b) (evt_importance_score a)) as [E1|E1];
      destruct (Z.eqb_spec (evt_importance_score c) (evt_importance_score b)) as [E2|E2];
      destruct (Z.eqb_spec (evt_importance_score c) (evt_importance_score a)) as [E3|E3];
      cbn [negb]; try lia.
    apply (localeCompare_trans_desc evt_event_date).
Qed.

Lemma untied_symmetric (sort : EventSort) (a b : DemoEventRecord) :
  resolveSort sort a b <> 0 -> resolveSort sort b a <> 0.
Proof. rewrite (resolveSort_odd sort a b). lia. Qed.

(** *** A stable sort after another sort *)

Section Stable.
Context {A : Type} (cmp1 cmp2 : A -> A -> Z).

Local Abbreviation then_by := (then_by cmp1 cmp2).

Hypothesis cmp1_sign : forall a b, 0 < cmp1 a b -> cmp1 b a < 0.

Lemma sort_insert_then_by (x : A) (l : list A) :
  Forall (fun y => cmp2 x y <= 0) l ->
  ordered then_by l -> ordered then_by (Js.sort_insert cmp1 x l).
Proof.
  unfold ordered. induction l as [|y l IH]; cbn [Js.sort_insert]; intros Hx Ho.
  - constructor; constructor.
  - inversion Hx as [|? ? Hxy Hxl]; subst.
    assert (Hyx : (cmp1 x y <=? 0) = false -> then_by y x <= 0).
    { intros E. apply Z.leb_gt in E. apply cmp1_sign in E. unfold then_by.
      destruct (Z.eqb_spec (cmp1 y x) 0); cbn [negb]; lia. }
    destruct (cmp1 x y <=? 0) eqn:E.
    + constructor; [exact Ho|]. constructor. unfold then_by.
      apply Z.leb_le in E. destruct (Z.eqb_spec (cmp1 x y) 0); cbn [negb]; lia.
    + inversion Ho as [|? ? Hs Hh]; subst. constructor; [apply IH; assumption|].
      destruct l as [|z l]; cbn [Js.sort_insert].
      * constructor. apply Hyx. reflexivity.
      * destruct (cmp1 x z <=? 0).
        -- constructor. apply Hyx. reflexivity.
        -- inversion Hh; subst. constructor. assumption.
Qed.

(** Sorting by the first key a list that is in the order of the second key
    leaves it in the order of the first key and then the second: the sort
    keeps the elements of equal keys as they stand. *)
Lemma sort_then_by (l : list A) :
  StronglySorted (fun a b => cmp2 a b <= 0) l -> ordered then_by (Js.sort cmp1 l).
Proof.
  induction 1 as [|a l Hs IH Hf]; cbn [Js.sort]; [constructor|].
  apply sort_insert_then_by; [|exact IH].
  rewrite Forall_forall in *. intros y Hy. apply Hf. apply sort_In in Hy. exact Hy.
Qed.

End Stable.

Lemma strongly_sorted_lookups {A B} (R : A -> A -> Prop) (R' : B -> B -> Prop)
    (f : A -> option B) (l : list A) :
  (forall a b a' b', f a = Some a' -> f b = Some b' -> R a b -> R' a' b') ->
  StronglySorted R l -> StronglySorted R' (keep_some (List.map f l)).
Proof.
  intros Hk. induction 1 as [|a l Hs IH Hf]; cbn [List.map keep_some]; [constructor|].
  destruct (f a) as [a'|] eqn:E; [|exact IH].
  constructor; [exact IH|].
  apply Forall_forall. intros y Hy. apply keep_some_In in Hy.
  apply in_map_iff in Hy as (x & Hx & Hin).
  rewrite Forall_forall in Hf. exact (Hk a x a' y E Hx (Hf x Hin)).
Qed.

Lemma sorted_weaken {A} (R R' : A -> A -> Prop) (l : list A) :
  (forall a b, R a b -> R' a b) -> Sorted R l -> Sorted R' l.
Proof.
  intros Hw. induction 1 as [|a l Hs IH Hh]; constructor; [exact IH|].
  destruct Hh; constructor. apply Hw. assumption.
Qed.

(** *** Dates and ranks *)

Lemma localeCompare_zero (a b : string) : Js.localeCompare a b = 0 <-> a = b.
Proof.
  unfold Js.localeCompare. split.
  - destruct (String.compare a b) eqn:E; intros H; try lia.
    apply String.compare_eq_iff. exact E.
  - intros <-. pose proof (String.compare_antisym a a) as H.
    destruct (String.compare a a); cbn in H; try discriminate H. reflexivity.
Qed.

Lemma localeCompare_str_le (a b : string) :
  Js.localeCompare a b <= 0 <-> Js.str_le a b = true.
Proof.
  unfold Js.localeCompare, Js.str_le, String.leb.
  destruct (String.compare a b); split; intros H; try reflexivity; try discriminate; lia.
Qed.

Lemma str_le_antisym (a b : string) :
  Js.str_le a b = true -> Js.str_le b a = true -> a = b.
Proof.
  intros H1 H2. apply localeCompare_str_le in H1, H2.
  apply localeCompare_zero. rewrite (localeCompare_opp a b) in H1 |- *. lia.
Qed.

Lemma str_le_trans (a b c : string) :
  Js.str_le a b = true -> Js.str_le b c = true -> Js.str_le a c = true.
Proof.
  rewrite <- !localeCompare_str_le, !localeCompare_le. apply compare_le_trans.
Qed.

Lemma dated_then_ranked_transitive (rank_first : Z -> Z -> Prop) :
  (forall x y z, rank_first x y -> rank_first y z -> rank_first x z) ->
  forall a b c, dated_then_ranked rank_first a b -> dated_then_ranked rank_first b c ->
                dated_then_ranked rank_first a c.
Proof.
  intros Ht a b c [D1 R1] [D2 R2]. split; [eapply str_le_trans; eassumption|].
  intros E. rewrite E in D1.
  assert (E2 : le_event_date b = le_event_date c) by (apply str_le_antisym; assumption).
  apply (Ht _ (le_relevance_rank b)); [apply R1; congruence|apply R2; exact E2].
Qed.

Lemma then_by_dated (rank_cmp : SourceLinkedEvent -> SourceLinkedEvent -> Z)
    (rank_first : Z -> Z -> Prop) (l : list SourceLinkedEvent) :
  (forall x y z, rank_first x y -> rank_first y z -> rank_first x z) ->
  (forall a b, rank_cmp a b <= 0 -> rank_first (le_relevance_rank a) (le_relevance_rank b)) ->
  ordered (then_by (fun a b => Js.localeCompare (le_event_date b) (le_event_date a)) rank_cmp) l ->
  by_date_then_rank rank_first l.
Proof.
  intros Ht Hr Ho. unfold by_date_then_rank.
  apply Sorted_StronglySorted; [intros a b c; apply dated_then_ranked_transitive, Ht|].
  revert Ho. apply sorted_weaken. intros a b. unfold then_by, dated_then_ranked.
  destruct (Z.eqb_spec (Js.localeCompare (le_event_date b) (le_event_date a)) 0) as [E|E];
    cbn [negb]; intros H.
  - apply localeCompare_zero in E. split.
    + rewrite E. apply localeCompare_str_le. rewrite (proj2 (localeCompare_zero _ _) eq_refl). lia.
    + intros _. apply Hr, H.
  - split; [apply localeCompare_str_le; exact H|].
    intros E'. exfalso. apply E. apply localeCompare_zero. symmetry. exact E'.
Qed.

End OrderFacts.

Module SourceClaims.
Import DemoStore Runtime LiveStore Events Sources Api Props JsFacts SnapshotFacts AccessFacts
       OrderFacts.


(** Where the dates are equal the two paths part: the two events of the
    same day come back with the ranks 1 then 5 from the store and with the
    ranks 5 then 1 from the snapshot. *)
Lemma same_day_ranks_by_path :
  exists d_live d_memory,
    getSourceById (live_env snapshot_same_day_cited) snapshot_same_day_cited
      (stableUuid "source:https://archive.org/details/reportofpresiden01unit")
    = Returned (Some d_live)
    /\ getSourceById (demo_env (Up snapshot_same_day_cited)) snapshot_same_day_cited
         (stableUuid "source:https://archive.org/details/reportofpresiden01unit")
       = Returned (Some d_memory)
    /\ List.map le_event_date (linked_events d_live) = ["1987-10-19"; "1987-10-19"]
    /\ List.map le_relevance_rank (linked_events d_live) = [1; 5]
    /\ List.map le_relevance_rank (linked_events d_memory) = [5; 1].
Proof.
  eexists. eexists.
  split; [vm_compute; reflexivity|]. split; [vm_compute; reflexivity|].
  split; [reflexivity|]. split; reflexivity.
Qed.



End SourceClaims.

Module CalendarClaims.
Import DemoStore Runtime LiveStore Events Sources Api Props JsFacts
       SnapshotFacts AccessFacts.

Lemma monthDay_order_total : total_cmp monthDay_order.
Proof.
  intros a b. unfold monthDay_order.
  rewrite (localeCompare_opp (evt_event_date a) (evt_event_date b)).
  destruct (Js.localeCompare (evt_event_date b) (evt_event_date a) =? 0) eqn:E.
  - apply Z.eqb_eq in E. rewrite E. simpl. lia.
  - apply Z.eqb_neq in E. cbn [negb].
    destruct (- Js.localeCompare (evt_event_date b) (evt_event_date a) =? 0) eqn:E'.
    + apply Z.eqb_eq in E'. lia.
    + cbn [negb]. lia.
Qed.

Lemma demo_listing_all (ds : DemoDataset) :
  exists T C,
    items (listPublishedEventsFromDemo ds all_filters_off)
    = firstn 5000 (Js.sort item_date_desc
                     (List.map (to_item T C) (filter is_published (events ds)))).
Proof.
  eexists. eexists. unfold listPublishedEventsFromDemo. cbv zeta.
  unfold mkResult. cbn [items].
  cbn [all_filters_off f_date f_from f_to f_category f_region f_tag f_importanceMin f_q
       f_page f_pageSize f_sort given filter_if applyEventSort].
  change ((1 - 1) * 5000) with 0.
  rewrite (array_slice_window _ 0 5000) by lia. reflexivity.
Qed.

(** On the live path the listing of a month-day is what the specification
    says: the published events of that month-day, by date descending and
    then by importance descending. *)
Lemma month_day_live (e : env) (ds tables : DemoDataset) (monthDay : string) :
  serving e ds = Some (Live, tables) ->
  exists l,
    listPublishedEventsByMonthDay e ds monthDay = Returned l
    /\ Permutation (List.map item_id l)
                   (List.map evt_id (matching_month_day tables monthDay))
    /\ ordered item_date_then_importance l.
Proof.
  intros Hs. unfold listPublishedEventsByMonthDay.
  rewrite (dual_path_live e ds tables _ _ Hs).
  unfold listPublishedEventsByMonthDay_query. cbn [catch_unavailable].
  eexists. split; [reflexivity|]. split.
  - rewrite map_map. cbn [row_to_item item_id].
    apply Permutation_map, Permutation_sym, sort_perm.
  - apply (ordered_map _ monthDay_order); [reflexivity|].
    apply sort_ordered, monthDay_order_total.
Qed.

(** On the in-memory path the listing is drawn from the first 5000 published
    events by date descending: it is in that order, it has no more than 5000
    items, and it holds the published events of the month-day when the
    snapshot has no more than 5000 published events. *)
Lemma month_day_memory (e : env) (ds tables : DemoDataset) (monthDay : string) :
  serving e ds = Some (Memory, tables) ->
  exists l,
    listPublishedEventsByMonthDay e ds monthDay = Returned l
    /\ ordered item_date_desc l
    /\ (List.length l <= 5000)%nat
    /\ ((List.length (filter is_published (events tables)) <= 5000)%nat ->
        Permutation (List.map item_id l)
                    (List.map evt_id (matching_month_day tables monthDay))).
Proof.
  intros Hs. unfold listPublishedEventsByMonthDay.
  destruct (dual_path_memory e ds tables
              (fun db => listPublishedEventsByMonthDay_query db monthDay)
              (listPublishedEventsByMonthDayFromDemo ds monthDay) Hs) as [-> ->].
  eexists. split; [reflexivity|].
  unfold listPublishedEventsByMonthDayFromDemo.
  destruct (demo_listing_all ds) as [T [C ->]].
  split; [|split].
  - apply ordered_filter; [apply (localeCompare_trans_desc item_event_date)|].
    apply ordered_firstn, sort_ordered. apply (localeCompare_total_desc item_event_date).
  - eapply Nat.le_trans; [apply filter_length_le|]. rewrite length_firstn. lia.
  - intros Hcap. rewrite firstn_all2 by (rewrite sort_length, length_map; auto).
    eapply Permutation_trans.
    + apply Permutation_map, Permutation_filter_same, Permutation_sym, sort_perm.
    + rewrite filter_map_swap, map_map. cbn [to_item item_id item_event_date].
      unfold matching_month_day. rewrite <- filter_filter_and. apply Permutation_refl.
Qed.

(** C6 at the failing input.  The store answers every month-day as the
    specification says, by date descending and then by importance
    descending.  The snapshot of two published events of 19 October 1987
    answers "10-19" with both events, the one of importance 2 before the
    one of importance 5: the in-memory branch reuses the listing by date and
    has no second key. *)
Theorem month_day_memory_ignores_importance_order :
  (forall (tables : DemoDataset) (monthDay : string),
     exists l,
       listPublishedEventsByMonthDay (live_env tables) tables monthDay = Returned l
       /\ Permutation (List.map item_id l)
                      (List.map evt_id (matching_month_day tables monthDay))
       /\ ordered item_date_then_importance l)
  /\ (exists l,
        listPublishedEventsByMonthDay (live_env snapshot_same_day) snapshot_same_day "10-19"
        = Returned l
        /\ List.map item_importance_score l = [5; 2])
  /\ (exists l,
        listPublishedEventsByMonthDay (demo_env (Up snapshot_same_day)) snapshot_same_day
          "10-19" = Returned l
        /\ Permutation (List.map item_id l)
                       (List.map evt_id (matching_month_day snapshot_same_day "10-19"))
        /\ List.map item_event_date l = ["1987-10-19"; "1987-10-19"]
        /\ List.map item_importance_score l = [2; 5]
        /\ ~ ordered item_date_then_importance l).
Proof.
  split; [|split].
  - intros tables monthDay. apply (month_day_live (live_env tables) tables tables monthDay).
    reflexivity.
  - eexists. split; [vm_compute; reflexivity|reflexivity].
  - eexists. split; [vm_compute; reflexivity|]. split; [vm_compute; apply Permutation_refl|].
    split; [reflexivity|]. split; [reflexivity|].
    intros H. unfold ordered in H.
    inversion H as [|? ? _ Hh]; subst. inversion Hh as [|? ? Hle]; subst.
    vm_compute in Hle. apply Hle. reflexivity.
Qed.

End CalendarClaims.

Module ApiClaims.
Import DemoStore Runtime LiveStore Events Sources Api Props JsFacts SnapshotFacts AccessFacts.

(** Writes have no in-memory path: when the store is not configured the
    request ends with the envelope SERVICE_UNAVAILABLE and the status 503. *)
Lemma POST_admin_events_unconfigured (normalizeNFKD : string -> string) (c : connection)
    (fresh_id now : string) (input : CreateEventInput) :
  POST_admin_events normalizeNFKD (demo_env c) fresh_id now (Some "admin") (inr input)
  = {| status := 503;
       body := Error "SERVICE_UNAVAILABLE"
                 "Database is unavailable. Configure DATABASE_URL or run demo mode."
                 (Some "DATABASE_URL is not set") |}.
Proof. reflexivity. Qed.

(** A write against a store that rejects the query never answers with a
    created record: the answer is an error envelope. *)
Lemma POST_admin_events_unreachable_is_error (normalizeNFKD : string -> string)
    (failure : heap * value) (fresh_id now : string) (x_role : option string)
    (validation : string + CreateEventInput) :
  exists code message original,
    body (POST_admin_events normalizeNFKD (unreachable_env failure) fresh_id now x_role validation)
    = Error code message original.
Proof.
  unfold POST_admin_events, requireAdmin.
  destruct (given x_role) as [role|]; [|eexists; eexists; eexists; reflexivity].
  destruct (negb (String.eqb role "admin") && negb (String.eqb role "editor"));
    [eexists; eexists; eexists; reflexivity|].
  destruct validation as [error|input]; [eexists; eexists; eexists; reflexivity|].
  unfold createEvent, with_pool, unreachable_env. cbn [getDbPool DATABASE_URL conn String.eqb bind].
  destruct (is_unique_violation (error_code (fst failure) (snd failure)));
    [eexists; eexists; eexists; reflexivity|].
  unfold serverError. destruct (isDatabaseUnavailableMessage _);
    eexists; eexists; eexists; reflexivity.
Qed.

(** When the message of the error carries one of the patterns, the answer is
    the envelope SERVICE_UNAVAILABLE with the status 503. *)
Lemma POST_admin_events_message_matches (normalizeNFKD : string -> string)
    (failure : heap * value) (fresh_id now : string) (input : CreateEventInput) :
  is_unique_violation (error_code (fst failure) (snd failure)) = false ->
  isDatabaseUnavailableMessage (toErrorMessage (fst failure) (snd failure)) = true ->
  status (POST_admin_events normalizeNFKD (unreachable_env failure) fresh_id now
            (Some "editor") (inr input)) = 503.
Proof.
  intros Hc Hm. unfold POST_admin_events. cbn [requireAdmin given String.eqb Ascii.eqb Bool.eqb
                                                 negb andb].
  unfold createEvent, with_pool, unreachable_env.
  cbn [getDbPool DATABASE_URL conn String.eqb bind]. rewrite Hc.
  unfold serverError. rewrite Hm. reflexivity.
Qed.

(** C8 at the failing input.  The store is configured and both addresses of
    its host refuse the connection; the classifier of the read paths calls
    this error unavailability, yet POST /api/v1/admin/events answers with the
    envelope INTERNAL_ERROR and the status 500. *)
Theorem POST_admin_events_refused_is_internal_error :
  isDatabaseUnavailableError (fst refused_twice) (snd refused_twice) = true
  /\ POST_admin_events (fun s => s) (unreachable_env refused_twice)
       "00000000-0000-4000-8000-000000000001" "2024-01-01T00:00:00.000Z"
       (Some "admin") (inr sample_input)
     = {| status := 500; body := Error "INTERNAL_ERROR" "" None |}.
Proof. split; vm_compute; reflexivity. Qed.

End ApiClaims.

Module ListFacts.
Import DemoStore Runtime LiveStore Events Sources Api Props JsFacts SnapshotFacts AccessFacts.

(** *** The two maps of [listPublishedEventsFromDemo] *)

Lemma tagsByEventId_get (ds : DemoDataset) (l : list DemoEventTagRecord)
    (m : Js.Map (list string)) (id : string) :
  or_else (Js.map_get (fold_left (tagsByEventId_step ds) l m) id) []
  = (or_else (Js.map_get m id) []
     ++ flat_map (fun et =>
                    match Js.find (fun entry => String.eqb (tag_id entry) (et_tag_id et))
                                  (tags ds) with
                    | Some tag => [tag_slug tag]
                    | None => []
                    end)
                 (filter (fun et => String.eqb (et_event_id et) id) l))%list.
Proof.
  revert m. induction l as [|et l IH]; intros m; cbn [fold_left filter flat_map].
  - rewrite app_nil_r. reflexivity.
  - rewrite IH. unfold tagsByEventId_step.
    destruct (Js.find _ (tags ds)) as [tag|] eqn:F.
    + rewrite map_get_set. destruct (String.eqb (et_event_id et) id) eqn:E.
      * apply String.eqb_eq in E. subst id. cbn [or_else flat_map]. rewrite F.
        rewrite <- app_assoc. reflexivity.
      * reflexivity.
    + destruct (String.eqb (et_event_id et) id); [|reflexivity].
      cbn [flat_map]. rewrite F. reflexivity.
Qed.

Lemma sourceCountByEventId_get (l : list DemoEventSourceRecord) (m : Js.Map Z) (id : string) :
  or_else (Js.map_get (fold_left sourceCountByEventId_step l m) id) 0
  = or_else (Js.map_get m id) 0
    + Z.of_nat (List.length (filter (fun es => String.eqb (es_event_id es) id) l)).
Proof.
  revert m. induction l as [|link l IH]; intros m; cbn [fold_left filter].
  - simpl. lia.
  - rewrite IH. unfold sourceCountByEventId_step. rewrite map_get_set.
    destruct (String.eqb (es_event_id link) id) eqn:E.
    + apply String.eqb_eq in E. subst id. cbn [or_else List.length]. lia.
    + reflexivity.
Qed.

(** With one tag per id, the join on the tag id finds what [find] finds. *)
Lemma filter_by_unique_id (l : list DemoTagRecord) (x : string) :
  NoDup (List.map tag_id l) ->
  List.map tag_slug (filter (fun t => String.eqb (tag_id t) x) l)
  = match Js.find (fun entry => String.eqb (tag_id entry) x) l with
    | Some tag => [tag_slug tag]
    | None => []
    end.
Proof.
  unfold Js.find. induction l as [|t l IH]; simpl; intros Hnd; [reflexivity|].
  inversion Hnd as [|? ? Hnin Hnd']; subst.
  destruct (String.eqb (tag_id t) x) eqn:E.
  - apply String.eqb_eq in E. subst x. simpl. f_equal.
    replace (filter (fun t0 => String.eqb (tag_id t0) (tag_id t)) l) with (@nil DemoTagRecord);
      [reflexivity|].
    symmetry. clear IH Hnd Hnd'. induction l as [|u l IH]; simpl; [reflexivity|].
    destruct (String.eqb (tag_id u) (tag_id t)) eqn:E.
    + apply String.eqb_eq in E. exfalso. apply Hnin. left. exact E.
    + apply IH. intros H. apply Hnin. right. exact H.
  - apply IH. exact Hnd'.
Qed.

Lemma tagset_is_tag_slugs (ds : DemoDataset) (e : DemoEventRecord) :
  NoDup (List.map tag_id (tags ds)) ->
  tagset ds e = Js.sort_strings (tag_slugs_of ds (evt_id e)).
Proof.
  intros Hnd. unfold tagset, tag_slugs_of. f_equal.
  induction (filter (fun et => String.eqb (et_event_id et) (evt_id e)) (eventTags ds))
    as [|et l IH]; simpl; [reflexivity|].
  rewrite IH, (filter_by_unique_id _ _ Hnd). reflexivity.
Qed.

(** An item of the in-memory path is the row of the live path. *)
Lemma to_item_is_row (ds : DemoDataset) (e : DemoEventRecord) :
  NoDup (List.map tag_id (tags ds)) ->
  to_item (fold_left (tagsByEventId_step ds) (eventTags ds) [])
          (fold_left sourceCountByEventId_step (eventSources ds) []) e
  = row_to_item ds e.
Proof.
  intros Hnd. unfold to_item, row_to_item.
  rewrite tagsByEventId_get, sourceCountByEventId_get, (tagset_is_tag_slugs ds e Hnd).
  reflexivity.
Qed.

(** *** The filters *)

Lemma filter_if_map {A B C} (f : A -> C) (o : option B) (p : B -> C -> bool) (l : list A) :
  filter_if o p (List.map f l)
  = List.map f (filter (fun a => opt_test o (fun b => p b (f a))) l).
Proof.
  destruct o as [b|]; simpl.
  - apply filter_map_swap.
  - rewrite filter_true. reflexivity.
Qed.

Lemma existsb_perm {A} (p : A -> bool) (l l' : list A) :
  Permutation l l' -> existsb p l = existsb p l'.
Proof.
  induction 1 as [|x l l' H IH|x y l|l l' l'' H1 IH1 H2 IH2]; simpl.
  - reflexivity.
  - rewrite IH. reflexivity.
  - destruct (p x), (p y); reflexivity.
  - congruence.
Qed.

Lemma tag_join_exists (l : list DemoTagRecord) (x t : string) :
  existsb (fun tf => String.eqb (tag_id tf) x && String.eqb (tag_slug tf) t) l
  = existsb (String.eqb t) (List.map tag_slug (filter (fun t0 => String.eqb (tag_id t0) x) l)).
Proof.
  induction l as [|tf l IH]; simpl; [reflexivity|].
  destruct (String.eqb (tag_id tf) x); simpl; [|exact IH].
  rewrite IH, (String.eqb_sym t). reflexivity.
Qed.

Lemma has_tag_slug_tagset (ds : DemoDataset) (e : DemoEventRecord) (t : string) :
  has_tag_slug ds e t = existsb (String.eqb t) (tagset ds e).
Proof.
  unfold tagset, Js.sort_strings.
  rewrite <- (existsb_perm _ _ _ (sort_perm _ _)).
  unfold has_tag_slug.
  induction (eventTags ds) as [|et l IH]; simpl; [reflexivity|].
  destruct (String.eqb (et_event_id et) (evt_id e)); simpl; [|exact IH].
  rewrite existsb_app, IH, tag_join_exists. reflexivity.
Qed.

Lemma filter_same {A} (p q : A -> bool) (l : list A) :
  (forall x, p x = q x) -> filter p l = filter q l.
Proof. intros H. apply filter_ext. exact H. Qed.

(** The items of the in-memory path before they are sorted are the rows that
    satisfy the WHERE clause, as long as no keyword is given. *)
Lemma demo_filters_are_where (ds : DemoDataset) (filters : ListEventsFilters)
    (l : list DemoEventRecord) :
  given (f_q filters) = None ->
  filter_if (given (f_q filters))
    (fun q item => matchesKeyword (keyword_haystack item) q)
    (filter_if (f_importanceMin filters)
       (fun n item => n <=? item_importance_score item)
       (filter_if (given (f_tag filters))
          (fun t item => existsb (String.eqb t) (item_tags item))
          (filter_if (given (f_region filters))
             (fun r item => String.eqb (item_region item) r)
             (filter_if (given (f_category filters))
                (fun c item => String.eqb (item_category item) c)
                (filter_if (given (f_to filters))
                   (fun d item => Js.str_le (item_event_date item) d)
                   (filter_if (given (f_from filters))
                      (fun d item => Js.str_le d (item_event_date item))
                      (filter_if (given (f_date filters))
                         (fun d item => String.eqb (item_event_date item) d)
                         (List.map (row_to_item ds) (filter is_published l)))))))))
  = List.map (row_to_item ds) (filter (eventWhere ds filters) l).
Proof.
  intros Hq. rewrite !filter_if_map, !filter_filter_and. f_equal.
  apply filter_same. intros e. unfold eventWhere. rewrite Hq.
  replace (opt_test (given (f_tag filters)) (has_tag_slug ds e))
    with (opt_test (given (f_tag filters)) (fun t => existsb (String.eqb t) (tagset ds e))).
  - rewrite !andb_assoc. reflexivity.
  - destruct (given (f_tag filters)); [|reflexivity].
    cbn [opt_test]. symmetry. apply has_tag_slug_tagset.
Qed.

Lemma applyEventSort_rows (ds : DemoDataset) (sort : EventSort) (l : list DemoEventRecord) :
  applyEventSort (List.map (row_to_item ds) l) sort
  = List.map (row_to_item ds) (order_by (resolveSort sort) l).
Proof.
  unfold order_by. destruct sort; apply sort_map; reflexivity.
Qed.

(** The in-memory listing, given one tag per id and no keyword, is the
    listing of the query. *)
Lemma demo_listing_is_query (ds : DemoDataset) (filters : ListEventsFilters) :
  given (f_q filters) = None ->
  NoDup (List.map tag_id (tags ds)) ->
  castable (f_date filters) && castable (f_from filters) && castable (f_to filters) = true ->
  1 <= f_page filters -> 0 <= f_pageSize filters ->
  listPublishedEvents_query ds filters = Returned (listPublishedEventsFromDemo ds filters).
Proof.
  intros Hq Hnd Hcast Hpage Hsize.
  unfold listPublishedEvents_query, buildEventWhere. rewrite Hcast. cbn [bind].
  unfold limit_offset.
  destruct (f_pageSize filters <? 0) eqn:E1; [apply Z.ltb_lt in E1; lia|].
  destruct ((f_page filters - 1) * f_pageSize filters <? 0) eqn:E2;
    [apply Z.ltb_lt in E2; nia|].
  cbn [bind]. f_equal.
  unfold listPublishedEventsFromDemo. cbv zeta.
  rewrite (List.map_ext_in
             (to_item (fold_left (tagsByEventId_step ds) (eventTags ds) [])
                      (fold_left sourceCountByEventId_step (eventSources ds) []))
             (row_to_item ds))
    by (intros e _; apply to_item_is_row; exact Hnd).
  rewrite (demo_filters_are_where ds filters (events ds) Hq).
  rewrite applyEventSort_rows.
  rewrite array_slice_window by nia.
  rewrite skipn_map, firstn_map. f_equal.
  rewrite length_map. unfold order_by. rewrite sort_length. reflexivity.
Qed.

End ListFacts.

Module ListClaims.
Import DemoStore Runtime LiveStore Events Sources Api Props JsFacts SnapshotFacts
       AccessFacts ListFacts OrderFacts.

(** The answer of the model of the store is one of the answers of the
    store. *)
Lemma query_is_live_listing (db : database) (filters : ListEventsFilters)
    (r : EventListResult) :
  listPublishedEvents_query db filters = Returned r -> live_listing db filters r.
Proof.
  unfold listPublishedEvents_query, live_listing.
  destruct (buildEventWhere db filters) as [where_|h error]; cbn [bind]; [|discriminate].
  destruct (limit_offset _ _ _) as [rows|h error] eqn:L; cbn [bind]; [|discriminate].
  intros H. injection H as <-.
  exists where_, (order_by (resolveSort (f_sort filters)) (filter where_ (events db))), rows.
  split; [reflexivity|]. split; [|split; [exact L|reflexivity]].
  split; [apply sort_perm|apply sort_ordered, resolveSort_total].
Qed.

(** When no two rows of the WHERE clause tie, the store has one answer. *)
Lemma live_listing_untied (db : database) (filters : ListEventsFilters)
    (r : EventListResult) :
  untied (resolveSort (f_sort filters)) (filter (eventWhere db filters) (events db)) ->
  live_listing db filters r -> listPublishedEvents_query db filters = Returned r.
Proof.
  intros Hu (where_ & sorted & rows & Hw & [Hperm Hord] & Hl & ->).
  unfold listPublishedEvents_query. rewrite Hw. cbn [bind].
  unfold buildEventWhere in Hw.
  destruct (castable (f_date filters) && castable (f_from filters)
            && castable (f_to filters)); [|discriminate Hw].
  injection Hw as <-.
  assert (E : order_by (resolveSort (f_sort filters))
                (filter (eventWhere db filters) (events db)) = sorted).
  { unfold order_by.
    apply (ordered_perm_unique (resolveSort (f_sort filters))).
    - intros a b. apply resolveSort_odd.
    - apply resolveSort_transitive.
    - apply (pairs_permuted _ (filter (eventWhere db filters) (events db))).
      + intros a b. apply untied_symmetric.
      + apply sort_perm.
      + exact Hu.
    - apply sort_ordered, resolveSort_total.
    - exact Hord.
    - eapply Permutation_trans; [apply Permutation_sym, sort_perm|exact Hperm]. }
  rewrite E, Hl. reflexivity.
Qed.


(** C1, as stated, also fails on the order of events that tie: the two
    events of the same day of [snapshot_same_day], listed by date, may come
    from the store the crash first, and come from the snapshot the
    statement first. *)
Lemma tied_events_may_swap :
  exists r_live r_memory,
    live_listing snapshot_same_day newest_first r_live
    /\ listPublishedEvents (demo_env (Up snapshot_same_day)) snapshot_same_day newest_first
       = Returned r_memory
    /\ List.map item_slug (items r_live) = ["black-monday-1987"; "fed-statement-1987"]
    /\ List.map item_slug (items r_memory) = ["fed-statement-1987"; "black-monday-1987"]
    /\ r_live <> r_memory.
Proof.
  exists (mkResult newest_first
            (List.map (row_to_item snapshot_same_day)
               (rev (filter (eventWhere snapshot_same_day newest_first)
                            (events snapshot_same_day)))) 2).
  eexists. split; [|split; [vm_compute; reflexivity|]].
  - exists (eventWhere snapshot_same_day newest_first),
           (rev (filter (eventWhere snapshot_same_day newest_first)
                        (events snapshot_same_day))),
           (rev (filter (eventWhere snapshot_same_day newest_first)
                        (events snapshot_same_day))).
    split; [reflexivity|]. split; [|split; [vm_compute; reflexivity|reflexivity]].
    split; [apply Permutation_rev|].
    vm_compute. repeat constructor; discriminate.
  - split; [vm_compute; reflexivity|]. split; [vm_compute; reflexivity|].
    intros H. apply (f_equal (fun r => List.map item_slug (items r))) in H.
    vm_compute in H. discriminate H.
Qed.



End ListClaims.

(* ================================================================== *)
(** * Further properties of the code *)
(* ================================================================== *)

Module SlugFacts.
Import Js DemoStore Events Request EventsInput Notions.

Lemma hyphen_not_alnum (c : ascii) : is_hyphen c = true -> is_alnum_lower c = false.
Proof.
  unfold is_hyphen, is_alnum_lower, is_lower, is_digit. intros H.
  apply Z.eqb_eq in H. rewrite H. reflexivity.
Qed.

Lemma hyphen_char (c : ascii) : is_hyphen c = true -> c = "-"%char.
Proof.
  unfold is_hyphen, code. intros H. apply Z.eqb_eq in H.
  rewrite <- (ascii_N_embedding c). replace (N_of_ascii c) with 45%N by lia. reflexivity.
Qed.

Lemma hyphenated_weaken (s : string) : hyphenated s true = true -> hyphenated s false = true.
Proof.
  destruct s as [|c s]; simpl; [reflexivity|].
  destruct (is_alnum_lower c); [tauto|].
  rewrite andb_false_r. discriminate.
Qed.

Lemma replace_hyphenated (s : string) (b : bool) :
  hyphenated (replace_non_alnum_runs s b) b = true.
Proof.
  revert b. induction s as [|c s IH]; intros b; simpl; [reflexivity|].
  destruct (is_alnum_lower c) eqn:E.
  - simpl. rewrite E. apply IH.
  - destruct b.
    + apply IH.
    + simpl. apply IH.
Qed.

Lemma strip_leading_hyphenated (s : string) (b : bool) :
  hyphenated s b = true -> hyphenated (strip_leading_hyphens s) true = true.
Proof.
  revert b. induction s as [|c s IH]; intros b H; simpl in *; [reflexivity|].
  destruct (is_hyphen c) eqn:Eh.
  - rewrite (hyphen_not_alnum c Eh) in H. apply andb_prop in H as [_ H]. eapply IH, H.
  - simpl. rewrite Eh. destruct (is_alnum_lower c); [exact H|discriminate H].
Qed.

(** What is left when the trailing hyphens are gone is a slug, unless
    nothing is left. *)
Lemma strip_trailing_slug (s : string) (a : bool) :
  hyphenated s (negb a) = true ->
  isValidSlug_from (strip_trailing_hyphens s) a
  = a || negb (String.eqb (strip_trailing_hyphens s) "").
Proof.
  revert a. induction s as [|c s IH]; intros a H; simpl in *.
  - rewrite orb_false_r. reflexivity.
  - destruct (is_alnum_lower c) eqn:Ea.
    + specialize (IH true H). simpl in IH.
      assert (Hh : is_hyphen c = false).
      { destruct (is_hyphen c) eqn:Eh; [|reflexivity].
        rewrite (hyphen_not_alnum c Eh) in Ea. discriminate. }
      destruct (strip_trailing_hyphens s) as [|d t] eqn:Et.
      * rewrite Hh. simpl. rewrite Ea. rewrite orb_true_r. reflexivity.
      * simpl. rewrite Ea. simpl in IH. rewrite IH. rewrite orb_true_r. reflexivity.
    + apply andb_prop in H as [H Hs]. apply andb_prop in H as [Hh Ha].
      destruct a; [|discriminate Ha]. specialize (IH false Hs). simpl in IH.
      destruct (strip_trailing_hyphens s) as [|d t] eqn:Et.
      * rewrite Hh. reflexivity.
      * simpl. rewrite Ea, Hh. simpl in IH. rewrite IH. reflexivity.
Qed.

Lemma strip_trailing_hyphenated (s : string) (b : bool) :
  hyphenated s b = true -> hyphenated (strip_trailing_hyphens s) b = true.
Proof.
  revert b. induction s as [|c s IH]; intros b H; simpl in *; [reflexivity|].
  destruct (is_alnum_lower c) eqn:Ea.
  - specialize (IH false H).
    destruct (strip_trailing_hyphens s) as [|d t] eqn:Et.
    + destruct (is_hyphen c); simpl; [reflexivity|]. rewrite Ea. reflexivity.
    + simpl. rewrite Ea. exact IH.
  - apply andb_prop in H as [H Hs]. apply andb_prop in H as [Hh Hb].
    specialize (IH true Hs).
    destruct (strip_trailing_hyphens s) as [|d t] eqn:Et.
    + rewrite Hh. reflexivity.
    + simpl. rewrite Ea, Hh, Hb. exact IH.
Qed.

Lemma collapse_hyphenated (s : string) (b : bool) :
  hyphenated s b = true -> collapse_hyphens s b = s.
Proof.
  revert b. induction s as [|c s IH]; intros b H; simpl in *; [reflexivity|].
  destruct (is_alnum_lower c) eqn:Ea.
  - assert (Hh : is_hyphen c = false).
    { destruct (is_hyphen c) eqn:Eh; [|reflexivity].
      rewrite (hyphen_not_alnum c Eh) in Ea. discriminate. }
    rewrite Hh. f_equal. apply IH, H.
  - apply andb_prop in H as [H Hs]. apply andb_prop in H as [Hh Hb].
    rewrite Hh. destruct b; [discriminate Hb|]. f_equal. apply IH, Hs.
Qed.

Lemma slug_core_valid (lowered : string) :
  slug_core lowered = "" \/ isValidSlug (slug_core lowered) = true.
Proof.
  unfold slug_core.
  pose proof (replace_hyphenated lowered false) as H0.
  apply strip_leading_hyphenated in H0.
  pose proof (strip_trailing_hyphenated _ _ H0) as H1.
  rewrite (collapse_hyphenated _ false (hyphenated_weaken _ H1)).
  pose proof (strip_trailing_slug _ false H0) as H2. simpl in H2.
  unfold isValidSlug. rewrite H2.
  destruct (String.eqb_spec
    (strip_trailing_hyphens (strip_leading_hyphens (replace_non_alnum_runs lowered false))) "");
    [left; assumption | right; reflexivity].
Qed.

Lemma or_default_valid (s fallback : string) :
  isValidSlug fallback = true ->
  s = "" \/ isValidSlug s = true -> isValidSlug (or_default s fallback) = true.
Proof.
  intros Hf [->|H]; unfold or_default.
  - simpl. exact Hf.
  - destruct (String.eqb_spec s ""); [exact Hf|exact H].
Qed.

(** A valid slug goes through the chain unchanged. *)
Lemma valid_hyphenated (s : string) (a : bool) :
  isValidSlug_from s a = true -> hyphenated s (negb a) = true.
Proof.
  revert a. induction s as [|c s IH]; intros a H; simpl in *; [reflexivity|].
  destruct (is_alnum_lower c).
  - apply (IH true H).
  - destruct (is_hyphen c); [|discriminate H].
    apply andb_prop in H as [-> H]. simpl. apply (IH false H).
Qed.

Lemma lower_char_alnum (c : ascii) :
  is_alnum_lower c = true \/ is_hyphen c = true -> lower_char c = c.
Proof.
  unfold lower_char, is_alnum_lower, is_hyphen, is_lower, is_digit, is_upper.
  intros H.
  destruct ((65 <=? code c) && (code c <=? 90)) eqn:E1.
  - exfalso. apply andb_prop in E1 as [E1 E2]. apply Z.leb_le in E1, E2.
    destruct H as [H|H].
    + apply orb_prop in H as [H|H]; apply andb_prop in H as [H1 H2];
        apply Z.leb_le in H1, H2; lia.
    + apply Z.eqb_eq in H. lia.
  - destruct ((192 <=? code c) && (code c <=? 222) && negb (code c =? 215)) eqn:E2;
      [|reflexivity].
    exfalso. apply andb_prop in E2 as [E2 _]. apply andb_prop in E2 as [E2 E3].
    apply Z.leb_le in E2, E3.
    destruct H as [H|H].
    + apply orb_prop in H as [H|H]; apply andb_prop in H as [H1 H2];
        apply Z.leb_le in H1, H2; lia.
    + apply Z.eqb_eq in H. lia.
Qed.

Lemma valid_lower (s : string) (a : bool) :
  isValidSlug_from s a = true -> toLowerCase s = s.
Proof.
  revert a. induction s as [|c s IH]; intros a H; simpl in *; [reflexivity|].
  destruct (is_alnum_lower c) eqn:Ea.
  - rewrite (lower_char_alnum c (or_introl Ea)). f_equal. apply (IH true H).
  - destruct (is_hyphen c) eqn:Eh; [|discriminate H].
    apply andb_prop in H as [_ H].
    rewrite (lower_char_alnum c (or_intror Eh)). f_equal. apply (IH false H).
Qed.

Lemma valid_replace (s : string) (a : bool) :
  isValidSlug_from s a = true -> replace_non_alnum_runs s (negb a) = s.
Proof.
  revert a. induction s as [|c s IH]; intros a H; simpl in *; [reflexivity|].
  destruct (is_alnum_lower c) eqn:Ea.
  - f_equal. apply (IH true H).
  - destruct (is_hyphen c) eqn:Eh; [|discriminate H].
    apply andb_prop in H as [-> H]. simpl.
    rewrite (hyphen_char c Eh). f_equal. apply (IH false H).
Qed.

Lemma valid_strip_leading (s : string) :
  isValidSlug_from s false = true -> strip_leading_hyphens s = s.
Proof.
  destruct s as [|c s]; simpl; [reflexivity|].
  destruct (is_alnum_lower c) eqn:Ea.
  - intros _. destruct (is_hyphen c) eqn:Eh; [|reflexivity].
    rewrite (hyphen_not_alnum c Eh) in Ea. discriminate.
  - destruct (is_hyphen c); simpl; discriminate.
Qed.

Lemma valid_strip_trailing (s : string) (a : bool) :
  isValidSlug_from s a = true -> strip_trailing_hyphens s = s.
Proof.
  revert a. induction s as [|c s IH]; intros a H; simpl in *; [reflexivity|].
  destruct (is_alnum_lower c) eqn:Ea.
  - rewrite (IH true H).
    destruct s; [|reflexivity].
    destruct (is_hyphen c) eqn:Eh; [|reflexivity].
    rewrite (hyphen_not_alnum c Eh) in Ea. discriminate.
  - destruct (is_hyphen c) eqn:Eh; [|discriminate H].
    apply andb_prop in H as [_ H]. rewrite (IH false H).
    destruct s; [discriminate H|reflexivity].
Qed.

Lemma slug_core_fixes_valid (s : string) :
  isValidSlug s = true -> slug_core (toLowerCase s) = s /\ s <> "".
Proof.
  unfold isValidSlug. intros H. split.
  - unfold slug_core. rewrite (valid_lower s false H).
    pose proof (valid_hyphenated s false H) as Hh. simpl in Hh.
    assert (R : replace_non_alnum_runs s false = s).
    { destruct s as [|c s]; [reflexivity|]. simpl in *.
      destruct (is_alnum_lower c) eqn:Ea.
      - f_equal. apply (valid_replace s true H).
      - destruct (is_hyphen c); simpl in H; discriminate H. }
    rewrite R, (valid_strip_leading s H), (valid_strip_trailing s false H).
    apply collapse_hyphenated, hyphenated_weaken, Hh.
  - intros ->. discriminate H.
Qed.

Lemma append_cancel (p a b : string) : p ++ a = p ++ b -> a = b.
Proof. induction p as [|c p IH]; simpl; intros H; [exact H|]. injection H. exact IH. Qed.

Lemma append_assoc (a b c : string) : (a ++ b) ++ c = a ++ b ++ c.
Proof. induction a as [|x a IH]; simpl; [reflexivity|]. rewrite IH. reflexivity. Qed.

Lemma prefix_append (p s : string) : String.prefix p (p ++ s) = true.
Proof.
  induction p as [|c p IH]; simpl; [destruct s; reflexivity|].
  destruct (Ascii.ascii_dec c c) as [_|n]; [exact IH|contradiction].
Qed.

Lemma number_to_string_inj (a b : Z) : number_to_string a = number_to_string b -> a = b.
Proof.
  unfold number_to_string. intros H.
  assert (N : forall z, NilZero.int_of_string (NilZero.string_of_int (Z.to_int z))
                        = Some (Z.to_int z)).
  { intros z. apply NilZero.isi; destruct z; simpl; try discriminate;
      intros E; injection E; apply DecimalPos.Unsigned.to_uint_nonnil. }
  pose proof (N a) as Ha. rewrite H, N in Ha. injection Ha. intros E.
  symmetry. apply DecimalZ.to_int_inj, E.
Qed.

(** The loop of [getNextAvailableSlug]: the candidates below the result are
    taken, and the result is free unless the bound on the number of turns
    was reached. *)
Lemma next_suffix_spec (existing : list string) (normalized : string) (fuel : nat) :
  forall suffix,
    let k := next_suffix fuel existing normalized suffix in
    suffix <= k
    /\ (forall j, suffix <= j < k ->
          In (normalized ++ "-" ++ number_to_string j) existing)
    /\ (~ In (normalized ++ "-" ++ number_to_string k) existing
        \/ k = suffix + Z.of_nat fuel).
Proof.
  induction fuel as [|fuel IH]; intros suffix; cbn [next_suffix].
  - repeat split; [lia | intros j Hj; lia | right; lia].
  - destruct (existsb _ existing) eqn:E.
    + destruct (IH (suffix + 1)) as (H1 & H2 & H3). repeat split.
      * lia.
      * intros j Hj. destruct (Z.eq_dec j suffix) as [->|Hn].
        -- apply existsb_exists in E as (x & Hx & Ex). apply String.eqb_eq in Ex.
           subst x. exact Hx.
        -- apply H2. lia.
      * destruct H3 as [H3|H3]; [left; exact H3 | right; lia].
    + repeat split; [lia | intros j Hj; lia |].
      left. intros Hin.
      assert (existsb (String.eqb (normalized ++ "-" ++ number_to_string suffix)) existing
              = true).
      { apply existsb_exists. eexists. split; [exact Hin|]. apply String.eqb_refl. }
      congruence.
Qed.

Lemma candidates_fit (existing : list string) (normalized : string) (n : nat) (suffix : Z) :
  (forall j, suffix <= j < suffix + Z.of_nat n ->
     In (normalized ++ "-" ++ number_to_string j) existing) ->
  (n <= List.length existing)%nat.
Proof.
  intros H.
  pose (cands := List.map (fun i => normalized ++ "-" ++ number_to_string (suffix + Z.of_nat i))
                          (seq 0 n)).
  assert (Hn : NoDup cands).
  { apply NoDup_map_NoDup_ForallPairs; [|apply seq_NoDup].
    intros i j _ _ E. apply append_cancel in E. apply append_cancel in E.
    apply number_to_string_inj in E. lia. }
  assert (Hi : incl cands existing).
  { intros x Hx. apply in_map_iff in Hx as (i & <- & Hi). apply in_seq in Hi.
    apply H. lia. }
  pose proof (NoDup_incl_length Hn Hi) as L.
  unfold cands in L. rewrite length_map, length_seq in L. exact L.
Qed.

Lemma next_suffix_free (existing : list string) (normalized : string) :
  let k := next_suffix (S (List.length existing)) existing normalized 2 in
  2 <= k
  /\ (forall j, 2 <= j < k -> In (normalized ++ "-" ++ number_to_string j) existing)
  /\ ~ In (normalized ++ "-" ++ number_to_string k) existing.
Proof.
  destruct (next_suffix_spec existing normalized (S (List.length existing)) 2)
    as (H1 & H2 & H3).
  repeat split; [exact H1 | exact H2 |].
  destruct H3 as [H3|H3]; [exact H3|].
  exfalso.
  assert (L : (S (List.length existing) <= List.length existing)%nat).
  { apply (candidates_fit existing normalized _ 2). intros j Hj. apply H2. lia. }
  lia.
Qed.

Lemma slugify_unfold (nf : string -> string) (input : string) :
  slugify nf input = or_default (slug_core (toLowerCase (nf input))) "event".
Proof. reflexivity. Qed.

Lemma normalizeSlug_unfold (nf : string -> string) (input : string) :
  normalizeSlug nf input = or_default (slug_core (toLowerCase (nf input))) "record".
Proof. reflexivity. Qed.

Lemma slugify_valid (nf : string -> string) (input : string) :
  isValidSlug (slugify nf input) = true.
Proof. rewrite slugify_unfold. apply or_default_valid; [reflexivity|apply slug_core_valid]. Qed.

Lemma normalizeSlug_valid (nf : string -> string) (input : string) :
  isValidSlug (normalizeSlug nf input) = true.
Proof.
  rewrite normalizeSlug_unfold. apply or_default_valid; [reflexivity|apply slug_core_valid].
Qed.

Lemma slugify_fixes (nf : string -> string) (s : string) :
  nf s = s -> isValidSlug s = true -> slugify nf s = s.
Proof.
  intros Hn H. rewrite slugify_unfold, Hn.
  destruct (slug_core_fixes_valid s H) as [-> Hne].
  unfold or_default. destruct (String.eqb_spec s ""); [contradiction|reflexivity].
Qed.

Lemma normalizeSlug_fixes (nf : string -> string) (s : string) :
  nf s = s -> isValidSlug s = true -> normalizeSlug nf s = s.
Proof.
  intros Hn H. rewrite normalizeSlug_unfold, Hn.
  destruct (slug_core_fixes_valid s H) as [-> Hne].
  unfold or_default. destruct (String.eqb_spec s ""); [contradiction|reflexivity].
Qed.

Lemma digits_after_alnum (d : Decimal.uint) :
  isValidSlug_from (NilEmpty.string_of_uint d) true = true.
Proof. induction d; simpl; auto. Qed.

Lemma number_is_slug (k : Z) : 0 <= k -> isValidSlug (number_to_string k) = true.
Proof.
  intros Hk. unfold number_to_string, isValidSlug.
  destruct k as [|p|p]; [reflexivity| |lia]. simpl.
  pose proof (DecimalPos.Unsigned.to_uint_nonnil p) as Hn.
  destruct (Pos.to_uint p) as [|d|d|d|d|d|d|d|d|d|d] eqn:E; [contradiction|..];
    cbn -[NilEmpty.string_of_uint]; simpl; apply digits_after_alnum.
Qed.

Lemma valid_append (n t : string) (a : bool) :
  isValidSlug_from n a = true -> isValidSlug_from t false = true ->
  isValidSlug_from (n ++ "-" ++ t) a = true.
Proof.
  revert a. induction n as [|c n IH]; intros a Hn Ht; simpl in *.
  - subst a. exact Ht.
  - destruct (is_alnum_lower c); [apply IH; assumption|].
    destruct (is_hyphen c); [|discriminate Hn].
    apply andb_prop in Hn as [-> Hn]. simpl. apply IH; assumption.
Qed.

End SlugFacts.

Module SlugProperties.
Import Js DemoStore LiveStore Events Request EventsInput Notions SlugFacts.

(** X1.  Whatever the input, [slugify] and [normalizeSlug] return a string
    that [isValidSlug] accepts: letters and digits in groups separated by
    single hyphens. *)
Theorem slugs_are_valid :
  forall (normalizeNFKD : string -> string) (input : string),
    isValidSlug (slugify normalizeNFKD input) = true
    /\ isValidSlug (normalizeSlug normalizeNFKD input) = true.
Proof. intros nf input. split; [apply slugify_valid|apply normalizeSlug_valid]. Qed.

(** X2.  When the Unicode normalization leaves slugs as they are (it leaves
    ASCII text unchanged), a valid slug is returned unchanged by [slugify]
    and [normalizeSlug], and applying either function twice gives what
    applying it once gives. *)
Theorem valid_slug_is_kept :
  forall (normalizeNFKD : string -> string),
    (forall s, isValidSlug s = true -> normalizeNFKD s = s) ->
    forall input : string,
      (isValidSlug input = true ->
       slugify normalizeNFKD input = input /\ normalizeSlug normalizeNFKD input = input)
      /\ slugify normalizeNFKD (slugify normalizeNFKD input) = slugify normalizeNFKD input
      /\ normalizeSlug normalizeNFKD (normalizeSlug normalizeNFKD input)
         = normalizeSlug normalizeNFKD input.
Proof.
  intros nf Hnf input. repeat split.
  - apply slugify_fixes; auto.
  - apply normalizeSlug_fixes; auto.
  - apply slugify_fixes; [apply Hnf|]; apply slugify_valid.
  - apply normalizeSlug_fixes; [apply Hnf|]; apply normalizeSlug_valid.
Qed.

Lemma valid_slug_is_kept_witness :
  (forall s, isValidSlug s = true -> (fun t : string => t) s = s)
  /\ slugify (fun t => t) (slugify (fun t => t) "Crash of 1929!")
     = slugify (fun t => t) "Crash of 1929!".
Proof.
  split; [reflexivity|].
  apply (valid_slug_is_kept (fun t => t) (fun s _ => eq_refl) "Crash of 1929!").
Defined.

(** X3.  The slug that [getNextAvailableSlug] returns is the slug of no
    event of the store and is a valid slug: it is the normalized base when
    that is free, and otherwise the base with the smallest suffix from 2 on
    that is free.  The search for the suffix ends within one turn more than
    there are slugs in the way. *)
Theorem next_slug_is_free :
  forall (normalizeNFKD : string -> string) (db : database) (baseSlug : string),
    let normalized := slugify normalizeNFKD baseSlug in
    let taken := List.map evt_slug (events db) in
    let slug := getNextAvailableSlug normalizeNFKD db baseSlug in
    ~ In slug taken
    /\ isValidSlug slug = true
    /\ (slug = normalized
        \/ exists k, 2 <= k
                     /\ slug = normalized ++ "-" ++ number_to_string k
                     /\ In normalized taken
                     /\ forall j, 2 <= j < k ->
                          In (normalized ++ "-" ++ number_to_string j) taken).
Proof.
  intros nf db baseSlug normalized taken slug.
  unfold slug, getNextAvailableSlug. fold normalized.
  set (existing := List.map evt_slug
         (filter (fun r => String.eqb (evt_slug r) normalized
                           || startsWith (evt_slug r) (normalized ++ "-")) (events db))).
  assert (Hsub : forall x, In x existing -> In x taken).
  { intros x Hx. apply in_map_iff in Hx as (r & <- & Hr). apply filter_In in Hr as [Hr _].
    apply in_map, Hr. }
  assert (Hcov : forall x, In x taken ->
                   x = normalized \/ String.prefix (normalized ++ "-") x = true ->
                   In x existing).
  { intros x Hx Hc. apply in_map_iff in Hx as (r & <- & Hr). apply in_map.
    apply filter_In. split; [exact Hr|]. apply orb_true_iff.
    destruct Hc as [->|Hc]; [left; apply String.eqb_refl | right; exact Hc]. }
  destruct (existsb (String.eqb normalized) existing) eqn:E; cbn [negb].
  - destruct (next_suffix_free existing normalized) as (H1 & H2 & H3).
    set (k := next_suffix (S (List.length existing)) existing normalized 2) in *.
    repeat split.
    + intros Hin. apply H3, Hcov; [exact Hin|]. right.
      rewrite <- append_assoc. apply prefix_append.
    + apply valid_append; [apply slugify_valid|]. apply number_is_slug. lia.
    + right. exists k. repeat split; [exact H1| |].
      * apply existsb_exists in E as (x & Hx & Ex). apply String.eqb_eq in Ex. subst x.
        apply Hsub, Hx.
      * intros j Hj. apply Hsub, H2, Hj.
  - repeat split.
    + intros Hin.
      assert (existsb (String.eqb normalized) existing = true).
      { apply existsb_exists. exists normalized. split; [|apply String.eqb_refl].
        apply Hcov; [exact Hin|left; reflexivity]. }
      congruence.
    + apply slugify_valid.
    + left. reflexivity.
Qed.

End SlugProperties.

Module RequestFacts.
Import Js DemoStore Events Request EventsInput Notions.

Lemma trimEnd_idem (s : string) : trimEnd (trimEnd s) = trimEnd s.
Proof.
  induction s as [|c s IH]; simpl; [reflexivity|].
  destruct (trimEnd s) as [|d u] eqn:E.
  - destruct (is_space c) eqn:Ec; simpl; [reflexivity|]. rewrite Ec. reflexivity.
  -
    change (trimEnd (String c (String d u)))
      with (match trimEnd (String d u) with
            | EmptyString => if is_space c then EmptyString else String c EmptyString
            | String x t => String c (String x t)
            end).
    rewrite IH. reflexivity.
Qed.

Lemma trimStart_head (s : string) :
  trimStart s = "" \/ exists c r, trimStart s = String c r /\ is_space c = false.
Proof.
  induction s as [|c s IH]; simpl; [left; reflexivity|].
  destruct (is_space c) eqn:E; [exact IH|]. right. exists c, s. split; [reflexivity|exact E].
Qed.

Lemma trimEnd_head (c : ascii) (r : string) :
  is_space c = false -> trimEnd (String c r) = String c (trimEnd r).
Proof. intros E. simpl. destruct (trimEnd r); [rewrite E|]; reflexivity. Qed.

Lemma trim_idem (s : string) : trim (trim s) = trim s.
Proof.
  unfold trim. destruct (trimStart_head s) as [->|(c & r & -> & Ec)]; [reflexivity|].
  rewrite (trimEnd_head c r Ec). cbn [trimStart]. rewrite Ec.
  rewrite <- (trimEnd_head c r Ec). apply trimEnd_idem.
Qed.

Lemma asTrimmedString_present (v : option unknown) (s : string) :
  asTrimmedString v = Some s -> present s.
Proof.
  unfold asTrimmedString. destruct v as [[| | | |t| |]|]; try discriminate.
  destruct (0 <? Z.of_nat (String.length (trim t))) eqn:E; [|discriminate].
  intros H. injection H as <-. split; [|apply trim_idem].
  intros Hn. rewrite Hn in E. discriminate E.
Qed.

Lemma asOptionalTrimmedString_present (v : option unknown) (s : string) :
  asOptionalTrimmedString v = Some s -> present s.
Proof. destruct v; [apply asTrimmedString_present|discriminate]. Qed.

Lemma asIntInRange_range (v : option unknown) (min max n : Z) :
  asIntInRange v min max = Some n -> min <= n <= max.
Proof.
  unfold asIntInRange. destruct v as [[| |k| | | |]|]; try discriminate.
  destruct ((k <? min) || (max <? k)) eqn:E; [discriminate|].
  intros H. injection H as <-. apply orb_false_iff in E as [E1 E2].
  apply Z.ltb_ge in E1, E2. lia.
Qed.

Lemma required_inr {A B} (o : option A) (error : string) (k : A -> validation B) (b : B) :
  required o error k = inr b -> exists a, o = Some a /\ k a = inr b.
Proof. destruct o; [eauto|discriminate]. Qed.

Lemma required_error {A B} (o : option A) (error E : string) (k : A -> validation B) :
  error <> E -> (forall a, k a <> inl E) -> required o error k <> inl E.
Proof. intros He Hk. destruct o; simpl; [apply Hk|]. intros H. injection H. exact He. Qed.

Lemma optional_key_inr {A B} (body : list (string * unknown)) (name : string)
    (block : option unknown -> validation A) (k : option A -> validation B) (b : B) :
  optional_key body name block k = inr b ->
  exists o, k o = inr b
            /\ match o with
               | Some a => has_key body name = true /\ block (field body name) = inr a
               | None => has_key body name = false
               end.
Proof.
  unfold optional_key. destruct (has_key body name).
  - destruct (block (field body name)) as [e|a] eqn:E; [discriminate|]. intros H.
    exists (Some a). auto.
  - intros H. exists None. auto.
Qed.

Lemma optional_key_error {A B} (body : list (string * unknown)) (name : string)
    (block : option unknown -> validation A) (k : option A -> validation B) (E : string) :
  (forall v, block v <> inl E) -> (forall o, k o <> inl E) ->
  optional_key body name block k <> inl E.
Proof.
  intros Hb Hk. unfold optional_key. destruct (has_key body name); [|apply Hk].
  destruct (block (field body name)) eqn:Eb; [|apply Hk].
  intros H. injection H as ->. apply (Hb _ Eb).
Qed.

Lemma or_error_inr {A} (o : option A) (error : string) (a : A) :
  or_error o error = inr a -> o = Some a.
Proof. destruct o; simpl; intros H; [injection H as ->; reflexivity|discriminate]. Qed.

Lemma or_error_other {A} (o : option A) (error E : string) :
  error <> E -> or_error o error <> inl E.
Proof. intros He. destruct o; simpl; [discriminate|]. intros H. injection H. exact He. Qed.

End RequestFacts.

Module ValidationProperties.
Import Js DemoStore Events Request EventsInput Notions SlugFacts RequestFacts.



(** X5.  The two slug errors of the validators can never be returned:
    [validateCreateEventInput] never answers "slug contains no valid
    characters" and [validateUpdateEventInput] never answers "slug is
    invalid", because [slugify] only returns valid slugs. *)
Theorem slug_errors_unreachable :
  forall (normalizeNFKD : string -> string) (input : unknown),
    validateCreateEventInput normalizeNFKD input <> inl "slug contains no valid characters"
    /\ validateUpdateEventInput normalizeNFKD input <> inl "slug is invalid".
Proof.
  intros nf input. split.
  - unfold validateCreateEventInput.
    repeat (apply required_error; [discriminate|intros ?]).
    destruct (asOptionalTrimmedString _) as [s|]; [|discriminate].
    rewrite (slugify_valid nf s). discriminate.
  - unfold validateUpdateEventInput.
    apply required_error; [discriminate|intros body].
    apply optional_key_error.
    { intros v. destruct (asTrimmedString v) as [raw|]; [|discriminate].
      cbv zeta. rewrite (slugify_valid nf raw). discriminate. }
    intros slug.
    repeat (apply optional_key_error;
            [intros v; apply or_error_other; discriminate | intros ?]).
    cbv zeta. destruct (Nat.eqb _ 0); discriminate.
Qed.

Lemma assign_if_fields {A} (o : option A) (param : A -> sql_param) (column cast : string)
    (eventId : string) (st : list sql_param * list string)
    (fields : list (string * sql_param * string)) :
  st = (PText eventId :: List.map (fun f => snd (fst f)) fields, placeholders 2 fields) ->
  assign_if o param column cast st
  = (PText eventId
       :: List.map (fun f => snd (fst f)) (fields ++ set_field o param column cast),
     placeholders 2 (fields ++ set_field o param column cast)).
Proof.
  intros ->. destruct o as [value|]; cbn [assign_if set_field].
  2:{ rewrite app_nil_r. reflexivity. }
  unfold assign. cbn [fst snd]. f_equal.
  - rewrite map_app. reflexivity.
  - assert (P : forall i l, placeholders i (l ++ [(column, param value, cast)])
                            = (placeholders i l
                               ++ [(column ++ " = $"
                                    ++ number_to_string (i + Z.of_nat (List.length l))
                                    ++ cast)%string])%list).
    { intros i l. revert i.
      induction l as [|[[c v] k] l IH]; intros i; cbn [placeholders app List.length].
      - change (Z.of_nat 0) with 0. rewrite Z.add_0_r. reflexivity.
      - rewrite IH, Nat2Z.inj_succ.
        replace (i + Z.succ (Z.of_nat (List.length l)))
          with (i + 1 + Z.of_nat (List.length l)) by lia.
        reflexivity. }
    rewrite P.
    replace (Z.of_nat
               (List.length
                  ((PText eventId :: List.map (fun f => snd (fst f)) fields)
                   ++ [param value])%list))
      with (2 + Z.of_nat (List.length fields)).
    + reflexivity.
    + rewrite length_app. cbn [List.length]. rewrite length_map. lia.
Qed.

Lemma bindings_are_fields (eventId : string) (input : UpdateEventInput) :
  updateEvent_bindings eventId input
  = (PText eventId :: List.map (fun f => snd (fst f)) (set_fields input),
     placeholders 2 (set_fields input)).
Proof.
  unfold updateEvent_bindings, set_fields. cbv zeta.
  pose proof (eq_refl : ([PText eventId], @nil string)
                        = (PText eventId
                             :: List.map (fun f : string * sql_param * string => snd (fst f)) [],
                           placeholders 2 [])) as H.
  apply (assign_if_fields (up_slug input) PText "slug" "") in H.
  apply (assign_if_fields (up_title input) PText "title" "") in H.
  apply (assign_if_fields (up_event_date input) PText "event_date" "::date") in H.
  apply (assign_if_fields (up_region input) PText "region" "") in H.
  apply (assign_if_fields (up_category input) PText "category" "") in H.
  apply (assign_if_fields (up_summary input) PText "summary" "") in H.
  apply (assign_if_fields (up_impact input) PText "impact" "") in H.
  apply (assign_if_fields (up_importance_score input) PInt "importance_score" "") in H.
  apply (assign_if_fields (up_confidence_score input) PInt "confidence_score" "") in H.
  rewrite H. cbn [app]. rewrite <- !app_assoc. reflexivity.
Qed.

Lemma placeholders_length (i : Z) (l : list (string * sql_param * string)) :
  List.length (placeholders i l) = List.length l.
Proof.
  revert i. induction l as [|[[c v] k] l IH]; intros i; cbn [placeholders List.length];
    [reflexivity|]. rewrite IH. reflexivity.
Qed.

Lemma set_field_length {A} (o : option A) (param : A -> sql_param) (column cast : string) :
  List.length (set_field o param column cast) = count_key o.
Proof. destruct o; reflexivity. Qed.

Lemma set_fields_length (input : UpdateEventInput) :
  List.length (set_fields input) = keys_count input.
Proof.
  unfold set_fields, keys_count. rewrite !length_app, !set_field_length. lia.
Qed.

(** X6.  [updateEvent] binds the id to $1 and then, for the fields that the
    update sets and in the order in which it tests them, binds each value to
    the next placeholder: the k-th assignment reads "column = $k+1" (with
    the cast ::date for the date), and the k+1-th bound value is its
    value. *)
Theorem update_placeholders_match_values :
  forall (eventId : string) (input : UpdateEventInput),
    updateEvent_bindings eventId input
    = (PText eventId :: List.map (fun f => snd (fst f)) (set_fields input),
       placeholders 2 (set_fields input)).
Proof. exact bindings_are_fields. Qed.

(** X7.  A body that [validateUpdateEventInput] accepts sets at least one
    field, each of the fields it sets has passed the test of its kind, and
    [updateEvent] then has at least one assignment to make: its early
    return for an empty update is not taken. *)
Theorem update_input_is_checked :
  forall (normalizeNFKD : string -> string) (input : unknown) (out : UpdateEventInput)
         (eventId : string),
    validateUpdateEventInput normalizeNFKD input = inr out ->
    keys_count out <> 0%nat
    /\ snd (updateEvent_bindings eventId out) <> []
    /\ when_set (fun s => isValidSlug s = true) (up_slug out)
    /\ when_set present (up_title out)
    /\ when_set (fun d => isValidDate d = true) (up_event_date out)
    /\ when_set present (up_region out)
    /\ when_set present (up_category out)
    /\ when_set present (up_summary out)
    /\ when_set present (up_impact out)
    /\ when_set score (up_importance_score out)
    /\ when_set score (up_confidence_score out).
Proof.
  intros nf input out eventId H. unfold validateUpdateEventInput in H.
  apply required_inr in H as (body & _ & H).
  apply optional_key_inr in H as (slug & H & Hslug).
  apply optional_key_inr in H as (title & H & Htitle).
  apply optional_key_inr in H as (date & H & Hdate).
  apply optional_key_inr in H as (region & H & Hregion).
  apply optional_key_inr in H as (category & H & Hcategory).
  apply optional_key_inr in H as (summary & H & Hsummary).
  apply optional_key_inr in H as (impact & H & Himpact).
  apply optional_key_inr in H as (importance & H & Himportance).
  apply optional_key_inr in H as (confidence & H & Hconfidence).
  cbv zeta in H.
  match type of H with (if ?c then _ else _) = _ => destruct c eqn:Ek end;
    [discriminate H|].
  injection H as <-. apply Nat.eqb_neq in Ek.
  assert (P : forall body name o,
            match o with
            | Some a => has_key body name = true
                        /\ or_error (asTrimmedString (field body name)) "" = inr a
            | None => has_key body name = false
            end -> when_set present o).
  { intros b n [a|]; cbn; [|trivial]. intros [_ E]. apply or_error_inr in E.
    eapply asTrimmedString_present, E. }
  assert (Q : forall body name o,
            match o with
            | Some a => has_key body name = true
                        /\ or_error (asIntInRange (field body name) 1 5) "" = inr a
            | None => has_key body name = false
            end -> when_set score o).
  { intros b n [a|]; cbn; [|trivial]. intros [_ E]. apply or_error_inr in E.
    eapply asIntInRange_range, E. }
  assert (E : forall {A} (o : option A) e1 e2 (a : A), or_error o e1 = inr a ->
                or_error o e2 = inr a).
  { intros A [x|] e1 e2 a; cbn; [auto|discriminate]. }
  split; [exact Ek|]. split.
  { rewrite bindings_are_fields. cbn [snd]. intros Hn.
    apply Ek. rewrite <- set_fields_length, <- (placeholders_length 2), Hn. reflexivity. }
  cbn [up_slug up_title up_event_date up_region up_category up_summary up_impact
       up_importance_score up_confidence_score].
  repeat apply conj.
  - destruct slug as [s|]; cbn; [|trivial]. destruct Hslug as [_ Hs].
    destruct (asTrimmedString (field body "slug")) as [raw|]; [|discriminate Hs].
    cbv zeta in Hs. rewrite (slugify_valid nf raw) in Hs. injection Hs as <-.
    apply slugify_valid.
  - apply (P body "title"). destruct title; [split; [apply Htitle|eapply E, Htitle]|exact Htitle].
  - destruct date as [d|]; cbn; [|trivial]. destruct Hdate as [_ Hd].
    apply or_error_inr in Hd.
    destruct (asTrimmedString (field body "event_date")) as [x|]; [|discriminate Hd].
    destruct (isValidDate x) eqn:Ex; [|discriminate Hd]. injection Hd as <-. exact Ex.
  - apply (P body "region"). destruct region; [split; [apply Hregion|eapply E, Hregion]|exact Hregion].
  - apply (P body "category"). destruct category; [split; [apply Hcategory|eapply E, Hcategory]|exact Hcategory].
  - apply (P body "summary"). destruct summary; [split; [apply Hsummary|eapply E, Hsummary]|exact Hsummary].
  - apply (P body "impact"). destruct impact; [split; [apply Himpact|eapply E, Himpact]|exact Himpact].
  - apply (Q body "importance_score"). destruct importance; [split; [apply Himportance|eapply E, Himportance]|exact Himportance].
  - apply (Q body "confidence_score"). destruct confidence; [split; [apply Hconfidence|eapply E, Hconfidence]|exact Hconfidence].
Qed.

Lemma update_input_is_checked_witness :
  validateUpdateEventInput (fun s => s) body_retitle = inr update_retitle
  /\ keys_count update_retitle <> 0%nat
  /\ snd (updateEvent_bindings "6aae4539-44fb-4290-a3b4-2f78e3cc3849" update_retitle) <> [].
Proof.
  split; [vm_compute; reflexivity|].
  pose proof (update_input_is_checked (fun s => s) body_retitle update_retitle
                "6aae4539-44fb-4290-a3b4-2f78e3cc3849") as H.
  split; apply H; vm_compute; reflexivity.
Defined.

End ValidationProperties.

Module PagingFacts.
Import Js DemoStore Runtime LiveStore Events Props JsFacts SnapshotFacts AccessFacts ListFacts
       OrderFacts Notions.

Lemma window_length {A} (l : list A) (offset size : Z) :
  0 <= offset -> 0 <= size ->
  Z.of_nat (List.length (firstn (Z.to_nat size) (skipn (Z.to_nat offset) l)))
  = Z.min size (Z.max 0 (Z.of_nat (List.length l) - offset)).
Proof.
  intros Ho Hs. rewrite length_firstn, length_skipn. lia.
Qed.

Lemma ceil_div_bounds (total size : Z) :
  0 < total -> 1 <= size ->
  (Js.ceil_div total size - 1) * size < total <= Js.ceil_div total size * size.
Proof.
  intros Ht Hs. unfold Js.ceil_div.
  pose proof (Z.div_mod (- total) size ltac:(lia)) as D.
  pose proof (Z.mod_pos_bound (- total) size ltac:(lia)) as B.
  nia.
Qed.

Lemma mkResult_paged (filters : ListEventsFilters) {A} (all : list A)
    (f : A -> EventListItem) :
  1 <= f_page filters -> 1 <= f_pageSize filters ->
  paged filters
    (mkResult filters
       (List.map f (firstn (Z.to_nat (f_pageSize filters))
                      (skipn (Z.to_nat ((f_page filters - 1) * f_pageSize filters)) all)))
       (Z.of_nat (List.length all))).
Proof.
  intros Hp Hs. unfold paged, mkResult. cbn [page page_size total total_pages pagination items].
  repeat split; try lia.
  - rewrite length_map. apply window_length; nia.
  - intros ->. reflexivity.
  - destruct (Z.of_nat (List.length all) =? 0) eqn:E; [apply Z.eqb_eq in E; lia|].
    apply ceil_div_bounds; lia.
  - destruct (Z.of_nat (List.length all) =? 0) eqn:E; [apply Z.eqb_eq in E; lia|].
    apply ceil_div_bounds; lia.
Qed.

Lemma demo_paged (ds : DemoDataset) (filters : ListEventsFilters) :
  1 <= f_page filters -> 1 <= f_pageSize filters ->
  paged filters (listPublishedEventsFromDemo ds filters).
Proof.
  intros Hp Hs. unfold listPublishedEventsFromDemo. cbv zeta.
  rewrite array_slice_window by nia.
  match goal with
  | |- paged _ (mkResult _ (firstn _ (skipn _ ?all)) _) =>
      pose proof (mkResult_paged filters all (fun x => x) Hp Hs) as H
  end.
  rewrite map_id in H. exact H.
Qed.

Lemma query_paged (db : database) (filters : ListEventsFilters) (r : EventListResult) :
  1 <= f_page filters -> 1 <= f_pageSize filters ->
  listPublishedEvents_query db filters = Returned r -> paged filters r.
Proof.
  intros Hp Hs. unfold listPublishedEvents_query, buildEventWhere.
  destruct (castable (f_date filters) && castable (f_from filters)
            && castable (f_to filters)); [|discriminate].
  cbn [bind]. unfold limit_offset.
  destruct (f_pageSize filters <? 0) eqn:E1; [apply Z.ltb_lt in E1; lia|].
  destruct ((f_page filters - 1) * f_pageSize filters <? 0) eqn:E2;
    [apply Z.ltb_lt in E2; nia|].
  cbn [bind]. intros H. injection H as <-.
  rewrite <- (sort_length (resolveSort (f_sort filters))
                (filter (eventWhere db filters) (events db))).
  apply mkResult_paged; assumption.
Qed.

Lemma item_tags_found (ds : DemoDataset) (C : Js.Map Z) (e : DemoEventRecord) (t : string) :
  existsb (String.eqb t)
    (item_tags (to_item (fold_left (tagsByEventId_step ds) (eventTags ds) []) C e))
  = existsb (String.eqb t) (tag_slugs_of ds (evt_id e)).
Proof.
  cbn [to_item item_tags]. unfold Js.sort_strings.
  rewrite <- (existsb_perm _ _ _ (sort_perm _ _)).
  rewrite tagsByEventId_get. reflexivity.
Qed.

(** The filters of the in-memory path, one after the other, keep the events
    that match. *)
Lemma demo_filters_match (ds : DemoDataset) (filters : ListEventsFilters) (C : Js.Map Z)
    (l : list DemoEventRecord) :
  let f := to_item (fold_left (tagsByEventId_step ds) (eventTags ds) []) C in
  filter_if (given (f_q filters))
    (fun q item => matchesKeyword (keyword_haystack item) q)
    (filter_if (f_importanceMin filters)
       (fun n item => n <=? item_importance_score item)
       (filter_if (given (f_tag filters))
          (fun t item => existsb (String.eqb t) (item_tags item))
          (filter_if (given (f_region filters))
             (fun r item => String.eqb (item_region item) r)
             (filter_if (given (f_category filters))
                (fun c item => String.eqb (item_category item) c)
                (filter_if (given (f_to filters))
                   (fun d item => Js.str_le (item_event_date item) d)
                   (filter_if (given (f_from filters))
                      (fun d item => Js.str_le d (item_event_date item))
                      (filter_if (given (f_date filters))
                         (fun d item => String.eqb (item_event_date item) d)
                         (List.map f (filter is_published l)))))))))
  = List.map f (filter (request_matches Memory ds filters) l).
Proof.
  cbv zeta. rewrite !filter_if_map, !filter_filter_and. f_equal.
  apply filter_same. intros e. unfold request_matches.
  replace (opt_test (given (f_tag filters)) (carries_tag Memory ds e))
    with (opt_test (given (f_tag filters))
            (fun t => existsb (String.eqb t)
                        (item_tags (to_item (fold_left (tagsByEventId_step ds)
                                                       (eventTags ds) []) C e)))).
  - rewrite !andb_assoc. reflexivity.
  - destruct (given (f_tag filters)); [|reflexivity].
    cbn [opt_test carries_tag]. apply item_tags_found.
Qed.

Lemma applyEventSort_items (T : Js.Map (list string)) (C : Js.Map Z) (sort : EventSort)
    (l : list DemoEventRecord) :
  applyEventSort (List.map (to_item T C) l) sort
  = List.map (to_item T C) (Js.sort (resolveSort sort) l).
Proof. destruct sort; apply sort_map; reflexivity. Qed.

Lemma shows_to_item (T : Js.Map (list string)) (C : Js.Map Z) (l : list DemoEventRecord) :
  Forall2 shows l (List.map (to_item T C) l).
Proof.
  induction l as [|e l IH]; cbn [List.map]; constructor; [|exact IH].
  unfold shows. cbn. repeat split.
Qed.

Lemma shows_row (db : database) (l : list DemoEventRecord) :
  Forall2 shows l (List.map (row_to_item db) l).
Proof.
  induction l as [|e l IH]; cbn [List.map]; constructor; [|exact IH].
  unfold shows. cbn. repeat split.
Qed.

Lemma demo_listing (ds : DemoDataset) (filters : ListEventsFilters) :
  1 <= f_page filters -> 1 <= f_pageSize filters ->
  exists sorted,
    Permutation (filter (request_matches Memory ds filters) (events ds)) sorted
    /\ ordered (resolveSort (f_sort filters)) sorted
    /\ total (pagination (listPublishedEventsFromDemo ds filters))
       = Z.of_nat (List.length sorted)
    /\ Forall2 shows (page_window filters sorted)
                     (items (listPublishedEventsFromDemo ds filters)).
Proof.
  intros Hp Hs.
  exists (Js.sort (resolveSort (f_sort filters))
            (filter (request_matches Memory ds filters) (events ds))).
  split; [apply sort_perm|]. split; [apply sort_ordered, resolveSort_total|].
  unfold listPublishedEventsFromDemo. cbv zeta.
  rewrite (demo_filters_match ds filters _ (events ds)).
  rewrite applyEventSort_items, array_slice_window by nia.
  cbn [mkResult items pagination total]. rewrite length_map. split; [reflexivity|].
  unfold page_window. rewrite skipn_map, firstn_map. apply shows_to_item.
Qed.

Lemma query_listing (db : database) (filters : ListEventsFilters) (r : EventListResult) :
  listPublishedEvents_query db filters = Returned r ->
  exists sorted,
    Permutation (filter (request_matches Live db filters) (events db)) sorted
    /\ ordered (resolveSort (f_sort filters)) sorted
    /\ total (pagination r) = Z.of_nat (List.length sorted)
    /\ Forall2 shows (page_window filters sorted) (items r).
Proof.
  unfold listPublishedEvents_query, buildEventWhere.
  destruct (castable (f_date filters) && castable (f_from filters)
            && castable (f_to filters)); [|discriminate].
  cbn [bind]. unfold limit_offset.
  destruct (f_pageSize filters <? 0); [discriminate|].
  destruct ((f_page filters - 1) * f_pageSize filters <? 0); [discriminate|].
  cbn [bind]. intros H. injection H as <-.
  exists (order_by (resolveSort (f_sort filters)) (filter (eventWhere db filters) (events db))).
  split; [apply sort_perm|]. split; [apply sort_ordered, resolveSort_total|].
  cbn [mkResult items pagination total]. unfold order_by. rewrite sort_length.
  split; [reflexivity|]. apply shows_row.
Qed.

End PagingFacts.

Module PagingProperties.
Import Js DemoStore Runtime LiveStore Events Props JsFacts AccessFacts Notions PagingFacts.



End PagingProperties.

Module ClassifierProperties.
Import Js DemoStore Runtime LiveStore Events Sources Api Props RuntimeFacts Notions.

Lemma message_only_implies_tree (h : heap) (error : value) :
  RuntimeMessageOnly.isDatabaseUnavailableError h error = true ->
  isDatabaseUnavailableError h error = true.
Proof.
  unfold RuntimeMessageOnly.isDatabaseUnavailableError, toErrorMessage.
  destruct error as [| | | | |a]; try (intros H; discriminate H).
  destruct (is_Error (deref h a)) eqn:E; [|intros H; discriminate H].
  intros H. unfold isDatabaseUnavailableError. cbn [isUnavailableErrorTree].
  cbn [truthy negb orb seen_has existsb]. unfold own_signature. rewrite E, H. reflexivity.
Qed.

(** X9.  Every error that the classifier reading the message only reports as
    an unavailable store is reported so by the classifier that walks the
    error tree: the newer one accepts more, never less. *)
Theorem tree_classifier_extends_message_classifier :
  forall (h : heap) (error : value),
    RuntimeMessageOnly.isDatabaseUnavailableError h error = true ->
    isDatabaseUnavailableError h error = true.
Proof. exact message_only_implies_tree. Qed.

Lemma tree_classifier_extends_message_classifier_witness :
  RuntimeMessageOnly.isDatabaseUnavailableError
    (fst (new_Error "connect ECONNREFUSED 127.0.0.1:5432"))
    (snd (new_Error "connect ECONNREFUSED 127.0.0.1:5432")) = true
  /\ isDatabaseUnavailableError
       (fst (new_Error "connect ECONNREFUSED 127.0.0.1:5432"))
       (snd (new_Error "connect ECONNREFUSED 127.0.0.1:5432")) = true.
Proof.
  split; [reflexivity|].
  apply (tree_classifier_extends_message_classifier
           (fst (new_Error "connect ECONNREFUSED 127.0.0.1:5432"))
           (snd (new_Error "connect ECONNREFUSED 127.0.0.1:5432"))).
  reflexivity.
Defined.

(** X10.  [isUnavailableErrorTree] returns on every heap, cycles of causes
    and sub-errors included, within a depth of one more than the heap has
    objects; and [isDatabaseUnavailableError] answers true exactly when an
    object that carries a signature of its own (a matching message or code)
    is reached from the error through causes and sub-errors: it never
    reports an unavailable store without one. *)
Theorem classifier_decides_reachable_signature :
  forall (h : heap) (error : value),
    (exists b seen,
       isUnavailableErrorTree (S (List.length h)) h error [] = Some (b, seen))
    /\ (isDatabaseUnavailableError h error = true
        <-> exists path, chain h error path = true /\ signed h (last path error) = true).
Proof.
  intros h error. split.
  - apply isUnavailableErrorTree_total.
  - apply isDatabaseUnavailableError_iff.
Qed.

(** X11.  A failure of a configured store that the classifier does not take
    for an unavailable store is not masked by the in-memory path: the three
    reads reject with the very error of the store, and GET /sources/:id
    answers 500 INTERNAL_ERROR with its message. *)
Theorem other_failures_are_rethrown :
  forall (e : env) (dataset : DemoDataset) (h : heap) (error : value)
         (filters : ListEventsFilters) (monthDay id : string),
    hasDatabaseConfig (DATABASE_URL e) = true ->
    conn e = Unreachable h error ->
    isDatabaseUnavailableError h error = false ->
    listPublishedEvents e dataset filters = Rejected h error
    /\ listPublishedEventsByMonthDay e dataset monthDay = Rejected h error
    /\ getSourceById e dataset id = Rejected h error
    /\ (isValidUuid id = true ->
        GET_source e dataset id
        = {| status := 500;
             body := Error "INTERNAL_ERROR" (toErrorMessage h error) None |}).
Proof.
  intros e ds h error filters monthDay id Hc Hu Hn.
  assert (P : forall A (q : database -> outcome A) (fb : A),
            (if negb (hasDatabaseConfig (DATABASE_URL e)) then Returned fb
             else catch_unavailable (with_pool e q) fb) = Rejected h error).
  { intros A q fb. rewrite Hc. cbn [negb]. unfold with_pool.
    rewrite (AccessFacts.getDbPool_configured e Hc), Hu. cbn [bind catch_unavailable].
    rewrite Hn. reflexivity. }
  assert (G : getSourceById e ds id = Rejected h error) by apply P.
  repeat split; try apply P.
  intros Hv. unfold GET_source. rewrite Hv, G. cbn [negb]. unfold serverError.
  destruct (isDatabaseUnavailableMessage (toErrorMessage h error)) eqn:M; [|reflexivity].
  rewrite (message_only_implies_tree h error M) in Hn. discriminate Hn.
Qed.

Lemma other_failures_are_rethrown_witness :
  hasDatabaseConfig (DATABASE_URL (unreachable_env permission_denied)) = true
  /\ conn (unreachable_env permission_denied)
     = Unreachable (fst permission_denied) (snd permission_denied)
  /\ isDatabaseUnavailableError (fst permission_denied) (snd permission_denied) = false
  /\ listPublishedEvents (unreachable_env permission_denied) snapshot_same_day
       from_1970_ascending
     = Rejected (fst permission_denied) (snd permission_denied).
Proof.
  split; [reflexivity|]. split; [reflexivity|]. split; [reflexivity|].
  apply (other_failures_are_rethrown (unreachable_env permission_denied) snapshot_same_day
           (fst permission_denied) (snd permission_denied) from_1970_ascending
           "10-19" ""); reflexivity.
Defined.

End ClassifierProperties.

Module ReplyFacts.
Import Js Runtime Api ImportSeed ImportSeedCli Props Notions.

Lemma fold_case_app (a b : string) : fold_case (a ++ b) = fold_case a ++ fold_case b.
Proof. induction a as [|c a IH]; simpl; [reflexivity|]. rewrite IH. reflexivity. Qed.

(** The fixed sentence of the SERVICE_UNAVAILABLE reply does not hold the
    pattern, nor does it end in a beginning of it. *)
Lemma fixed_message_is_silent (m : string) :
  test_literal_i "DATABASE_URL is not set"
    ("Database is unavailable. Configure DATABASE_URL or run demo mode." ++ " " ++ m)
  = test_literal_i "DATABASE_URL is not set" m.
Proof.
  unfold test_literal_i. rewrite !fold_case_app.
  generalize (fold_case m). intros fm. cbn. reflexivity.
Qed.

End ReplyFacts.

Module ReplyProperties.
Import Js Runtime Api ImportSeed ImportSeedCli Props Notions ReplyFacts.

(** X12.  For the reply that [serverError] builds from a message, the import
    script takes the store for unconfigured, and merges the file into the
    main seed instead, exactly when the message says that DATABASE_URL is
    not set; every other server error, a refused connection included, makes
    the import fail. *)
Theorem fallback_only_without_database_url :
  forall m : string,
    exists code message original,
      body (@serverError unit m) = Error code message original
      /\ isDbUnavailable (error_body code message original) (status (@serverError unit m))
         = test_literal_i "DATABASE_URL is not set" m
      /\ main_after_reply (error_body code message original) (status (@serverError unit m))
         = if test_literal_i "DATABASE_URL is not set" m then demo_fallback
           else import_failed.
Proof.
  intros m. unfold serverError.
  destruct (isDatabaseUnavailableMessage m) eqn:E.
  - do 3 eexists. split; [reflexivity|]. cbn [status].
    assert (P : isDbUnavailable
                  (error_body "SERVICE_UNAVAILABLE"
                     "Database is unavailable. Configure DATABASE_URL or run demo mode."
                     (Some m)) 503
                = test_literal_i "DATABASE_URL is not set" m).
    { unfold isDbUnavailable, error_body, error_text, get_field.
      cbn [Z.eqb negb Js.map_get String.eqb Ascii.eqb Bool.eqb js_String andb Pos.eqb].
      apply fixed_message_is_silent. }
    split; [exact P|]. unfold main_after_reply. rewrite P. reflexivity.
  - do 3 eexists. split; [reflexivity|]. cbn [status].
    assert (T : test_literal_i "DATABASE_URL is not set" m = false).
    { unfold isDatabaseUnavailableMessage, DB_UNAVAILABLE_PATTERNS in E.
      cbn [existsb] in E. apply orb_false_iff in E as [E _]. exact E. }
    rewrite T. split; reflexivity.
Qed.

End ReplyProperties.

Module MergeFacts.
Import Js ImportSeed Props JsFacts ImportSeedFacts Notions.

Lemma existsb_eqb_In (k : string) (l : list string) :
  existsb (String.eqb k) l = true <-> In k l.
Proof.
  rewrite existsb_exists. split.
  - intros (x & Hx & E). apply String.eqb_eq in E. subst x. exact Hx.
  - intros H. exists k. split; [exact H|apply String.eqb_refl].
Qed.

Lemma distinct_ext (l s1 s2 : list string) :
  (forall x, In x s1 <-> In x s2) -> distinct l s1 = distinct l s2.
Proof.
  revert s1 s2. induction l as [|k l IH]; intros s1 s2 H; cbn [distinct]; [reflexivity|].
  assert (E : existsb (String.eqb k) s1 = existsb (String.eqb k) s2).
  { apply eq_true_iff_eq. rewrite !existsb_eqb_In. apply H. }
  rewrite E. destruct (existsb (String.eqb k) s2).
  - apply IH, H.
  - f_equal. apply IH. intros x. cbn [In]. rewrite (H x). reflexivity.
Qed.

(** The keys of a map after a loop of [set]: those it had, then the new
    ones in the order in which they first come. *)
Lemma fold_set_keys {A V} (kf : A -> string) (vf : Map V -> A -> V) (l : list A) :
  forall m : Map V,
    map_keys (fold_left (fun m x => map_set m (kf x) (vf m x)) l m)
    = (map_keys m ++ distinct (List.map kf l) (map_keys m))%list.
Proof.
  induction l as [|x l IH]; intros m; cbn [fold_left List.map distinct].
  - rewrite app_nil_r. reflexivity.
  - rewrite IH. destruct (existsb (String.eqb (kf x)) (map_keys m)) eqn:E.
    + apply existsb_eqb_In in E. rewrite (map_keys_set_in m (kf x) (vf m x) E). reflexivity.
    + assert (Hn : ~ In (kf x) (map_keys m)).
      { intros Hin. apply existsb_eqb_In in Hin. congruence. }
      rewrite (map_set_fresh m (kf x) (vf m x) Hn). unfold map_keys at 1 2.
      rewrite map_app. cbn [List.map fst]. rewrite <- app_assoc. cbn [app]. do 2 f_equal.
      apply distinct_ext. intros y. rewrite in_app_iff. cbn [In]. tauto.
Qed.

Lemma distinct_NoDup (l seen : list string) :
  NoDup (distinct l seen) /\ forall x, In x (distinct l seen) -> In x l /\ ~ In x seen.
Proof.
  revert seen. induction l as [|k l IH]; intros seen; cbn [distinct].
  - split; [constructor|intros x []].
  - destruct (existsb (String.eqb k) seen) eqn:E.
    + destruct (IH seen) as [H1 H2]. split; [exact H1|].
      intros x Hx. destruct (H2 x Hx). split; [right|]; assumption.
    + destruct (IH (k :: seen)) as [H1 H2]. split.
      * constructor; [|exact H1]. intros Hin. destruct (H2 k Hin) as [_ Hn].
        apply Hn. left. reflexivity.
      * intros x [<-|Hx].
        -- split; [left; reflexivity|]. intros Hin. apply existsb_eqb_In in Hin. congruence.
        -- destruct (H2 x Hx) as [Ha Hb]. split; [right; exact Ha|].
           intros Hin. apply Hb. right. exact Hin.
Qed.

Lemma map_get_of_entry {V} (m : Map V) (k : string) (v : V) :
  NoDup (map_keys m) -> In (k, v) m -> map_get m k = Some v.
Proof.
  induction m as [|[k' v'] m IH]; intros Hn Hin; [destruct Hin|].
  cbn [map_get]. cbn [map_keys List.map fst] in Hn. inversion Hn as [|? ? Hk Hm]; subst.
  destruct Hin as [E|Hin].
  - injection E as -> ->. rewrite String.eqb_refl. reflexivity.
  - destruct (String.eqb_spec k' k) as [->|Hne].
    + exfalso. apply Hk. change (In (fst (k, v)) (List.map fst m)). apply in_map, Hin.
    + apply IH; assumption.
Qed.

Lemma mergeByKey_as_one_loop (keyOf : json -> string) (baseItems incomingItems : list json) :
  mergeByKey baseItems incomingItems keyOf
  = map_values (fold_left (put keyOf) (baseItems ++ incomingItems) []).
Proof. unfold mergeByKey. rewrite fold_left_app. reflexivity. Qed.

Lemma mergeByKey_shape (keyOf : json -> string) (baseItems incomingItems : list json) :
  List.map keyOf (mergeByKey baseItems incomingItems keyOf)
  = distinct (List.map keyOf (baseItems ++ incomingItems)) []
  /\ Forall (fun item => last_with_key keyOf (baseItems ++ incomingItems) (keyOf item)
                         = Some item)
            (mergeByKey baseItems incomingItems keyOf).
Proof.
  rewrite mergeByKey_as_one_loop.
  set (all := (baseItems ++ incomingItems)%list).
  assert (W : well_keyed keyOf (fold_left (put keyOf) all [])).
  { apply fold_put_well_keyed. split; [constructor|constructor]. }
  destruct W as [Wn Wk]. split.
  - transitivity (map_keys (fold_left (put keyOf) all [])).
    + unfold map_values, map_keys. rewrite map_map. apply List.map_ext_in.
      intros e He. rewrite Forall_forall in Wk. apply (Wk e He).
    + exact (fold_set_keys keyOf (fun _ x => x) all []).
  - apply Forall_forall. intros item Hin. unfold map_values in Hin.
    apply in_map_iff in Hin as ([k v] & <- & He). cbn [snd].
    rewrite Forall_forall in Wk. pose proof (Wk _ He) as Hk. cbn [fst snd] in Hk.
    rewrite Hk. pose proof (map_get_of_entry _ k v Wn He) as G.
    rewrite (fold_put_get keyOf all [] k) in G.
    destruct (last_with_key keyOf all k); [exact G|discriminate G].
Qed.

End MergeFacts.

Module MergeProperties.
Import Js ImportSeed Props Notions MergeFacts.

(** X13.  [mergeByKey] returns one item for each key of the base and the
    incoming items: the keys come in the order in which they first appear,
    the base ones first, and the item kept for a key is the last one that
    has it, an incoming item winning over a base item. *)
Theorem merge_keeps_first_place_and_last_item :
  forall (keyOf : json -> string) (baseItems incomingItems : list json),
    let merged := mergeByKey baseItems incomingItems keyOf in
    List.map keyOf merged = distinct (List.map keyOf (baseItems ++ incomingItems)) []
    /\ Forall (fun item => last_with_key keyOf (baseItems ++ incomingItems) (keyOf item)
                           = Some item) merged.
Proof. intros keyOf baseItems incomingItems. apply mergeByKey_shape. Qed.

End MergeProperties.

Module TimelineFacts.
Import Js DemoStore Props JsFacts Notions.

Lemma push_members_ids (t : DemoTimelineRecord) (ms : list DemoEventRecord) (i : Z) :
  Forall (fun te => te_timeline_id te = tl_id t) (push_members t ms i).
Proof.
  revert i. induction ms as [|e ms IH]; intros i; cbn [push_members]; constructor;
    [reflexivity|apply IH].
Qed.

Lemma push_members_events (t : DemoTimelineRecord) (ms : list DemoEventRecord) (i : Z) :
  List.map te_event_id (push_members t ms i) = List.map evt_id ms.
Proof.
  revert i. induction ms as [|e ms IH]; intros i; cbn [push_members List.map].
  - reflexivity.
  - rewrite IH. reflexivity.
Qed.

Lemma push_members_sequence (t : DemoTimelineRecord) (ms : list DemoEventRecord) (i : Z) :
  List.map te_sequence_no (push_members t ms i)
  = List.map (fun k => i + Z.of_nat k) (seq 1 (List.length ms)).
Proof.
  revert i. induction ms as [|e ms IH]; intros i; cbn [push_members List.map List.length seq].
  - reflexivity.
  - rewrite IH. f_equal; try lia. rewrite <- (seq_shift (List.length ms) 1), map_map.
    apply List.map_ext. intros k. lia.
Qed.

Lemma push_members_length (t : DemoTimelineRecord) (ms : list DemoEventRecord) (i : Z) :
  List.length (push_members t ms i) = List.length ms.
Proof.
  rewrite <- (length_map te_event_id), push_members_events, length_map. reflexivity.
Qed.

Lemma members_of_own (t : DemoTimelineRecord) (l : list DemoTimelineEventRecord) :
  Forall (fun te => te_timeline_id te = tl_id t) l -> timeline_members l (tl_id t) = l.
Proof.
  induction 1 as [|te l H _ IH]; cbn [timeline_members filter].
  - reflexivity.
  - rewrite H, String.eqb_refl. f_equal. exact IH.
Qed.

Lemma members_of_other (t : DemoTimelineRecord) (id : string)
    (l : list DemoTimelineEventRecord) :
  tl_id t <> id ->
  Forall (fun te => te_timeline_id te = tl_id t) l -> timeline_members l id = [].
Proof.
  intros Hn. induction 1 as [|te l H _ IH]; cbn [timeline_members filter].
  - reflexivity.
  - rewrite H. destruct (String.eqb_spec (tl_id t) id); [contradiction|]. exact IH.
Qed.

Lemma members_app (l1 l2 : list DemoTimelineEventRecord) (id : string) :
  timeline_members (l1 ++ l2) id = (timeline_members l1 id ++ timeline_members l2 id)%list.
Proof. apply filter_app. Qed.

(** The identifiers of the nine timelines are pairwise distinct. *)
Lemma timeline_ids_distinct (events : list DemoEventRecord) (now : string) :
  NoDup (List.map tl_id (fst (buildTimelines events now))).
Proof.
  unfold buildTimelines. cbv zeta. cbn [fst List.map tl_id mkTimeline].
  assert (E : forall a b : string, String.eqb a b = false -> a <> b).
  { intros a b H ->. rewrite String.eqb_refl in H. discriminate. }
  repeat (constructor; [cbn [In]; intros H;
    repeat (destruct H as [H|H]; [revert H; apply E; vm_compute; reflexivity|]);
    exact H|]).
  constructor.
Qed.

Lemma members_none (blocks : list (DemoTimelineRecord * list DemoEventRecord))
    (id : string) :
  (forall b, In b blocks -> tl_id (fst b) <> id) ->
  timeline_members (flat_map (fun b => push_members (fst b) (snd b) 0) blocks) id = [].
Proof.
  induction blocks as [|b blocks IH]; intros H; cbn [flat_map]; [reflexivity|].
  rewrite members_app, (members_of_other (fst b) id).
  - apply IH. intros b' Hb'. apply H. right. exact Hb'.
  - apply H. left. reflexivity.
  - apply push_members_ids.
Qed.

Lemma members_of_block (blocks : list (DemoTimelineRecord * list DemoEventRecord))
    (t : DemoTimelineRecord) (ms : list DemoEventRecord) :
  NoDup (List.map (fun b => tl_id (fst b)) blocks) ->
  In (t, ms) blocks ->
  timeline_members (flat_map (fun b => push_members (fst b) (snd b) 0) blocks) (tl_id t)
  = push_members t ms 0.
Proof.
  induction blocks as [|b blocks IH]; intros Hn Hin; [destruct Hin|].
  cbn [flat_map List.map] in *. inversion Hn as [|? ? Hb Hr]; subst.
  rewrite members_app. destruct Hin as [->|Hin].
  - cbn [fst snd]. rewrite (members_of_own t) by apply push_members_ids.
    rewrite members_none; [apply app_nil_r|].
    intros b' Hb' E. apply Hb. cbn [fst]. rewrite <- E.
    apply (in_map (fun b => tl_id (fst b))), Hb'.
  - rewrite (members_of_other (fst b) (tl_id t)).
    + apply IH; assumption.
    + intros E. apply Hb. rewrite E.
      apply (in_map (fun b => tl_id (fst b)) blocks (t, ms)), Hin.
    + apply push_members_ids.
Qed.

Lemma filter_all {A} (l : list A) : filter (fun _ => true) l = l.
Proof. induction l as [|x l IH]; cbn [filter]; [reflexivity|]. rewrite IH. reflexivity. Qed.

(** Each timeline holds, numbered from 1 on, the published events that pass
    its test, in chronological order. *)
Lemma timeline_members_built (events : list DemoEventRecord) (now : string)
    (t : DemoTimelineRecord) :
  In t (fst (buildTimelines events now)) ->
  timeline_members (snd (buildTimelines events now)) (tl_id t)
  = push_members t (filter (timeline_test (tl_slug t)) (chronological events)) 0.
Proof.
  intros Hin.
  pose proof (timeline_ids_distinct events now) as Hn.
  set (chrono := chronological events).
  set (members :=
         [ chrono; filter is_crisis chrono; filter (slug_starts "cold-war-") chrono;
           filter (slug_starts "china-us-") chrono;
           filter (slug_starts "china-soviet-") chrono;
           filter (slug_starts "china-war-") chrono; filter (slug_starts "us-war-") chrono;
           filter (slug_starts "ccp-") chrono; filter (slug_starts "wwii-") chrono ]).
  assert (E : snd (buildTimelines events now)
              = flat_map (fun b => push_members (fst b) (snd b) 0)
                         (combine (fst (buildTimelines events now)) members)).
  { unfold buildTimelines, members, chrono, chronological. cbv zeta.
    cbn [fst snd combine flat_map]. rewrite app_nil_r. reflexivity. }
  assert (N : NoDup (List.map (fun b => tl_id (fst b))
                       (combine (fst (buildTimelines events now)) members))).
  { replace (List.map (fun b => tl_id (fst b))
               (combine (fst (buildTimelines events now)) members))
      with (List.map tl_id (fst (buildTimelines events now))); [exact Hn|].
    unfold buildTimelines, members. cbv zeta. reflexivity. }
  rewrite E.
  assert (M : In (t, filter (timeline_test (tl_slug t)) chrono)
                 (combine (fst (buildTimelines events now)) members)).
  { unfold buildTimelines, members in *. cbv zeta in *. cbn [fst combine] in *.
    cbn [In] in Hin.
    repeat (destruct Hin as [<-|Hin];
            [ cbn [tl_slug mkTimeline]; try rewrite filter_all; cbn [In]; tauto | ]).
    destruct Hin. }
  apply (members_of_block _ t _ N M).
Qed.

End TimelineFacts.

Module TagFacts.
Import Js DemoStore Props JsFacts Notions MergeFacts.

Lemma first_with_ext {A} (key : A -> string) (l : list A) (s1 s2 : list string) :
  (forall x, In x s1 <-> In x s2) -> first_with key l s1 = first_with key l s2.
Proof.
  revert s1 s2. induction l as [|a l IH]; intros s1 s2 H; cbn [first_with]; [reflexivity|].
  assert (E : existsb (String.eqb (key a)) s1 = existsb (String.eqb (key a)) s2).
  { apply eq_true_iff_eq. rewrite !existsb_eqb_In. apply H. }
  rewrite E. destruct (existsb (String.eqb (key a)) s2).
  - apply IH, H.
  - f_equal. apply IH. intros x. cbn [In]. rewrite (H x). reflexivity.
Qed.

Lemma first_with_keys {A} (key : A -> string) (l : list A) (seen : list string) :
  List.map key (first_with key l seen) = distinct (List.map key l) seen.
Proof.
  revert seen. induction l as [|a l IH]; intros seen; cbn [first_with distinct List.map];
    [reflexivity|].
  destruct (existsb (String.eqb (key a)) seen); [apply IH|].
  cbn [List.map]. rewrite IH. reflexivity.
Qed.

Section Tags.

Variable normalizeNFKD : string -> string.

Local Abbreviation slug := (fun e : DemoEventRecord => normalizeSlug normalizeNFKD (evt_category e)).
Local Abbreviation entry := (fun e : DemoEventRecord => (slug e, tag_of_category normalizeNFKD e)).
Local Abbreviation xref :=
  (fun e : DemoEventRecord =>
     {| et_event_id := evt_id e; et_tag_id := stableUuid ("tag:" ++ slug e) |}).

Lemma entries_get (es : list DemoEventRecord) (k : string) :
  map_get (List.map entry es) k
  = match List.find (fun e0 => String.eqb (slug e0) k) es with
    | Some e0 => Some (tag_of_category normalizeNFKD e0)
    | None => None
    end.
Proof.
  induction es as [|e0 es IH]; cbn [List.map map_get List.find]; [reflexivity|].
  destruct (String.eqb (slug e0) k); [reflexivity|exact IH].
Qed.

Lemma entries_keys (es : list DemoEventRecord) :
  map_keys (List.map entry es) = List.map slug es.
Proof. unfold map_keys. rewrite map_map. reflexivity. Qed.

Lemma buildTags_step_shape (es : list DemoEventRecord) (acc : list DemoEventTagRecord)
    (e : DemoEventRecord) :
  buildTags_step normalizeNFKD (List.map entry es, acc) e
  = (List.map entry (es ++ first_with slug [e] (List.map slug es)), (acc ++ [xref e])%list).
Proof.
  unfold buildTags_step. cbv zeta. cbn [first_with].
  unfold map_has. rewrite !entries_get.
  destruct (List.find (fun e0 => String.eqb (slug e0) (slug e)) es) as [e0|] eqn:F.
  - cbn [negb]. rewrite entries_get, F.
    apply find_some in F as [Hin E]. apply String.eqb_eq in E.
    assert (X : existsb (String.eqb (slug e)) (List.map slug es) = true).
    { apply existsb_eqb_In. rewrite <- E. apply (in_map slug), Hin. }
    rewrite X, app_nil_r. unfold tag_of_category. cbn [tag_id]. rewrite E. reflexivity.
  - cbn [negb].
    assert (X : existsb (String.eqb (slug e)) (List.map slug es) = false).
    { apply not_true_is_false. intros H. apply existsb_eqb_In in H.
      apply in_map_iff in H as (e0 & E & Hin).
      apply (find_none _ _ F) in Hin. cbn beta in Hin. rewrite E, String.eqb_refl in Hin.
      discriminate Hin. }
    rewrite X.
    assert (Hn : ~ In (slug e) (map_keys (List.map entry es))).
    { rewrite entries_keys. intros H. apply existsb_eqb_In in H. congruence. }
    rewrite (map_set_fresh _ _ _ Hn).
    replace (List.map entry es ++ [(slug e, {| tag_id := stableUuid ("tag:" ++ slug e);
                                               tag_slug := slug e;
                                               tag_name := evt_category e |})])%list
      with (List.map entry (es ++ [e])) by (rewrite map_app; reflexivity).
    rewrite entries_get.
    assert (F' : List.find (fun e0 => String.eqb (slug e0) (slug e)) (es ++ [e]) = Some e).
    { clear -F. induction es as [|e0 es IH]; cbn [app List.find] in *.
      - rewrite String.eqb_refl. reflexivity.
      - destruct (String.eqb (slug e0) (slug e)); [discriminate F|apply IH, F]. }
    rewrite F'. reflexivity.
Qed.

Lemma buildTags_fold_shape (l es : list DemoEventRecord) (acc : list DemoEventTagRecord) :
  fold_left (buildTags_step normalizeNFKD) l (List.map entry es, acc)
  = (List.map entry (es ++ first_with slug l (List.map slug es)),
     (acc ++ List.map xref l)%list).
Proof.
  revert es acc. induction l as [|e l IH]; intros es acc; cbn [fold_left].
  - cbn [first_with List.map]. rewrite !app_nil_r. reflexivity.
  - rewrite buildTags_step_shape, IH. cbn [first_with List.map].
    destruct (existsb (String.eqb (slug e)) (List.map slug es)) eqn:X.
    + rewrite !app_nil_r, <- app_assoc. reflexivity.
    + rewrite <- !app_assoc. cbn [app]. do 4 f_equal.
      apply first_with_ext. intros x. rewrite map_app, in_app_iff. cbn [List.map In]. tauto.
Qed.

Lemma buildTags_shape (events : list DemoEventRecord) :
  buildTags normalizeNFKD events
  = (List.map (tag_of_category normalizeNFKD) (first_with slug events []),
     List.map xref events).
Proof.
  unfold buildTags.
  pose proof (buildTags_fold_shape events [] []) as H. cbn [List.map app] in H.
  rewrite H. unfold map_values. rewrite map_map. reflexivity.
Qed.

End Tags.

End TagFacts.

Module SnapshotProperties.
Import Js DemoStore Props JsFacts Notions TimelineFacts.

Lemma sortByEventDateAsc_total : total_cmp sortByEventDateAsc.
Proof.
  intros a b. unfold sortByEventDateAsc.
  destruct (str_lt (evt_event_date a) (evt_event_date b)) eqn:E1; [left; lia|].
  destruct (str_lt (evt_event_date b) (evt_event_date a)) eqn:E2; [right; lia|].
  rewrite (AccessFacts.localeCompare_opp (evt_slug b) (evt_slug a)).
  destruct (Z_le_gt_dec (localeCompare (evt_slug a) (evt_slug b)) 0); [left|right]; lia.
Qed.

(** X14.  In the snapshot each of the nine timelines holds the published
    events that pass its test (all of them for the first timeline, a word of
    the crisis list in title or category for the second, a slug prefix for
    the others), in the order of their dates and then slugs, and numbers
    them 1, 2, 3, ... without a gap. *)
Theorem timelines_number_published_events_in_order :
  forall (events : list DemoEventRecord) (now : string) (t : DemoTimelineRecord),
    In t (fst (buildTimelines events now)) ->
    let members := timeline_members (snd (buildTimelines events now)) (tl_id t) in
    List.map te_event_id members
    = List.map evt_id (filter (timeline_test (tl_slug t)) (chronological events))
    /\ List.map te_sequence_no members = List.map Z.of_nat (seq 1 (List.length members))
    /\ ordered sortByEventDateAsc (chronological events)
    /\ Permutation (chronological events) (filter is_published events).
Proof.
  intros events now t Hin members. unfold members.
  rewrite (timeline_members_built events now t Hin).
  repeat split.
  - apply push_members_events.
  - rewrite push_members_sequence, push_members_length. reflexivity.
  - apply sort_ordered, sortByEventDateAsc_total.
  - symmetry. apply sort_perm.
Qed.

Lemma timelines_number_published_events_in_order_witness :
  let events := events snapshot_same_day in
  let t := mkTimeline "global-financial-turning-points" "Global Financial Turning Points"
             "Major events that reshaped financial markets and policy regimes."
             "2024-01-01T00:00:00.000Z" in
  let members :=
    timeline_members (snd (buildTimelines events "2024-01-01T00:00:00.000Z")) (tl_id t) in
  In t (fst (buildTimelines events "2024-01-01T00:00:00.000Z"))
  /\ List.map te_sequence_no members = List.map Z.of_nat (seq 1 (List.length members)).
Proof.
  intros events t members. split; [left; reflexivity|].
  apply (timelines_number_published_events_in_order events "2024-01-01T00:00:00.000Z" t).
  left. reflexivity.
Defined.

(** X15.  [buildTags] makes one tag for each normalized category, in the
    order in which the categories first come, named after the first event
    that has it and identified by the digest of its slug; and it gives to
    every event, whatever its status, one cross-reference, which points to
    the tag of its category. *)
Theorem tags_follow_categories :
  forall (normalizeNFKD : string -> string) (events : list DemoEventRecord),
    let slug := fun e => normalizeSlug normalizeNFKD (evt_category e) in
    buildTags normalizeNFKD events
    = (List.map (tag_of_category normalizeNFKD) (first_with slug events []),
       List.map (fun e => {| et_event_id := evt_id e;
                             et_tag_id := stableUuid ("tag:" ++ slug e) |}) events)
    /\ NoDup (List.map tag_slug (fst (buildTags normalizeNFKD events))).
Proof.
  intros nf events slug. split; [apply TagFacts.buildTags_shape|].
  rewrite TagFacts.buildTags_shape. cbn [fst]. rewrite map_map.
  change (NoDup (List.map slug (first_with slug events []))).
  rewrite TagFacts.first_with_keys. apply MergeFacts.distinct_NoDup.
Qed.

End SnapshotProperties.

Module DetailFacts.
Import Js DemoStore Runtime LiveStore Events EventDetails Timelines Props JsFacts
       SnapshotFacts AccessFacts Notions.

Lemma find_is_first {A} (p : A -> bool) (l : list A) :
  Js.find p l = match filter p l with
                | [] => None
                | x :: _ => Some x
                end.
Proof.
  unfold Js.find. induction l as [|x l IH]; cbn [List.find filter]; [reflexivity|].
  destruct (p x); [reflexivity|exact IH].
Qed.

Lemma sort_of_ordered {A} (cmp : A -> A -> Z) (l : list A) :
  ordered cmp l -> Js.sort cmp l = l.
Proof.
  induction 1 as [|x l Hs IH Hh]; cbn [Js.sort]; [reflexivity|].
  rewrite IH. destruct Hh as [|y l Hxy]; cbn [Js.sort_insert]; [reflexivity|].
  apply Z.leb_le in Hxy. rewrite Hxy. reflexivity.
Qed.

Lemma difference_total {A} (key : A -> Z) : total_cmp (fun a b => key a - key b).
Proof. intros a b. lia. Qed.

Lemma difference_transitive {A} (key : A -> Z) : transitive_cmp (fun a b => key a - key b).
Proof. intros a b c. lia. Qed.

(** Looking up each element of a list that is in order, and dropping those
    for which nothing is found, leaves a list in order when the key is
    kept. *)
Lemma ordered_lookups {A B} (keyA : A -> Z) (keyB : B -> Z) (f : A -> option B)
    (l : list A) :
  (forall a b, f a = Some b -> keyB b = keyA a) ->
  ordered (fun x y => keyA x - keyA y) l ->
  ordered (fun x y => keyB x - keyB y) (keep_some (List.map f l)).
Proof.
  intros Hk Ho.
  apply (ordered_strongly _ _ (difference_transitive keyA)) in Ho.
  apply StronglySorted_Sorted.
  induction Ho as [|a l Hs IH Hf]; cbn [List.map keep_some]; [constructor|].
  destruct (f a) as [b|] eqn:E; [|exact IH].
  constructor; [exact IH|].
  apply Forall_forall. intros y Hy. apply keep_some_In in Hy.
  apply in_map_iff in Hy as (x & Hx & Hin).
  rewrite Forall_forall in Hf. specialize (Hf x Hin). cbn beta in Hf.
  rewrite (Hk a b E), (Hk x y Hx). exact Hf.
Qed.

Lemma desc_nulls_last_total (cmp : string -> string -> Z) :
  (forall x y, cmp x y <= 0 \/ cmp y x <= 0) ->
  forall a b, desc_nulls_last cmp a b <= 0 \/ desc_nulls_last cmp b a <= 0.
Proof.
  intros H [x|] [y|]; cbn [desc_nulls_last]; try lia. destruct (H x y); [right|left]; lia.
Qed.

Lemma sourcesSql_order_total (cmp : string -> string -> Z) :
  (forall x y, cmp x y <= 0 \/ cmp y x <= 0) -> total_cmp (sourcesSql_order cmp).
Proof.
  intros H a b. unfold sourcesSql_order.
  destruct (Z.eqb_spec (esrc_relevance_rank a) (esrc_relevance_rank b)) as [E|E].
  - rewrite E, Z.eqb_refl. cbn [negb]. apply desc_nulls_last_total, H.
  - destruct (Z.eqb_spec (esrc_relevance_rank b) (esrc_relevance_rank a)) as [E'|E'];
      [congruence|]. cbn [negb]. lia.
Qed.

Lemma timeline_eventsSql_order_total : total_cmp Timelines.eventsSql_order.
Proof.
  intros a b. unfold Timelines.eventsSql_order.
  destruct (Z.eqb_spec (tev_sequence_no a) (tev_sequence_no b)) as [E|E].
  - rewrite E, Z.eqb_refl. cbn [negb].
    rewrite (localeCompare_opp (tev_event_date a) (tev_event_date b)).
    destruct (Z_le_gt_dec (localeCompare (tev_event_date b) (tev_event_date a)) 0);
      [left|right]; lia.
  - destruct (Z.eqb_spec (tev_sequence_no b) (tev_sequence_no a)) as [E'|E'];
      [congruence|]. cbn [negb]. lia.
Qed.

Lemma demo_detail (ds : DemoDataset) (slug : string) :
  (getPublishedEventBySlugFromDemo ds slug = None <-> ~ published_with_slug ds slug)
  /\ forall d, getPublishedEventBySlugFromDemo ds slug = Some d ->
       d_slug d = slug
       /\ refers_to_published ds (d_id d)
       /\ sources_by_rank (d_sources d)
       /\ timelines_by_sequence (d_timelines d).
Proof.
  unfold getPublishedEventBySlugFromDemo.
  destruct (Js.find _ (events ds)) as [event|] eqn:F.
  - apply find_some in F as [Hin Hp]. apply andb_prop in Hp as [Hs Hp].
    apply String.eqb_eq in Hs. apply status_eqb_eq in Hp.
    split.
    + split; [discriminate|]. intros Hn. exfalso. apply Hn. exists event. auto.
    + intros d H. injection H as <-. cbn [d_slug d_id d_sources d_timelines event_detail].
      split; [exact Hs|]. split; [exists event; auto|]. split.
      * apply (ordered_lookups es_relevance_rank esrc_relevance_rank).
        -- intros a b. destruct (Js.find _ (sources ds)); [|discriminate].
           intros H. injection H as <-. reflexivity.
        -- apply sort_ordered, (difference_total es_relevance_rank).
      * apply (ordered_lookups te_sequence_no etl_sequence_no).
        -- intros a b. destruct (Js.find _ (timelines ds)); [|discriminate].
           intros H. injection H as <-. reflexivity.
        -- apply sort_ordered, (difference_total te_sequence_no).
  - split; [|discriminate]. split; [|reflexivity]. intros _ (e & Hin & Hs & Hp).
    apply (find_none _ _ F) in Hin. cbn beta in Hin.
    unfold is_published in Hin. rewrite Hs, Hp, String.eqb_refl in Hin. discriminate Hin.
Qed.

Lemma live_detail (cmp : string -> string -> Z) (db : database) (slug : string) :
  (forall x y, cmp x y <= 0 \/ cmp y x <= 0) ->
  exists r, getPublishedEventBySlug_query cmp db slug = Returned r
    /\ (r = None <-> ~ published_with_slug db slug)
    /\ forall d, r = Some d ->
         d_slug d = slug
         /\ refers_to_published db (d_id d)
         /\ sources_by_rank (d_sources d)
         /\ timelines_by_sequence (d_timelines d).
Proof.
  intros Ht. unfold getPublishedEventBySlug_query.
  destruct (filter _ (events db)) as [|event rest] eqn:F.
  - eexists. split; [reflexivity|]. split; [|discriminate]. split; [|reflexivity].
    intros _ (e & Hin & Hs & Hp).
    assert (X : In e (filter (fun e => String.eqb (evt_slug e) slug && is_published e)
                             (events db))).
    { apply filter_In. split; [exact Hin|]. unfold is_published.
      rewrite Hs, Hp, String.eqb_refl. reflexivity. }
    rewrite F in X. destruct X.
  - assert (X : In event (filter (fun e => String.eqb (evt_slug e) slug && is_published e)
                                 (events db))) by (rewrite F; left; reflexivity).
    apply filter_In in X as [Hin Hp]. apply andb_prop in Hp as [Hs Hp].
    apply String.eqb_eq in Hs. apply status_eqb_eq in Hp.
    eexists. split; [reflexivity|]. split.
    + split; [discriminate|]. intros Hn. exfalso. apply Hn. exists event. auto.
    + intros d H. injection H as <-. cbn [d_slug d_id d_sources d_timelines event_detail].
      split; [exact Hs|]. split; [exists event; auto|]. split.
      * apply (ordered_weaken (sourcesSql_order cmp)).
        -- intros a b. unfold sourcesSql_order.
           destruct (Z.eqb_spec (esrc_relevance_rank a) (esrc_relevance_rank b));
             cbn [negb]; lia.
        -- apply sort_ordered, sourcesSql_order_total, Ht.
      * apply sort_ordered, (difference_total etl_sequence_no).
Qed.

Lemma demo_timeline (ds : DemoDataset) (slug : string) :
  (getTimelineBySlugFromDemo ds slug = None <-> ~ timeline_with_slug ds slug)
  /\ forall d, getTimelineBySlugFromDemo ds slug = Some d ->
       tl_slug (td_timeline d) = slug
       /\ In (td_timeline d) (timelines ds)
       /\ events_by_sequence (td_events d)
       /\ Forall (fun ev => refers_to_published ds (tev_id ev)) (td_events d).
Proof.
  unfold getTimelineBySlugFromDemo.
  destruct (Js.find _ (timelines ds)) as [t|] eqn:F.
  - apply find_some in F as [Hin Hs]. apply String.eqb_eq in Hs.
    split.
    + split; [discriminate|]. intros Hn. exfalso. apply Hn. exists t. auto.
    + intros d H. injection H as <-. cbn [td_timeline td_events].
      split; [exact Hs|]. split; [exact Hin|]. split.
      * apply (ordered_lookups te_sequence_no tev_sequence_no).
        -- intros a b. destruct (Js.find _ (events ds)); [|discriminate].
           intros H. injection H as <-. reflexivity.
        -- apply sort_ordered, (difference_total te_sequence_no).
      * apply Forall_forall. intros ev Hev. apply keep_some_In in Hev.
        apply in_map_iff in Hev as (entry & He & _).
        destruct (Js.find _ (events ds)) as [event|] eqn:Fe; [|discriminate He].
        injection He as <-. apply find_some in Fe as [Hie Hp].
        apply andb_prop in Hp as [_ Hp]. apply status_eqb_eq in Hp.
        exists event. auto.
  - split; [|discriminate]. split; [|reflexivity]. intros _ (t & Hin & Hs).
    apply (find_none _ _ F) in Hin. cbn beta in Hin. rewrite Hs, String.eqb_refl in Hin.
    discriminate Hin.
Qed.

Lemma live_timeline (db : database) (slug : string) :
  exists r, getTimelineBySlug_query db slug = Returned r
    /\ (r = None <-> ~ timeline_with_slug db slug)
    /\ forall d, r = Some d ->
         tl_slug (td_timeline d) = slug
         /\ In (td_timeline d) (timelines db)
         /\ events_by_sequence (td_events d)
         /\ Forall (fun ev => refers_to_published db (tev_id ev)) (td_events d).
Proof.
  unfold getTimelineBySlug_query.
  destruct (filter _ (timelines db)) as [|t rest] eqn:F.
  - eexists. split; [reflexivity|]. split; [|discriminate]. split; [|reflexivity].
    intros _ (t & Hin & Hs).
    assert (X : In t (filter (fun row => String.eqb (tl_slug row) slug) (timelines db))).
    { apply filter_In. split; [exact Hin|]. rewrite Hs. apply String.eqb_refl. }
    rewrite F in X. destruct X.
  - assert (X : In t (filter (fun row => String.eqb (tl_slug row) slug) (timelines db)))
      by (rewrite F; left; reflexivity).
    apply filter_In in X as [Hin Hs]. apply String.eqb_eq in Hs.
    eexists. split; [reflexivity|]. split.
    + split; [discriminate|]. intros Hn. exfalso. apply Hn. exists t. auto.
    + intros d H. injection H as <-. cbn [td_timeline td_events].
      split; [exact Hs|]. split; [exact Hin|]. split.
      * apply (ordered_weaken Timelines.eventsSql_order).
        -- intros a b. unfold Timelines.eventsSql_order.
           destruct (Z.eqb_spec (tev_sequence_no a) (tev_sequence_no b)); cbn [negb]; lia.
        -- apply sort_ordered, timeline_eventsSql_order_total.
      * apply Forall_forall. intros ev Hev. apply sort_In in Hev.
        apply in_flat_map in Hev as (te & _ & Hev). apply in_map_iff in Hev as (e & <- & He).
        apply filter_In in He as [Hie Hp]. apply andb_prop in Hp as [_ Hp].
        apply status_eqb_eq in Hp. exists e. auto.
Qed.

Lemma found_by_key {A} (key : A -> string) (l : list A) (k : string) :
  (exists x, In x l /\ key x = k) ->
  exists y, Js.find (fun entry => String.eqb (key entry) k) l = Some y
            /\ In y l /\ key y = k.
Proof.
  intros (x & Hin & Hk).
  destruct (Js.find (fun entry => String.eqb (key entry) k) l) as [y|] eqn:F.
  - exists y. apply find_some in F as [Hy E]. apply String.eqb_eq in E. auto.
  - apply (find_none _ _ F) in Hin. cbn beta in Hin.
    rewrite Hk, String.eqb_refl in Hin. discriminate Hin.
Qed.

Lemma demo_sources_of (ds : DemoDataset) (id : string)
    (cmp : DemoEventSourceRecord -> DemoEventSourceRecord -> Z) :
  sources_of ds id
    (keep_some
       (List.map
          (fun link =>
             match Js.find (fun entry => String.eqb (src_id entry) (es_source_id link))
                           (sources ds) with
             | None => None
             | Some source => Some (event_source source link)
             end)
          (Js.sort cmp (filter (fun entry => String.eqb (es_event_id entry) id)
                               (eventSources ds))))).
Proof.
  split.
  - intros s Hs. apply keep_some_In, in_map_iff in Hs as (link & Hf & Hl).
    apply sort_In, filter_In in Hl as [Hl He]. apply String.eqb_eq in He.
    destruct (Js.find _ (sources ds)) as [source|] eqn:F; [|discriminate Hf].
    injection Hf as <-. apply find_some in F as [Hin Hid]. apply String.eqb_eq in Hid.
    exists link, source. auto.
  - intros link Hl He (s0 & Hs0 & Hid0).
    destruct (found_by_key src_id (sources ds) (es_source_id link)) as (source & F & Hin & Hid);
      [exists s0; auto|].
    exists source. split; [exact Hin|]. split; [exact Hid|].
    apply keep_some_In, in_map_iff. exists link. rewrite F. split; [reflexivity|].
    apply sort_In, filter_In. split; [exact Hl|]. rewrite He. apply String.eqb_refl.
Qed.

Lemma live_sources_of (db : database) (id : string) (cmp : EventSource -> EventSource -> Z) :
  sources_of db id
    (order_by cmp
       (flat_map (fun es =>
                    List.map (fun s => event_source s es)
                      (filter (fun s => String.eqb (src_id s) (es_source_id es)) (sources db)))
                 (filter (fun es => String.eqb (es_event_id es) id) (eventSources db)))).
Proof.
  unfold order_by. split.
  - intros s Hs. apply sort_In, in_flat_map in Hs as (link & Hl & Hs).
    apply filter_In in Hl as [Hl He]. apply String.eqb_eq in He.
    apply in_map_iff in Hs as (source & <- & Hsrc).
    apply filter_In in Hsrc as [Hin Hid]. apply String.eqb_eq in Hid.
    exists link, source. auto.
  - intros link Hl He (source & Hin & Hid).
    exists source. split; [exact Hin|]. split; [exact Hid|].
    apply sort_In, in_flat_map. exists link. split.
    + apply filter_In. split; [exact Hl|]. rewrite He. apply String.eqb_refl.
    + apply (in_map (fun s => event_source s link)). apply filter_In.
      split; [exact Hin|]. rewrite Hid. apply String.eqb_refl.
Qed.

Lemma demo_timelines_of (ds : DemoDataset) (id : string)
    (cmp : DemoTimelineEventRecord -> DemoTimelineEventRecord -> Z) :
  timelines_of ds id
    (keep_some
       (List.map
          (fun link =>
             match Js.find (fun entry => String.eqb (tl_id entry) (te_timeline_id link))
                           (timelines ds) with
             | None => None
             | Some timeline => Some (event_timeline timeline link)
             end)
          (Js.sort cmp (filter (fun entry => String.eqb (te_event_id entry) id)
                               (timelineEvents ds))))).
Proof.
  split.
  - intros t Ht. apply keep_some_In, in_map_iff in Ht as (link & Hf & Hl).
    apply sort_In, filter_In in Hl as [Hl He]. apply String.eqb_eq in He.
    destruct (Js.find _ (timelines ds)) as [timeline|] eqn:F; [|discriminate Hf].
    injection Hf as <-. apply find_some in F as [Hin Hid]. apply String.eqb_eq in Hid.
    exists link, timeline. auto.
  - intros link Hl He (t0 & Ht0 & Hid0).
    destruct (found_by_key tl_id (timelines ds) (te_timeline_id link))
      as (timeline & F & Hin & Hid); [exists t0; auto|].
    exists timeline. split; [exact Hin|]. split; [exact Hid|].
    apply keep_some_In, in_map_iff. exists link. rewrite F. split; [reflexivity|].
    apply sort_In, filter_In. split; [exact Hl|]. rewrite He. apply String.eqb_refl.
Qed.

Lemma live_timelines_of (db : database) (id : string)
    (cmp : EventTimeline -> EventTimeline -> Z) :
  timelines_of db id
    (order_by cmp
       (flat_map (fun te =>
                    List.map (fun t => event_timeline t te)
                      (filter (fun t => String.eqb (tl_id t) (te_timeline_id te))
                              (timelines db)))
                 (filter (fun te => String.eqb (te_event_id te) id) (timelineEvents db)))).
Proof.
  unfold order_by. split.
  - intros t Ht. apply sort_In, in_flat_map in Ht as (link & Hl & Ht).
    apply filter_In in Hl as [Hl He]. apply String.eqb_eq in He.
    apply in_map_iff in Ht as (timeline & <- & Htl).
    apply filter_In in Htl as [Hin Hid]. apply String.eqb_eq in Hid.
    exists link, timeline. auto.
  - intros link Hl He (timeline & Hin & Hid).
    exists timeline. split; [exact Hin|]. split; [exact Hid|].
    apply sort_In, in_flat_map. exists link. split.
    + apply filter_In. split; [exact Hl|]. rewrite He. apply String.eqb_refl.
    + apply (in_map (fun t => event_timeline t link)). apply filter_In.
      split; [exact Hin|]. rewrite Hid. apply String.eqb_refl.
Qed.

Lemma demo_members_of (ds : DemoDataset) (id : string)
    (cmp : DemoTimelineEventRecord -> DemoTimelineEventRecord -> Z) :
  members_of ds id
    (keep_some
       (List.map
          (fun entry =>
             match Js.find (fun candidate =>
                              String.eqb (evt_id candidate) (te_event_id entry)
                              && is_published candidate) (events ds) with
             | None => None
             | Some event => Some (timeline_event event entry)
             end)
          (Js.sort cmp (filter (fun entry => String.eqb (te_timeline_id entry) id)
                               (timelineEvents ds))))).
Proof.
  split.
  - intros ev Hev. apply keep_some_In, in_map_iff in Hev as (entry & Hf & Hl).
    apply sort_In, filter_In in Hl as [Hl He]. apply String.eqb_eq in He.
    destruct (Js.find _ (events ds)) as [event|] eqn:F; [|discriminate Hf].
    injection Hf as <-. apply find_some in F as [Hin Hp].
    apply andb_prop in Hp as [Hid Hp]. apply String.eqb_eq in Hid.
    apply status_eqb_eq in Hp. exists entry, event. auto 10.
  - intros entry Hl He (e0 & He0 & Hid0 & Hp0).
    destruct (Js.find (fun candidate => String.eqb (evt_id candidate) (te_event_id entry)
                                        && is_published candidate) (events ds))
      as [event|] eqn:F.
    + pose proof F as F'. apply find_some in F' as [Hin Hp].
      apply andb_prop in Hp as [Hid Hp]. apply String.eqb_eq in Hid.
      apply status_eqb_eq in Hp.
      exists event. split; [exact Hin|]. split; [exact Hid|]. split; [exact Hp|].
      apply keep_some_In, in_map_iff. exists entry. rewrite F. split; [reflexivity|].
      apply sort_In, filter_In. split; [exact Hl|]. rewrite He. apply String.eqb_refl.
    + exfalso. apply (find_none _ _ F) in He0. cbn beta in He0.
      unfold is_published in He0. rewrite Hid0, Hp0, String.eqb_refl in He0.
      discriminate He0.
Qed.

Lemma live_members_of (db : database) (id : string)
    (cmp : TimelineEventItem -> TimelineEventItem -> Z) :
  members_of db id
    (order_by cmp
       (flat_map (fun te =>
                    List.map (fun e => timeline_event e te)
                      (filter (fun e => String.eqb (evt_id e) (te_event_id te)
                                        && is_published e) (events db)))
                 (filter (fun te => String.eqb (te_timeline_id te) id) (timelineEvents db)))).
Proof.
  unfold order_by. split.
  - intros ev Hev. apply sort_In, in_flat_map in Hev as (entry & Hl & Hev).
    apply filter_In in Hl as [Hl He]. apply String.eqb_eq in He.
    apply in_map_iff in Hev as (event & <- & Hevt).
    apply filter_In in Hevt as [Hin Hp]. apply andb_prop in Hp as [Hid Hp].
    apply String.eqb_eq in Hid. apply status_eqb_eq in Hp.
    exists entry, event. auto 10.
  - intros entry Hl He (event & Hin & Hid & Hp).
    exists event. split; [exact Hin|]. split; [exact Hid|]. split; [exact Hp|].
    apply sort_In, in_flat_map. exists entry. split.
    + apply filter_In. split; [exact Hl|]. rewrite He. apply String.eqb_refl.
    + apply (in_map (fun e => timeline_event e entry)). apply filter_In.
      split; [exact Hin|]. unfold is_published. rewrite Hid, Hp, String.eqb_refl. reflexivity.
Qed.

(** The detail of an event is made of the columns of a published event of
    the tables, of the sources it cites and of the timelines that hold
    it. *)
Lemma demo_detail_links (ds : DemoDataset) (slug : string) (d : EventDetail) :
  getPublishedEventBySlugFromDemo ds slug = Some d ->
  (exists event, In event (events ds) /\ evt_status event = published
                 /\ d = event_detail event (d_tags d) (d_sources d) (d_timelines d))
  /\ sources_of ds (d_id d) (d_sources d)
  /\ timelines_of ds (d_id d) (d_timelines d).
Proof.
  unfold getPublishedEventBySlugFromDemo.
  destruct (Js.find _ (events ds)) as [event|] eqn:F; [|discriminate].
  apply find_some in F as [Hin Hp]. apply andb_prop in Hp as [_ Hp].
  apply status_eqb_eq in Hp.
  intros H. injection H as <-. cbn [d_id d_tags d_sources d_timelines event_detail].
  split; [exists event; auto|]. split; [apply demo_sources_of|apply demo_timelines_of].
Qed.

Lemma live_detail_links (cmp : string -> string -> Z) (db : database) (slug : string)
    (d : EventDetail) :
  getPublishedEventBySlug_query cmp db slug = Returned (Some d) ->
  (exists event, In event (events db) /\ evt_status event = published
                 /\ d = event_detail event (d_tags d) (d_sources d) (d_timelines d))
  /\ sources_of db (d_id d) (d_sources d)
  /\ timelines_of db (d_id d) (d_timelines d).
Proof.
  unfold getPublishedEventBySlug_query.
  destruct (filter _ (events db)) as [|event rest] eqn:F; [discriminate|].
  assert (X : In event (filter (fun e => String.eqb (evt_slug e) slug && is_published e)
                               (events db))) by (rewrite F; left; reflexivity).
  apply filter_In in X as [Hin Hp]. apply andb_prop in Hp as [_ Hp].
  apply status_eqb_eq in Hp.
  intros H. injection H as <-. cbn [d_id d_tags d_sources d_timelines event_detail].
  split; [exists event; auto|]. split; [apply live_sources_of|apply live_timelines_of].
Qed.

Lemma demo_timeline_members (ds : DemoDataset) (slug : string) (d : TimelineDetail) :
  getTimelineBySlugFromDemo ds slug = Some d ->
  members_of ds (tl_id (td_timeline d)) (td_events d).
Proof.
  unfold getTimelineBySlugFromDemo.
  destruct (Js.find _ (timelines ds)) as [t|]; [|discriminate].
  intros H. injection H as <-. cbn [td_timeline td_events]. apply demo_members_of.
Qed.

Lemma live_timeline_members (db : database) (slug : string) (d : TimelineDetail) :
  getTimelineBySlug_query db slug = Returned (Some d) ->
  members_of db (tl_id (td_timeline d)) (td_events d).
Proof.
  unfold getTimelineBySlug_query.
  destruct (filter _ (timelines db)) as [|t rest]; [discriminate|].
  intros H. injection H as <-. cbn [td_timeline td_events]. apply live_members_of.
Qed.

End DetailFacts.

Module DetailProperties.
Import Js DemoStore Runtime LiveStore Events EventDetails Timelines Props JsFacts
       SnapshotFacts AccessFacts Notions DetailFacts.

(** X16.  On either path [getPublishedEventBySlug] returns nothing exactly
    when the tables that serve the read hold no published event with the
    slug (a draft is never shown); and the detail it returns has that slug
    and the columns of a published event of the tables, lists the sources
    that this event cites through its links, and no other, by ascending
    relevance rank, and the timelines that hold this event, and no other, by
    ascending sequence number. *)
Theorem event_detail_on_either_path :
  forall (compare_timestamptz : string -> string -> Z) (e : env)
         (ds tables : DemoDataset) (p : path) (slug : string),
    (forall x y, compare_timestamptz x y <= 0 \/ compare_timestamptz y x <= 0) ->
    serving e ds = Some (p, tables) ->
    exists r,
      getPublishedEventBySlug compare_timestamptz e ds slug = Returned r
      /\ (r = None <-> ~ published_with_slug tables slug)
      /\ forall d, r = Some d ->
           d_slug d = slug
           /\ refers_to_published tables (d_id d)
           /\ (exists event,
                 In event (events tables) /\ evt_status event = published
                 /\ d = event_detail event (d_tags d) (d_sources d) (d_timelines d))
           /\ sources_of tables (d_id d) (d_sources d)
           /\ sources_by_rank (d_sources d)
           /\ timelines_of tables (d_id d) (d_timelines d)
           /\ timelines_by_sequence (d_timelines d).
Proof.
  intros cmp e ds tables p slug Ht Hs. unfold getPublishedEventBySlug. destruct p.
  - rewrite (dual_path_live e ds tables _ _ Hs).
    destruct (live_detail cmp tables slug Ht) as (r & Q & Hnone & H). rewrite Q.
    exists r. split; [reflexivity|]. split; [exact Hnone|].
    intros d ->. destruct (H d eq_refl) as (H1 & H2 & H3 & H4).
    destruct (live_detail_links cmp tables slug d Q) as (H5 & H6 & H7). auto 10.
  - destruct (dual_path_memory e ds tables
                (fun db => getPublishedEventBySlug_query cmp db slug)
                (getPublishedEventBySlugFromDemo ds slug) Hs) as [-> Q].
    rewrite Q. eexists. split; [reflexivity|].
    destruct (demo_detail ds slug) as [Hnone H]. split; [exact Hnone|].
    intros d Hd. destruct (H d Hd) as (H1 & H2 & H3 & H4).
    destruct (demo_detail_links ds slug d Hd) as (H5 & H6 & H7). auto 10.
Qed.

Lemma event_detail_on_either_path_witness :
  (forall x y, compare_text x y <= 0 \/ compare_text y x <= 0)
  /\ serving (live_env snapshot_crash_and_rescue) snapshot_crash_and_rescue
     = Some (Live, snapshot_crash_and_rescue)
  /\ exists d,
       getPublishedEventBySlug compare_text (live_env snapshot_crash_and_rescue)
         snapshot_crash_and_rescue "black-thursday" = Returned (Some d)
       /\ List.map esrc_source_name (d_sources d) = ["Federal Reserve History"]
       /\ List.map etl_slug (d_timelines d) = ["global-financial-turning-points"]
       /\ sources_of snapshot_crash_and_rescue (d_id d) (d_sources d)
       /\ timelines_of snapshot_crash_and_rescue (d_id d) (d_timelines d).
Proof.
  assert (T : forall x y, compare_text x y <= 0 \/ compare_text y x <= 0).
  { intros x y. unfold compare_text. rewrite (localeCompare_opp x y).
    destruct (Z_le_gt_dec (localeCompare y x) 0); [right|left]; lia. }
  split; [exact T|]. split; [reflexivity|].
  destruct (event_detail_on_either_path compare_text (live_env snapshot_crash_and_rescue)
              snapshot_crash_and_rescue snapshot_crash_and_rescue Live "black-thursday"
              T eq_refl) as (r & Q & _ & H).
  assert (E : exists d,
                getPublishedEventBySlug compare_text (live_env snapshot_crash_and_rescue)
                  snapshot_crash_and_rescue "black-thursday" = Returned (Some d)
                /\ List.map esrc_source_name (d_sources d) = ["Federal Reserve History"]
                /\ List.map etl_slug (d_timelines d) = ["global-financial-turning-points"]).
  { eexists. split; [vm_compute; reflexivity|]. split; reflexivity. }
  destruct E as (d & Qd & N1 & N2). exists d.
  split; [exact Qd|]. split; [exact N1|]. split; [exact N2|].
  rewrite Qd in Q. injection Q as <-.
  destruct (H d eq_refl) as (_ & _ & _ & H4 & _ & H6 & _). split; assumption.
Defined.

(** X17.  On either path [getTimelineBySlug] returns nothing exactly when
    the tables that serve the read hold no timeline with the slug; and the
    detail it returns is that of a timeline of the tables with that slug,
    and lists the published events that this timeline holds through its
    entries, and no other, in the order of their sequence numbers. *)
Theorem timeline_detail_on_either_path :
  forall (e : env) (ds tables : DemoDataset) (p : path) (slug : string),
    serving e ds = Some (p, tables) ->
    exists r,
      getTimelineBySlug e ds slug = Returned r
      /\ (r = None <-> ~ timeline_with_slug tables slug)
      /\ forall d, r = Some d ->
           tl_slug (td_timeline d) = slug
           /\ In (td_timeline d) (timelines tables)
           /\ members_of tables (tl_id (td_timeline d)) (td_events d)
           /\ events_by_sequence (td_events d)
           /\ Forall (fun ev => refers_to_published tables (tev_id ev)) (td_events d).
Proof.
  intros e ds tables p slug Hs. unfold getTimelineBySlug. destruct p.
  - rewrite (dual_path_live e ds tables _ _ Hs).
    destruct (live_timeline tables slug) as (r & Q & Hnone & H). rewrite Q.
    exists r. split; [reflexivity|]. split; [exact Hnone|].
    intros d ->. destruct (H d eq_refl) as (H1 & H2 & H3 & H4).
    pose proof (live_timeline_members tables slug d Q). auto 10.
  - destruct (dual_path_memory e ds tables
                (fun db => getTimelineBySlug_query db slug)
                (getTimelineBySlugFromDemo ds slug) Hs) as [-> Q].
    rewrite Q. eexists. split; [reflexivity|].
    destruct (demo_timeline ds slug) as [Hnone H]. split; [exact Hnone|].
    intros d Hd. destruct (H d Hd) as (H1 & H2 & H3 & H4).
    pose proof (demo_timeline_members ds slug d Hd). auto 10.
Qed.

Lemma timeline_detail_on_either_path_witness :
  serving (live_env snapshot_same_day) snapshot_same_day = Some (Live, snapshot_same_day)
  /\ exists d,
       getTimelineBySlug (live_env snapshot_same_day) snapshot_same_day
         "global-financial-turning-points" = Returned (Some d)
       /\ List.map tev_slug (td_events d) = ["black-monday-1987"; "fed-statement-1987"]
       /\ List.map tev_sequence_no (td_events d) = [1; 2]
       /\ members_of snapshot_same_day (tl_id (td_timeline d)) (td_events d)
       /\ events_by_sequence (td_events d).
Proof.
  split; [reflexivity|].
  destruct (timeline_detail_on_either_path (live_env snapshot_same_day)
              snapshot_same_day snapshot_same_day Live "global-financial-turning-points"
              eq_refl) as (r & Q & _ & H).
  assert (E : exists d,
                getTimelineBySlug (live_env snapshot_same_day) snapshot_same_day
                  "global-financial-turning-points" = Returned (Some d)
                /\ List.map tev_slug (td_events d)
                   = ["black-monday-1987"; "fed-statement-1987"]
                /\ List.map tev_sequence_no (td_events d) = [1; 2]).
  { eexists. split; [vm_compute; reflexivity|]. split; reflexivity. }
  destruct E as (d & Qd & N1 & N2). exists d.
  split; [exact Qd|]. split; [exact N1|]. split; [exact N2|].
  rewrite Qd in Q. injection Q as <-.
  destruct (H d eq_refl) as (_ & _ & H3 & H4 & _). split; assumption.
Defined.

End DetailProperties.

Module SnapshotReadFacts.
Import Js DemoStore Runtime LiveStore Events EventDetails Timelines Props JsFacts
       SnapshotFacts AccessFacts Notions TimelineFacts DetailFacts.

Lemma push_members_ordered (t : DemoTimelineRecord) (ms : list DemoEventRecord) (i : Z) :
  ordered (fun a b => te_sequence_no a - te_sequence_no b) (push_members t ms i).
Proof.
  revert i. induction ms as [|e ms IH]; intros i; cbn [push_members]; [constructor|].
  constructor; [apply IH|].
  destruct ms as [|e' ms]; cbn [push_members]; constructor. cbn [te_sequence_no]. lia.
Qed.

Lemma lookups_found (ds : DemoDataset) (entries : list DemoTimelineEventRecord) :
  Forall (fun entry => exists e, In e (events ds) /\ evt_id e = te_event_id entry
                                 /\ is_published e = true) entries ->
  let found :=
    keep_some
      (List.map
         (fun entry =>
            match Js.find (fun candidate =>
                             String.eqb (evt_id candidate) (te_event_id entry)
                             && is_published candidate) (events ds) with
            | None => None
            | Some event => Some (timeline_event event entry)
            end) entries) in
  List.map tev_id found = List.map te_event_id entries
  /\ List.map tev_sequence_no found = List.map te_sequence_no entries.
Proof.
  induction 1 as [|entry entries (e & Hin & Hid & Hp) _ IH]; cbn [List.map keep_some].
  - split; reflexivity.
  - destruct (Js.find _ (events ds)) as [event|] eqn:F.
    + apply find_some in F as [_ Hc]. apply andb_prop in Hc as [Hc _].
      apply String.eqb_eq in Hc. cbn [keep_some List.map tev_id tev_sequence_no timeline_event].
      destruct IH as [IH1 IH2]. cbv zeta in IH1, IH2. rewrite IH1, IH2, Hc.
      split; reflexivity.
    + exfalso. apply (find_none _ _ F) in Hin. cbn beta in Hin.
      rewrite Hid, String.eqb_refl, Hp in Hin. discriminate Hin.
Qed.

Lemma find_own_slug (events : list DemoEventRecord) (now : string) (t : DemoTimelineRecord) :
  In t (fst (buildTimelines events now)) ->
  Js.find (fun entry => String.eqb (tl_slug entry) (tl_slug t))
          (fst (buildTimelines events now)) = Some t.
Proof.
  unfold buildTimelines. cbv zeta. cbn [fst In]. intros Hin.
  repeat (destruct Hin as [<-|Hin]; [reflexivity|]). destruct Hin.
Qed.

End SnapshotReadFacts.

Module SnapshotReadProperties.
Import Js DemoStore Runtime LiveStore Events EventDetails Timelines Props JsFacts
       SnapshotFacts AccessFacts Notions TimelineFacts DetailFacts SnapshotReadFacts.

(** X18.  Read back from the snapshot on the in-memory path, each of the
    nine timelines is found by its slug and shows exactly the published
    events that pass its test, in chronological order, numbered 1, 2, 3,
    ...: none is dropped by the lookup of its event. *)
Theorem snapshot_timelines_read_back :
  forall (normalizeNFKD : string -> string) (payload : SeedPayload) (now nowT : string)
         (c : connection) (t : DemoTimelineRecord),
    let ds := buildDataset normalizeNFKD payload now nowT in
    In t (timelines ds) ->
    exists d,
      getTimelineBySlug (demo_env c) ds (tl_slug t) = Returned (Some d)
      /\ td_timeline d = t
      /\ List.map tev_id (td_events d)
         = List.map evt_id (filter (timeline_test (tl_slug t)) (chronological (events ds)))
      /\ List.map tev_sequence_no (td_events d)
         = List.map Z.of_nat (seq 1 (List.length (td_events d))).
Proof.
  intros nf payload now nowT c t ds Hin.
  destruct (timelines_buildDataset nf payload now nowT) as [Et Ee]. fold ds in Et, Ee.
  rewrite Et in Hin.
  unfold getTimelineBySlug, demo_env. cbn [DATABASE_URL hasDatabaseConfig negb].
  unfold getTimelineBySlugFromDemo. rewrite Et, (find_own_slug _ _ t Hin).
  eexists. split; [reflexivity|]. cbn [td_timeline td_events]. split; [reflexivity|].
  change (filter (fun entry => String.eqb (te_timeline_id entry) (tl_id t))
                 (timelineEvents ds))
    with (timeline_members (timelineEvents ds) (tl_id t)).
  rewrite Ee, (timeline_members_built _ _ t Hin).
  rewrite (sort_of_ordered _ _ (push_members_ordered t _ 0)).
  set (members := filter (timeline_test (tl_slug t)) (chronological (events ds))).
  destruct (lookups_found ds (push_members t members 0)) as [H1 H2].
  { apply Forall_forall. intros entry He.
    apply (in_map te_event_id) in He. rewrite push_members_events in He.
    apply in_map_iff in He as (e & Hid & He). exists e.
    apply filter_In in He as [He _]. apply sort_In in He. apply filter_In in He as [He Hp].
    auto. }
  cbv zeta in H1, H2. rewrite H1, H2. split.
  - apply push_members_events.
  - rewrite push_members_sequence. rewrite <- (length_map tev_id), H1, length_map.
    rewrite push_members_length. reflexivity.
Qed.

Lemma snapshot_timelines_read_back_witness :
  let t := mkTimeline "global-financial-turning-points" "Global Financial Turning Points"
             "Major events that reshaped financial markets and policy regimes."
             "2024-01-01T00:00:00.000Z" in
  In t (timelines snapshot_same_day)
  /\ exists d,
       getTimelineBySlug (demo_env (Up snapshot_same_day)) snapshot_same_day (tl_slug t)
       = Returned (Some d)
       /\ td_timeline d = t.
Proof.
  intros t. split; [left; reflexivity|].
  destruct (snapshot_timelines_read_back (fun s => s) seed_same_day
              "2024-01-01T00:00:00.000Z" "2024-01-01T00:00:00.000Z"
              (Up snapshot_same_day) t) as (d & Q & E & _).
  { left. reflexivity. }
  exists d. split; [exact Q|exact E].
Defined.

End SnapshotReadProperties.

Module StreamFacts.
Import Js DemoStore LiveStore Events Props SnapshotFacts EventStream Notions.

Lemma serial_year (year month : Z) :
  1 <= month <= 12 -> (year * 12 + (month - 1)) / 12 = year.
Proof.
  intros H. replace (year * 12 + (month - 1)) with ((month - 1) + year * 12) by lia.
  rewrite Z.div_add by lia. rewrite Z.div_small by lia. lia.
Qed.

Lemma serial_month (year month : Z) :
  0 <= year -> 1 <= month <= 12 -> Z.rem (year * 12 + (month - 1)) 12 + 1 = month.
Proof.
  intros Hy H. rewrite Z.rem_mod_nonneg by lia.
  replace (year * 12 + (month - 1)) with ((month - 1) + year * 12) by lia.
  rewrite Z.mod_add by lia. rewrite Z.mod_small by lia. lia.
Qed.

Lemma toMonthSerial_some (date : string) (serial : Z) :
  toMonthSerial date = Some serial ->
  exists year month,
    parseInt (slice date 0 4) = Some year /\ parseInt (slice date 5 7) = Some month
    /\ 1 <= month <= 12 /\ serial = year * 12 + (month - 1).
Proof.
  unfold toMonthSerial.
  destruct (parseInt (slice date 0 4)) as [year|]; [|discriminate].
  destruct (parseInt (slice date 5 7)) as [month|]; [|discriminate].
  destruct (month <? 1) eqn:E1; [discriminate|].
  destruct (12 <? month) eqn:E2; [discriminate|].
  cbn [orb]. intros [= <-]. exists year, month.
  apply Z.ltb_ge in E1, E2. repeat split; lia.
Qed.

Lemma min_of_spec (rest : list Z) (first : Z) :
  In (min_of first rest) (first :: rest)
  /\ forall x, In x (first :: rest) -> min_of first rest <= x.
Proof.
  unfold min_of. revert first. induction rest as [|y rest IH]; intros first; cbn [fold_left].
  - split; [left; reflexivity|]. intros x [<-|[]]. lia.
  - destruct (IH (Z.min first y)) as [Hin Hle]. split.
    + destruct Hin as [Hin|Hin]; [|right; right; exact Hin].
      rewrite <- Hin. destruct (Z.min_spec first y) as [[_ ->]|[_ ->]]; cbn; auto.
    + intros x [<-|[<-|Hx]].
      * specialize (Hle (Z.min first y) (or_introl eq_refl)). lia.
      * specialize (Hle (Z.min first y) (or_introl eq_refl)). lia.
      * apply Hle. right. exact Hx.
Qed.

Lemma max_of_spec (rest : list Z) (first : Z) :
  In (max_of first rest) (first :: rest)
  /\ forall x, In x (first :: rest) -> x <= max_of first rest.
Proof.
  unfold max_of. revert first. induction rest as [|y rest IH]; intros first; cbn [fold_left].
  - split; [left; reflexivity|]. intros x [<-|[]]. lia.
  - destruct (IH (Z.max first y)) as [Hin Hle]. split.
    + destruct Hin as [Hin|Hin]; [|right; right; exact Hin].
      rewrite <- Hin. destruct (Z.max_spec first y) as [[_ ->]|[_ ->]]; cbn; auto.
    + intros x [<-|[<-|Hx]].
      * specialize (Hle (Z.max first y) (or_introl eq_refl)). lia.
      * specialize (Hle (Z.max first y) (or_introl eq_refl)). lia.
      * apply Hle. right. exact Hx.
Qed.

Lemma window_serials (startSerial span : Z) :
  List.map mc_serial (buildMonthWindow startSerial span)
  = List.map (fun k => startSerial + Z.of_nat k) (seq 0 (Z.to_nat span)).
Proof.
  unfold buildMonthWindow. rewrite map_map. apply map_ext. intros k.
  destruct (fromMonthSerial (startSerial + Z.of_nat k)). reflexivity.
Qed.

Lemma window_cell (startSerial span : Z) (cell : MonthCell) :
  In cell (buildMonthWindow startSerial span) ->
  startSerial <= mc_serial cell < startSerial + Z.max span 0
  /\ (mc_year cell, mc_month cell) = fromMonthSerial (mc_serial cell).
Proof.
  unfold buildMonthWindow. rewrite in_map_iff. intros (k & <- & Hk).
  apply in_seq in Hk.
  destruct (fromMonthSerial (startSerial + Z.of_nat k)) eqn:E. cbn [mc_serial mc_year mc_month].
  split; [lia | symmetry; exact E].
Qed.

Lemma in_window (first last_ s : Z) :
  first <= s <= last_ ->
  In s (List.map (fun k => first + Z.of_nat k) (seq 0 (Z.to_nat (last_ - first + 1)))).
Proof.
  intros H. apply in_map_iff. exists (Z.to_nat (s - first)). split; [lia|].
  apply in_seq. lia.
Qed.

Lemma serial_of_event (events : list EventListItem) (s : Z) :
  In s (keep_some (List.map (fun entry => toMonthSerial (item_event_date entry)) events))
  <-> exists e, In e events /\ toMonthSerial (item_event_date e) = Some s.
Proof.
  rewrite keep_some_In, in_map_iff. split; intros (e & H1 & H2); exists e; auto.
Qed.

(** *** The lanes *)

Lemma first_lane_bounds (edges : list Z) (leftPx : Z) (k : nat) :
  (k <= first_lane edges leftPx k <= k + List.length edges)%nat.
Proof.
  revert k. induction edges as [|e edges IH]; intros k; cbn [first_lane List.length]; [lia|].
  destruct (leftPx - e <? 12); [specialize (IH (S k))|]; lia.
Qed.

Lemma first_lane_free (edges : list Z) (leftPx : Z) (k : nat) :
  (first_lane edges leftPx k < k + List.length edges)%nat ->
  nth (first_lane edges leftPx k - k) edges 0 + 12 <= leftPx.
Proof.
  revert k. induction edges as [|e edges IH]; intros k; cbn [first_lane List.length]; [lia|].
  destruct (leftPx - e <? 12) eqn:E.
  - intros H. pose proof (first_lane_bounds edges leftPx (S k)).
    replace (first_lane edges leftPx (S k) - k)%nat
      with (S (first_lane edges leftPx (S k) - S k)) by lia.
    cbn [nth]. apply IH. lia.
  - intros _. replace (k - k)%nat with O by lia. cbn [nth]. apply Z.ltb_ge in E. lia.
Qed.

Lemma set_edge_length (edges : list Z) (lane : nat) (v : Z) :
  (lane <= List.length edges)%nat ->
  List.length (set_edge edges lane v) = Nat.max (List.length edges) (S lane).
Proof.
  revert lane. induction edges as [|e edges IH]; intros lane H; cbn [set_edge List.length] in *.
  - replace lane with O by lia. reflexivity.
  - destruct lane as [|lane]; cbn [List.length]; [lia|]. rewrite IH by lia. lia.
Qed.

Lemma set_edge_same (edges : list Z) (lane : nat) (v : Z) :
  (lane <= List.length edges)%nat -> nth lane (set_edge edges lane v) 0 = v.
Proof.
  revert lane. induction edges as [|e edges IH]; intros lane H; cbn [set_edge List.length] in *.
  - replace lane with O by lia. reflexivity.
  - destruct lane as [|lane]; cbn [nth]; [reflexivity|]. apply IH. lia.
Qed.

Lemma set_edge_other (edges : list Z) (lane i : nat) (v : Z) :
  i <> lane -> (i < List.length edges)%nat -> nth i (set_edge edges lane v) 0 = nth i edges 0.
Proof.
  revert lane i. induction edges as [|e edges IH]; intros lane i Hne Hi;
    cbn [set_edge List.length] in *; [lia|].
  destruct lane as [|lane]; destruct i as [|i]; cbn [nth]; try reflexivity; try congruence.
  apply IH; [congruence|lia].
Qed.

Lemma ordpairs_snoc {A} (R : A -> A -> Prop) (l : list A) (x : A) :
  ForallOrdPairs R l -> Forall (fun a => R a x) l -> ForallOrdPairs R (l ++ [x]).
Proof.
  induction 1 as [|a l Ha Hl IH]; intros Hx; cbn [app].
  - constructor; constructor.
  - inversion Hx; subst. constructor; [|apply IH; assumption].
    apply Forall_app. split; [assumption|]. constructor; [assumption|constructor].
Qed.

Lemma place_era_ok (rangeStart rangeEnd : Z) (st : list Z * list PositionedEra) (era : EraDef) :
  lanes_ok st -> lanes_ok (place_era rangeStart rangeEnd st era).
Proof.
  intros [Hall Hpairs]. unfold place_era.
  destruct (toMonthSerial (era_start era)) as [eraStart|]; [|split; assumption].
  destruct (toMonthSerial (era_end era)) as [eraEnd|]; [|split; assumption].
  destruct (Z.min eraEnd rangeEnd <? Z.max eraStart rangeStart); [split; assumption|].
  destruct st as [edges positioned]. cbn [fst snd] in *.
  set (leftPx := AXIS_SIDE_PADDING_PX + (Z.max eraStart rangeStart - rangeStart) * MONTH_WIDTH_PX + 2).
  set (widthPx := Z.max 88 ((Z.min eraEnd rangeEnd - Z.max eraStart rangeStart + 1)
                            * MONTH_WIDTH_PX - 4)).
  set (lane := first_lane edges leftPx 0).
  pose proof (first_lane_bounds edges leftPx 0) as Hb. fold lane in Hb.
  pose proof (first_lane_free edges leftPx 0) as Hfree. fold lane in Hfree.
  replace (lane - 0)%nat with lane in Hfree by lia.
  assert (Hw : 88 <= widthPx) by (unfold widthPx; lia).
  assert (Hlen : List.length (set_edge edges lane (leftPx + widthPx))
                 = Nat.max (List.length edges) (S lane)) by (apply set_edge_length; lia).
  split; cbn [fst snd].
  - apply Forall_app. split.
    + rewrite Forall_forall in Hall |- *. intros a Ha.
      destruct (Hall a Ha) as (H1 & H2 & H3). split; [lia|]. split; [|exact H3].
      destruct (Nat.eq_dec (pe_lane a) lane) as [E|E].
      * rewrite E, set_edge_same by lia. rewrite E in H1, H2.
        specialize (Hfree ltac:(lia)). lia.
      * rewrite set_edge_other by assumption. exact H2.
    + constructor; [|constructor]. cbn [pe_lane pe_leftPx pe_widthPx].
      split; [lia|]. split; [|exact Hw]. rewrite set_edge_same by lia. lia.
  - apply ordpairs_snoc; [exact Hpairs|].
    rewrite Forall_forall in Hall |- *. intros a Ha.
    destruct (Hall a Ha) as (H1 & H2 & H3).
    unfold apart. cbn [pe_lane pe_leftPx pe_widthPx]. intros E.
    rewrite E in H1, H2. specialize (Hfree ltac:(lia)). lia.
Qed.

Lemma place_eras_ok (rangeStart rangeEnd : Z) (eras : list EraDef)
    (st : list Z * list PositionedEra) :
  lanes_ok st -> lanes_ok (fold_left (place_era rangeStart rangeEnd) eras st).
Proof.
  revert st. induction eras as [|era eras IH]; intros st H; cbn [fold_left]; [exact H|].
  apply IH, place_era_ok, H.
Qed.

Lemma layoutEraBands_ok (months : list MonthCell) :
  ForallOrdPairs apart (fst (layoutEraBands months))
  /\ Forall (fun a => (pe_lane a < snd (layoutEraBands months))%nat /\ 88 <= pe_widthPx a)
            (fst (layoutEraBands months)).
Proof.
  unfold layoutEraBands. destruct months as [|first rest].
  - split; constructor.
  - cbv zeta. cbn [fst snd].
    destruct (place_eras_ok (mc_serial first) (mc_serial (last (first :: rest) first))
                ERA_BACKGROUND_BANDS ([], [])) as [Hall Hpairs].
    { split; constructor. }
    split; [exact Hpairs|].
    eapply Forall_impl; [|exact Hall]. cbv beta. intros a (H1 & _ & H3). split; assumption.
Qed.

(** *** Lengths of strings *)

Lemma take_length (s : string) (n : nat) : (String.length (take s n) <= n)%nat.
Proof.
  revert s. induction n as [|n IH]; intros [|c s]; cbn [take String.length]; try lia.
  specialize (IH s). lia.
Qed.

Lemma trimEnd_length (s : string) : (String.length (trimEnd s) <= String.length s)%nat.
Proof.
  induction s as [|c s IH]; cbn [trimEnd String.length]; [lia|].
  destruct (trimEnd s) as [|d t]; cbn [String.length] in *.
  - destruct (is_space c); cbn [String.length]; lia.
  - lia.
Qed.

Lemma append_length (a b : string) :
  String.length (a ++ b) = (String.length a + String.length b)%nat.
Proof. induction a as [|c a IH]; cbn [append String.length plus]; [reflexivity|]. now rewrite IH. Qed.

End StreamFacts.

Module StreamProperties.
Import Js DemoStore LiveStore Events Props SnapshotFacts EventStream Notions StreamFacts.

(** X19. A date whose first four characters read as a year that is not
    negative and whose characters six and seven read as a month from 1 to 12
    has a month serial, and [fromMonthSerial] gives that year and that month
    back. *)
Theorem month_serial_round_trip :
  forall (date : string) (year month : Z),
    parseInt (slice date 0 4) = Some year ->
    parseInt (slice date 5 7) = Some month ->
    0 <= year -> 1 <= month <= 12 ->
    exists serial,
      toMonthSerial date = Some serial /\ fromMonthSerial serial = (year, month).
Proof.
  intros date year month Hy Hm Hyear Hmonth.
  exists (year * 12 + (month - 1)). unfold toMonthSerial. rewrite Hy, Hm.
  replace (month <? 1) with false by (symmetry; apply Z.ltb_ge; lia).
  replace (12 <? month) with false by (symmetry; apply Z.ltb_ge; lia).
  split; [reflexivity|]. unfold fromMonthSerial.
  rewrite serial_year, serial_month by lia. reflexivity.
Qed.

Lemma month_serial_round_trip_witness :
  exists serial,
    toMonthSerial "2008-09-15" = Some serial /\ fromMonthSerial serial = (2008, 9).
Proof.
  apply (month_serial_round_trip "2008-09-15" 2008 9); [reflexivity | reflexivity | lia | lia].
Defined.

(** X20. The month axis of the event stream runs from the month of the
    earliest event to the month of the latest one, a cell per month and no
    gap, so every event that has a month serial has its cell; each cell
    carries the year and month of its serial.  There is no axis exactly
    when no event has a month serial. *)
Theorem month_axis_spans_events :
  forall (events : list EventListItem),
    (buildMonthSpan events = None
     <-> forall e, In e events -> toMonthSerial (item_event_date e) = None)
    /\ forall months, buildMonthSpan events = Some months ->
       exists first last_ : Z,
         List.map mc_serial months
         = List.map (fun k => first + Z.of_nat k) (seq 0 (Z.to_nat (last_ - first + 1)))
         /\ first <= last_
         /\ (exists e, In e events /\ toMonthSerial (item_event_date e) = Some first)
         /\ (exists e, In e events /\ toMonthSerial (item_event_date e) = Some last_)
         /\ (forall e s, In e events -> toMonthSerial (item_event_date e) = Some s ->
               In s (List.map mc_serial months))
         /\ (forall cell, In cell months ->
               (mc_year cell, mc_month cell) = fromMonthSerial (mc_serial cell)).
Proof.
  intros events. unfold buildMonthSpan.
  pose proof (serial_of_event events) as Hser.
  destruct (keep_some (List.map (fun entry => toMonthSerial (item_event_date entry)) events))
    as [|first rest] eqn:E.
  - split.
    + split; [|reflexivity]. intros _ e He.
      destruct (toMonthSerial (item_event_date e)) as [s|] eqn:Es; [|reflexivity].
      destruct (proj2 (Hser s)) as []. exists e. auto.
    + discriminate.
  - split.
    + split; [discriminate|]. intros H.
      destruct (proj1 (Hser first) (or_introl eq_refl)) as (e & He & Hs).
      rewrite (H e He) in Hs. discriminate.
    + intros months [= <-].
      destruct (min_of_spec rest first) as [Hmin_in Hmin].
      destruct (max_of_spec rest first) as [Hmax_in Hmax].
      exists (min_of first rest), (max_of first rest).
      assert (Hle : min_of first rest <= max_of first rest).
      { specialize (Hmin first (or_introl eq_refl)).
        specialize (Hmax first (or_introl eq_refl)). lia. }
      split; [apply window_serials|]. split; [exact Hle|].
      split; [apply Hser, Hmin_in|]. split; [apply Hser, Hmax_in|]. split.
      * intros e s He Hs. rewrite window_serials. apply in_window.
        assert (Hin : In s (first :: rest)) by (apply Hser; exists e; auto).
        split; [apply Hmin, Hin | apply Hmax, Hin].
      * intros cell Hcell. apply window_cell in Hcell. apply Hcell.
Qed.

Lemma month_axis_spans_events_witness :
  exists first last_ : Z,
    List.map mc_serial (buildMonthWindow 24102 3)
    = List.map (fun k => first + Z.of_nat k) (seq 0 (Z.to_nat (last_ - first + 1)))
    /\ first <= last_
    /\ (exists e, In e [item_on "2008-09-15"; item_on "2008-07-11"; item_on "soon"]
                  /\ toMonthSerial (item_event_date e) = Some first)
    /\ (exists e, In e [item_on "2008-09-15"; item_on "2008-07-11"; item_on "soon"]
                  /\ toMonthSerial (item_event_date e) = Some last_)
    /\ (forall e s, In e [item_on "2008-09-15"; item_on "2008-07-11"; item_on "soon"] ->
          toMonthSerial (item_event_date e) = Some s ->
          In s (List.map mc_serial (buildMonthWindow 24102 3)))
    /\ (forall cell, In cell (buildMonthWindow 24102 3) ->
          (mc_year cell, mc_month cell) = fromMonthSerial (mc_serial cell)).
Proof.
  apply (proj2 (month_axis_spans_events
                  [item_on "2008-09-15"; item_on "2008-07-11"; item_on "soon"])).
  reflexivity.
Defined.

(** X21. Whatever the months of the axis, the era bands that
    [layoutEraBands] places on one lane do not touch: a band starts at least
    twelve pixels after the end of every earlier band of its lane.  Each
    band is at least 88 pixels wide and lies on one of the [laneCount]
    lanes. *)
Theorem era_bands_do_not_overlap :
  forall (months : list MonthCell),
    ForallOrdPairs apart (fst (layoutEraBands months))
    /\ Forall (fun a => (pe_lane a < snd (layoutEraBands months))%nat /\ 88 <= pe_widthPx a)
              (fst (layoutEraBands months)).
Proof. exact layoutEraBands_ok. Qed.

(** X22. The title that [shortTitle] puts on a chip has 64 characters at
    most, whatever the title of the event. *)
Theorem chip_titles_fit :
  forall (input : string),
    Z.of_nat (String.length (shortTitle input)) <= CHIP_TITLE_MAX_CHARS.
Proof.
  intros input. unfold shortTitle. cbv zeta.
  destruct (Z.of_nat (String.length (trim (collapse_spaces input false)))
            <=? CHIP_TITLE_MAX_CHARS) eqn:E.
  - apply Z.leb_le. exact E.
  - rewrite append_length.
    pose proof (trimEnd_length (slice (trim (collapse_spaces input false)) 0
                                      (Z.to_nat (CHIP_TITLE_MAX_CHARS - 3)))) as H1.
    unfold slice in *.
    pose proof (take_length (slice_from (trim (collapse_spaces input false)) 0)
                            (Z.to_nat (CHIP_TITLE_MAX_CHARS - 3) - 0)) as H2.
    unfold CHIP_TITLE_MAX_CHARS in *. cbn [String.length] in *. lia.
Qed.

End StreamProperties.

Module GroupFacts.
Import Js DemoStore Events Timelines Props JsFacts TimelinePage Notions MergeFacts.

Lemma map_set_twice {V} (m : Map V) (k : string) (v v' : V) :
  map_set (map_set m k v) k v' = map_set m k v'.
Proof.
  induction m as [|[k0 v0] m IH]; cbn [map_set].
  - rewrite String.eqb_refl. reflexivity.
  - destruct (String.eqb k0 k) eqn:E; cbn [map_set].
    + rewrite String.eqb_refl. reflexivity.
    + rewrite E, IH. reflexivity.
Qed.

Lemma group_step_set (m : Map (list TimelineEventItem)) (event : TimelineEventItem) :
  group_step m event = map_set m (month_of event) (bucket m (month_of event) ++ [event])%list.
Proof.
  unfold group_step, bucket, map_has, month_of. cbv zeta.
  destruct (map_get m (toMonthKey (tev_event_date event))) as [b|] eqn:G; cbn [negb].
  - rewrite G. reflexivity.
  - rewrite map_get_set, String.eqb_refl. apply map_set_twice.
Qed.

Lemma fold_group_step (events : list TimelineEventItem) (m : Map (list TimelineEventItem)) :
  fold_left group_step events m
  = fold_left (fun m x => map_set m (month_of x) (bucket m (month_of x) ++ [x])%list) events m.
Proof.
  revert m. induction events as [|e events IH]; intros m; cbn [fold_left]; [reflexivity|].
  rewrite group_step_set. apply IH.
Qed.

Lemma fold_group_bucket (events : list TimelineEventItem) (m : Map (list TimelineEventItem))
    (k : string) :
  bucket (fold_left group_step events m) k = (bucket m k ++ filter (in_month k) events)%list.
Proof.
  revert m. induction events as [|e events IH]; intros m; cbn [fold_left filter].
  - rewrite app_nil_r. reflexivity.
  - rewrite IH, group_step_set. unfold bucket at 1. rewrite map_get_set.
    unfold in_month at 2. destruct (String.eqb (month_of e) k) eqn:E.
    + apply String.eqb_eq in E. subst k. rewrite <- app_assoc. reflexivity.
    + reflexivity.
Qed.

Lemma groups_shape (events : list TimelineEventItem) :
  let grouped := fold_left group_step events [] in
  map_keys grouped = distinct (List.map month_of events) []
  /\ Forall (fun entry => snd entry = filter (in_month (fst entry)) events /\ snd entry <> [])
            grouped.
Proof.
  cbv zeta.
  assert (Hkeys : map_keys (fold_left group_step events [])
                  = distinct (List.map month_of events) []).
  { rewrite fold_group_step, fold_set_keys. reflexivity. }
  split; [exact Hkeys|].
  destruct (distinct_NoDup (List.map month_of events) []) as [Hnd Hin].
  rewrite <- Hkeys in Hnd, Hin.
  apply Forall_forall. intros [k b] Hentry. cbn [fst snd].
  pose proof (map_get_of_entry _ k b Hnd Hentry) as G.
  pose proof (fold_group_bucket events [] k) as Hb.
  unfold bucket at 1 in Hb. rewrite G in Hb. cbn in Hb. split; [exact Hb|].
  assert (Hk : In k (List.map month_of events)).
  { apply Hin. unfold map_keys. apply in_map_iff. exists (k, b). auto. }
  apply in_map_iff in Hk. destruct Hk as (e & He & Hine).
  assert (Hf : In e (filter (in_month k) events)).
  { apply filter_In. split; [exact Hine|]. unfold in_month. rewrite He. apply String.eqb_refl. }
  rewrite Hb. intros Hnil. rewrite Hnil in Hf. destruct Hf.
Qed.

(** *** The order of [sort()] on strings *)

Lemma by_code_units_total : total_cmp by_code_units.
Proof.
  intros a b. destruct (localeCompare_total_desc (fun s : string => s) b a) as [H|H];
    [left|right]; exact H.
Qed.

Lemma by_code_units_refl (a : string) : by_code_units a a <= 0.
Proof. destruct (by_code_units_total a a) as [H|H]; exact H. Qed.

Lemma by_code_units_transitive : transitive_cmp by_code_units.
Proof.
  intros a b c H1 H2.
  exact (localeCompare_trans_desc (fun s : string => s) c b a H2 H1).
Qed.

Lemma by_code_units_leb (a b : string) : by_code_units a b <= 0 <-> str_le a b = true.
Proof.
  unfold by_code_units, str_le, String.leb.
  destruct (String.compare a b); split; intros; try lia; try reflexivity; discriminate.
Qed.

Lemma strongly_sorted_last {A} (R : A -> A -> Prop) (l : list A) (d : A) :
  StronglySorted R l -> forall x, In x l -> x = last l d \/ R x (last l d).
Proof.
  induction 1 as [|a l Hs IH Hf]; intros x Hx; [destruct Hx|].
  destruct l as [|b l]; [destruct Hx as [<-|[]]; left; reflexivity|].
  change (last (a :: b :: l) d) with (last (b :: l) d).
  destruct Hx as [<-|Hx].
  - right. rewrite Forall_forall in Hf. apply Hf.
    destruct (exists_last (l := b :: l)) as (l' & z & E); [discriminate|].
    rewrite E, last_last. apply in_or_app. right. left. reflexivity.
  - apply IH. exact Hx.
Qed.

End GroupFacts.

Module TimelinePageProperties.
Import Js DemoStore Events Timelines Props JsFacts TimelinePage Notions MergeFacts GroupFacts.

(** X23. The page of a timeline shows its events by month: the groups are
    the months of the events in the order in which they first appear, each
    group holds exactly the events of its month in the order of the
    timeline, and no group is empty. *)
Theorem months_partition_timeline :
  forall (toMonthLabel : string -> string) (events : list TimelineEventItem),
    let groups := groupTimelineEventsByMonth toMonthLabel events in
    List.map g_key groups = distinct (List.map month_of events) []
    /\ Forall (fun g => g_events g = filter (in_month (g_key g)) events /\ g_events g <> [])
              groups.
Proof.
  intros toMonthLabel events. cbv zeta. unfold groupTimelineEventsByMonth.
  destruct (groups_shape events) as [Hkeys Hall]. cbv zeta in Hkeys, Hall. split.
  - rewrite map_map. cbn [g_key]. exact Hkeys.
  - apply Forall_map. eapply Forall_impl; [|exact Hall]. cbv beta. cbn [g_key g_events]. auto.
Qed.

(** X24. The range of dates shown for a timeline runs from the earliest date
    of its events to the latest, in the order of the code units; it is empty
    exactly when the timeline has no event. *)
Theorem date_range_bounds :
  forall (events : list TimelineEventItem),
    match getDateRange events with
    | (Some from, Some to) =>
        In from (List.map tev_event_date events) /\ In to (List.map tev_event_date events)
        /\ forall d, In d (List.map tev_event_date events) ->
                     str_le from d = true /\ str_le d to = true
    | (None, None) => events = []
    | _ => False
    end.
Proof.
  intros events. unfold getDateRange, sort_strings. fold by_code_units.
  pose proof (sort_In by_code_units (List.map tev_event_date events)) as Hin.
  pose proof (sort_ordered by_code_units (List.map tev_event_date events) by_code_units_total)
    as Hord.
  apply (ordered_strongly _ _ by_code_units_transitive) in Hord.
  destruct (sort by_code_units (List.map tev_event_date events)) as [|first rest] eqn:E.
  - destruct events as [|e events]; [reflexivity|].
    destruct (proj2 (Hin (tev_event_date e))). left. reflexivity.
  - split; [apply Hin; left; reflexivity|]. split.
    + apply Hin. destruct (exists_last (l := first :: rest)) as (l' & z & El); [discriminate|].
      rewrite El, last_last. apply in_or_app. right. left. reflexivity.
    + intros d Hd. apply Hin in Hd. split.
      * inversion Hord as [|? ? _ Hf]; subst. destruct Hd as [<-|Hd].
        -- apply (proj1 (by_code_units_leb _ _)). apply by_code_units_refl.
        -- rewrite Forall_forall in Hf. apply (proj1 (by_code_units_leb _ _)), Hf, Hd.
      * destruct (strongly_sorted_last _ _ first Hord d Hd) as [<-|H].
        -- apply (proj1 (by_code_units_leb _ _)). apply by_code_units_refl.
        -- apply (proj1 (by_code_units_leb _ _)), H.
Qed.

End TimelinePageProperties.

Module CoverageFacts.
Import Js Events ImportSeed Props JsFacts SeedCoverage Notions MergeFacts.

Lemma count_of_cons {A} (p : A -> bool) (x : A) (l : list A) :
  count_of p (x :: l) = (if p x then 1 else 0) + count_of p l.
Proof.
  unfold count_of. cbn [filter]. destruct (p x); cbn [List.length]; lia.
Qed.

Lemma count_of_positive {A} (p : A -> bool) (l : list A) :
  count_of p l <> 0 <-> exists x, In x l /\ p x = true.
Proof.
  unfold count_of. split.
  - destruct (filter p l) as [|x r] eqn:E; [cbn; lia|]. intros _.
    exists x. apply filter_In. rewrite E. left. reflexivity.
  - intros (x & Hx). apply filter_In in Hx.
    destruct (filter p l); [destruct Hx|]. cbn [List.length]. lia.
Qed.

Lemma filter_none {A} (p : A -> bool) (l : list A) :
  filter p l = [] <-> forall x, In x l -> p x = false.
Proof.
  induction l as [|a l IH]; cbn [filter].
  - split; [intros _ x []|reflexivity].
  - destruct (p a) eqn:E.
    + split; [discriminate|]. intros H. rewrite (H a (or_introl eq_refl)) in E. discriminate.
    + rewrite IH. split.
      * intros H x [<-|Hx]; auto.
      * intros H x Hx. apply H. right. exact Hx.
Qed.

Lemma sum_set (m : Map Z) (k : string) (n v : Z) :
  map_get m k = Some n -> sum_of (map_values (map_set m k v)) = sum_of (map_values m) - n + v.
Proof.
  unfold map_values. induction m as [|[k0 v0] m IH]; cbn [map_get map_set]; [discriminate|].
  destruct (String.eqb k0 k).
  - intros [= ->]. cbn [List.map snd sum_of fold_right]. lia.
  - intros G. cbn [List.map snd sum_of fold_right]. unfold sum_of in IH. rewrite (IH G). lia.
Qed.

Lemma counts_for_counted (year : Z) (statusFilter month : string) (event : json) :
  In month MONTHS ->
  counts_for year statusFilter month event
  = match counted year statusFilter event with
    | Some m => String.eqb m month
    | None => false
    end.
Proof.
  intros Hm. unfold counts_for, counted, isValidDateString.
  destruct (String.eqb statusFilter ""); destruct (String.eqb (status_of event) statusFilter);
    cbn [negb andb orb]; try reflexivity;
    (destruct (get_field event "event_date") as [[| | |date| |]|]; try reflexivity;
     destruct (isValidDate date); cbn [andb]; [|reflexivity];
     destruct (startsWith date (number_to_string year ++ "-")); cbn [andb]; [|reflexivity];
     destruct (existsb (String.eqb (slice date 5 7)) MONTHS) eqn:Ex; [reflexivity|];
     destruct (String.eqb (slice date 5 7) month) eqn:E; [|reflexivity];
     apply String.eqb_eq in E; rewrite E in Ex;
     apply (proj2 (existsb_eqb_In month MONTHS)) in Hm; congruence).
Qed.

Lemma count_event_counted (year : Z) (statusFilter : string) (st : counts) (event : json) :
  map_keys (monthCounts st) = MONTHS ->
  match counted year statusFilter event with
  | Some m =>
      exists n, map_get (monthCounts st) m = Some n
      /\ monthCounts (count_event year statusFilter st event)
         = map_set (monthCounts st) m (n + 1)
      /\ matchedEvents (count_event year statusFilter st event) = matchedEvents st + 1
  | None =>
      monthCounts (count_event year statusFilter st event) = monthCounts st
      /\ matchedEvents (count_event year statusFilter st event) = matchedEvents st
  end.
Proof.
  intros Hkeys. unfold counted, count_event. fold (status_of event). cbv zeta.
  destruct (negb (String.eqb statusFilter "")
            && negb (String.eqb (status_of event) statusFilter)); [split; reflexivity|].
  destruct (get_field event "event_date") as [[| | |date| |]|]; try (split; reflexivity).
  destruct (isValidDateString date); cbn [negb andb]; [|split; reflexivity].
  destruct (startsWith date (number_to_string year ++ "-")); cbn [negb andb];
    [|split; reflexivity].
  destruct (existsb (String.eqb (slice date 5 7)) MONTHS) eqn:Ex.
  - apply existsb_eqb_In in Ex. rewrite <- Hkeys in Ex.
    apply map_get_in_keys in Ex. unfold map_has.
    destruct (map_get (monthCounts st) (slice date 5 7)) as [n|] eqn:G; [|congruence].
    cbn [negb]. exists n. cbn [monthCounts matchedEvents]. auto.
  - assert (G : map_get (monthCounts st) (slice date 5 7) = None).
    { destruct (map_get (monthCounts st) (slice date 5 7)) eqn:G; [|reflexivity].
      assert (Hin : In (slice date 5 7) (map_keys (monthCounts st)))
        by (apply map_get_in_keys; congruence).
      rewrite Hkeys in Hin. apply existsb_eqb_In in Hin. congruence. }
    unfold map_has. rewrite G. cbn [negb]. split; reflexivity.
Qed.

Lemma fold_count_event (year : Z) (statusFilter : string) (events : list json) (st : counts) :
  map_keys (monthCounts st) = MONTHS ->
  matchedEvents st = sum_of (map_values (monthCounts st)) ->
  let c := fold_left (count_event year statusFilter) events st in
  map_keys (monthCounts c) = MONTHS
  /\ matchedEvents c = sum_of (map_values (monthCounts c))
  /\ forall month n, In month MONTHS -> map_get (monthCounts st) month = Some n ->
       map_get (monthCounts c) month
       = Some (n + count_of (counts_for year statusFilter month) events).
Proof.
  revert st. induction events as [|e events IH]; intros st Hkeys Hsum; cbv zeta; cbn [fold_left].
  - split; [exact Hkeys|]. split; [exact Hsum|]. intros month n _ G.
    unfold count_of. cbn. rewrite G. f_equal. lia.
  - pose proof (count_event_counted year statusFilter st e Hkeys) as Hstep.
    destruct (counted year statusFilter e) as [m|] eqn:Ec.
    + destruct Hstep as (n0 & G0 & Hm & Hmatched).
      assert (Hin0 : In m (map_keys (monthCounts st))) by (apply map_get_in_keys; congruence).
      destruct (IH (count_event year statusFilter st e)) as (K & S & C).
      { rewrite Hm. rewrite map_keys_set_in by exact Hin0. exact Hkeys. }
      { rewrite Hmatched, Hm, (sum_set _ _ n0) by exact G0. lia. }
      split; [exact K|]. split; [exact S|]. intros month n Hmonth G.
      rewrite count_of_cons, counts_for_counted, Ec by exact Hmonth.
      destruct (String.eqb m month) eqn:E.
      * apply String.eqb_eq in E. subst month.
        rewrite (C m (n0 + 1) Hmonth).
        -- f_equal. assert (n = n0) by congruence. lia.
        -- rewrite Hm, map_get_set, String.eqb_refl. reflexivity.
      * rewrite (C month n Hmonth); [f_equal; lia|].
        rewrite Hm, map_get_set, E. exact G.
    + destruct Hstep as [Hm Hmatched].
      destruct (IH (count_event year statusFilter st e)) as (K & S & C).
      { rewrite Hm. exact Hkeys. }
      { rewrite Hmatched, Hm. exact Hsum. }
      split; [exact K|]. split; [exact S|]. intros month n Hmonth G.
      rewrite count_of_cons, counts_for_counted, Ec by exact Hmonth.
      rewrite (C month n Hmonth); [f_equal; lia|]. rewrite Hm. exact G.
Qed.

Lemma initial_counts (month : string) :
  In month MONTHS -> map_get (List.map (fun month => (month, 0)) MONTHS) month = Some 0.
Proof.
  intros H. cbn in H. repeat (destruct H as [<-|H]; [reflexivity|]). destruct H.
Qed.

Lemma getMonthCounts_shape (events : list json) (year : Z) (statusFilter : string) :
  let c := getMonthCounts events year statusFilter in
  map_keys (monthCounts c) = MONTHS
  /\ matchedEvents c = sum_of (map_values (monthCounts c))
  /\ forall month, In month MONTHS ->
       map_get (monthCounts c) month
       = Some (count_of (counts_for year statusFilter month) events).
Proof.
  cbv zeta. unfold getMonthCounts.
  destruct (fold_count_event year statusFilter events
              {| monthCounts := List.map (fun month => (month, 0)) MONTHS;
                 invalidRows := []; matchedEvents := 0 |}) as (K & S & C);
    [reflexivity | reflexivity |].
  split; [exact K|]. split; [exact S|]. intros month Hmonth.
  rewrite (C month 0 Hmonth); [reflexivity|]. cbn [monthCounts]. apply initial_counts, Hmonth.
Qed.

End CoverageFacts.

Module CoverageProperties.
Import Js Events ImportSeed Props JsFacts SeedCoverage Notions MergeFacts CoverageFacts.

(** X25. The coverage check counts, for each of the twelve months, the
    events of the seed file that have the status asked for and an ISO date
    in that month of the year; the total it prints is the sum of the twelve
    counts; and it reports no missing month exactly when every month of the
    year has such an event. *)
Theorem coverage_counts_every_month :
  forall (events : list json) (year : Z) (statusFilter : string),
    let c := getMonthCounts events year statusFilter in
    map_keys (monthCounts c) = MONTHS
    /\ (forall month, In month MONTHS ->
          map_get (monthCounts c) month
          = Some (count_of (counts_for year statusFilter month) events))
    /\ matchedEvents c = fold_right Z.add 0 (map_values (monthCounts c))
    /\ (missingMonths c = []
        <-> forall month, In month MONTHS ->
              exists event, In event events /\ counts_for year statusFilter month event = true).
Proof.
  intros events year statusFilter. cbv zeta.
  destruct (getMonthCounts_shape events year statusFilter) as (K & S & C). cbv zeta in K, S, C.
  split; [exact K|]. split; [exact C|]. split; [exact S|].
  unfold missingMonths. rewrite filter_none. split.
  - intros H month Hmonth. specialize (H month Hmonth). rewrite (C month Hmonth) in H.
    apply count_of_positive. apply Z.eqb_neq. exact H.
  - intros H month Hmonth. rewrite (C month Hmonth).
    apply Z.eqb_neq. apply count_of_positive. apply H, Hmonth.
Qed.

End CoverageProperties.
